(** * kicad-to-circuit-json: geometric and connectivity passes

    A shallow embedding of the converter stages of the repository
    (schematic symbol collection, source-trace aggregation, net naming,
    graphics, vias, zones and footprint pads) together with the
    properties its specification states about them.

    Conventions of the embedding.
    - A JavaScript [number] that carries a coordinate, an angle or a size
      is a real number: arithmetic is exact, rounding, NaN and the
      infinities are not represented.  The one exception is the sum of
      the normalisation of a rotation ([rotationToDirection] and
      [createPlatedHole]), on which a quadrant is decided: it is
      rounded as binary64 rounds it, to the nearest double, the even
      one of two nearest ([Js.add]); the remainder [%] is exact on
      doubles.  A [number] that is an identifier (a net number) is an
      integer of [Z].
    - [undefined] and [null] are [None]; a value that JavaScript tests
      for truthiness is tested the same way here ([0], the empty string
      and [None] are falsy).
    - A stage is a function on the pair of the shared context and the
      private fields of the stage object; the output store [db] is a
      record of lists, one per element kind, in insertion order.
    - [Map] objects that are only read and written by key are [gmap]s,
      [Set] objects are [gset]s; the one [Map] that is iterated
      ([netToPads]) is an association list in insertion order. *)

From Stdlib Require Import Reals Lra Lia ZArith List Ascii String.
From stdpp Require Import gmap strings list pretty.
Import ListNotations.

Set Warnings "-register-all".

(** ** JavaScript numbers *)

Module Js.
#[local] Open Scope R_scope.

#[global] Instance Rlt_decision (x y : R) : Decision (x < y) := Rlt_dec x y.
#[global] Instance Rle_decision (x y : R) : Decision (x <= y) := Rle_dec x y.
#[global] Instance Req_decision : EqDecision R := Req_dec_T.

(** [x < y], [x >= y], [x > y] as the booleans the source branches on. *)
Definition ltb (x y : R) : bool := bool_decide (x < y).
Definition geb (x y : R) : bool := bool_decide (y <= x).
Definition gtb (x y : R) : bool := bool_decide (y < x).

(** [x || d] on numbers: [0] is the falsy number. *)
Definition or_num (x d : R) : R := if decide (x = 0) then d else x.

(** Truncation toward zero, the integer quotient of [%]. *)
Definition trunc (x : R) : Z :=
  if decide (0 <= x) then Int_part x else (- Int_part (- x))%Z.

(** [x % m]: the remainder has the sign of the dividend. *)
Definition rem (x m : R) : R := x - m * IZR (trunc (x / m)).

(** [Math.sign]. *)
Definition sign (x : R) : R :=
  if decide (0 < x) then 1 else if decide (x < 0) then -1 else 0.

(** [Math.atan2 (y, x)], from the arc tangent of the quotient. *)
Definition atan2 (y x : R) : R :=
  if decide (0 < x) then atan (y / x)
  else if decide (x < 0) then
    (if decide (0 <= y) then atan (y / x) + PI else atan (y / x) - PI)
  else if decide (0 < y) then PI / 2
  else if decide (y < 0) then - (PI / 2)
  else 0.

(** [2^e] for an integer exponent. *)
Definition pow2 (e : Z) : R := powerRZ 2 e.

(** The integer nearest to [t]; of the two nearest of a halfway case,
    the even one. *)
Definition nearestEven (t : R) : Z :=
  let f := Int_part t in
  let d := t - IZR f in
  if decide (d < 1 / 2) then f
  else if decide (1 / 2 < d) then (f + 1)%Z
  else if Z.even f then f else (f + 1)%Z.

(** The exponent of the last place of the doubles around [x]: the least
    [e] from -1074 on with [|x| < 2^(e+53)], and 971 at most. *)
Fixpoint lastPlaceFrom (fuel : nat) (e : Z) (x : R) : Z :=
  match fuel with
  | O => e
  | S fuel' =>
      if decide (Rabs x < pow2 (e + 53)) then e
      else lastPlaceFrom fuel' (e + 1) x
  end.

Definition lastPlace (x : R) : Z := lastPlaceFrom 2045 (-1074) x.

(** The double nearest to [x] (binary64, round to nearest, ties to
    even).  The infinities are not represented: the definition is that
    of the doubles for [|x| < 2^1024]. *)
Definition round64 (x : R) : R :=
  IZR (nearestEven (x / pow2 (lastPlace x))) * pow2 (lastPlace x).

(** [x + y] on doubles: the sum, rounded. *)
Definition add (x y : R) : R := round64 (x + y).

End Js.

(** ** utils/rotationToDirection *)

Inductive Direction := Left | Right | Up | Down.

#[global] Instance Direction_eq_dec : EqDecision Direction.
Proof. solve_decision. Defined.

(** [((rotation % 360) + 360) % 360]; the sum is rounded. *)
Definition normalizeRotation (rotation : R) : R :=
  Js.rem (Js.add (Js.rem rotation 360) 360) 360.

Definition rotationToDirection (rotation : R) : Direction :=
  let normalized := normalizeRotation rotation in
  if Js.geb normalized 315 || Js.ltb normalized 45 then Up
  else if Js.geb normalized 45 && Js.ltb normalized 135 then Right
  else if Js.geb normalized 135 && Js.ltb normalized 225 then Down
  else Left.

(** ** JavaScript strings and optional values *)

Module JsStr.

(** Truthiness of a string: the empty string is falsy. *)
Definition truthy (s : string) : bool := negb (String.eqb s "").

(** Truthiness of a possibly undefined string. *)
Definition truthy_opt (o : option string) : bool :=
  match o with Some s => truthy s | None => false end.

(** [a || b] on possibly undefined strings. *)
Definition or_opt (a b : option string) : option string :=
  if truthy_opt a then a else b.

(** [a || d] with a defined default. *)
Definition or_str (a : option string) (d : string) : string :=
  match a with Some s => if truthy s then s else d | None => d end.

(** [s.startsWith(p)]. *)
Definition startsWith (s p : string) : bool := String.prefix p s.

(** [s.includes(p)]. *)
Fixpoint includes (s p : string) : bool :=
  String.prefix p s ||
  match s with
  | EmptyString => false
  | String _ s' => includes s' p
  end.

Definition lower_ascii (c : ascii) : ascii :=
  let n := nat_of_ascii c in
  if (65 <=? n)%nat && (n <=? 90)%nat then ascii_of_nat (n + 32) else c.

(** [s.toLowerCase()] on the ASCII letters. *)
Fixpoint toLowerCase (s : string) : string :=
  match s with
  | EmptyString => EmptyString
  | String c s' => String (lower_ascii c) (toLowerCase s')
  end.

(** [xs.join(sep)]. *)
Fixpoint join (sep : string) (xs : list string) : string :=
  match xs with
  | [] => ""
  | [x] => x
  | x :: rest => x +:+ sep +:+ join sep rest
  end.

Definition digit_of (c : ascii) : option Z :=
  let n := nat_of_ascii c in
  if (48 <=? n)%nat && (n <=? 57)%nat then Some (Z.of_nat (n - 48)) else None.

Fixpoint digits (acc : option Z) (s : string) : option Z :=
  match s with
  | EmptyString => acc
  | String c s' =>
      match digit_of c with
      | Some d => digits (Some (10 * default 0%Z acc + d)%Z) s'
      | None => acc
      end
  end.

Fixpoint skip_space (s : string) : string :=
  match s with
  | String c s' => if Ascii.is_space c then skip_space s' else s
  | EmptyString => s
  end.

(** [parseInt(s, 10)]: leading blanks, an optional sign, then the longest
    run of decimal digits; [None] is [NaN]. *)
Definition parseInt (s : string) : option Z :=
  match skip_space s with
  | String "-" s' => Z.opp <$> digits None s'
  | String "+" s' => digits None s'
  | s' => digits None s'
  end.

End JsStr.

(** A field that holds one value, an array of values, or nothing; the
    source normalises it with [Array.isArray(v) ? v : [v]] after [v || []]. *)
Inductive OneOrMany (A : Type) :=
  | Absent
  | Single (a : A)
  | Many (l : list A).
Arguments Absent {A}.
Arguments Single {A} a.
Arguments Many {A} l.

Definition to_array {A} (v : OneOrMany A) : list A :=
  match v with
  | Absent => []
  | Single a => [a]
  | Many l => l
  end.

(** ** Points and the affine transform (transformation-matrix) *)

Record Point := mkPoint { px : R; py : R }.

(** The matrix [{a, b, c, d, e, f}] of the library. *)
Record Matrix := mkMatrix { ma : R; mb : R; mc : R; md : R; me : R; mf : R }.

(** [applyToPoint(m, p)]. *)
Definition applyToPoint (m : Matrix) (p : Point) : Point :=
  {| px := ma m * px p + mc m * py p + me m;
     py := mb m * px p + md m * py p + mf m |}%R.

(** ** The output store (circuit-json-util)

    The store is one array of elements, each tagged with its kind;
    [db.kind.list()] selects the elements of a kind in insertion order and
    [db.kind.insert(e)] appends [e], giving it the id [kind_<index>] unless
    [e] already carries one, and returns the stored element. *)

Inductive LayerRef := top | bottom.

#[global] Instance LayerRef_eq_dec : EqDecision LayerRef.
Proof. solve_decision. Defined.

Record Size := mkSize { width : R; height : R }.

Record SourceComponent := {
  sc_source_component_id : string;
  sc_name : string;
  sc_ftype : string;
  sc_manufacturer_part_number : option string }.

Record SchematicComponent := {
  schc_schematic_component_id : string;
  schc_source_component_id : string;
  schc_center : Point;
  schc_size : Size;
  schc_symbol_name : option string }.

Record SchematicPort := {
  schp_schematic_port_id : string;
  schp_schematic_component_id : string;
  schp_center : Point;
  schp_facing_direction : Direction;
  schp_pin_number : option string }.

Record SourcePort := {
  sp_source_port_id : string;
  sp_source_component_id : string;
  sp_name : string;
  sp_pin_number : option Z }.

Record SourceTrace := {
  st_source_trace_id : string;
  st_connected_source_port_ids : list string;
  st_connected_source_net_ids : list string;
  st_display_name : string }.

Record PcbBoard := {
  pb_pcb_board_id : string;
  pb_outline : list Point;
  pb_width : R;
  pb_height : R }.

Record PcbSilkscreenPath := {
  psp_pcb_silkscreen_path_id : string;
  psp_pcb_component_id : string;
  psp_layer : LayerRef;
  psp_route : list Point;
  psp_stroke_width : R }.

Record PcbSilkscreenText := {
  pst_pcb_silkscreen_text_id : string;
  pst_pcb_component_id : string;
  pst_text : string;
  pst_anchor_position : Point;
  pst_layer : LayerRef;
  pst_font_size : R;
  pst_font : string }.

(** An SMT pad as the source builds it: one object, fields added per shape. *)
Record PcbSmtpad := {
  smt_pcb_smtpad_id : string;
  smt_pcb_component_id : string;
  smt_shape : string;
  smt_x : option R;
  smt_y : option R;
  smt_width : option R;
  smt_height : option R;
  smt_radius : option R;
  smt_corner_radius : option R;
  smt_points : option (list Point);
  smt_layer : option string;
  smt_port_hints : list (option string) }.

Record PcbPort := {
  pp_pcb_port_id : string;
  pp_pcb_component_id : string;
  pp_source_port_id : string;
  pp_x : R;
  pp_y : R;
  pp_layers : list string }.

(** A drill as kicadts gives it: a number, or an object with optional
    [diameter], [x] and [y]. *)
Inductive Drill :=
  | DrillNum (d : R)
  | DrillObj (diameter x y : option R).

Record PcbPlatedHole := {
  ph_pcb_plated_hole_id : string;
  ph_pcb_component_id : string;
  ph_x : R;
  ph_y : R;
  ph_port_hints : list (option string);
  ph_shape : option string;
  ph_hole_shape : option string;
  ph_pad_shape : option string;
  ph_hole_diameter : option R;
  ph_outer_diameter : option R;
  ph_hole_width : option R;
  ph_hole_height : option R;
  ph_outer_width : option R;
  ph_outer_height : option R;
  ph_rect_pad_width : option R;
  ph_rect_pad_height : option R;
  ph_layers : option (list string) }.

Record PcbHole := {
  phl_pcb_hole_id : string;
  phl_x : R;
  phl_y : R;
  phl_hole_diameter : Drill;
  phl_hole_shape : string }.

Record PcbVia := {
  pv_pcb_via_id : string;
  pv_x : R;
  pv_y : R;
  pv_outer_diameter : R;
  pv_hole_diameter : R;
  pv_layers : list LayerRef }.

(** A raw S-expression child of a zone: a string, a numeral read as an
    integer, another numeral, or a list. *)
Inductive Sx :=
  | SxStr (s : string)
  | SxInt (z : Z)
  | SxNum (r : R)
  | SxList (l : list Sx).

(** The net name of a pour is a JavaScript value: the string of the net
    table, or the zone's [net_name] child as it was read. *)
Record PcbCopperPour := {
  pcp_pcb_copper_pour_id : string;
  pcp_layer : LayerRef;
  pcp_net_name : Sx;
  pcp_points : list Point;
  pcp_shape : string }.

Inductive Element :=
  | ESourceComponent (e : SourceComponent)
  | ESchematicComponent (e : SchematicComponent)
  | ESchematicPort (e : SchematicPort)
  | ESourcePort (e : SourcePort)
  | ESourceTrace (e : SourceTrace)
  | EPcbBoard (e : PcbBoard)
  | EPcbSilkscreenPath (e : PcbSilkscreenPath)
  | EPcbSilkscreenText (e : PcbSilkscreenText)
  | EPcbSmtpad (e : PcbSmtpad)
  | EPcbPort (e : PcbPort)
  | EPcbPlatedHole (e : PcbPlatedHole)
  | EPcbHole (e : PcbHole)
  | EPcbVia (e : PcbVia)
  | EPcbCopperPour (e : PcbCopperPour).

Module Db.

Definition t := list Element.

Definition source_component (e : Element) : option SourceComponent :=
  match e with ESourceComponent r => Some r | _ => None end.
Definition schematic_component (e : Element) : option SchematicComponent :=
  match e with ESchematicComponent r => Some r | _ => None end.
Definition schematic_port (e : Element) : option SchematicPort :=
  match e with ESchematicPort r => Some r | _ => None end.
Definition source_port (e : Element) : option SourcePort :=
  match e with ESourcePort r => Some r | _ => None end.
Definition source_trace (e : Element) : option SourceTrace :=
  match e with ESourceTrace r => Some r | _ => None end.
Definition pcb_board (e : Element) : option PcbBoard :=
  match e with EPcbBoard r => Some r | _ => None end.
Definition pcb_silkscreen_path (e : Element) : option PcbSilkscreenPath :=
  match e with EPcbSilkscreenPath r => Some r | _ => None end.
Definition pcb_silkscreen_text (e : Element) : option PcbSilkscreenText :=
  match e with EPcbSilkscreenText r => Some r | _ => None end.
Definition pcb_smtpad (e : Element) : option PcbSmtpad :=
  match e with EPcbSmtpad r => Some r | _ => None end.
Definition pcb_port (e : Element) : option PcbPort :=
  match e with EPcbPort r => Some r | _ => None end.
Definition pcb_plated_hole (e : Element) : option PcbPlatedHole :=
  match e with EPcbPlatedHole r => Some r | _ => None end.
Definition pcb_hole (e : Element) : option PcbHole :=
  match e with EPcbHole r => Some r | _ => None end.
Definition pcb_via (e : Element) : option PcbVia :=
  match e with EPcbVia r => Some r | _ => None end.
Definition pcb_copper_pour (e : Element) : option PcbCopperPour :=
  match e with EPcbCopperPour r => Some r | _ => None end.

(** [db.kind.list()], with [kind] one of the selectors above. *)
Definition list_of {A} (kind : Element -> option A) (db : t) : list A :=
  omap kind db.

(** The generated id of the next element of a kind. *)
Definition gen_id {A} (name : string) (kind : Element -> option A) (db : t)
  : string :=
  name +:+ "_" +:+ pretty (length (list_of kind db)).

(** [db.kind.insert(e)]: [mk] builds the element from its id. *)
Definition insert {A} (name : string) (kind : Element -> option A)
    (inj : A -> Element) (given : option string) (mk : string -> A) (db : t)
  : t * A :=
  let e := mk (default (gen_id name kind db) given) in
  (db ++ [inj e], e).

End Db.

(** ** The parsed design tree (kicadts), as far as the stages read it *)

(** A position [at]: [x], [y] and an optional [angle]. *)
Record At := mkAt { at_x : R; at_y : R; at_angle : option R }.

(** *** Schematic *)

Record Property := { prop_key : string; prop_value : option string }.

Record SchematicSymbol := {
  sym_uuid : option string;
  sym_properties : option (list Property);
  sym_libraryId : option string;
  sym_at : option At }.

(** A pin of a library symbol; [pin_sxNumber_value] is
    [pin._sxNumber?.value]. *)
Record Pin := {
  pin_sxAt : option At;
  pin_at : option At;
  pin_sxNumber_value : option string;
  pin_pinNumber : option string }.

Record SubSymbol := { ss_pins : OneOrMany Pin }.

Record LibSymbol := {
  ls_libraryId : option string;
  ls_pins : OneOrMany Pin;
  ls_subSymbols : option (list SubSymbol) }.

(** [sch_libSymbols_symbols] is [kicadSch.libSymbols?.symbols]. *)
Record KicadSch := {
  sch_symbols : option (list SchematicSymbol);
  sch_libSymbols_symbols : option (list LibSymbol) }.

(** *** Board *)

(** The net of a pad: a number, an object with optional [_id], [number]
    and [ordinal], or some other value (a string). *)
Inductive NetVal :=
  | NetNum (n : Z)
  | NetObj (_id number ordinal : option Z)
  | NetStr (s : string).

Inductive PadSize :=
  | SizeArr (l : list R)
  | SizeObj (_width _height x y : option R).

Record XY := { xy_x : option R; xy_y : option R }.

Record Contour := { ct_points : OneOrMany XY; ct_pts : OneOrMany XY }.

Record GrPolyData := {
  gp__contours : OneOrMany Contour;
  gp_contours : OneOrMany Contour }.

(** A primitive of a custom pad; [prim_self] holds the contour fields of
    the primitive itself, read when it has no [gr_poly] member. *)
Record Primitive := {
  prim_token : option string;
  prim_type : option string;
  prim_gr_poly : option GrPolyData;
  prim_self : GrPolyData }.

(** A pad. [kp_number] is [pad.number?.toString()]; [kp_sxPrimitives_graphics]
    is [pad._sxPrimitives?._graphics]; [kp_sxRoundrectRatio_value] is
    [pad._sxRoundrectRatio?.value]. *)
Record Pad := {
  kp_number : option string;
  kp_sxNet : option NetVal;
  kp_net : option NetVal;
  kp_at : option At;
  kp_padType : option string;
  kp_type : option string;
  kp_shape : option string;
  kp_size : option PadSize;
  kp_drill : option Drill;
  kp_layers : option (list string);
  kp_sxPrimitives_graphics : OneOrMany Primitive;
  kp_primitives : OneOrMany Primitive;
  kp_sxRoundrectRatio_value : option R;
  kp_roundrect_rratio : option R }.

Record FpProperty := {
  fpp_key : option string;
  fpp_name : option string;
  fpp_value : option string }.

Record FpText := { fpt_type : option string; fpt_text : option string }.

(** [fp_uuid_value] is [footprint.uuid?.value], [fp_tstamp_value] is
    [footprint.tstamp?.value]. *)
Record Footprint := {
  fp_uuid_value : option string;
  fp_tstamp_value : option string;
  fp_fpPads : OneOrMany Pad;
  fp_properties : OneOrMany FpProperty;
  fp_fpTexts : OneOrMany FpText }.

Record Net := {
  net__id : option Z;
  net_number : option Z;
  net_ordinal : option Z;
  net__name : option string;
  net_name : option string }.

Inductive ViaLayers :=
  | ViaLayersArr (l : list string)
  | ViaLayersObj (_layers : option (list string)).

Record Via := {
  via_at : option Point;
  via_size : option R;
  via_drill : option R;
  via_net : option Z;
  via_layers : option ViaLayers }.

(** [zone_rawChildren] is [Some] exactly when [zone._rawChildren] is an
    array. *)
Record Zone := { zone_rawChildren : option (list Sx) }.

(** A layer as graphics carry it: a string, or an object with [names]. *)
Inductive LayerVal :=
  | LayerStr (s : string)
  | LayerObj (names : option (list string)).

Record GrLine := {
  gl_layer : option LayerVal;
  gl_start : option Point;
  gl_end : option Point;
  gl_width : option R }.

(** The layer object of a rectangle or polygon, with its [_names] and
    [names] members. *)
Record SxLayer := {
  sl__names : option (list string);
  sl_names : option (list string) }.

(** The fill of a rectangle: its [isFilled] member and its [String(...)]
    rendering. *)
Record SxFill := { fill_isFilled : option bool; fill_toString : string }.

Record SxXY := { sx_x : option R; sx_y : option R }.

Record GrRect := {
  gr_sxStart : option SxXY;
  gr_sxEnd : option SxXY;
  gr_sxLayer : option SxLayer;
  gr_sxFill : option SxFill }.

(** An entry of a polygon point list: an [xy] point or a three-point
    [arc], told apart by [token]. *)
Record PtEntry := {
  pt_token : option string;
  pt_x : R;
  pt_y : R;
  pt_sxStart : Point;
  pt_sxMid : Point;
  pt_sxEnd : Point }.

(** [gpoly_sxFill_filled] is [poly._sxFill?.filled]; [gpoly_sxPts_points]
    is [poly._sxPts?.points]. *)
Record GrPoly := {
  gpoly_sxLayer : option SxLayer;
  gpoly_sxFill_filled : option bool;
  gpoly_sxPts_points : option (list PtEntry) }.

(** [gt_sxHeight] is [text._sxEffects?._sxFont?._sxSize?._height];
    [gt_effects_y] is [text.effects?.font?.size?.y]. *)
Record GrText := {
  gt_layer : option LayerVal;
  gt_at : option At;
  gt_sxPosition : option At;
  gt_sxHeight : option R;
  gt_effects_y : option R;
  gt_text : option string;
  gt__text : option string }.

Record KicadPcb := {
  pcb_footprints : OneOrMany Footprint;
  pcb_nets : OneOrMany Net;
  pcb_vias : OneOrMany Via;
  pcb_zones : OneOrMany Zone;
  pcb_graphicLines : OneOrMany GrLine;
  pcb_graphicRects : option (list GrRect);
  pcb_graphicPolys : OneOrMany GrPoly;
  pcb_graphicTexts : OneOrMany GrText }.

(** ** The shared context and the stage base class *)

Record Stats := {
  stats_components : option nat;
  stats_pads : option nat;
  stats_traces : option nat;
  stats_vias : option nat;
  stats_copper_pours : option nat }.

(** A recoverable anomaly; [ZoneNoPolygon layer] stands for the text
    [Zone on layer <layer> has no valid polygon points], where [<layer>]
    is the zone's layer child or [unknown]. *)
Inductive Warning := ZoneNoPolygon (layer : option Sx).

(** Modelled from the spec: the declaration of [ConverterContext] (file
    types, not among the sources).  Section 6 lists what the context
    shares: the parsed tree, the precomputed transforms, the identifier
    cross-reference tables, the net-id to net-name table, the optional
    statistics counters and warnings list, and the output store.  Every
    member but the store is optional, as the guards of the stages show. *)
Record ConverterContext := mkCtx {
  kicadPcb : option KicadPcb;
  kicadSch : option KicadSch;
  k2cMatPcb : option Matrix;
  k2cMatSch : option Matrix;
  netNumToName : option (gmap Z string);
  footprintUuidToComponentId : option (gmap string string);
  footprintUuidToSourceComponentId : option (gmap string string);
  symbolUuidToComponentId : option (gmap string string);
  stats : option Stats;
  warnings : option (list Warning);
  db : Db.t }.

Definition set_db (ctx : ConverterContext) (d : Db.t) : ConverterContext :=
  {| kicadPcb := kicadPcb ctx; kicadSch := kicadSch ctx;
     k2cMatPcb := k2cMatPcb ctx; k2cMatSch := k2cMatSch ctx;
     netNumToName := netNumToName ctx;
     footprintUuidToComponentId := footprintUuidToComponentId ctx;
     footprintUuidToSourceComponentId := footprintUuidToSourceComponentId ctx;
     symbolUuidToComponentId := symbolUuidToComponentId ctx;
     stats := stats ctx; warnings := warnings ctx; db := d |}.

Definition set_stats (ctx : ConverterContext) (s : option Stats)
  : ConverterContext :=
  {| kicadPcb := kicadPcb ctx; kicadSch := kicadSch ctx;
     k2cMatPcb := k2cMatPcb ctx; k2cMatSch := k2cMatSch ctx;
     netNumToName := netNumToName ctx;
     footprintUuidToComponentId := footprintUuidToComponentId ctx;
     footprintUuidToSourceComponentId := footprintUuidToSourceComponentId ctx;
     symbolUuidToComponentId := symbolUuidToComponentId ctx;
     stats := s; warnings := warnings ctx; db := db ctx |}.

Definition set_warnings (ctx : ConverterContext) (w : option (list Warning))
  : ConverterContext :=
  {| kicadPcb := kicadPcb ctx; kicadSch := kicadSch ctx;
     k2cMatPcb := k2cMatPcb ctx; k2cMatSch := k2cMatSch ctx;
     netNumToName := netNumToName ctx;
     footprintUuidToComponentId := footprintUuidToComponentId ctx;
     footprintUuidToSourceComponentId := footprintUuidToSourceComponentId ctx;
     symbolUuidToComponentId := symbolUuidToComponentId ctx;
     stats := stats ctx; warnings := w; db := db ctx |}.

Definition set_netNumToName (ctx : ConverterContext)
    (m : option (gmap Z string)) : ConverterContext :=
  {| kicadPcb := kicadPcb ctx; kicadSch := kicadSch ctx;
     k2cMatPcb := k2cMatPcb ctx; k2cMatSch := k2cMatSch ctx;
     netNumToName := m;
     footprintUuidToComponentId := footprintUuidToComponentId ctx;
     footprintUuidToSourceComponentId := footprintUuidToSourceComponentId ctx;
     symbolUuidToComponentId := symbolUuidToComponentId ctx;
     stats := stats ctx; warnings := warnings ctx; db := db ctx |}.

Definition set_symbolUuidToComponentId (ctx : ConverterContext)
    (m : option (gmap string string)) : ConverterContext :=
  {| kicadPcb := kicadPcb ctx; kicadSch := kicadSch ctx;
     k2cMatPcb := k2cMatPcb ctx; k2cMatSch := k2cMatSch ctx;
     netNumToName := netNumToName ctx;
     footprintUuidToComponentId := footprintUuidToComponentId ctx;
     footprintUuidToSourceComponentId := footprintUuidToSourceComponentId ctx;
     symbolUuidToComponentId := m;
     stats := stats ctx; warnings := warnings ctx; db := db ctx |}.

(** [db.kind.insert(e)] on the store of the context. *)
Definition ctx_insert {A} (name : string) (kind : Element -> option A)
    (inj : A -> Element) (given : option string) (mk : string -> A)
    (ctx : ConverterContext) : ConverterContext * A :=
  let '(d, e) := Db.insert name kind inj given mk (db ctx) in
  (set_db ctx d, e).

(** [(counter || 0) + 1]. *)
Definition bump (c : option nat) : option nat := Some (default 0%nat c + 1)%nat.

(** Modelled from the spec: the base class [ConverterStage] (file types,
    not among the sources).  A stage holds the shared context and a
    [finished] flag; [step()] runs the pass once and returns whether more
    steps remain. *)
Record Stage (S : Type) := mkStage {
  ctx : ConverterContext;
  finished : bool;
  fields : S }.
Arguments mkStage {S} ctx finished fields.
Arguments ctx {S} s.
Arguments finished {S} s.
Arguments fields {S} s.

(** ** schematic/utils/inferSymbolName *)

Definition direction_suffix (d : Direction) : string :=
  match d with
  | Left => "left"
  | Right => "right"
  | Up => "up"
  | Down => "down"
  end.

Definition inferSymbolName (libId reference : string) (rotation : R)
  : option string :=
  let lower := JsStr.toLowerCase libId in
  let direction := direction_suffix (rotationToDirection rotation) in
  let has := JsStr.includes lower in
  if has ":r_" || (has ":r" && JsStr.startsWith reference "R") then
    Some ("boxresistor_" +:+ direction)
  else if has ":c_" || (has ":c" && JsStr.startsWith reference "C") then
    if has "polarized" || has "_pol" then Some ("capacitor_" +:+ direction)
    else Some ("capacitor_" +:+ direction)
  else if has ":l_" || (has ":l" && JsStr.startsWith reference "L") then
    Some ("inductor_" +:+ direction)
  else if has ":d_" || has "diode" || JsStr.startsWith reference "D" then
    if has "led" then Some ("led_" +:+ direction)
    else if has "schottky" then Some ("schottky_diode_" +:+ direction)
    else if has "zener" then Some ("zener_diode_" +:+ direction)
    else Some ("diode_" +:+ direction)
  else if has ":q_" || JsStr.startsWith reference "Q" then
    if has "npn" then Some ("npn_bipolar_transistor_" +:+ direction)
    else if has "pnp" then Some ("pnp_bipolar_transistor_" +:+ direction)
    else if has "_n_" || has "nmos" then
      Some ("n_channel_mosfet_transistor_" +:+ direction)
    else if has "_p_" || has "pmos" then
      Some ("p_channel_mosfet_transistor_" +:+ direction)
    else Some ("npn_bipolar_transistor_" +:+ direction)
  else if has "gnd" || has "ground" then None
  else if has "vcc" || has "vdd" || has "power" then None
  else None.

(** ** CollectLibrarySymbolsStage *)

Module CollectLibrarySymbolsStage.
#[local] Open Scope R_scope.

(** The private field [processedSymbols]. *)
Definition Fields := gset string.

Definition getProperty (symbol : SchematicSymbol) (propName : string)
  : option string :=
  let props := default [] (sym_properties symbol) in
  match List.find (fun p => String.eqb (prop_key p) propName) props with
  | Some prop => prop_value prop
  | None => None
  end.

Definition inferFtype (libId reference : string) : string :=
  let lower := JsStr.toLowerCase libId in
  if JsStr.includes lower ":r_" || JsStr.startsWith reference "R"
  then "simple_resistor"
  else if JsStr.includes lower ":c_" || JsStr.startsWith reference "C"
  then "simple_capacitor"
  else if JsStr.includes lower ":l_" || JsStr.startsWith reference "L"
  then "simple_inductor"
  else if JsStr.includes lower ":d_" || JsStr.startsWith reference "D"
  then "simple_diode"
  else if JsStr.includes lower ":led" || JsStr.startsWith reference "LED"
  then "simple_led"
  else if JsStr.includes lower ":q_" || JsStr.startsWith reference "Q"
  then "simple_transistor"
  else "simple_chip".

Definition estimateSize (symbol : SchematicSymbol) : Size :=
  {| width := 1; height := 1 |}.

Definition inferPinDirection (pin : Pin) (componentRotation : R) : Direction :=
  let pinAngle := default 0 (a ← pin_at pin; at_angle a) in
  let totalAngle := pinAngle + componentRotation in
  rotationToDirection totalAngle.

(** The pins of a symbol or sub-symbol that [createPorts] collects. *)
Definition pins_of (pins : OneOrMany Pin) : list Pin :=
  match pins with
  | Many l => if (0 <? length l)%nat then l else []
  | Single p => [p]
  | Absent => []
  end.

(** [Math.abs(this.ctx.k2cMatSch?.a || 1 / 15)]. *)
Definition scaleFactor (m : option Matrix) : R :=
  Rabs (match m with Some k => Js.or_num (ma k) (1 / 15) | None => 1 / 15 end).

(** The local offset of a pin rotated by the rotation of the component. *)
Definition rotatedPinPos (componentRotation : R) (pinAt : At) : Point :=
  let rotRad := componentRotation * PI / 180 in
  let cosR := cos rotRad in
  let sinR := sin rotRad in
  {| px := at_x pinAt * cosR - at_y pinAt * sinR;
     py := at_x pinAt * sinR + at_y pinAt * cosR |}.

(** The port record of a pin, without its id; the body of the loop of
    [createPorts] for a pin that has a position. *)
Definition port_of_pin (m : option Matrix) (componentRotation : R)
    (componentId : string) (pin : Pin) (pinAt : At) (id : string)
  : SchematicPort :=
  let rotated := rotatedPinPos componentRotation pinAt in
  let scale := scaleFactor m in
  let relativePos := {| px := px rotated * scale; py := - py rotated * scale |} in
  {| schp_schematic_port_id := id;
     schp_schematic_component_id := componentId;
     schp_center := relativePos;
     schp_facing_direction := inferPinDirection pin componentRotation;
     schp_pin_number :=
       match pin_sxNumber_value pin with
       | Some v => Some v
       | None => pin_pinNumber pin
       end |}.

Definition createPort (componentRotation : R) (componentId : string)
    (c : ConverterContext) (pin : Pin) : ConverterContext :=
  match pin_sxAt pin with
  | None => c
  | Some pinAt =>
      fst (ctx_insert "schematic_port" Db.schematic_port ESchematicPort None
             (port_of_pin (k2cMatSch c) componentRotation componentId pin pinAt)
             c)
  end.

(** All pins of a library symbol: its own, then those of its sub-symbols. *)
Definition allPins (libSymbol : LibSymbol) : list Pin :=
  pins_of (ls_pins libSymbol)
  ++ concat (List.map (fun ss => pins_of (ss_pins ss))
               (default [] (ls_subSymbols libSymbol))).

Definition createPorts (symbol : SchematicSymbol) (componentId : string)
    (c : ConverterContext) : ConverterContext :=
  let libId := sym_libraryId symbol in
  let libSymbol :=
    sch ← kicadSch c;
    syms ← sch_libSymbols_symbols sch;
    List.find (fun ls => bool_decide (ls_libraryId ls = libId)) syms in
  match libSymbol with
  | None => c
  | Some libSymbol =>
      let componentRotation := default 0 (a ← sym_at symbol; at_angle a) in
      foldl (createPort componentRotation componentId) c (allPins libSymbol)
  end.

Definition bump_components (c : ConverterContext) : ConverterContext :=
  match stats c with
  | Some s =>
      set_stats c (Some {| stats_components := bump (stats_components s);
                           stats_pads := stats_pads s;
                           stats_traces := stats_traces s;
                           stats_vias := stats_vias s;
                           stats_copper_pours := stats_copper_pours s |})
  | None => c
  end.

Definition processSymbol (symbol : SchematicSymbol) (c : ConverterContext)
  : ConverterContext :=
  match k2cMatSch c with
  | None => c
  | Some k2cMatSch =>
      let reference := JsStr.or_str (getProperty symbol "Reference") "U?" in
      let value := JsStr.or_str (getProperty symbol "Value") "" in
      let libId := JsStr.or_str (sym_libraryId symbol) "" in
      let kicadPos :=
        {| px := default 0 (at_x <$> sym_at symbol);
           py := default 0 (at_y <$> sym_at symbol) |} in
      let cjPos := applyToPoint k2cMatSch kicadPos in
      let rotation := default 0 (a ← sym_at symbol; at_angle a) in
      let ftype := inferFtype libId reference in
      let sourceComponentId := libId +:+ "_source" in
      let existingSource :=
        List.find
          (fun sc => String.eqb (sc_source_component_id sc) sourceComponentId)
          (Db.list_of Db.source_component (db c)) in
      let c1 :=
        match existingSource with
        | Some _ => c
        | None =>
            fst (ctx_insert "source_component" Db.source_component
                   ESourceComponent None
                   (fun id =>
                      {| sc_source_component_id := id;
                         sc_name := if JsStr.truthy libId then libId
                                    else reference;
                         sc_ftype := ftype;
                         sc_manufacturer_part_number :=
                           if JsStr.truthy value then Some value else None |})
                   c)
        end in
      match sym_uuid symbol with
      | None => c1
      | Some uuid =>
          if negb (JsStr.truthy uuid) then c1
          else
            let symbolName := inferSymbolName libId reference rotation in
            let '(c2, inserted) :=
              ctx_insert "schematic_component" Db.schematic_component
                ESchematicComponent None
                (fun id =>
                   {| schc_schematic_component_id := id;
                      schc_source_component_id := sourceComponentId;
                      schc_center := {| px := px cjPos; py := py cjPos |};
                      schc_size := estimateSize symbol;
                      schc_symbol_name :=
                        match symbolName with
                        | Some n => if JsStr.truthy n then Some n else None
                        | None => None
                        end |})
                c1 in
            let componentId := schc_schematic_component_id inserted in
            let c3 :=
              set_symbolUuidToComponentId c2
                (<[uuid := componentId]> <$> symbolUuidToComponentId c2) in
            let c4 := createPorts symbol componentId c3 in
            bump_components c4
      end
  end.

(** One iteration of the loop of [step] over the symbols. *)
Definition visit (st : ConverterContext * Fields) (symbol : SchematicSymbol)
  : ConverterContext * Fields :=
  let '(c, processedSymbols) := st in
  match sym_uuid symbol with
  | None => st
  | Some uuid =>
      if negb (JsStr.truthy uuid) || bool_decide (uuid ∈ processedSymbols)
      then st
      else (processSymbol symbol c, {[uuid]} ∪ processedSymbols)
  end.

Definition step (s : Stage Fields) : Stage Fields * bool :=
  match kicadSch (ctx s), k2cMatSch (ctx s) with
  | Some sch, Some _ =>
      let symbols := default [] (sch_symbols sch) in
      let '(c, f) := foldl visit (ctx s, fields s) symbols in
      (mkStage c true f, false)
  | _, _ => (mkStage (ctx s) true (fields s), false)
  end.

End CollectLibrarySymbolsStage.

(** ** CollectSourceTracesStage *)

Module CollectSourceTracesStage.

(** The private field [processedNets]. *)
Definition Fields := gset Z.

(** An entry of the pad list of a net. *)
Record PadRef := mkPadRef {
  componentId : string;
  padNumber : string;
  sourcePortId : string }.

(** [netToPads]: the nets in the order of their first pad, each with its
    pads in the order they were met. *)
Definition NetToPads := list (Z * list PadRef).

Definition net_truthy (v : option NetVal) : bool :=
  match v with
  | None => false
  | Some (NetNum n) => negb (n =? 0)%Z
  | Some (NetObj _ _ _) => true
  | Some (NetStr s) => JsStr.truthy s
  end.

Definition getPadNet (pad : Pad) : option Z :=
  let net := if net_truthy (kp_sxNet pad) then kp_sxNet pad else kp_net pad in
  if negb (net_truthy net) then None
  else
    match net with
    | Some (NetNum n) => Some n
    | Some (NetObj _id number ordinal) =>
        match _id with
        | Some n => Some n
        | None =>
            match number with
            | Some n => Some n
            | None => ordinal
            end
        end
    | _ => None
    end.

(** [footprint.uuid?.value || footprint.tstamp?.value]. *)
Definition footprintUuid (footprint : Footprint) : option string :=
  JsStr.or_opt (fp_uuid_value footprint) (fp_tstamp_value footprint).

Definition getFootprintReference (footprint : Footprint) : option string :=
  let is_ref (p : FpProperty) :=
    bool_decide (fpp_key p = Some "Reference")
    || bool_decide (fpp_name p = Some "Reference") in
  match List.find is_ref (to_array (fp_properties footprint)) with
  | Some property => fpp_value property
  | None =>
      match List.find (fun t => bool_decide (fpt_type t = Some "reference"))
                      (to_array (fp_fpTexts footprint)) with
      | Some text => fpt_text text
      | None => None
      end
  end.

Definition portId (componentId padNumber : string) : string :=
  componentId +:+ "_port_" +:+ padNumber.

Definition getOrCreateSourcePort (componentId padNumber : string)
    (footprint : Footprint) (c : ConverterContext)
  : ConverterContext * string :=
  let sourcePortId := portId componentId padNumber in
  let existingPort :=
    List.find (fun sp => String.eqb (sp_source_port_id sp) sourcePortId)
              (Db.list_of Db.source_port (db c)) in
  match existingPort with
  | Some _ => (c, sourcePortId)
  | None =>
      let footprintUuid := footprintUuid footprint in
      let sourceComponentId :=
        if JsStr.truthy_opt footprintUuid then
          m ← footprintUuidToSourceComponentId c;
          u ← footprintUuid;
          m !! u
        else None in
      let reference := getFootprintReference footprint in
      let c' :=
        fst (ctx_insert "source_port" Db.source_port ESourcePort
               (Some sourcePortId)
               (fun id =>
                  {| sp_source_port_id := id;
                     sp_source_component_id :=
                       JsStr.or_str sourceComponentId componentId;
                     sp_name := JsStr.or_str reference "U" +:+ "." +:+ padNumber;
                     sp_pin_number :=
                       match JsStr.parseInt padNumber with
                       | Some n => if (n =? 0)%Z then None else Some n
                       | None => None
                       end |})
               c) in
      (c', sourcePortId)
  end.

(** [netToPads.get(netNum).push(r)], after creating the entry of
    [netNum] when the map has none. *)
Fixpoint push_pad (netNum : Z) (r : PadRef) (netToPads : NetToPads)
  : NetToPads :=
  match netToPads with
  | [] => [(netNum, [r])]
  | (n, pads) :: rest =>
      if (n =? netNum)%Z then (n, pads ++ [r]) :: rest
      else (n, pads) :: push_pad netNum r rest
  end.

(** One iteration of the loop over the pads of a footprint. *)
Definition visitPad (componentId : string) (footprint : Footprint)
    (st : ConverterContext * NetToPads) (pad : Pad)
  : ConverterContext * NetToPads :=
  let '(c, netToPads) := st in
  match kp_number pad with
  | None => st
  | Some padNumber =>
      if negb (JsStr.truthy padNumber) then st
      else
        match getPadNet pad with
        | None => st
        | Some netNum =>
            if (netNum =? 0)%Z then st
            else
              let '(c', sourcePortId) :=
                getOrCreateSourcePort componentId padNumber footprint c in
              (c', push_pad netNum
                     (mkPadRef componentId padNumber sourcePortId) netToPads)
        end
  end.

(** The component id the footprint was given, when it has a uuid and a
    non-empty component id. *)
Definition footprintComponentId (c : ConverterContext) (footprint : Footprint)
  : option string :=
  u ← footprintUuid footprint;
  if negb (JsStr.truthy u) then None
  else
    m ← footprintUuidToComponentId c;
    componentId ← m !! u;
    if JsStr.truthy componentId then Some componentId else None.

Definition processFootprintPads (st : ConverterContext * NetToPads)
    (footprint : Footprint) : ConverterContext * NetToPads :=
  match footprintComponentId (fst st) footprint with
  | None => st
  | Some componentId =>
      foldl (visitPad componentId footprint) st
            (to_array (fp_fpPads footprint))
  end.

Definition netDisplayName (c : ConverterContext) (netNum : Z) : string :=
  JsStr.or_str (m ← netNumToName c; m !! netNum) ("Net-" +:+ pretty netNum).

Definition bump_traces (c : ConverterContext) : ConverterContext :=
  match stats c with
  | Some s =>
      set_stats c (Some {| stats_components := stats_components s;
                           stats_pads := stats_pads s;
                           stats_traces := bump (stats_traces s);
                           stats_vias := stats_vias s;
                           stats_copper_pours := stats_copper_pours s |})
  | None => c
  end.

Definition createSourceTrace (netNum : Z) (pads : list PadRef)
    (c : ConverterContext) : ConverterContext :=
  let netName := netDisplayName c netNum in
  let c' :=
    fst (ctx_insert "source_trace" Db.source_trace ESourceTrace None
           (fun id =>
              {| st_source_trace_id := id;
                 st_connected_source_port_ids := List.map sourcePortId pads;
                 st_connected_source_net_ids := [];
                 st_display_name := netName |})
           c) in
  bump_traces c'.

(** One iteration of the loop over the entries of [netToPads]. *)
Definition visitNet (st : ConverterContext * Fields) (entry : Z * list PadRef)
  : ConverterContext * Fields :=
  let '(c, processedNets) := st in
  let '(netNum, pads) := entry in
  if (length pads <? 2)%nat || bool_decide (netNum ∈ processedNets) then st
  else (createSourceTrace netNum pads c, {[netNum]} ∪ processedNets).

(** The collection phase of [step]: the context after the source ports
    were created, and the pad lists of the nets. *)
Definition collect (c : ConverterContext) (pcb : KicadPcb)
  : ConverterContext * NetToPads :=
  foldl processFootprintPads (c, []) (to_array (pcb_footprints pcb)).

Definition step (s : Stage Fields) : Stage Fields * bool :=
  match kicadPcb (ctx s), netNumToName (ctx s) with
  | Some pcb, Some _ =>
      let '(c1, netToPads) := collect (ctx s) pcb in
      let '(c2, f) := foldl visitNet (c1, fields s) netToPads in
      (mkStage c2 true f, false)
  | _, _ => (mkStage (ctx s) true (fields s), false)
  end.

End CollectSourceTracesStage.

(** ** CollectNetsStage *)

Module CollectNetsStage.

Definition netNumOf (net : Net) : Z :=
  match net__id net with
  | Some n => n
  | None =>
      match net_number net with
      | Some n => n
      | None => default 0%Z (net_ordinal net)
      end
  end.

Definition netNameOf (net : Net) : string :=
  match net__name net with
  | Some s => s
  | None =>
      match net_name net with
      | Some s => s
      | None => "Net-" +:+ pretty (netNumOf net)
      end
  end.

(** One iteration of the loop over the nets. *)
Definition visit (m : gmap Z string) (net : Net) : gmap Z string :=
  <[netNumOf net := netNameOf net]> m.

(** The special case of net 0 after the loop. *)
Definition reserveZero (m : gmap Z string) : gmap Z string :=
  match m !! 0%Z with
  | Some _ => m
  | None => <[0%Z := ""]> m
  end.

Definition step (s : Stage unit) : Stage unit * bool :=
  match kicadPcb (ctx s), netNumToName (ctx s) with
  | Some pcb, Some m =>
      let m1 := foldl visit m (to_array (pcb_nets pcb)) in
      let m2 := reserveZero m1 in
      (mkStage (set_netNumToName (ctx s) (Some m2)) true (fields s), false)
  | _, _ => (mkStage (ctx s) true (fields s), false)
  end.

End CollectNetsStage.

(** ** CollectGraphicsStage *)

Module CollectGraphicsStage.
#[local] Open Scope R_scope.

(** A board-edge segment, in KiCad coordinates. *)
Record Segment := mkSegment { start : Point; end_ : Point }.

Definition origin : Point := {| px := 0; py := 0 |}.

Definition epsilon : R := 1 / 1000.

Definition pointsEqual (p1 p2 : Point) : bool :=
  Js.ltb (Rabs (px p1 - px p2)) epsilon && Js.ltb (Rabs (py p1 - py p2)) epsilon.

Definition pointsEqualKicad (p1 p2 : Point) : bool :=
  Js.ltb (Rabs (px p1 - px p2)) epsilon && Js.ltb (Rabs (py p1 - py p2)) epsilon.

(** [xs.findIndex(f)]; [None] is [-1]. *)
Fixpoint findIndex {A} (f : A -> bool) (xs : list A) : option nat :=
  match xs with
  | [] => None
  | x :: rest => if f x then Some 0%nat else S <$> findIndex f rest
  end.

(** [Math.max(...xs)] and [Math.min(...xs)] of a list with head [x]. *)
Definition maxOf (x : R) (xs : list R) : R := fold_left Rmax xs x.
Definition minOf (x : R) (xs : list R) : R := fold_left Rmin xs x.

Definition calculateWidth (points : list Point) : R :=
  match List.map px points with
  | [] => 0
  | x :: xs => maxOf x xs - minOf x xs
  end.

Definition calculateHeight (points : list Point) : R :=
  match List.map py points with
  | [] => 0
  | y :: ys => maxOf y ys - minOf y ys
  end.

Section Outline.
(** The reconstruction is written over any type of source points [P]
    with its matching test [same] and any type of output points [Q]
    with its test [sameOut] and the map [toOutput] between them; the
    stage uses it at [Point], with [pointsEqualKicad], [pointsEqual]
    and the affine transform. *)
Context {P Q : Type}.
Variable same : P -> P -> bool.
Variable toOutput : P -> Q.
Variable sameOut : Q -> Q -> bool.

(** One iteration of the [while] loop: the segment that continues the
    chain is moved from [remaining] to the end of [ordered]. *)
Definition chainStep (ordered remaining : list (P * P))
  : option (list (P * P) * list (P * P)) :=
  match last ordered, remaining with
  | Some lastSegment, first :: rest =>
      let lastEnd := snd lastSegment in
      match findIndex (fun seg => same (fst seg) lastEnd) remaining with
      | Some foundIndex =>
          match remaining !! foundIndex with
          | Some seg => Some (ordered ++ [seg], delete foundIndex remaining)
          | None => None
          end
      | None =>
          match findIndex (fun seg => same (snd seg) lastEnd) remaining with
          | Some foundIndex =>
              match remaining !! foundIndex with
              | Some seg =>
                  Some (ordered ++ [(snd seg, fst seg)],
                        delete foundIndex remaining)
              | None => None
              end
          | None => Some (ordered ++ [first], rest)
          end
      end
  | _, _ => None
  end.

(** The [while (remainingSegments.length > 0)] loop; every iteration
    removes one segment, so [length remaining] iterations suffice. *)
Fixpoint chainLoop (fuel : nat) (ordered remaining : list (P * P))
  : list (P * P) * list (P * P) :=
  match fuel with
  | O => (ordered, remaining)
  | S fuel' =>
      match chainStep ordered remaining with
      | Some (ordered', remaining') => chainLoop fuel' ordered' remaining'
      | None => (ordered, remaining)
      end
  end.

(** [orderedSegments] and what is left of [remainingSegments] when the
    loop ends. *)
Definition chainSegments (segments : list (P * P))
  : list (P * P) * list (P * P) :=
  match segments with
  | [] => ([], [])
  | first :: rest => chainLoop (length rest) [first] rest
  end.

(** The start point of a segment is added, in output coordinates,
    unless it repeats the point added last. *)
Definition pushStart (points : list Q) (segment : P * P) : list Q :=
  let startPos := toOutput (fst segment) in
  match last points with
  | Some lastPoint =>
      if negb (sameOut lastPoint startPos) then points ++ [startPos]
      else points
  | None => points ++ [startPos]
  end.

(** The last end point is added unless it closes the loop. *)
Definition pushEnd (ordered : list (P * P)) (points : list Q) : list Q :=
  match last ordered with
  | Some lastSegment =>
      let endPos := toOutput (snd lastSegment) in
      match head points with
      | Some firstPoint =>
          if negb (sameOut firstPoint endPos) then points ++ [endPos]
          else points
      | None => points
      end
  | None => points
  end.

(** The outline points computed from the segments. *)
Definition outlineOf (segments : list (P * P)) : list Q :=
  let orderedSegments := fst (chainSegments segments) in
  pushEnd orderedSegments (foldl pushStart [] orderedSegments).
End Outline.

Definition segmentPair (s : Segment) : Point * Point := (start s, end_ s).

(** [applyToPoint(this.ctx.k2cMatPcb, { x: p.x, y: p.y })]. *)
Definition toCircuitJson (m : Matrix) (p : Point) : Point :=
applyToPoint m {| px := px p; py := py p |}.

(** The outline points that [createBoardOutline] computes from the lines. *)
Definition outlinePoints (m : Matrix) (segments : list Segment) : list Point :=
outlineOf pointsEqualKicad (toCircuitJson m) pointsEqual
          (segmentPair <$> segments).

Definition lineSegment (line : GrLine) : Segment :=
{| start := default origin (gl_start line);
   end_ := default origin (gl_end line) |}.

(** [existingBoard.outline = ...] on the first board of the store. *)
Fixpoint updateFirstBoard (f : PcbBoard -> PcbBoard) (d : Db.t) : Db.t :=
match d with
| [] => []
| EPcbBoard b :: rest => EPcbBoard (f b) :: rest
| e :: rest => e :: updateFirstBoard f rest
end.

Definition createBoardOutline (lines : list GrLine) (c : ConverterContext)
: ConverterContext :=
match k2cMatPcb c with
| None => c
| Some m =>
    let points := outlinePoints m (List.map lineSegment lines) in
    match head (Db.list_of Db.pcb_board (db c)) with
    | Some existingBoard =>
        set_db c
          (updateFirstBoard
             (fun b => {| pb_pcb_board_id := pb_pcb_board_id b;
                          pb_outline := points;
                          pb_width := calculateWidth points;
                          pb_height := calculateHeight points |})
             (db c))
    | None =>
        fst (ctx_insert "pcb_board" Db.pcb_board EPcbBoard None
               (fun id => {| pb_pcb_board_id := id;
                             pb_outline := points;
                             pb_width := calculateWidth points;
                             pb_height := calculateHeight points |})
               c)
    end
end.

Definition layerString (kicadLayer : option LayerVal) : string :=
match kicadLayer with
| Some (LayerStr s) => s
| Some (LayerObj (Some names)) => JsStr.join " " names
| _ => ""
end.

Definition mapLayer (kicadLayer : option LayerVal) : LayerRef :=
let layerStr := layerString kicadLayer in
if JsStr.includes layerStr "B." || JsStr.includes layerStr "Back"
then bottom else top.

Definition layerNames (layer : option LayerVal) : list string :=
match layer with
| Some (LayerStr s) => [s]
| Some (LayerObj (Some names)) => names
| _ => []
end.

Definition createSilkscreenPath (c : ConverterContext) (line : GrLine)
: ConverterContext :=
match k2cMatPcb c with
| None => c
| Some m =>
    let start := default origin (gl_start line) in
    let end_ := default origin (gl_end line) in
    let startPos := applyToPoint m {| px := px start; py := py start |} in
    let endPos := applyToPoint m {| px := px end_; py := py end_ |} in
    let layer := mapLayer (gl_layer line) in
    let strokeWidth :=
      match gl_width line with
      | Some w => Js.or_num w (15 / 100)
      | None => 15 / 100
      end in
    fst (ctx_insert "pcb_silkscreen_path" Db.pcb_silkscreen_path
           EPcbSilkscreenPath None
           (fun id => {| psp_pcb_silkscreen_path_id := id;
                         psp_pcb_component_id := "";
                         psp_layer := layer;
                         psp_route := [startPos; endPos];
                         psp_stroke_width := strokeWidth |})
           c)
end.

Definition bump_pads (c : ConverterContext) : ConverterContext :=
match stats c with
| Some s =>
    set_stats c (Some {| stats_components := stats_components s;
                         stats_pads := bump (stats_pads s);
                         stats_traces := stats_traces s;
                         stats_vias := stats_vias s;
                         stats_copper_pours := stats_copper_pours s |})
| None => c
end.

(** [mapLayer] on the layer object of a rectangle or polygon. *)
Definition mapSxLayer (l : option SxLayer) : LayerRef :=
mapLayer (LayerObj <$> (sl_names <$> l)).

Definition processRectangle (c : ConverterContext) (rect : GrRect)
: ConverterContext :=
match k2cMatPcb c with
| None => c
| Some m =>
    let coord (p : option SxXY) (f : SxXY -> option R) :=
      default 0 (q ← p; f q) in
    let start := {| px := coord (gr_sxStart rect) sx_x;
                    py := coord (gr_sxStart rect) sx_y |} in
    let end_ := {| px := coord (gr_sxEnd rect) sx_x;
                   py := coord (gr_sxEnd rect) sx_y |} in
    let layerNames := default [] (l ← gr_sxLayer rect; sl__names l) in
    let layerStr := JsStr.join " " layerNames in
    let isFilled :=
      match gr_sxFill rect with
      | Some fill =>
          bool_decide (fill_isFilled fill = Some true)
          || JsStr.includes (fill_toString fill) "fill yes"
      | None => false
      end in
    let isCopperLayer := JsStr.includes layerStr ".Cu" in
    if negb isFilled || negb isCopperLayer then c
    else
      let centerKicad := {| px := (px start + px end_) / 2;
                            py := (py start + py end_) / 2 |} in
      let widthKicad := Rabs (px end_ - px start) in
      let heightKicad := Rabs (py end_ - py start) in
      let centerCJ := applyToPoint m centerKicad in
      let layer := mapSxLayer (gr_sxLayer rect) in
      let c' :=
        fst (ctx_insert "pcb_smtpad" Db.pcb_smtpad EPcbSmtpad None
               (fun id =>
                  {| smt_pcb_smtpad_id := id;
                     smt_pcb_component_id := "";
                     smt_shape := "rect";
                     smt_x := Some (px centerCJ);
                     smt_y := Some (py centerCJ);
                     smt_width := Some widthKicad;
                     smt_height := Some heightKicad;
                     smt_radius := None;
                     smt_corner_radius := None;
                     smt_points := None;
                     smt_layer :=
                       Some (match layer with
                             | top => "top" | bottom => "bottom" end);
                     smt_port_hints := [] |})
               c) in
      bump_pads c'
end.

(** [calculateArcCenter]: the centre (or [None] for [null]) and the
  radius of the circle through three points. *)
Definition calculateArcCenter (p1 p2 p3 : Point) : option Point * R :=
let ax := px p1 in
let ay := py p1 in
let bx := px p2 in
let by_ := py p2 in
let cx := px p3 in
let cy := py p3 in
let d := 2 * (ax * (by_ - cy) + bx * (cy - ay) + cx * (ay - by_)) in
if Js.ltb (Rabs d) (1 / 10 ^ 10) then (None, 0)
else
  let ux :=
    ((ax * ax + ay * ay) * (by_ - cy)
     + (bx * bx + by_ * by_) * (cy - ay)
     + (cx * cx + cy * cy) * (ay - by_)) / d in
  let uy :=
    ((ax * ax + ay * ay) * (cx - bx)
     + (bx * bx + by_ * by_) * (ax - cx)
     + (cx * cx + cy * cy) * (bx - ax)) / d in
  let radius := sqrt ((ax - ux) ^ 2 + (ay - uy) ^ 2) in
  (Some {| px := ux; py := uy |}, radius).

(** The sweep of the arc from the start angle: the direct difference of
  the end and start angles, or its complement when the mid angle is
  not between them. *)
Definition arcAngleRange (startAngle midAngle endAngle : R) : R :=
let angleRange := endAngle - startAngle in
let midFromStart := midAngle - startAngle in
let endFromStart := endAngle - startAngle in
let normalizeMid := Js.rem (midFromStart + PI) (2 * PI) - PI in
let normalizeEnd := Js.rem (endFromStart + PI) (2 * PI) - PI in
if (Js.gtb normalizeEnd 0
    && (Js.ltb normalizeMid 0 || Js.gtb normalizeMid normalizeEnd))
   || (Js.ltb normalizeEnd 0
       && (Js.gtb normalizeMid 0 || Js.ltb normalizeMid normalizeEnd))
then angleRange - Js.sign angleRange * 2 * PI
else angleRange.

(** The point pushed by iteration [i] of the sampling loop. *)
Definition arcSample (center : Point) (radius startAngle angleRange : R)
  (numSegments i : nat) : Point :=
let t := INR i / INR numSegments in
let angle := startAngle + angleRange * t in
{| px := px center + radius * cos angle;
   py := py center + radius * sin angle |}.

Definition convertArcToPoints (start mid end_ : Point) (numSegments : nat)
: list Point :=
match calculateArcCenter start mid end_ with
| (None, _) => [start; end_]
| (Some center, radius) =>
    if decide (radius = 0) then [start; end_]
    else
      let startAngle := Js.atan2 (py start - py center) (px start - px center) in
      let endAngle := Js.atan2 (py end_ - py center) (px end_ - px center) in
      let midAngle := Js.atan2 (py mid - py center) (px mid - px center) in
      let angleRange := arcAngleRange startAngle midAngle endAngle in
      List.map (arcSample center radius startAngle angleRange numSegments)
               (seq 1 (numSegments - 1))
      ++ [end_]
end.

(** The default of the parameter [numSegments]. *)
Definition defaultNumSegments : nat := 8.

Definition polygonEntryPoints (pt : PtEntry) : list Point :=
if bool_decide (pt_token pt = Some "xy") then
  [{| px := pt_x pt; py := pt_y pt |}]
else if bool_decide (pt_token pt = Some "arc") then
  convertArcToPoints (pt_sxStart pt) (pt_sxMid pt) (pt_sxEnd pt)
                     defaultNumSegments
else [].

Definition processPolygon (c : ConverterContext) (poly : GrPoly)
: ConverterContext :=
match k2cMatPcb c with
| None => c
| Some m =>
    let layerNames := default [] (l ← gpoly_sxLayer poly; sl__names l) in
    let layerStr := JsStr.join " " layerNames in
    let isFilled := bool_decide (gpoly_sxFill_filled poly = Some true) in
    let isCopperLayer := JsStr.includes layerStr ".Cu" in
    if negb isFilled || negb isCopperLayer then c
    else
      let ptsData := default [] (gpoly_sxPts_points poly) in
      let points := concat (List.map polygonEntryPoints ptsData) in
      if (length points <? 3)%nat then c
      else
        let transformedPoints := List.map (applyToPoint m) points in
        let layer := mapSxLayer (gpoly_sxLayer poly) in
        let c' :=
          fst (ctx_insert "pcb_smtpad" Db.pcb_smtpad EPcbSmtpad None
                 (fun id =>
                    {| smt_pcb_smtpad_id := id;
                       smt_pcb_component_id := "";
                       smt_shape := "polygon";
                       smt_x := None;
                       smt_y := None;
                       smt_width := None;
                       smt_height := None;
                       smt_radius := None;
                       smt_corner_radius := None;
                       smt_points := Some transformedPoints;
                       smt_layer :=
                         Some (match layer with
                               | top => "top" | bottom => "bottom" end);
                       smt_port_hints := [] |})
                 c) in
        bump_pads c'
end.

Definition createSilkscreenText (c : ConverterContext) (text : GrText)
: ConverterContext :=
match k2cMatPcb c with
| None => c
| Some m =>
    let at_ := match gt_at text with
               | Some a => Some a
               | None => gt_sxPosition text
               end in
    let pos := applyToPoint m {| px := default 0 (at_x <$> at_);
                                 py := default 0 (at_y <$> at_) |} in
    let layer := mapLayer (gt_layer text) in
    let truthy_num (o : option R) :=
      match o with
      | Some r => if decide (r = 0) then None else Some r
      | None => None
      end in
    let kicadFontSize :=
      match truthy_num (gt_sxHeight text) with
      | Some h => h
      | None => default 1 (truthy_num (gt_effects_y text))
      end in
    let fontSize := kicadFontSize * (3 / 2) in
    fst (ctx_insert "pcb_silkscreen_text" Db.pcb_silkscreen_text
           EPcbSilkscreenText None
           (fun id =>
              {| pst_pcb_silkscreen_text_id := id;
                 pst_pcb_component_id := "";
                 pst_text :=
                   JsStr.or_str (JsStr.or_opt (gt_text text) (gt__text text)) "";
                 pst_anchor_position := pos;
                 pst_layer := layer;
                 pst_font_size := fontSize;
                 pst_font := "tscircuit2024" |})
           c)
end.

Definition isEdgeCut (line : GrLine) : bool :=
JsStr.includes (JsStr.join " " (layerNames (gl_layer line))) "Edge.Cuts".

Definition isSilk (line : GrLine) : bool :=
negb (isEdgeCut line)
&& JsStr.includes (JsStr.join " " (layerNames (gl_layer line))) "SilkS".

Definition isTextLayer (text : GrText) : bool :=
existsb (fun name => JsStr.includes name "SilkS"
                     || JsStr.includes name ".Cu"
                     || JsStr.includes name "Fab")
        (layerNames (gt_layer text)).

Definition step (s : Stage unit) : Stage unit * bool :=
match kicadPcb (ctx s), k2cMatPcb (ctx s) with
| Some pcb, Some _ =>
    let lineArray := to_array (pcb_graphicLines pcb) in
    let edgeCutLines := List.filter isEdgeCut lineArray in
    let silkLines := List.filter isSilk lineArray in
    let c1 := if (0 <? length edgeCutLines)%nat
              then createBoardOutline edgeCutLines (ctx s) else ctx s in
    let c2 := foldl createSilkscreenPath c1 silkLines in
    let c3 := foldl processRectangle c2 (default [] (pcb_graphicRects pcb)) in
    let c4 := foldl processPolygon c3 (to_array (pcb_graphicPolys pcb)) in
    let c5 := foldl (fun c text => if isTextLayer text
                                   then createSilkscreenText c text else c)
                    c4 (to_array (pcb_graphicTexts pcb)) in
    (mkStage c5 true (fields s), false)
| _, _ => (mkStage (ctx s) true (fields s), false)
end.

End CollectGraphicsStage.

(** ** CollectViasStage *)

Module CollectViasStage.
#[local] Open Scope R_scope.

Definition mapLayer (kicadLayer : string) : LayerRef :=
if JsStr.includes kicadLayer "B.Cu" || JsStr.includes kicadLayer "Back"
   || JsStr.includes kicadLayer "B_Cu"
then bottom else top.

Definition bump_vias (c : ConverterContext) : ConverterContext :=
match stats c with
| Some s =>
    set_stats c (Some {| stats_components := stats_components s;
                         stats_pads := stats_pads s;
                         stats_traces := stats_traces s;
                         stats_vias := bump (stats_vias s);
                         stats_copper_pours := stats_copper_pours s |})
| None => c
end.

(** [fromLayer] and [toLayer] of a via. *)
Definition viaLayers (via : Via) : LayerRef * LayerRef :=
match via_layers via with
| None => (top, bottom)
| Some layers =>
    let layersArray :=
      match layers with
      | ViaLayersArr l => l
      | ViaLayersObj _layers => default [] _layers
      end in
    match layersArray with
    | [] => (top, bottom)
    | first :: rest =>
        (mapLayer first,
         match last rest with
         | Some l => mapLayer l
         | None => bottom
         end)
    end
end.

Definition processVia (c : ConverterContext) (via : Via) : ConverterContext :=
match k2cMatPcb c, netNumToName c with
| Some m, Some names =>
    let at_ := default CollectGraphicsStage.origin (via_at via) in
    let pos := applyToPoint m {| px := px at_; py := py at_ |} in
    let size := match via_size via with
                | Some v => Js.or_num v (8 / 10) | None => 8 / 10 end in
    let drill := match via_drill via with
                 | Some v => Js.or_num v (4 / 10) | None => 4 / 10 end in
    let '(fromLayer, toLayer) := viaLayers via in
    let c' :=
      fst (ctx_insert "pcb_via" Db.pcb_via EPcbVia None
             (fun id => {| pv_pcb_via_id := id;
                           pv_x := px pos;
                           pv_y := py pos;
                           pv_outer_diameter := size;
                           pv_hole_diameter := drill;
                           pv_layers := [fromLayer; toLayer] |})
             c) in
    bump_vias c'
| _, _ => c
end.

Definition step (s : Stage unit) : Stage unit * bool :=
match kicadPcb (ctx s), k2cMatPcb (ctx s), netNumToName (ctx s) with
| Some pcb, Some _, Some _ =>
    let c := foldl processVia (ctx s) (to_array (pcb_vias pcb)) in
    (mkStage c true (fields s), false)
| _, _, _ => (mkStage (ctx s) true (fields s), false)
end.

End CollectViasStage.

(** ** CollectZonesStage *)

Module CollectZonesStage.
#[local] Open Scope R_scope.

(** [Array.isArray(child) && child[0] === tag]. *)
Definition hasTag (tag : string) (child : Sx) : bool :=
match child with
| SxList (SxStr s :: _) => String.eqb s tag
| _ => false
end.

Definition sx_truthy (v : Sx) : bool :=
match v with
| SxStr s => JsStr.truthy s
| SxInt z => negb (z =? 0)%Z
| SxNum r => negb (bool_decide (r = 0))
| SxList _ => true
end.

(** [child[1]] of an array child. *)
Definition second (child : Sx) : option Sx :=
match child with
| SxList l => l !! 1%nat
| _ => None
end.

Definition isZoneFilled (zone : Zone) : bool :=
match zone_rawChildren zone with
| None => false
| Some children =>
    match List.find (hasTag "fill") children with
    | Some fillEntry =>
        match second fillEntry with
        | Some (SxStr "yes") => true
        | _ => existsb (hasTag "filled_polygon") children
        end
    | None => existsb (hasTag "filled_polygon") children
    end
end.

Record ZoneData := {
zd_net : option Sx;
zd_netName : option Sx;
zd_layer : option Sx }.

Definition parseZoneData (children : list Sx) : ZoneData :=
foldl (fun data child =>
         if hasTag "net" child then
           {| zd_net := second child; zd_netName := zd_netName data;
              zd_layer := zd_layer data |}
         else if hasTag "net_name" child then
           {| zd_net := zd_net data; zd_netName := second child;
              zd_layer := zd_layer data |}
         else if hasTag "layer" child then
           {| zd_net := zd_net data; zd_netName := zd_netName data;
              zd_layer := second child |}
         else data)
      {| zd_net := None; zd_netName := None; zd_layer := None |} children.

(** A value that [typeof] calls a number. *)
Definition sx_number (v : Sx) : option R :=
match v with
| SxInt z => Some (IZR z)
| SxNum r => Some r
| _ => None
end.

(** The point of an item [["xy", x, y]] with numeric coordinates. *)
Definition xyPoint (item : Sx) : option Point :=
if hasTag "xy" item then
  match item with
  | SxList (_ :: x :: y :: _) =>
      match sx_number x, sx_number y with
      | Some x, Some y => Some {| px := x; py := y |}
      | _, _ => None
      end
  | _ => None
  end
else None.

Definition extractPointsFromPolygonEntry (polygonEntry : Sx) : list Point :=
match polygonEntry with
| SxList items =>
    match List.find (hasTag "pts") items with
    | Some (SxList ptsEntry) => omap xyPoint (tail ptsEntry)
    | _ => []
    end
| _ => []
end.

Definition extractMainPolygon (children : list Sx) : list Point :=
match List.find (hasTag "polygon") children with
| Some polygonEntry => extractPointsFromPolygonEntry polygonEntry
| None => []
end.

Definition extractFilledPolygons (children : list Sx) : list (list Point) :=
List.filter (fun points => (0 <? length points)%nat)
  (List.map extractPointsFromPolygonEntry
     (List.filter (hasTag "filled_polygon") children)).

Definition mapLayer (kicadLayer : option Sx) : LayerRef :=
let layerStr := match kicadLayer with Some (SxStr s) => s | _ => "" end in
if JsStr.includes layerStr "B.Cu" || JsStr.includes layerStr "Back"
   || JsStr.includes layerStr "Bottom"
then bottom else top.

(** [this.ctx.netNumToName.get(zoneData.net || 0)]. *)
Definition lookupNet (names : gmap Z string) (net : option Sx) : option string :=
match net with
| Some v =>
    if sx_truthy v then
      match v with
      | SxInt z => names !! z
      | _ => None
      end
    else names !! 0%Z
| None => names !! 0%Z
end.

Definition bump_copper_pours (c : ConverterContext) : ConverterContext :=
match stats c with
| Some s =>
    set_stats c (Some {| stats_components := stats_components s;
                         stats_pads := stats_pads s;
                         stats_traces := stats_traces s;
                         stats_vias := stats_vias s;
                         stats_copper_pours := bump (stats_copper_pours s) |})
| None => c
end.

Definition truthy_sx (o : option Sx) : option Sx :=
match o with
| Some v => if sx_truthy v then Some v else None
| None => None
end.

Definition createCopperPourFromZone (c : ConverterContext) (zone : Zone)
: ConverterContext :=
match k2cMatPcb c, netNumToName c, zone_rawChildren zone with
| Some m, Some names, Some children =>
    let zoneData := parseZoneData children in
    let filled := extractFilledPolygons children in
    let filledPolygons :=
      match filled with
      | [] =>
          let mainPolygon := extractMainPolygon children in
          if (0 <? length mainPolygon)%nat then [mainPolygon] else []
      | _ => filled
      end in
    match filledPolygons with
    | [] =>
        match warnings c with
        | Some w =>
            set_warnings c
              (Some (w ++ [ZoneNoPolygon (truthy_sx (zd_layer zoneData))]))
        | None => c
        end
    | _ =>
        let layer := mapLayer (zd_layer zoneData) in
        let netName : Sx :=
          match lookupNet names (zd_net zoneData) with
          | Some s =>
              if JsStr.truthy s then SxStr s
              else default (SxStr "") (truthy_sx (zd_netName zoneData))
          | None => default (SxStr "") (truthy_sx (zd_netName zoneData))
          end in
        foldl (fun c polygonPoints =>
                 let transformedPoints :=
                   List.map (fun point =>
                               applyToPoint m {| px := px point;
                                                 py := py point |})
                            polygonPoints in
                 bump_copper_pours
                   (fst (ctx_insert "pcb_copper_pour" Db.pcb_copper_pour
                           EPcbCopperPour None
                           (fun id =>
                              {| pcp_pcb_copper_pour_id := id;
                                 pcp_layer := layer;
                                 pcp_net_name := netName;
                                 pcp_points := transformedPoints;
                                 pcp_shape := "polygon" |})
                           c)))
              c filledPolygons
    end
| _, _, _ => c
end.

Definition step (s : Stage unit) : Stage unit * bool :=
match kicadPcb (ctx s), k2cMatPcb (ctx s), netNumToName (ctx s) with
| Some pcb, Some _, Some _ =>
    let c := foldl (fun c zone => if isZoneFilled zone
                                  then createCopperPourFromZone c zone else c)
                   (ctx s) (to_array (pcb_zones pcb)) in
    (mkStage c true (fields s), false)
| _, _, _ => (mkStage (ctx s) true (fields s), false)
end.

End CollectZonesStage.

(** ** CollectFootprintsStage: pads and their ports *)

Module ProcessPads.
#[local] Open Scope R_scope.

Section WithLayerUtils.
(** [determineLayerFromLayers] of file layer-utils, which is not among
    the sources: it is a parameter of this section.  It takes layer
    names and yields a layer name, or a falsy value. *)
Variable determineLayerFromLayers : list (option string) -> option string.

Record PadPortInfo := {
  ppi_padNumber : string;
  ppi_padType : string;
  ppi_layers : list (option string);
  ppi_position : Point }.

(** process-ports: [createPcbPort]; the boolean is its result. *)
Definition createPcbPort (c : ConverterContext) (componentId : string)
    (padInfo : PadPortInfo) : ConverterContext * bool :=
  let portLayer := determineLayerFromLayers (ppi_layers padInfo) in
  match portLayer with
  | Some layer =>
      if negb (JsStr.truthy layer) then (c, false)
      else
        let sourcePortId :=
          componentId +:+ "_port_" +:+ ppi_padNumber padInfo in
        (fst (ctx_insert "pcb_port" Db.pcb_port EPcbPort None
                (fun id => {| pp_pcb_port_id := id;
                              pp_pcb_component_id := componentId;
                              pp_source_port_id := sourcePortId;
                              pp_x := px (ppi_position padInfo);
                              pp_y := py (ppi_position padInfo);
                              pp_layers := [layer] |})
                c), true)
  | None => (c, false)
  end.

Definition bump_pads := CollectGraphicsStage.bump_pads.

(** [a || b || []] on fields that hold one value or an array. *)
Definition oom_or {A} (a b : OneOrMany A) : OneOrMany A :=
  match a with Absent => b | _ => a end.

Definition isGrPoly (primitive : Primitive) : bool :=
  bool_decide (prim_token primitive = Some "gr_poly")
  || bool_decide (is_Some (prim_gr_poly primitive))
  || bool_decide (prim_type primitive = Some "gr_poly").

(** The points of a [gr_poly] primitive, with the Y axis flipped. *)
Definition primitivePoints (primitive : Primitive) : list Point :=
  let grPoly := default (prim_self primitive) (prim_gr_poly primitive) in
  let contours := to_array (oom_or (gp__contours grPoly) (gp_contours grPoly)) in
  concat
    (List.map
       (fun contour =>
          omap (fun pt =>
                  match xy_x pt, xy_y pt with
                  | Some x, Some y => Some {| px := x; py := - y |}
                  | _, _ => None
                  end)
               (to_array (oom_or (ct_points contour) (ct_pts contour))))
       contours).

(** The first [gr_poly] primitive of a custom pad that has points. *)
Definition customPolygon (pad : Pad) : option (list Point) :=
  let primitives :=
    to_array (oom_or (kp_sxPrimitives_graphics pad) (kp_primitives pad)) in
  List.find (fun points => (0 <? length points)%nat)
            (List.map primitivePoints (List.filter isGrPoly primitives)).

Definition createSmdPad (c : ConverterContext) (pad : Pad)
    (componentId : string) (pos : Point) (size : Point) (shape : string)
  : ConverterContext :=
  let layers := Some <$> default [] (kp_layers pad) in
  let layer := determineLayerFromLayers layers in
  let polygon := if String.eqb shape "custom" then customPolygon pad else None in
  match polygon with
  | Some points =>
      bump_pads
        (fst (ctx_insert "pcb_smtpad" Db.pcb_smtpad EPcbSmtpad None
                (fun id =>
                   {| smt_pcb_smtpad_id := id;
                      smt_pcb_component_id := componentId;
                      smt_shape := "polygon";
                      smt_x := None;
                      smt_y := None;
                      smt_width := None;
                      smt_height := None;
                      smt_radius := None;
                      smt_corner_radius := None;
                      smt_points :=
                        Some (List.map
                                (fun pt => {| px := px pos + px pt;
                                              py := py pos + py pt |})
                                points);
                      smt_layer := layer;
                      smt_port_hints := [kp_number pad] |})
                c))
  | None =>
      let roundrectRatio :=
        match kp_sxRoundrectRatio_value pad with
        | Some v => Some v
        | None => kp_roundrect_rratio pad
        end in
      bump_pads
        (fst (ctx_insert "pcb_smtpad" Db.pcb_smtpad EPcbSmtpad None
                (fun id =>
                   {| smt_pcb_smtpad_id := id;
                      smt_pcb_component_id := componentId;
                      smt_shape :=
                        if String.eqb shape "circle" then "circle" else "rect";
                      smt_x := Some (px pos);
                      smt_y := Some (py pos);
                      smt_width := Some (px size);
                      smt_height := Some (py size);
                      smt_radius :=
                        if String.eqb shape "circle"
                        then Some (Rmax (px size) (py size) / 2) else None;
                      smt_corner_radius :=
                        if String.eqb shape "roundrect" then
                          (fun ratio => Rmin (px size) (py size) * ratio / 2)
                            <$> roundrectRatio
                        else None;
                      smt_points := None;
                      smt_layer := layer;
                      smt_port_hints := [kp_number pad] |})
                c))
  end.

(** [v || d] on an optional number. *)
Definition num_or (v : option R) (d : R) : R :=
  match v with Some x => Js.or_num x d | None => d end.

Definition createPlatedHole (c : ConverterContext) (pad : Pad)
    (componentId : string) (pos : Point) (size : Point)
    (drill : option Drill) (shape : string) (rotation : R)
  : ConverterContext :=
  let holeDiameter :=
    match drill with
    | Some (DrillObj diameter x _) => num_or diameter (num_or x (8 / 10))
    | Some (DrillNum d) => Js.or_num d (8 / 10)
    | None => 8 / 10
    end in
  let normalizedRotation :=
    let r := Js.rem rotation 360 in
    if Js.ltb r 0 then Js.add r 360 else r in
  let shouldSwapDimensions :=
    (Js.geb normalizedRotation 45 && Js.ltb normalizedRotation 135)
    || (Js.geb normalizedRotation 225 && Js.ltb normalizedRotation 315) in
  let swap := shouldSwapDimensions && String.eqb shape "oval" in
  let outerWidth := if swap then py size else px size in
  let outerHeight := if swap then px size else py size in
  let isCircle := String.eqb shape "circle" in
  let isOval := negb isCircle && String.eqb shape "oval" in
  let isRect := negb isCircle && negb isOval
                && (String.eqb shape "rect" || String.eqb shape "square") in
  let only (b : bool) {A} (v : A) : option A := if b then Some v else None in
  bump_pads
    (fst (ctx_insert "pcb_plated_hole" Db.pcb_plated_hole EPcbPlatedHole None
            (fun id =>
               {| ph_pcb_plated_hole_id := id;
                  ph_pcb_component_id := componentId;
                  ph_x := px pos;
                  ph_y := py pos;
                  ph_port_hints := [kp_number pad];
                  ph_shape :=
                    if isCircle then Some "circle"
                    else if isOval then Some "pill"
                    else if isRect then Some "pill_hole_with_rect_pad"
                    else None;
                  ph_hole_shape := only isRect "circle";
                  ph_pad_shape := only isRect "rect";
                  ph_hole_diameter := only isCircle holeDiameter;
                  ph_outer_diameter :=
                    only isCircle (Rmax outerWidth outerHeight);
                  ph_hole_width := only (isOval || isRect) holeDiameter;
                  ph_hole_height := only (isOval || isRect) holeDiameter;
                  ph_outer_width := only isOval outerWidth;
                  ph_outer_height := only isOval outerHeight;
                  ph_rect_pad_width := only isRect outerWidth;
                  ph_rect_pad_height := only isRect outerHeight;
                  ph_layers :=
                    only (isCircle || isOval || isRect) ["top"; "bottom"] |})
            c)).

Definition createNpthHole (c : ConverterContext) (pad : Pad)
    (componentId : string) (pos : Point) (drill : option Drill)
  : ConverterContext :=
  let holeDiameter :=
    match drill with
    | Some (DrillObj (Some d) x y) =>
        if decide (d = 0) then DrillObj (Some d) x y else DrillNum d
    | Some (DrillObj None x y) => DrillObj None x y
    | Some (DrillNum d) => DrillNum (Js.or_num d 1)
    | None => DrillNum 1
    end in
  fst (ctx_insert "pcb_hole" Db.pcb_hole EPcbHole None
         (fun id => {| phl_pcb_hole_id := id;
                       phl_x := px pos;
                       phl_y := py pos;
                       phl_hole_diameter := holeDiameter;
                       phl_hole_shape := "circle" |})
         c).

(** [sizeX] and [sizeY] of a pad. *)
Definition padSize (pad : Pad) : Point :=
  match kp_size pad with
  | Some (SizeArr l) =>
      {| px := num_or (l !! 0%nat) 1; py := num_or (l !! 1%nat) 1 |}
  | Some (SizeObj _width _height x y) =>
      {| px := num_or _width (num_or x 1);
         py := num_or _height (num_or y 1) |}
  | None => {| px := 1; py := 1 |}
  end.

(** The position of a pad in Circuit JSON coordinates. *)
Definition padGlobalPos (m : Matrix) (pad : Pad) (kicadComponentPos : Point)
    (componentRotation : R) : Point :=
  let padAt := default (mkAt 0 0 (Some 0)) (kp_at pad) in
  let rotationRad := - componentRotation * PI / 180 in
  let rotatedPadX :=
    at_x padAt * cos rotationRad - at_y padAt * sin rotationRad in
  let rotatedPadY :=
    at_x padAt * sin rotationRad + at_y padAt * cos rotationRad in
  let padKicadPos := {| px := px kicadComponentPos + rotatedPadX;
                        py := py kicadComponentPos + rotatedPadY |} in
  applyToPoint m padKicadPos.

(** [pad.padType || pad.type || "thru_hole"]. *)
Definition padTypeOf (pad : Pad) : string :=
  JsStr.or_str (JsStr.or_opt (kp_padType pad) (kp_type pad)) "thru_hole".

(** The port step of [processPad]: a port is created only for a pad
    with a number. *)
Definition processPadPort (c : ConverterContext) (pad : Pad)
    (componentId : string) (padType : string) (globalPos : Point)
  : ConverterContext :=
  match kp_number pad with
  | Some padNumber =>
      if JsStr.truthy padNumber then
        let padPortInfo :=
          {| ppi_padNumber := padNumber;
             ppi_padType := padType;
             ppi_layers :=
               if String.eqb padType "smd"
               then [determineLayerFromLayers
                       (Some <$> default [] (kp_layers pad))]
               else [];
             ppi_position := globalPos |} in
        fst (createPcbPort c componentId padPortInfo)
      else c
  | None => c
  end.

Definition processPad (c : ConverterContext) (pad : Pad)
    (componentId : string) (kicadComponentPos : Point)
    (componentRotation : R) : ConverterContext :=
  match k2cMatPcb c with
  | None => c
  | Some m =>
      let padAt := default (mkAt 0 0 (Some 0)) (kp_at pad) in
      let padType := padTypeOf pad in
      let padShape := JsStr.or_str (kp_shape pad) "circle" in
      let padRotation := num_or (at_angle padAt) 0 in
      let globalPos := padGlobalPos m pad kicadComponentPos componentRotation in
      let size := padSize pad in
      let drill := kp_drill pad in
      let totalRotation := - componentRotation - padRotation in
      let c1 := processPadPort c pad componentId padType globalPos in
      if String.eqb padType "smd" then
        createSmdPad c1 pad componentId globalPos size padShape
      else if String.eqb padType "np_thru_hole" then
        createNpthHole c1 pad componentId globalPos drill
      else
        createPlatedHole c1 pad componentId globalPos size drill padShape
                         totalRotation
  end.

Definition processPads (c : ConverterContext) (footprint : Footprint)
    (componentId : string) (kicadComponentPos : Point)
    (componentRotation : R) : ConverterContext :=
  match k2cMatPcb c with
  | None => c
  | Some _ =>
      foldl (fun c pad => processPad c pad componentId kicadComponentPos
                                     componentRotation)
            c (to_array (fp_fpPads footprint))
  end.

End WithLayerUtils.

End ProcessPads.

(** ** The passes and their preconditions *)

Module Pipeline.

(** The stage classes of the sources. *)
Inductive Pass :=
| LibrarySymbols
| SourceTraces
| Nets
| Graphics
| Vias
| Zones.

(** The private fields of the stage object of a pass. *)
Definition fieldsOf (p : Pass) : Type :=
match p with
| LibrarySymbols => CollectLibrarySymbolsStage.Fields
| SourceTraces => CollectSourceTracesStage.Fields
| Nets | Graphics | Vias | Zones => unit
end.

(** [step()] of the stage of a pass. *)
Definition step (p : Pass) : Stage (fieldsOf p) -> Stage (fieldsOf p) * bool :=
match p with
| LibrarySymbols => CollectLibrarySymbolsStage.step
| SourceTraces => CollectSourceTracesStage.step
| Nets => CollectNetsStage.step
| Graphics => CollectGraphicsStage.step
| Vias => CollectViasStage.step
| Zones => CollectZonesStage.step
end.

(** The inputs a pass may require of the shared context. *)
Inductive Input := ParsedTree | Transform | NetTable.

(** What the guard at the head of each [step()] tests. *)
Definition requires (p : Pass) : list Input :=
match p with
| LibrarySymbols => [ParsedTree; Transform]
| SourceTraces => [ParsedTree; NetTable]
| Nets => [ParsedTree; NetTable]
| Graphics => [ParsedTree; Transform]
| Vias => [ParsedTree; Transform; NetTable]
| Zones => [ParsedTree; Transform; NetTable]
end.

Definition isSome {A} (o : option A) : bool :=
match o with Some _ => true | None => false end.

(** Whether the context holds an input of a pass: the schematic pass
  reads the schematic tree and transform, the board passes the board
  tree and transform. *)
Definition present (p : Pass) (i : Input) (c : ConverterContext) : bool :=
match i, p with
| ParsedTree, LibrarySymbols => isSome (kicadSch c)
| ParsedTree, _ => isSome (kicadPcb c)
| Transform, LibrarySymbols => isSome (k2cMatSch c)
| Transform, _ => isSome (k2cMatPcb c)
| NetTable, _ => isSome (netNumToName c)
end.

End Pipeline.

(** * Notions of the specification and example inputs *)

Module TraceSpec.
Import CollectSourceTracesStage.

(** The net membership of a pad, in the words of the specification: a
    pad that declares no net, or net 0, is a member of no net; a pad
    without a number is not an endpoint. *)
Definition padEntry (componentId : string) (pad : Pad) : option (Z * PadRef) :=
  match kp_number pad, getPadNet pad with
  | Some padNumber, Some netNum =>
      if JsStr.truthy padNumber && negb (netNum =? 0)%Z
      then Some (netNum,
                 mkPadRef componentId padNumber (portId componentId padNumber))
      else None
  | _, _ => None
  end.

(** The memberships of the pads of a footprint that has a component. *)
Definition footprintEntries (c : ConverterContext) (footprint : Footprint)
  : list (Z * PadRef) :=
  match footprintComponentId c footprint with
  | Some componentId =>
      omap (padEntry componentId) (to_array (fp_fpPads footprint))
  | None => []
  end.

(** All memberships of a board, footprint by footprint, pad by pad. *)
Definition padEntries (c : ConverterContext) (pcb : KicadPcb)
  : list (Z * PadRef) :=
  concat (List.map (footprintEntries c) (to_array (pcb_footprints pcb))).

(** The member pads of a net. *)
Definition memberPads (c : ConverterContext) (pcb : KicadPcb) (netNum : Z)
  : list PadRef :=
  snd <$> List.filter (fun e => (fst e =? netNum)%Z) (padEntries c pcb).

(** What a trace record says, apart from its id. *)
Definition traceView (t : SourceTrace) : list string * string :=
  (st_connected_source_port_ids t, st_display_name t).

(** The trace of a net: the endpoints of its member pads, and its name. *)
Definition traceOfNet (c : ConverterContext) (pcb : KicadPcb) (netNum : Z)
  : list string * string :=
  (sourcePortId <$> memberPads c pcb netNum, netDisplayName c netNum).

(** The members of the context that the trace pass only reads, and the
    traces of the store. *)
Definition frame (c c' : ConverterContext) : Prop :=
  footprintUuidToComponentId c' = footprintUuidToComponentId c
  /\ netNumToName c' = netNumToName c
  /\ Db.list_of Db.source_trace (db c') = Db.list_of Db.source_trace (db c).

(** One membership added to the pad lists of the nets. *)
Definition pushEntry (netToPads : NetToPads) (e : Z * PadRef) : NetToPads :=
  push_pad (fst e) (snd e) netToPads.

(** The pads recorded for a net. *)
Definition padsOf (netNum : Z) (g : NetToPads) : list PadRef :=
  match List.find (fun e => (fst e =? netNum)%Z) g with
  | Some e => snd e
  | None => []
  end.

(** Whether the trace loop emits a trace for an entry, given the nets
    already processed. *)
Definition traced (P : gset Z) (e : Z * list PadRef) : bool :=
  negb ((length (snd e) <? 2)%nat || bool_decide (fst e ∈ P)).

End TraceSpec.

Module SymbolSpec.
Import CollectLibrarySymbolsStage.

(** The members of the context that the symbol pass only reads. *)
Definition sameInputs (c c' : ConverterContext) : Prop :=
  kicadSch c' = kicadSch c /\ k2cMatSch c' = k2cMatSch c.

(** A symbol without a usable uuid, or whose uuid was processed, is
    passed over. *)
Definition skipped (f : Fields) (sym : SchematicSymbol) : Prop :=
  match sym_uuid sym with
  | Some u => JsStr.truthy u = false \/ u ∈ f
  | None => True
  end.

(** The component records of the store are the same in two contexts. *)
Definition sameComponents (c c' : ConverterContext) : Prop :=
  Db.list_of Db.schematic_component (db c')
  = Db.list_of Db.schematic_component (db c)
  /\ Db.list_of Db.source_component (db c')
     = Db.list_of Db.source_component (db c).

(** The uuids of a symbol list that the loop of [step] does not pass
    over for being absent or empty. *)
Definition usable (symbols : list SchematicSymbol) : gset string :=
  list_to_set
    (omap (fun sym =>
             match sym_uuid sym with
             | Some u => if JsStr.truthy u then Some u else None
             | None => None
             end) symbols).

(** The number of schematic component records of a context, and of its
    source component records. *)
Definition components (c : ConverterContext) : nat :=
  length (Db.list_of Db.schematic_component (db c)).

Definition sources (c : ConverterContext) : nat :=
  length (Db.list_of Db.source_component (db c)).

End SymbolSpec.

Module RoundSpec.
#[local] Open Scope R_scope.

(** A double in normal form: [m * 2^k] with 53 bits of [m]. *)
Definition normal (d : R) : Prop :=
  exists m k : Z,
    d = IZR m * Js.pow2 k
    /\ (2 ^ 52 <= m < 2 ^ 53)%Z /\ (-1074 <= k < 971)%Z.

End RoundSpec.

Module RotationSpec.
#[local] Open Scope R_scope.

(** The angle of [0, 360) that differs from [rotation] by whole turns. *)
Definition residue (rotation : R) : R :=
  rotation - 360 * IZR (Int_part (rotation / 360)).

(** The quadrant of an angle of [0, 360). *)
Definition quadrant (n : R) : Direction :=
  if decide (315 <= n \/ n < 45) then Up
  else if decide (n < 135) then Right
  else if decide (n < 225) then Down
  else Left.

(** The width of the strip below a quadrant boundary in which the
    rounding of the sum of the normalisation can reach the boundary. *)
Definition margin : R := Js.pow2 (-43).

(** An angle that is at a quadrant boundary or above it, or at least
    the margin below it. *)
Definition clearOf (boundary n : R) : Prop :=
  boundary <= n \/ n <= boundary - margin.

(** A rotation whose residue is in no strip below a quadrant boundary. *)
Definition clear (rotation : R) : Prop :=
  clearOf 45 (residue rotation) /\ clearOf 135 (residue rotation)
  /\ clearOf 225 (residue rotation) /\ clearOf 315 (residue rotation).

(** The normalised angle follows the residue: it is on the same side
    of every quadrant boundary that the residue is clear of, or it is 0
    for a residue of the last quadrant. *)
Definition follows (n v : R) : Prop :=
  (v = 0 /\ 315 <= n)
  \/ ((45 <= n -> 45 <= v) /\ (n <= 45 - margin -> v < 45)
      /\ (135 <= n -> 135 <= v) /\ (n <= 135 - margin -> v < 135)
      /\ (225 <= n -> 225 <= v) /\ (n <= 225 - margin -> v < 225)
      /\ (315 <= n -> 315 <= v) /\ (n <= 315 - margin -> v < 315)).

End RotationSpec.

Module OutlineSpec.
Import CollectGraphicsStage.
#[local] Open Scope R_scope.

(** The corners of an axis-parallel rectangle, counter-clockwise from
    the corner [(x0, y0)]. *)
Inductive Corner := C0 | C1 | C2 | C3.

#[global] Instance Corner_eq_dec : EqDecision Corner.
Proof. solve_decision. Defined.

Definition corner (x0 y0 x1 y1 : R) (k : Corner) : Point :=
  match k with
  | C0 => {| px := x0; py := y0 |}
  | C1 => {| px := x1; py := y0 |}
  | C2 => {| px := x1; py := y1 |}
  | C3 => {| px := x0; py := y1 |}
  end.

(** The four sides, each from a corner to the next. *)
Definition sides : list (Corner * Corner) :=
  [(C0, C1); (C1, C2); (C2, C3); (C3, C0)].

(** A side as recorded: as it is, or with start and end swapped. *)
Definition orient (flip : bool) (side : Corner * Corner) : Corner * Corner :=
  if flip then (snd side, fst side) else side.

(** The segment of a side of the rectangle. *)
Definition sideSegment (x0 y0 x1 y1 : R) (side : Corner * Corner) : Segment :=
  {| start := corner x0 y0 x1 y1 (fst side);
     end_ := corner x0 y0 x1 y1 (snd side) |}.

(** Four segments form the closed rectangle when they are its four
    sides, in any order and each in either direction. *)
Definition formsRectangle (x0 y0 x1 y1 : R) (segments : list Segment) : Prop :=
  exists (order : list (Corner * Corner)) (flips : list bool),
    order ≡ₚ sides
    /\ length flips = 4%nat
    /\ segments = sideSegment x0 y0 x1 y1 <$> zip_with orient flips order.

(** The test of equal corners. *)
Definition sameCorner (i j : Corner) : bool := bool_decide (i = j).

(** The outline of an arrangement of sides, on corner names. *)
Definition cornerOutline (arrangement : list (Corner * Corner)) : list Corner :=
  outlineOf sameCorner (fun k => k) sameCorner arrangement.

(** The sixteen choices of directions for four sides. *)
Definition allFlips : list (list bool) :=
  flips ← [[]];
  f1 ← [false; true]; f2 ← [false; true];
  f3 ← [false; true]; f4 ← [false; true];
  [f1 :: f2 :: f3 :: f4 :: flips].

(** The outline of an arrangement visits each corner once. *)
Definition visitsAllCorners (arrangement : list (Corner * Corner)) : bool :=
  bool_decide (cornerOutline arrangement ∈ permutations [C0; C1; C2; C3]).

(** The test on corners of a rectangle narrower than the tolerance:
    corners at the same height match. *)
Definition sameHeight (i j : Corner) : bool :=
  match i, j with
  | (C0 | C1), (C0 | C1) => true
  | (C2 | C3), (C2 | C3) => true
  | _, _ => false
  end.

Definition identityMatrix : Matrix :=
  {| ma := 1; mb := 0; mc := 0; md := 1; me := 0; mf := 0 |}.

(** A rectangle half a tolerance wide and one unit high, its sides in
    order. *)
Definition narrowRectangle : list Segment :=
  sideSegment 0 0 (1 / 2000) 1 <$> sides.

(** [max - min] of a list of numbers. *)
Definition extent (xs : list R) : R :=
  match xs with
  | [] => 0
  | x :: xs => maxOf x xs - minOf x xs
  end.

(** A naming of points applied to a segment, and to the two lists of
    the chaining loop. *)
Definition mapSide {I P : Type} (g : I -> P) (side : I * I) : P * P :=
  (g (fst side), g (snd side)).

Definition mapChain {I P : Type} (g : I -> P)
    (st : list (I * I) * list (I * I)) : list (P * P) * list (P * P) :=
  (mapSide g <$> fst st, mapSide g <$> snd st).

End OutlineSpec.

Module ArcSpec.
#[local] Open Scope R_scope.


End ArcSpec.

Module NetSpec.

(** The net table that [step] of the net-naming pass leaves in the
    context. *)
Definition tableAfter (s : Stage unit) : gmap Z string :=
  default ∅ (netNumToName (ctx (fst (CollectNetsStage.step s)))).

End NetSpec.

Module Examples.
#[local] Open Scope R_scope.

(** A context with empty tables, no parsed tree and no transform. *)
Definition emptyContext : ConverterContext :=
  {| kicadPcb := None; kicadSch := None; k2cMatPcb := None; k2cMatSch := None;
     netNumToName := Some ∅;
     footprintUuidToComponentId := Some ∅;
     footprintUuidToSourceComponentId := Some ∅;
     symbolUuidToComponentId := Some ∅;
     stats := None; warnings := None; db := [] |}.

Definition boardOf (footprints : list Footprint) (nets : list Net) : KicadPcb :=
  {| pcb_footprints := Many footprints; pcb_nets := Many nets;
     pcb_vias := Absent; pcb_zones := Absent; pcb_graphicLines := Absent;
     pcb_graphicRects := None; pcb_graphicPolys := Absent;
     pcb_graphicTexts := Absent |}.

(** A pad with a number and a net and nothing else. *)
Definition padOf (number : option string) (net : option NetVal) : Pad :=
  {| kp_number := number; kp_sxNet := net; kp_net := None; kp_at := None;
     kp_padType := None; kp_type := None; kp_shape := None; kp_size := None;
     kp_drill := None; kp_layers := None;
     kp_sxPrimitives_graphics := Absent; kp_primitives := Absent;
     kp_sxRoundrectRatio_value := None; kp_roundrect_rratio := None |}.

(** A footprint with two pads numbered 1, both on net 5, as a footprint
    with a split pad has them. *)
Definition twinPadFootprint : Footprint :=
  {| fp_uuid_value := Some "fp-1"; fp_tstamp_value := None;
     fp_fpPads := Many [padOf (Some "1") (Some (NetNum 5));
                        padOf (Some "1") (Some (NetNum 5))];
     fp_properties := Absent; fp_fpTexts := Absent |}.

Definition twinPadBoard : KicadPcb := boardOf [twinPadFootprint] [].

Definition twinPadContext : ConverterContext :=
  {| kicadPcb := Some twinPadBoard; kicadSch := None;
     k2cMatPcb := None; k2cMatSch := None;
     netNumToName := Some ∅;
     footprintUuidToComponentId := Some {["fp-1" := "pcb_component_0"]};
     footprintUuidToSourceComponentId := Some ∅;
     symbolUuidToComponentId := Some ∅;
     stats := None; warnings := None; db := [] |}.

Definition twinPadStage : Stage CollectSourceTracesStage.Fields :=
  mkStage twinPadContext false ∅.

(** A net table source whose only entry is net 0 with the name GND. *)
Definition groundNet : Net :=
  {| net__id := Some 0%Z; net_number := None; net_ordinal := None;
     net__name := Some "GND"; net_name := None |}.

Definition groundContext : ConverterContext :=
  {| kicadPcb := Some (boardOf [] [groundNet]); kicadSch := None;
     k2cMatPcb := None; k2cMatSch := None;
     netNumToName := Some ∅;
     footprintUuidToComponentId := Some ∅;
     footprintUuidToSourceComponentId := Some ∅;
     symbolUuidToComponentId := Some ∅;
     stats := None; warnings := None; db := [] |}.

Definition groundStage : Stage unit := mkStage groundContext false ().

(** The schematic transform: a scale by 1/15 with the Y axis flipped. *)
Definition schematicMatrix : Matrix :=
  {| ma := 1 / 15; mb := 0; mc := 0; md := - (1 / 15); me := 0; mf := 0 |}.

Definition resistorPin : Pin :=
  {| pin_sxAt := Some (mkAt 1 0 None); pin_at := None;
     pin_sxNumber_value := Some "1"; pin_pinNumber := None |}.

Definition resistorSymbol : SchematicSymbol :=
  {| sym_uuid := Some "sym-1"; sym_properties := None;
     sym_libraryId := Some "Device:R_Small"; sym_at := Some (mkAt 0 0 (Some 90)) |}.

Definition schematicContext : ConverterContext :=
  {| kicadPcb := None;
     kicadSch := Some {| sch_symbols := Some [resistorSymbol; resistorSymbol];
                         sch_libSymbols_symbols := None |};
     k2cMatPcb := None; k2cMatSch := Some schematicMatrix;
     netNumToName := None;
     footprintUuidToComponentId := None;
     footprintUuidToSourceComponentId := None;
     symbolUuidToComponentId := Some ∅;
     stats := None; warnings := None; db := [] |}.

Definition schematicStage : Stage CollectLibrarySymbolsStage.Fields :=
  mkStage schematicContext false ∅.

(** The board transform: the Y axis flipped. *)
Definition boardMatrix : Matrix :=
  {| ma := 1; mb := 0; mc := 0; md := -1; me := 0; mf := 0 |}.

Definition boardContext : ConverterContext :=
  {| kicadPcb := None; kicadSch := None;
     k2cMatPcb := Some boardMatrix; k2cMatSch := None;
     netNumToName := None;
     footprintUuidToComponentId := None;
     footprintUuidToSourceComponentId := None;
     symbolUuidToComponentId := None;
     stats := None; warnings := None; db := [] |}.

(** A stand-in for [determineLayerFromLayers]: bottom when a layer name
    starts with B, top otherwise. *)
Definition layerOfNames (layers : list (option string)) : option string :=
  if existsb (fun l => match l with
                       | Some s => JsStr.startsWith s "B"
                       | None => false
                       end) layers
  then Some "bottom" else Some "top".


End Examples.

(** * Notions of the further properties *)

(** ** process-ports, the variant that takes the layers as given *)

Module ProcessPortsByLayers.

(** [createPcbPort] of the variant of process-ports that does not call
    layer-utils: the port gets the layers of the pad as they are, and no
    port is made for a pad without layers.  The arguments are the
    members of [padInfo] that the function reads, the layers an array of
    strings as the interface [PadPortInfo] declares them. *)
Definition createPcbPort (c : ConverterContext) (componentId : string)
    (padNumber : string) (layers : list string) (position : Point)
  : ConverterContext * bool :=
  if (length layers =? 0)%nat then (c, false)
  else
    let sourcePortId := componentId +:+ "_port_" +:+ padNumber in
    (fst (ctx_insert "pcb_port" Db.pcb_port EPcbPort None
            (fun id => {| pp_pcb_port_id := id;
                          pp_pcb_component_id := componentId;
                          pp_source_port_id := sourcePortId;
                          pp_x := px position;
                          pp_y := py position;
                          pp_layers := layers |})
            c), true).

End ProcessPortsByLayers.

(** ** infer-component-type *)

Module InferComponentType.

Definition isUpper (ch : ascii) : bool :=
  let n := nat_of_ascii ch in (65 <=? n)%nat && (n <=? 90)%nat.

(** The longest run of upper-case letters at the head of a string. *)
Fixpoint upperRun (s : string) : string :=
  match s with
  | String ch rest => if isUpper ch then String ch (upperRun rest) else ""
  | EmptyString => ""
  end.

(** [reference.match(/^([A-Z]+)/)?.[1]]. *)
Definition prefixOf (reference : string) : option string :=
  let run := upperRun reference in
  if String.eqb run "" then None else Some run.

Definition inferComponentType (reference : option string) : string :=
  match reference with
  | None => "simple_chip"
  | Some reference =>
      if negb (JsStr.truthy reference) then "simple_chip"
      else
        match prefixOf reference with
        | None => "simple_chip"
        | Some prefix =>
            if String.eqb prefix "R" then "simple_resistor"
            else if String.eqb prefix "C" then "simple_capacitor"
            else if String.eqb prefix "L" then "simple_inductor"
            else if String.eqb prefix "D" then "simple_diode"
            else if String.eqb prefix "LED" then "simple_diode"
            else if String.eqb prefix "Q" then "simple_transistor"
            else if String.eqb prefix "U" || String.eqb prefix "IC"
            then "simple_chip"
            else if String.eqb prefix "J" || String.eqb prefix "P"
            then "simple_chip"
            else "simple_chip"
        end
  end.

End InferComponentType.

Module ChainSpec.

(** A segment as recorded in the chain: the input segment, or the input
    segment with start and end swapped. *)
Definition asRecorded {P : Type} (o s : P * P) : Prop :=
  o = s \/ o = (snd s, fst s).

(** No two neighbours of a list match. *)
Definition noNeighboursMatch {Q : Type} (sameOut : Q -> Q -> bool)
    (points : list Q) : Prop :=
  forall i p q,
    points !! i = Some p -> points !! S i = Some q -> sameOut p q = false.

(** The loop invariant: the chain built so far, read back in the
    recorded directions, and the segments still waiting are together a
    rearrangement of the input. *)
Definition chained {P : Type} (segments ordered remaining : list (P * P)) : Prop :=
  exists unflipped,
    Forall2 asRecorded ordered unflipped
    /\ unflipped ++ remaining ≡ₚ segments.

End ChainSpec.

Module CircleSpec.
#[local] Open Scope R_scope.




End CircleSpec.

Module NetTableSpec.

(** What the entries of a net list say about one net number, read in
    order from what was known before: a later entry replaces an earlier
    one. *)
Definition overwrite (n : Z) (known : option string) (net : Net)
  : option string :=
  if (CollectNetsStage.netNumOf net =? n)%Z
  then Some (CollectNetsStage.netNameOf net) else known.

End NetTableSpec.

Module PortSpec.
Import CollectSourceTracesStage.

(** The ids of the source ports of the store, in store order. *)
Definition portIds (c : ConverterContext) : list string :=
  sp_source_port_id <$> Db.list_of Db.source_port (db c).

(** Every endpoint of every trace of the store is the id of a source
    port of the store. *)
Definition endpointsResolved (c : ConverterContext) : Prop :=
  forall t, t ∈ Db.list_of Db.source_trace (db c) ->
  forall id, id ∈ st_connected_source_port_ids t -> id ∈ portIds c.

(** The port of every membership of a list is in the store. *)
Definition covered (c : ConverterContext) (entries : list (Z * PadRef))
  : Prop :=
  forall e, e ∈ entries -> sourcePortId (snd e) ∈ portIds c.

(** What the collection phase may do to a context: the board stays, and
    the source ports of the store are added to at the end, without a
    repeated id when there was none. *)
Definition extends (c c' : ConverterContext) : Prop :=
  kicadPcb c' = kicadPcb c
  /\ (exists more, portIds c' = portIds c ++ more)
  /\ (NoDup (portIds c) -> NoDup (portIds c')).

(** What the trace loop leaves as it was. *)
Definition sameBoard (c c' : ConverterContext) : Prop :=
  kicadPcb c' = kicadPcb c
  /\ netNumToName c' = netNumToName c
  /\ footprintUuidToComponentId c' = footprintUuidToComponentId c
  /\ portIds c' = portIds c.

End PortSpec.

Module DirectionSpec.

(** The direction a quarter turn further. *)
Definition quarterTurn (d : Direction) : Direction :=
  match d with
  | Up => Right
  | Right => Down
  | Down => Left
  | Left => Up
  end.

(** A sum of two doubles that is a double: adding rounds nothing. *)
Definition exactSum (a b : R) : Prop := Js.add a b = (a + b)%R.

End DirectionSpec.

Module SymbolNameSpec.

(** The symbol families: what a symbol name is before its direction. *)
Definition families : list string :=
  ["boxresistor_"; "capacitor_"; "inductor_"; "led_"; "schottky_diode_";
   "zener_diode_"; "diode_"; "npn_bipolar_transistor_";
   "pnp_bipolar_transistor_"; "n_channel_mosfet_transistor_";
   "p_channel_mosfet_transistor_"].

End SymbolNameSpec.

Module StatsSpec.

(** The value of a statistics counter: an absent counter counts 0. *)
Definition counter (f : Stats -> option nat) (c : ConverterContext) : nat :=
  default 0%nat (stats c ≫= f).

(** A pass that counts on [f] counted [n] more: without statistics there
    are none afterwards, and with statistics the counter rose by [n]. *)
Definition counted (f : Stats -> option nat) (n : nat)
    (c c' : ConverterContext) : Prop :=
  (stats c = None -> stats c' = None)
  /\ (is_Some (stats c) ->
      is_Some (stats c') /\ counter f c' = (counter f c + n)%nat).

End StatsSpec.

Module ViaSpec.
#[local] Open Scope R_scope.

(** What a via record says of its via: the mapped position, diameters
    that are never zero, and a pair of layers. *)
Definition recordOf (m : Matrix) (via : Via) (v : PcbVia) : Prop :=
  {| px := pv_x v; py := pv_y v |}
  = applyToPoint m (default CollectGraphicsStage.origin (via_at via))
  /\ pv_outer_diameter v <> 0
  /\ pv_hole_diameter v <> 0
  /\ (via_size via = None -> pv_outer_diameter v = 8 / 10)
  /\ (via_drill via = None -> pv_hole_diameter v = 4 / 10)
  /\ length (pv_layers v) = 2%nat.

End ViaSpec.

Module BoardExamples.
#[local] Open Scope R_scope.

(** A via that gives a position and nothing else. *)
Definition bareVia : Via :=
  {| via_at := Some {| px := 1; py := 2 |}; via_size := None;
     via_drill := None; via_net := None; via_layers := None |}.

Definition emptyStats : Stats :=
  {| stats_components := None; stats_pads := None; stats_traces := None;
     stats_vias := None; stats_copper_pours := None |}.

(** A board context with the transform, an empty net table, statistics
    and warnings, for the board [pcb]. *)
Definition contextOf (pcb : KicadPcb) : ConverterContext :=
  {| kicadPcb := Some pcb; kicadSch := None;
     k2cMatPcb := Some Examples.boardMatrix; k2cMatSch := None;
     netNumToName := Some ∅;
     footprintUuidToComponentId := Some ∅;
     footprintUuidToSourceComponentId := Some ∅;
     symbolUuidToComponentId := None;
     stats := Some emptyStats; warnings := Some []; db := [] |}.

Definition emptyBoard : KicadPcb := Examples.boardOf [] [].

Definition viaBoard : KicadPcb :=
  {| pcb_footprints := Absent; pcb_nets := Absent;
     pcb_vias := Single bareVia; pcb_zones := Absent;
     pcb_graphicLines := Absent; pcb_graphicRects := None;
     pcb_graphicPolys := Absent; pcb_graphicTexts := Absent |}.

Definition viaStage : Stage unit := mkStage (contextOf viaBoard) false ().

(** A zone that is filled and has a triangle for its outline. *)
Definition filledZone : Zone :=
  {| zone_rawChildren :=
       Some [SxList [SxStr "fill"; SxStr "yes"];
             SxList [SxStr "polygon";
                     SxList [SxStr "pts";
                             SxList [SxStr "xy"; SxInt 0; SxInt 0];
                             SxList [SxStr "xy"; SxInt 1; SxInt 0];
                             SxList [SxStr "xy"; SxInt 1; SxInt 1]]]] |}.

Definition zoneBoard : KicadPcb :=
  {| pcb_footprints := Absent; pcb_nets := Absent;
     pcb_vias := Absent; pcb_zones := Single filledZone;
     pcb_graphicLines := Absent; pcb_graphicRects := None;
     pcb_graphicPolys := Absent; pcb_graphicTexts := Absent |}.

Definition zoneStage : Stage unit := mkStage (contextOf zoneBoard) false ().

(** A board whose only graphic is a line on the front silkscreen. *)
Definition silkLine : GrLine :=
  {| gl_layer := Some (LayerStr "F.SilkS");
     gl_start := Some {| px := 0; py := 0 |};
     gl_end := Some {| px := 1; py := 0 |};
     gl_width := None |}.

Definition silkBoard : KicadPcb :=
  {| pcb_footprints := Absent; pcb_nets := Absent;
     pcb_vias := Absent; pcb_zones := Absent;
     pcb_graphicLines := Single silkLine; pcb_graphicRects := None;
     pcb_graphicPolys := Absent; pcb_graphicTexts := Absent |}.

Definition silkStage : Stage unit := mkStage (contextOf silkBoard) false ().

End BoardExamples.

Module ZoneSpec.
Import CollectZonesStage.

(** The polygons a zone is poured from: its filled polygons that have
    points, or else its outline polygon when that has points. *)
Definition polygonsOf (zone : Zone) : list (list Point) :=
  match zone_rawChildren zone with
  | Some children =>
      let filled := extractFilledPolygons children in
      match filled with
      | [] =>
          let mainPolygon := extractMainPolygon children in
          if (0 <? length mainPolygon)%nat then [mainPolygon] else []
      | _ => filled
      end
  | None => []
  end.

(** A filled zone that has no polygon to pour. *)
Definition unpourable (zone : Zone) : bool :=
  isZoneFilled zone && bool_decide (polygonsOf zone = []).

(** A pass that warned [n] times: without a warnings list there is none
    afterwards, and with one it got [n] entries at its end. *)
Definition warned (n : nat) (c c' : ConverterContext) : Prop :=
  match warnings c with
  | None => warnings c' = None
  | Some w =>
      exists more, warnings c' = Some (w ++ more) /\ length more = n
  end.

End ZoneSpec.

Module PadSpec.
Import ProcessPads.

(** The three kinds of pads, by the pad type. *)
Definition isSmd (pad : Pad) : bool := String.eqb (padTypeOf pad) "smd".

Definition isNpth (pad : Pad) : bool :=
  negb (isSmd pad) && String.eqb (padTypeOf pad) "np_thru_hole".

Definition isPlated (pad : Pad) : bool :=
  negb (isSmd pad) && negb (String.eqb (padTypeOf pad) "np_thru_hole").

(** A pad with a number that is not the empty string. *)
Definition numbered (pad : Pad) : bool :=
  match kp_number pad with
  | Some padNumber => JsStr.truthy padNumber
  | None => false
  end.

(** The geometry record of a pad is of the kind of the pad. *)
Definition geometryOf (pad : Pad) (e : Element) : Prop :=
  match e with
  | EPcbSmtpad _ => isSmd pad = true
  | EPcbHole _ => isNpth pad = true
  | EPcbPlatedHole _ => isPlated pad = true
  | _ => False
  end.

(** The port record of a pad of a component: it names the component
    and the source port of the pad, and lies at the pad. *)
Definition portOf (componentId : string) (position : Point) (pad : Pad)
    (p : PcbPort) : Prop :=
  pp_pcb_component_id p = componentId
  /\ {| px := pp_x p; py := pp_y p |} = position
  /\ exists padNumber,
       kp_number pad = Some padNumber
       /\ padNumber <> ""
       /\ pp_source_port_id p
          = CollectSourceTracesStage.portId componentId padNumber.

(** The records of one pad: its port, if it got one, then its geometry. *)
Definition recordsOf (componentId : string) (position : Point) (pad : Pad)
    (records : list Element) : Prop :=
  exists geometry,
    geometryOf pad geometry
    /\ (records = [geometry]
        \/ exists p, numbered pad = true
                     /\ portOf componentId position pad p
                     /\ records = [EPcbPort p; geometry]).

End PadSpec.

Module GraphicsSpec.
Import CollectGraphicsStage.
#[local] Open Scope R_scope.

(** The records a call appended to the store, by kind of input. *)

(** A silkscreen line gives one path of two mapped points, with a
    stroke width that is never zero. *)
Definition pathOf (m : Matrix) (line : GrLine) (records : list Element)
  : Prop :=
  exists p,
    records = [EPcbSilkscreenPath p]
    /\ psp_route p = [toCircuitJson m (default origin (gl_start line));
                      toCircuitJson m (default origin (gl_end line))]
    /\ psp_layer p = mapLayer (gl_layer line)
    /\ psp_stroke_width p <> 0.

(** A rectangle gives nothing, or one rectangular pad of no component
    whose width and height are not negative. *)
Definition rectangleOf (rect : GrRect) (records : list Element) : Prop :=
  records = []
  \/ exists r w h,
       records = [EPcbSmtpad r]
       /\ smt_shape r = "rect"
       /\ smt_pcb_component_id r = ""
       /\ smt_width r = Some w /\ smt_height r = Some h
       /\ 0 <= w /\ 0 <= h.

(** A polygon gives nothing, or one polygonal pad of no component with
    at least three points. *)
Definition polygonOf (poly : GrPoly) (records : list Element) : Prop :=
  records = []
  \/ exists r points,
       records = [EPcbSmtpad r]
       /\ smt_shape r = "polygon"
       /\ smt_pcb_component_id r = ""
       /\ smt_points r = Some points
       /\ (3 <= length points)%nat.

(** A text on a silkscreen, copper or fabrication layer gives one text
    record with a font size that is never zero; other texts give
    nothing. *)
Definition textOf (m : Matrix) (text : GrText) (records : list Element)
  : Prop :=
  if isTextLayer text then
    exists t,
      records = [EPcbSilkscreenText t]
      /\ pst_font_size t <> 0
      /\ pst_layer t = mapLayer (gt_layer text)
  else records = [].

(** The SMT pads among records. *)
Definition padCount (records : list Element) : nat :=
  length (Db.list_of Db.pcb_smtpad records).

End GraphicsSpec.

Module SymbolPortSpec.
Import CollectLibrarySymbolsStage.
#[local] Open Scope R_scope.

(** The library symbol of a schematic symbol, as [createPorts] looks it
    up. *)
Definition librarySymbolOf (c : ConverterContext) (symbol : SchematicSymbol)
  : option LibSymbol :=
  sch ← kicadSch c;
  syms ← sch_libSymbols_symbols sch;
  List.find (fun ls => bool_decide (ls_libraryId ls = sym_libraryId symbol)) syms.

Definition positioned (pin : Pin) : bool :=
  match pin_sxAt pin with Some _ => true | None => false end.

(** The pins of the library symbol that have a position. *)
Definition positionedPins (c : ConverterContext) (symbol : SchematicSymbol)
  : list Pin :=
  match librarySymbolOf c symbol with
  | Some libSymbol => List.filter positioned (allPins libSymbol)
  | None => []
  end.

(** The rotation of a symbol. *)
Definition rotationOf (symbol : SchematicSymbol) : R :=
  default 0 (a ← sym_at symbol; at_angle a).

(** What a port record says of its pin. *)
Definition portOfPin (componentRotation : R) (componentId : string)
    (pin : Pin) (port : SchematicPort) : Prop :=
  schp_schematic_component_id port = componentId
  /\ schp_facing_direction port = inferPinDirection pin componentRotation
  /\ schp_pin_number port
     = match pin_sxNumber_value pin with
       | Some v => Some v
       | None => pin_pinNumber pin
       end.

(** The square of the distance of a point from the origin. *)
Definition norm2 (x y : R) : R := x * x + y * y.

End SymbolPortSpec.

Module SourcePortSpec.
Import CollectSourceTracesStage.

(** A source port as the connectivity pass makes it: the port of a pad
    with a number, of a component with an id. *)
Definition wellFormed (sp : SourcePort) : Prop :=
  sp_source_component_id sp <> ""
  /\ sp_pin_number sp <> Some 0%Z
  /\ exists componentId padNumber reference,
       componentId <> "" /\ padNumber <> "" /\ reference <> ""
       /\ sp_source_port_id sp = portId componentId padNumber
       /\ sp_name sp = reference +:+ "." +:+ padNumber.

End SourcePortSpec.

Module PlatedSpec.
#[local] Open Scope R_scope.

(** A rotation that points right or left. *)
Definition sideways (rotation : R) : bool :=
  match rotationToDirection rotation with
  | Left | Right => true
  | Up | Down => false
  end.

(** The normalised rotation of [createPlatedHole], and the test on it
    that swaps the sizes of an oval pad. *)
Definition normalized (rotation : R) : R :=
  let r := Js.rem rotation 360 in if Js.ltb r 0 then Js.add r 360 else r.

Definition inSwapRange (n : R) : bool :=
  (Js.geb n 45 && Js.ltb n 135) || (Js.geb n 225 && Js.ltb n 315).

End PlatedSpec.

(** * Properties *)

(** ** The output store *)

Module DbFacts.

Lemma list_of_app {A} (kind : Element -> option A) (d1 d2 : Db.t) :
  Db.list_of kind (d1 ++ d2) = Db.list_of kind d1 ++ Db.list_of kind d2.
Proof. unfold Db.list_of. apply omap_app. Qed.

Lemma db_ctx_insert {A} name (kind : Element -> option A) inj given mk c :
  db (fst (ctx_insert name kind inj given mk c))
  = db c ++ [inj (snd (ctx_insert name kind inj given mk c))].
Proof. reflexivity. Qed.

End DbFacts.

(** ** Connectivity aggregation *)

Module TraceFacts.
Import CollectSourceTracesStage TraceSpec.


Lemma frame_refl c : frame c c.
Proof. now repeat split. Qed.

Lemma frame_trans c1 c2 c3 : frame c1 c2 -> frame c2 c3 -> frame c1 c3.
Proof. intros (?&?&?) (?&?&?). repeat split; congruence. Qed.

Lemma getOrCreateSourcePort_spec componentId padNumber footprint c :
  snd (getOrCreateSourcePort componentId padNumber footprint c)
  = portId componentId padNumber
  /\ frame c (fst (getOrCreateSourcePort componentId padNumber footprint c)).
Proof.
  unfold getOrCreateSourcePort. destruct (List.find _ _).
  - split; [reflexivity|apply frame_refl].
  - split; [reflexivity|]. repeat split.
    cbn [fst]. rewrite DbFacts.db_ctx_insert, DbFacts.list_of_app.
    simpl. apply app_nil_r.
Qed.


Lemma visitPad_spec componentId footprint c netToPads pad :
  snd (visitPad componentId footprint (c, netToPads) pad)
  = match padEntry componentId pad with
    | Some e => pushEntry netToPads e
    | None => netToPads
    end
  /\ frame c (fst (visitPad componentId footprint (c, netToPads) pad)).
Proof.
  unfold visitPad, padEntry.
  destruct (kp_number pad) as [padNumber|]; [|split; [reflexivity|apply frame_refl]].
  destruct (JsStr.truthy padNumber); simpl.
  2:{ split; [now destruct (getPadNet pad)|apply frame_refl]. }
  destruct (getPadNet pad) as [n|]; [|split; [reflexivity|apply frame_refl]].
  destruct (n =? 0)%Z; simpl; [split; [reflexivity|apply frame_refl]|].
  destruct (getOrCreateSourcePort_spec componentId padNumber footprint c)
    as [E F].
  destruct (getOrCreateSourcePort componentId padNumber footprint c)
    as [c' sp]. simpl in *. subst sp. split; [reflexivity|exact F].
Qed.

Lemma foldl_visitPad_spec componentId footprint pads c netToPads :
  snd (foldl (visitPad componentId footprint) (c, netToPads) pads)
  = foldl pushEntry netToPads (omap (padEntry componentId) pads)
  /\ frame c (fst (foldl (visitPad componentId footprint) (c, netToPads) pads)).
Proof.
  revert c netToPads. induction pads as [|pad pads IH]; intros c netToPads.
  - split; [reflexivity|apply frame_refl].
  - destruct (visitPad_spec componentId footprint c netToPads pad) as [E F].
    change (foldl (visitPad componentId footprint) (c, netToPads) (pad :: pads))
      with (foldl (visitPad componentId footprint)
              (visitPad componentId footprint (c, netToPads) pad) pads).
    destruct (visitPad componentId footprint (c, netToPads) pad) as [c1 g1].
    simpl in E, F. subst g1. destruct (IH c1
      (match padEntry componentId pad with
       | Some e => pushEntry netToPads e | None => netToPads end)) as [E' F'].
    split; [|eapply frame_trans; eassumption].
    rewrite E'. simpl. now destruct (padEntry componentId pad).
Qed.

Lemma footprintComponentId_frame c c' footprint :
  frame c c' -> footprintComponentId c' footprint = footprintComponentId c footprint.
Proof. intros (E&_&_). unfold footprintComponentId. now rewrite E. Qed.

Lemma processFootprintPads_spec c0 c netToPads footprint :
  frame c0 c ->
  snd (processFootprintPads (c, netToPads) footprint)
  = foldl pushEntry netToPads (footprintEntries c0 footprint)
  /\ frame c0 (fst (processFootprintPads (c, netToPads) footprint)).
Proof.
  intros F. unfold processFootprintPads, footprintEntries. simpl.
  rewrite (footprintComponentId_frame _ _ _ F).
  destruct (footprintComponentId c0 footprint) as [cid|]; [|now split].
  destruct (foldl_visitPad_spec cid footprint (to_array (fp_fpPads footprint))
              c netToPads) as [E F'].
  split; [exact E|eapply frame_trans; eassumption].
Qed.

Lemma foldl_processFootprintPads_spec c0 footprints c netToPads :
  frame c0 c ->
  snd (foldl processFootprintPads (c, netToPads) footprints)
  = foldl pushEntry netToPads
      (concat (List.map (footprintEntries c0) footprints))
  /\ frame c0 (fst (foldl processFootprintPads (c, netToPads) footprints)).
Proof.
  revert c netToPads. induction footprints as [|fp fps IH]; intros c g F.
  - now split.
  - destruct (processFootprintPads_spec c0 c g fp F) as [E F'].
    change (foldl processFootprintPads (c, g) (fp :: fps))
      with (foldl processFootprintPads (processFootprintPads (c, g) fp) fps).
    destruct (processFootprintPads (c, g) fp) as [c1 g1]. simpl in E, F'.
    destruct (IH c1 g1 F') as [E' F'']. split; [|exact F''].
    rewrite E', E. simpl. now rewrite foldl_app.
Qed.

(** The collection phase groups the memberships by net. *)
Lemma collect_spec c pcb :
  snd (collect c pcb) = foldl pushEntry [] (padEntries c pcb)
  /\ frame c (fst (collect c pcb)).
Proof. apply foldl_processFootprintPads_spec, frame_refl. Qed.

(** *** Grouping *)


Lemma padsOf_push netNum k r g :
  padsOf netNum (push_pad k r g)
  = if (k =? netNum)%Z then padsOf netNum g ++ [r] else padsOf netNum g.
Proof.
  unfold padsOf. induction g as [|[n pads] g IH]; simpl.
  - now destruct (k =? netNum)%Z.
  - destruct (n =? k)%Z eqn:Enk; simpl.
    + apply Z.eqb_eq in Enk. subst n. now destruct (k =? netNum)%Z.
    + destruct (n =? netNum)%Z eqn:Enn; [|exact IH].
      apply Z.eqb_eq in Enn. subst n. now rewrite Z.eqb_sym, Enk.
Qed.

Lemma keys_push k r g :
  (push_pad k r g).*1 = if bool_decide (k ∈ g.*1) then g.*1 else g.*1 ++ [k].
Proof.
  induction g as [|[n pads] g IH].
  - rewrite bool_decide_eq_false_2; [reflexivity|apply not_elem_of_nil].
  - cbn [push_pad]. destruct (n =? k)%Z eqn:Enk.
    + apply Z.eqb_eq in Enk. subst n. rewrite !fmap_cons. cbn [fst].
      rewrite bool_decide_eq_true_2; [reflexivity|apply list_elem_of_here].
    + apply Z.eqb_neq in Enk. rewrite !fmap_cons, IH. cbn [fst].
      destruct (decide (k ∈ g.*1)) as [H|H].
      * rewrite !bool_decide_eq_true_2; [reflexivity| |exact H].
        now apply list_elem_of_further.
      * rewrite !bool_decide_eq_false_2; [reflexivity| |exact H].
        intros H'. apply elem_of_cons in H' as [->|H']; [congruence|contradiction].
Qed.

Lemma NoDup_keys_push k r g : NoDup g.*1 -> NoDup (push_pad k r g).*1.
Proof.
  intros H. rewrite keys_push. case_bool_decide; [exact H|].
  apply NoDup_app. repeat split; [exact H| |apply NoDup_singleton].
  intros x Hx Hk. apply list_elem_of_singleton in Hk. now subst.
Qed.

Lemma pads_nonempty_push k r g :
  Forall (fun e => snd e <> []) g -> Forall (fun e => snd e <> []) (push_pad k r g).
Proof.
  induction 1 as [|[n pads] g Hn Hg IH]; cbn [push_pad].
  - repeat constructor. discriminate.
  - destruct (n =? k)%Z; constructor; try assumption.
    cbn [snd]. intros E. now apply app_eq_nil in E as [_ E].
Qed.

Lemma group_spec entries :
  let g := foldl pushEntry [] entries in
  NoDup g.*1
  /\ Forall (fun e => snd e <> []) g
  /\ forall netNum,
       padsOf netNum g
       = snd <$> List.filter (fun e => (fst e =? netNum)%Z) entries.
Proof.
  induction entries as [|e entries IH] using rev_ind.
  - simpl. repeat split; [constructor|constructor].
  - rewrite foldl_app. simpl. destruct IH as (H1 & H2 & H3).
    unfold pushEntry at 1 3 5. repeat split.
    + now apply NoDup_keys_push.
    + now apply pads_nonempty_push.
    + intros netNum. rewrite padsOf_push, H3, List.filter_app, fmap_app. simpl.
      destruct (e.1 =? netNum)%Z; simpl; [reflexivity|now rewrite app_nil_r].
Qed.

Lemma padsOf_elem netNum pads g :
  NoDup g.*1 -> (netNum, pads) ∈ g -> padsOf netNum g = pads.
Proof.
  unfold padsOf. induction g as [|[n p] g IH]; intros Hnd Hin.
  - now apply elem_of_nil in Hin.
  - simpl in *. apply NoDup_cons in Hnd as [Hn Hnd].
    apply elem_of_cons in Hin as [E|Hin].
    + inversion E; subst. now rewrite Z.eqb_refl.
    + destruct (n =? netNum)%Z eqn:E; [|now apply IH].
      apply Z.eqb_eq in E. subst n. exfalso. apply Hn.
      apply list_elem_of_fmap. now exists (netNum, pads).
Qed.

Lemma padsOf_not_key netNum g : netNum ∉ g.*1 -> padsOf netNum g = [].
Proof.
  unfold padsOf. induction g as [|[n p] g IH]; intros H; [reflexivity|].
  simpl in *. apply not_elem_of_cons in H as [Hne H].
  destruct (n =? netNum)%Z eqn:E; [|now apply IH].
  apply Z.eqb_eq in E. congruence.
Qed.

(** *** The trace loop *)


Lemma frame_names c c' : netNumToName c' = netNumToName c ->
  forall n, netDisplayName c' n = netDisplayName c n.
Proof. intros E n. unfold netDisplayName. now rewrite E. Qed.

Lemma createSourceTrace_spec netNum pads c :
  netNumToName (createSourceTrace netNum pads c) = netNumToName c
  /\ exists t,
       Db.list_of Db.source_trace (db (createSourceTrace netNum pads c))
       = Db.list_of Db.source_trace (db c) ++ [t]
       /\ traceView t = (sourcePortId <$> pads, netDisplayName c netNum).
Proof.
  unfold createSourceTrace, bump_traces.
  split.
  - now destruct (stats _).
  - eexists. split.
    + destruct (stats _); cbn [db set_stats];
        rewrite DbFacts.db_ctx_insert, DbFacts.list_of_app; reflexivity.
    + reflexivity.
Qed.

Lemma filter_traced_fresh P k g :
  k ∉ g.*1 -> List.filter (traced ({[k]} ∪ P)) g = List.filter (traced P) g.
Proof.
  induction g as [|[n p] g IH]; intros H; [reflexivity|].
  simpl in H. apply not_elem_of_cons in H as [Hne H]. simpl.
  rewrite IH by exact H.
  replace (traced ({[k]} ∪ P) (n, p)) with (traced P (n, p)); [reflexivity|].
  unfold traced. simpl. f_equal. f_equal.
  apply bool_decide_ext. rewrite elem_of_union, elem_of_singleton.
  intuition congruence.
Qed.

Lemma visitNet_traced c P e :
  visitNet (c, P) e
  = if traced P e
    then (createSourceTrace (fst e) (snd e) c, {[fst e]} ∪ P)
    else (c, P).
Proof.
  destruct e as [n pads]. unfold visitNet, traced. cbn [fst snd].
  now destruct (_ || _).
Qed.

Lemma foldl_visitNet_spec g c P :
  NoDup g.*1 ->
  netNumToName (fst (foldl visitNet (c, P) g)) = netNumToName c
  /\ exists ts,
       Db.list_of Db.source_trace (db (fst (foldl visitNet (c, P) g)))
       = Db.list_of Db.source_trace (db c) ++ ts
       /\ traceView <$> ts
          = (fun e => (sourcePortId <$> snd e, netDisplayName c (fst e)))
              <$> List.filter (traced P) g.
Proof.
  revert c P. induction g as [|e g IH]; intros c P Hnd.
  - split; [reflexivity|]. exists []. now rewrite app_nil_r.
  - rewrite fmap_cons in Hnd. apply NoDup_cons in Hnd as [Hn Hnd].
    change (foldl visitNet (c, P) (e :: g))
      with (foldl visitNet (visitNet (c, P) e) g).
    rewrite visitNet_traced. cbn [List.filter].
    destruct (traced P e).
    + destruct (createSourceTrace_spec (fst e) (snd e) c) as (En & t & Et & Ev).
      destruct (IH (createSourceTrace (fst e) (snd e) c) ({[fst e]} ∪ P) Hnd)
        as (En' & ts & Ets & Evs).
      split; [congruence|].
      exists (t :: ts). split.
      * rewrite Ets, Et, <- app_assoc. reflexivity.
      * rewrite !fmap_cons, Ev, Evs, filter_traced_fresh by exact Hn.
        f_equal. apply list_fmap_ext. intros i x _.
        now rewrite (frame_names _ _ En).
    + apply IH, Hnd.
Qed.

End TraceFacts.

Module TraceTheory.
Import CollectSourceTracesStage TraceSpec TraceFacts.

Lemma elem_of_filter_traced (e : Z * list PadRef) g :
  e ∈ List.filter (traced ∅) g <-> e ∈ g /\ (2 <= length (snd e))%nat.
Proof.
  rewrite !list_elem_of_In, List.filter_In. unfold traced.
  rewrite bool_decide_eq_false_2 by apply not_elem_of_empty.
  rewrite orb_false_r, negb_true_iff, Nat.ltb_ge. reflexivity.
Qed.

Lemma NoDup_keys_filter (f : Z * list PadRef -> bool) g :
  NoDup g.*1 -> NoDup (List.filter f g).*1.
Proof.
  induction g as [|e g IH]; intros H; [constructor|].
  rewrite fmap_cons in H. apply NoDup_cons in H as [Hn H].
  cbn [List.filter]. destruct (f e); [|now apply IH].
  rewrite fmap_cons. apply NoDup_cons. split; [|now apply IH].
  intros Hin. apply Hn. apply list_elem_of_fmap in Hin as (x & -> & Hx).
  apply list_elem_of_fmap. exists x. split; [reflexivity|].
  apply list_elem_of_In. apply list_elem_of_In, List.filter_In in Hx. tauto.
Qed.

Lemma padEntry_net componentId pad e :
  padEntry componentId pad = Some e ->
  getPadNet pad = Some (fst e) /\ fst e <> 0%Z.
Proof.
  unfold padEntry. destruct (kp_number pad); [|discriminate].
  destruct (getPadNet pad) as [n|]; [|discriminate].
  destruct (JsStr.truthy _); [|discriminate].
  destruct (n =? 0)%Z eqn:E; [discriminate|].
  intros [= <-]. apply Z.eqb_neq in E. now split.
Qed.

Lemma padEntries_net c pcb e : e ∈ padEntries c pcb -> fst e <> 0%Z.
Proof.
  unfold padEntries. intros H.
  apply list_elem_of_In, in_concat in H as (l & Hl & He).
  apply in_map_iff in Hl as (fp & <- & _).
  unfold footprintEntries in He.
  destruct (footprintComponentId c fp) as [cid|]; [|contradiction].
  apply list_elem_of_In, list_elem_of_omap in He as (pad & _ & Hp).
  now apply padEntry_net in Hp.
Qed.

(** The member pads of a net are what the collection phase recorded. *)
Lemma collect_members c pcb :
  let g := snd (collect c pcb) in
  NoDup g.*1
  /\ (forall n, padsOf n g = memberPads c pcb n)
  /\ (forall n pads, (n, pads) ∈ g -> pads = memberPads c pcb n).
Proof.
  destruct (collect_spec c pcb) as [E _]. cbv zeta. rewrite E.
  destruct (group_spec (padEntries c pcb)) as (H1 & _ & H3).
  split; [exact H1|]. split; [exact H3|].
  intros n pads Hin. rewrite <- (padsOf_elem n pads _ H1 Hin). apply H3.
Qed.

(** The traces that one step of a fresh stage adds. *)
Lemma step_traces (s : Stage Fields) pcb names :
  kicadPcb (ctx s) = Some pcb ->
  netNumToName (ctx s) = Some names ->
  fields s = ∅ ->
  exists nets ts,
    NoDup nets
    /\ (forall n, n ∈ nets <-> (2 <= length (memberPads (ctx s) pcb n))%nat)
    /\ Db.list_of Db.source_trace (db (ctx (fst (step s))))
       = Db.list_of Db.source_trace (db (ctx s)) ++ ts
    /\ traceView <$> ts = traceOfNet (ctx s) pcb <$> nets.
Proof.
  intros Hpcb Hnames Hf. unfold step. rewrite Hpcb, Hnames, Hf.
  destruct (collect_members (ctx s) pcb) as (Hnd & Hpads & Hmem).
  destruct (collect_spec (ctx s) pcb) as [_ (_ & Fn & Ft)].
  destruct (collect (ctx s) pcb) as [c1 g]. cbn [fst snd] in *.
  destruct (foldl_visitNet_spec g c1 ∅ Hnd) as (_ & ts & Ets & Evs).
  destruct (foldl visitNet (c1, ∅) g) as [c2 f]. cbn [fst snd ctx] in *.
  exists (List.filter (traced ∅) g).*1, ts. repeat split.
  - now apply NoDup_keys_filter.
  - intros Hin. apply list_elem_of_fmap in Hin as ([k pads] & -> & Hx).
    apply elem_of_filter_traced in Hx as [Hx Hlen]. cbn [fst snd] in *.
    now rewrite <- (Hmem _ _ Hx).
  - intros Hlen. rewrite <- Hpads in Hlen.
    destruct (decide (n ∈ g.*1)) as [Hk|Hk].
    + apply list_elem_of_fmap in Hk as ([k pads] & -> & Hx). cbn [fst] in *.
      apply list_elem_of_fmap. exists (k, pads). split; [reflexivity|].
      apply elem_of_filter_traced. split; [exact Hx|]. cbn [snd].
      now rewrite (padsOf_elem _ _ _ Hnd Hx) in Hlen.
    + rewrite padsOf_not_key in Hlen by exact Hk. simpl in Hlen. lia.
  - now rewrite Ets, Ft.
  - rewrite Evs, <- list_fmap_compose. apply list_fmap_ext.
    intros i [k pads] Hi. cbn [fst snd]. unfold traceOfNet, compose. cbn [fst].
    apply list_elem_of_lookup_2, elem_of_filter_traced in Hi as [Hx _].
    rewrite <- (Hmem _ _ Hx). f_equal. now apply frame_names.
Qed.

End TraceTheory.

(** C1, amended. One step of a fresh trace-aggregation stage adds exactly
    one trace for every net with at least two member pads and none for
    any other net; the endpoint list of the trace has one entry for each
    member pad, in the order of the pads, so it is as long as the
    member-pad list (an endpoint identifier is repeated when several
    member pads yield it); a pad whose net is absent, null or 0 is a
    member of no net, and net 0 has no member pads. *)
Theorem one_trace_per_net (s : Stage CollectSourceTracesStage.Fields)
    (pcb : KicadPcb) (names : gmap Z string) :
  kicadPcb (ctx s) = Some pcb ->
  netNumToName (ctx s) = Some names ->
  fields s = ∅ ->
  (exists nets ts,
      NoDup nets
      /\ (forall n, n ∈ nets
                    <-> (2 <= length (TraceSpec.memberPads (ctx s) pcb n))%nat)
      /\ Db.list_of Db.source_trace
           (db (ctx (fst (CollectSourceTracesStage.step s))))
         = Db.list_of Db.source_trace (db (ctx s)) ++ ts
      /\ TraceSpec.traceView <$> ts = TraceSpec.traceOfNet (ctx s) pcb <$> nets)
  /\ (forall n, length (fst (TraceSpec.traceOfNet (ctx s) pcb n))
                = length (TraceSpec.memberPads (ctx s) pcb n))
  /\ TraceSpec.memberPads (ctx s) pcb 0 = []
  /\ (forall componentId pad,
        CollectSourceTracesStage.getPadNet pad = None
        \/ CollectSourceTracesStage.getPadNet pad = Some 0%Z ->
        TraceSpec.padEntry componentId pad = None).
Proof.
  intros Hpcb Hnames Hf. repeat split.
  - now apply (TraceTheory.step_traces s pcb names).
  - intros n. unfold TraceSpec.traceOfNet. cbn [fst]. apply length_fmap.
  - unfold TraceSpec.memberPads.
    destruct (List.filter _ _) as [|e l] eqn:E; [reflexivity|].
    assert (He : In e (List.filter (fun e => (fst e =? 0)%Z)
                         (TraceSpec.padEntries (ctx s) pcb)))
      by (rewrite E; now left).
    apply List.filter_In in He as [He H0]. apply Z.eqb_eq in H0.
    apply list_elem_of_In, TraceTheory.padEntries_net in He. contradiction.
  - intros componentId pad H. unfold TraceSpec.padEntry.
    destruct (kp_number pad); [|reflexivity].
    destruct H as [-> | ->]; [reflexivity|]. cbn. now rewrite andb_false_r.
Qed.

Lemma one_trace_per_net_witness :
  exists nets ts,
    NoDup nets
    /\ (forall n, n ∈ nets
                  <-> (2 <= length (TraceSpec.memberPads
                                      Examples.twinPadContext
                                      Examples.twinPadBoard n))%nat)
    /\ Db.list_of Db.source_trace
         (db (ctx (fst (CollectSourceTracesStage.step Examples.twinPadStage))))
       = Db.list_of Db.source_trace (db Examples.twinPadContext) ++ ts
    /\ TraceSpec.traceView <$> ts
       = TraceSpec.traceOfNet Examples.twinPadContext Examples.twinPadBoard
           <$> nets.
Proof.
  exact (proj1 (one_trace_per_net Examples.twinPadStage Examples.twinPadBoard ∅
                  eq_refl eq_refl eq_refl)).
Defined.

(** C1 as stated fails: two pads of one footprint that carry the same
    number and the same net are two members of the net, and the trace
    names their one endpoint twice, so its endpoints are not distinct and
    the set of them is smaller than the member-pad list. *)
Lemma twin_pads_counterexample :
  length (TraceSpec.memberPads Examples.twinPadContext Examples.twinPadBoard 5)
  = 2%nat
  /\ exists t,
       Db.list_of Db.source_trace
         (db (ctx (fst (CollectSourceTracesStage.step Examples.twinPadStage))))
       = [t]
       /\ st_connected_source_port_ids t
          = ["pcb_component_0_port_1"; "pcb_component_0_port_1"]
       /\ ~ NoDup (st_connected_source_port_ids t)
       /\ length (remove_dups (st_connected_source_port_ids t)) = 1%nat.
Proof.
  split; [vm_compute; reflexivity|].
  eexists. split; [vm_compute; reflexivity|].
  cbn [st_connected_source_port_ids].
  split; [reflexivity|]. split; [|vm_compute; reflexivity].
  intros H. apply NoDup_cons in H as [H _]. apply H, list_elem_of_here.
Qed.

(** ** Arc tessellation *)

Module ArcFacts.
Import CollectGraphicsStage ArcSpec.
#[local] Open Scope R_scope.







End ArcFacts.







(** ** Symbol collection *)

Module SymbolFacts.
Import CollectLibrarySymbolsStage SymbolSpec.


Lemma sameInputs_refl c : sameInputs c c.
Proof. now split. Qed.

Lemma sameInputs_trans c1 c2 c3 :
  sameInputs c1 c2 -> sameInputs c2 c3 -> sameInputs c1 c3.
Proof. intros [? ?] [? ?]. split; congruence. Qed.

Lemma sameInputs_insert {A} name (kind : Element -> option A) inj given mk c :
  sameInputs c (fst (ctx_insert name kind inj given mk c)).
Proof. now split. Qed.

Lemma sameInputs_createPort rot cid c pin :
  sameInputs c (createPort rot cid c pin).
Proof.
  unfold createPort. destruct (pin_sxAt pin); [|apply sameInputs_refl].
  apply sameInputs_insert.
Qed.

Lemma sameInputs_foldl_createPort rot cid pins c :
  sameInputs c (foldl (createPort rot cid) c pins).
Proof.
  revert c. induction pins as [|p pins IH]; intros c; [apply sameInputs_refl|].
  simpl. eapply sameInputs_trans; [apply sameInputs_createPort|apply IH].
Qed.

Lemma sameInputs_createPorts sym cid c : sameInputs c (createPorts sym cid c).
Proof.
  unfold createPorts.
  destruct (_ ≫= _) as [ls|]; [|apply sameInputs_refl].
  apply sameInputs_foldl_createPort.
Qed.

Lemma sameInputs_bump c : sameInputs c (bump_components c).
Proof. unfold bump_components. destruct (stats c); now split. Qed.

Lemma sameInputs_processSymbol sym c : sameInputs c (processSymbol sym c).
Proof.
  unfold processSymbol. destruct (k2cMatSch c) as [m|] eqn:Hm;
    [|apply sameInputs_refl].
  set (c1 := match List.find _ _ with Some _ => c | None => _ end).
  assert (H1 : sameInputs c c1).
  { unfold c1. destruct (List.find _ _); [apply sameInputs_refl|].
    apply sameInputs_insert. }
  destruct (sym_uuid sym) as [u|]; [|exact H1].
  destruct (negb (JsStr.truthy u)); [exact H1|].
  destruct (ctx_insert _ _ _ _ _ c1) as [c2 ins] eqn:E2.
  assert (H2 : sameInputs c1 c2).
  { match type of E2 with
    | ctx_insert ?n ?k ?i ?g ?mk ?c0 = _ =>
        pose proof (sameInputs_insert n k i g mk c0) as H2
    end.
    now rewrite E2 in H2. }
  eapply sameInputs_trans; [exact H1|].
  eapply sameInputs_trans; [exact H2|].
  eapply sameInputs_trans; [|apply sameInputs_bump].
  eapply sameInputs_trans; [|apply sameInputs_createPorts].
  now split.
Qed.


Lemma visit_skipped c f sym : skipped f sym -> visit (c, f) sym = (c, f).
Proof.
  unfold skipped, visit. destruct (sym_uuid sym) as [u|]; [|reflexivity].
  intros [H|H].
  - now rewrite H.
  - rewrite (bool_decide_eq_true_2 _ H). now rewrite orb_true_r.
Qed.

Lemma visit_fields_mono st sym : snd st ⊆ snd (visit st sym).
Proof.
  destruct st as [c f]. unfold visit.
  destruct (sym_uuid sym) as [u|]; [|reflexivity].
  destruct (_ || _); simpl; set_solver.
Qed.

Lemma visit_marks st sym : skipped (snd (visit st sym)) sym.
Proof.
  destruct st as [c f]. unfold skipped, visit.
  destruct (sym_uuid sym) as [u|] eqn:E; [|exact I].
  destruct (JsStr.truthy u) eqn:Ht; simpl; [|now left].
  case_bool_decide; simpl; right; set_solver.
Qed.

Lemma skipped_mono f f' sym : f ⊆ f' -> skipped f sym -> skipped f' sym.
Proof.
  unfold skipped. destruct (sym_uuid sym); [|trivial].
  intros Hs [H|H]; [now left|right; set_solver].
Qed.

Lemma foldl_visit_fields_mono syms st : snd st ⊆ snd (foldl visit st syms).
Proof.
  revert st. induction syms as [|x syms IH]; intros st; [reflexivity|].
  simpl. etransitivity; [apply visit_fields_mono|apply IH].
Qed.

Lemma foldl_visit_skipped syms c f :
  Forall (skipped f) syms -> foldl visit (c, f) syms = (c, f).
Proof.
  induction 1 as [|x syms Hx _ IH]; [reflexivity|].
  change (foldl visit (visit (c, f) x) syms = (c, f)).
  now rewrite visit_skipped.
Qed.

Lemma foldl_visit_marks syms st :
  Forall (skipped (snd (foldl visit st syms))) syms.
Proof.
  revert st. induction syms as [|x syms IH]; intros st; [constructor|].
  simpl. constructor; [|apply IH].
  eapply skipped_mono; [apply foldl_visit_fields_mono|apply visit_marks].
Qed.

Lemma foldl_visit_sameInputs syms st :
  sameInputs (fst st) (fst (foldl visit st syms)).
Proof.
  revert st. induction syms as [|x syms IH]; intros st; [apply sameInputs_refl|].
  simpl. eapply sameInputs_trans; [|apply IH].
  destruct st as [c f]. unfold visit.
  destruct (sym_uuid x); [|apply sameInputs_refl].
  destruct (_ || _); [apply sameInputs_refl|]. apply sameInputs_processSymbol.
Qed.

(** A second [step()] of the same stage changes nothing. *)
Lemma step_step s : step (fst (step s)) = step s.
Proof.
  unfold step at 2 3.
  destruct (kicadSch (ctx s)) as [sch|] eqn:Hs;
    [destruct (k2cMatSch (ctx s)) as [m|] eqn:Hm|].
  - destruct (foldl visit _ _) as [c f] eqn:E. simpl.
    pose proof (foldl_visit_sameInputs (default [] (sch_symbols sch))
                  (ctx s, fields s)) as [H1 H2].
    pose proof (foldl_visit_marks (default [] (sch_symbols sch))
                  (ctx s, fields s)) as Hmarks.
    rewrite E in H1, H2, Hmarks. simpl in *.
    unfold step. simpl. rewrite H1, H2, Hs, Hm.
    now rewrite foldl_visit_skipped.
  - simpl. unfold step. simpl. now rewrite Hs, Hm.
  - simpl. unfold step. simpl. now rewrite Hs.
Qed.

(** A later occurrence of a symbol in the list is without effect. *)
Lemma foldl_visit_repeat st pre sym mid post :
  foldl visit st (pre ++ sym :: mid ++ sym :: post)
  = foldl visit st (pre ++ sym :: mid ++ post).
Proof.
  rewrite !foldl_app. simpl. rewrite !foldl_app. simpl. f_equal.
  set (st1 := visit (foldl visit st pre) sym).
  destruct (foldl visit st1 mid) as [c f] eqn:E.
  apply visit_skipped.
  eapply skipped_mono; [|apply (visit_marks (foldl visit st pre) sym)].
  fold st1. replace f with (snd (foldl visit st1 mid)) by now rewrite E.
  apply foldl_visit_fields_mono.
Qed.

End SymbolFacts.

Module SymbolRecords.
Import CollectLibrarySymbolsStage SymbolSpec.


Lemma sameComponents_refl c : sameComponents c c.
Proof. now split. Qed.

Lemma sameComponents_trans c1 c2 c3 :
  sameComponents c1 c2 -> sameComponents c2 c3 -> sameComponents c1 c3.
Proof. intros [? ?] [? ?]. split; congruence. Qed.

Lemma sameComponents_createPort rot cid c pin :
  sameComponents c (createPort rot cid c pin).
Proof.
  unfold createPort. destruct (pin_sxAt pin); [|apply sameComponents_refl].
  split; rewrite DbFacts.db_ctx_insert, DbFacts.list_of_app;
    simpl; apply app_nil_r.
Qed.

Lemma sameComponents_createPorts sym cid c :
  sameComponents c (createPorts sym cid c).
Proof.
  unfold createPorts.
  destruct (_ ≫= _) as [ls|]; [|apply sameComponents_refl].
  generalize (allPins ls). intros pins. revert c.
  induction pins as [|p pins IH]; intros c; [apply sameComponents_refl|].
  simpl. eapply sameComponents_trans; [apply sameComponents_createPort|apply IH].
Qed.

Lemma sameComponents_bump c : sameComponents c (bump_components c).
Proof. unfold bump_components. destruct (stats c); now split. Qed.

(** Processing a symbol that has a uuid adds one schematic component and
    at most one source component. *)
Lemma processSymbol_records sym u m c :
  k2cMatSch c = Some m -> sym_uuid sym = Some u -> JsStr.truthy u = true ->
  (exists comp,
      Db.list_of Db.schematic_component (db (processSymbol sym c))
      = Db.list_of Db.schematic_component (db c) ++ [comp])
  /\ (length (Db.list_of Db.source_component (db (processSymbol sym c)))
      <= S (length (Db.list_of Db.source_component (db c))))%nat.
Proof.
  intros Hm Hu Ht. unfold processSymbol. rewrite Hm, Hu, Ht. cbn [negb].
  set (c1 := match List.find _ _ with Some _ => c | None => _ end).
  assert (H1 : Db.list_of Db.schematic_component (db c1)
               = Db.list_of Db.schematic_component (db c)
               /\ (length (Db.list_of Db.source_component (db c1))
                   <= S (length (Db.list_of Db.source_component (db c))))%nat).
  { unfold c1. destruct (List.find _ _); [split; [reflexivity|lia]|].
    rewrite DbFacts.db_ctx_insert, !DbFacts.list_of_app. simpl.
    rewrite app_nil_r, length_app. simpl. split; [reflexivity|lia]. }
  destruct H1 as [H1 H1'].
  destruct (ctx_insert _ _ _ _ _ c1) as [c2 ins] eqn:E2.
  assert (H2 : db c2 = db c1 ++ [ESchematicComponent ins]).
  { match type of E2 with
    | ctx_insert ?n ?k ?i ?g ?mk ?c0 = _ =>
        pose proof (DbFacts.db_ctx_insert n k i g mk c0) as H2
    end.
    now rewrite E2 in H2. }
  match goal with
  | |- context [bump_components (createPorts sym ?cid ?c3)] =>
      destruct (sameComponents_trans _ _ _
                  (sameComponents_createPorts sym cid c3)
                  (sameComponents_bump (createPorts sym cid c3))) as [G1 G2]
  end.
  rewrite G1, G2. simpl. rewrite H2, !DbFacts.list_of_app. simpl.
  rewrite app_nil_r, H1. split; [now exists ins|exact H1'].
Qed.

End SymbolRecords.

Module SymbolCount.
Import CollectLibrarySymbolsStage SymbolSpec.

Lemma usable_cons_skip sym syms :
  match sym_uuid sym with Some u => JsStr.truthy u = false | None => True end ->
  usable (sym :: syms) = usable syms.
Proof.
  unfold usable. cbn [omap list_omap]. destruct (sym_uuid sym) as [u|];
    [intros ->|intros _]; reflexivity.
Qed.

Lemma usable_cons sym u syms :
  sym_uuid sym = Some u -> JsStr.truthy u = true ->
  usable (sym :: syms) = {[u]} ∪ usable syms.
Proof.
  intros Hu Ht. unfold usable. cbn [omap list_omap]. rewrite Hu, Ht.
  reflexivity.
Qed.

Lemma fresh_size (u : string) (U f : gset string) :
  u ∉ f -> size (({[u]} ∪ U) ∖ f) = S (size (U ∖ ({[u]} ∪ f))).
Proof.
  intros Hu.
  assert (E : ({[u]} ∪ U) ∖ f = {[u]} ∪ U ∖ ({[u]} ∪ f)).
  { apply set_eq. intros x.
    rewrite elem_of_difference, !elem_of_union, elem_of_difference,
      elem_of_union, !elem_of_singleton.
    destruct (decide (x = u)) as [->|Hx]; tauto. }
  rewrite E, size_union, size_singleton; [reflexivity|].
  intros x Hx1 Hx2. apply elem_of_singleton in Hx1. subst x.
  apply elem_of_difference in Hx2. destruct Hx2 as [_ Hx2].
  apply Hx2, elem_of_union. left. now apply elem_of_singleton.
Qed.

Lemma seen_size (u : string) (U f : gset string) :
  u ∈ f -> ({[u]} ∪ U) ∖ f = U ∖ f /\ f ∪ ({[u]} ∪ U) = f ∪ U.
Proof.
  intros Hu. split; apply set_eq; intros x.
  - rewrite !elem_of_difference, elem_of_union, elem_of_singleton.
    destruct (decide (x = u)) as [->|Hx]; tauto.
  - rewrite !elem_of_union, elem_of_singleton.
    destruct (decide (x = u)) as [->|Hx]; tauto.
Qed.

(** The loop of [step] marks the usable uuids of the list and adds one
    schematic component for each of them that was not marked, however
    often it occurs in the list. *)
Lemma foldl_visit_count syms c f m :
  k2cMatSch c = Some m ->
  snd (foldl visit (c, f) syms) = f ∪ usable syms
  /\ components (fst (foldl visit (c, f) syms))
     = (components c + size (usable syms ∖ f))%nat
  /\ (sources (fst (foldl visit (c, f) syms))
      <= sources c + size (usable syms ∖ f))%nat.
Proof.
  revert c f. induction syms as [|sym syms IH]; intros c f Hm.
  - cbn [foldl fst snd]. unfold usable. cbn [omap list_omap list_to_set].
    replace (f ∪ ∅) with f by (symmetry; apply (right_id_L ∅ (∪))).
    replace (∅ ∖ f) with (∅ : gset string)
      by (symmetry; apply subseteq_empty_difference_L, empty_subseteq).
    rewrite size_empty. split; [reflexivity|split; lia].
  - cbn [foldl].
    destruct (sym_uuid sym) as [u|] eqn:Hu;
      [destruct (JsStr.truthy u) eqn:Ht;
         [destruct (decide (u ∈ f)) as [Hin|Hout]|]|].
    + rewrite (SymbolFacts.visit_skipped c f sym)
        by (unfold skipped; rewrite Hu; now right).
      rewrite (usable_cons sym u syms Hu Ht).
      destruct (seen_size u (usable syms) f Hin) as [E1 E2].
      unfold Fields in *. rewrite E1, E2.
      now apply IH.
    + assert (E : visit (c, f) sym = (processSymbol sym c, {[u]} ∪ f)).
      { unfold visit. rewrite Hu, Ht. cbn [negb orb].
        now rewrite bool_decide_eq_false_2. }
      rewrite E, (usable_cons sym u syms Hu Ht).
      destruct (SymbolRecords.processSymbol_records sym u m c Hm Hu Ht)
        as [[comp Hone] Hsrc].
      destruct (SymbolFacts.sameInputs_processSymbol sym c) as [_ Hm'].
      rewrite Hm in Hm'.
      destruct (IH (processSymbol sym c) ({[u]} ∪ f) Hm') as (I1 & I2 & I3).
      pose proof (fresh_size u (usable syms) f Hout) as Hsize.
      unfold Fields in *. rewrite I1, I2, Hsize.
      unfold components, sources in *. rewrite Hone, length_app. cbn [length].
      split; [|split; lia].
      apply set_eq. intros x. rewrite !elem_of_union. tauto.
    + rewrite (SymbolFacts.visit_skipped c f sym)
        by (unfold skipped; rewrite Hu; now left).
      rewrite (usable_cons_skip sym syms) by now rewrite Hu.
      now apply IH.
    + rewrite (SymbolFacts.visit_skipped c f sym)
        by (unfold skipped; now rewrite Hu).
      rewrite (usable_cons_skip sym syms) by now rewrite Hu.
      now apply IH.
Qed.

(** What [step] yields for the symbol list of the schematic. *)
Lemma step_count s sch m :
  kicadSch (ctx s) = Some sch -> k2cMatSch (ctx s) = Some m ->
  let symbols := default [] (sch_symbols sch) in
  fields (fst (step s)) = fields s ∪ usable symbols
  /\ components (ctx (fst (step s)))
     = (components (ctx s) + size (usable symbols ∖ fields s))%nat
  /\ (sources (ctx (fst (step s)))
      <= sources (ctx s) + size (usable symbols ∖ fields s))%nat.
Proof.
  intros Hs Hm symbols.
  destruct (foldl_visit_count symbols (ctx s) (fields s) m Hm) as (H1 & H2 & H3).
  unfold step. rewrite Hs, Hm. fold symbols.
  destruct (foldl visit (ctx s, fields s) symbols) as [c f].
  cbn [fst snd ctx fields] in *. now repeat split.
Qed.

Lemma usable_elem sym u syms :
  sym_uuid sym = Some u -> JsStr.truthy u = true -> sym ∈ syms ->
  u ∈ usable syms.
Proof.
  intros Hu Ht Hin. unfold usable. apply elem_of_list_to_set.
  apply list_elem_of_omap. exists sym. split; [exact Hin|].
  now rewrite Hu, Ht.
Qed.

Lemma usable_replicate sym u n :
  sym_uuid sym = Some u -> JsStr.truthy u = true ->
  usable (replicate (S n) sym) = {[u]}.
Proof.
  intros Hu Ht. induction n as [|n IH].
  - cbn [replicate]. rewrite (usable_cons sym u [] Hu Ht).
    unfold usable. cbn [omap list_omap list_to_set].
    apply (right_id_L ∅ (∪)).
  - change (replicate (S (S n)) sym) with (sym :: replicate (S n) sym).
    rewrite (usable_cons sym u _ Hu Ht), IH. apply (idemp_L (∪)).
Qed.

Lemma singleton_fresh_size (u : string) (f : gset string) :
  u ∉ f -> size (({[u]} : gset string) ∖ f) = 1%nat.
Proof.
  intros Hu. replace ({[u]} ∖ f) with ({[u]} : gset string).
  - apply size_singleton.
  - apply set_eq. intros x. rewrite elem_of_difference, elem_of_singleton.
    split; [intros ->; now split|tauto].
Qed.

End SymbolCount.

(** C4. A symbol with a uuid is processed once in a run: its first
    visit adds exactly one schematic component record (and at most one
    source component record), a second visit of it changes nothing, a
    later occurrence of it in the symbol list is without effect, and a
    repeated step of the pass leaves the stage as it was.  A step of the
    pass marks the usable uuids of the symbol list of the schematic and
    adds one schematic component record for each of them that was not
    marked before, however often it occurs in the list, and at most as
    many source component records; so a step on a list that holds the
    symbol twice or more, and nothing else, adds exactly one schematic
    component record. *)
Theorem symbol_processed_once (s : Stage CollectLibrarySymbolsStage.Fields)
    (m : Matrix) (sym : SchematicSymbol) (u : string) :
  k2cMatSch (ctx s) = Some m ->
  sym_uuid sym = Some u ->
  JsStr.truthy u = true ->
  u ∉ fields s ->
  let st0 := (ctx s, fields s) in
  let st1 := CollectLibrarySymbolsStage.visit st0 sym in
  let st2 := CollectLibrarySymbolsStage.visit st1 sym in
  st2 = st1
  /\ (exists comp,
        Db.list_of Db.schematic_component (db (fst st1))
        = Db.list_of Db.schematic_component (db (ctx s)) ++ [comp])
  /\ Db.list_of Db.schematic_component (db (fst st2))
     = Db.list_of Db.schematic_component (db (fst st1))
  /\ Db.list_of Db.source_component (db (fst st2))
     = Db.list_of Db.source_component (db (fst st1))
  /\ (length (Db.list_of Db.source_component (db (fst st1)))
      <= S (length (Db.list_of Db.source_component (db (ctx s)))))%nat
  /\ (forall pre mid post,
        foldl CollectLibrarySymbolsStage.visit st0
              (pre ++ sym :: mid ++ sym :: post)
        = foldl CollectLibrarySymbolsStage.visit st0
                (pre ++ sym :: mid ++ post))
  /\ CollectLibrarySymbolsStage.step (fst (CollectLibrarySymbolsStage.step s))
     = CollectLibrarySymbolsStage.step s
  /\ (forall sch,
        kicadSch (ctx s) = Some sch ->
        let symbols := default [] (sch_symbols sch) in
        let s' := fst (CollectLibrarySymbolsStage.step s) in
        fields s' = fields s ∪ SymbolSpec.usable symbols
        /\ SymbolSpec.components (ctx s')
           = (SymbolSpec.components (ctx s)
              + size (SymbolSpec.usable symbols ∖ fields s))%nat
        /\ (SymbolSpec.sources (ctx s')
            <= SymbolSpec.sources (ctx s)
               + size (SymbolSpec.usable symbols ∖ fields s))%nat
        /\ (sym ∈ symbols -> u ∈ fields s')
        /\ (forall n,
              symbols = replicate (S (S n)) sym ->
              SymbolSpec.components (ctx s')
              = S (SymbolSpec.components (ctx s))
              /\ (SymbolSpec.sources (ctx s')
                  <= S (SymbolSpec.sources (ctx s)))%nat)).
Proof.
  intros Hm Hu Ht Hf st0 st1 st2.
  assert (E : st2 = st1).
  { subst st2. destruct st1 as [c1 f1] eqn:E1.
    apply SymbolFacts.visit_skipped.
    pose proof (SymbolFacts.visit_marks st0 sym) as H. fold st1 in H.
    now rewrite E1 in H. }
  assert (E1 : st1 = (CollectLibrarySymbolsStage.processSymbol sym (ctx s),
                      {[u]} ∪ fields s)).
  { subst st1 st0. unfold CollectLibrarySymbolsStage.visit.
    rewrite Hu, Ht. simpl. now rewrite bool_decide_eq_false_2. }
  destruct (SymbolRecords.processSymbol_records sym u m (ctx s) Hm Hu Ht)
    as [Hone Hsrc].
  split; [exact E|]. rewrite E. rewrite E1. cbn [fst snd].
  split; [exact Hone|]. split; [reflexivity|]. split; [reflexivity|].
  split; [exact Hsrc|].
  split; [intros; apply SymbolFacts.foldl_visit_repeat|].
  split; [apply SymbolFacts.step_step|].
  intros sch Hs. cbv zeta.
  destruct (SymbolCount.step_count s sch m Hs Hm) as (F & C & Sr).
  cbv zeta in F, C, Sr.
  set (symbols := default [] (sch_symbols sch)) in *.
  set (s' := fst (CollectLibrarySymbolsStage.step s)) in *.
  split; [exact F|]. split; [exact C|]. split; [exact Sr|]. split.
  - intros Hin. rewrite F. apply elem_of_union. right.
    now apply (SymbolCount.usable_elem sym u symbols).
  - intros n Hn. rewrite Hn in C, Sr.
    rewrite (SymbolCount.usable_replicate sym u (S n) Hu Ht) in C, Sr.
    rewrite (SymbolCount.singleton_fresh_size u (fields s) Hf) in C, Sr.
    split; lia.
Qed.

Lemma symbol_processed_once_witness :
  SymbolSpec.components
    (ctx (fst (CollectLibrarySymbolsStage.step Examples.schematicStage)))
  = 1%nat
  /\ CollectLibrarySymbolsStage.step
       (fst (CollectLibrarySymbolsStage.step Examples.schematicStage))
     = CollectLibrarySymbolsStage.step Examples.schematicStage.
Proof.
  destruct (symbol_processed_once Examples.schematicStage
              Examples.schematicMatrix Examples.resistorSymbol "sym-1"
              eq_refl eq_refl eq_refl (not_elem_of_empty _))
    as (_ & _ & _ & _ & _ & _ & Hstep & Hcount).
  destruct (Hcount _ eq_refl) as (_ & _ & _ & _ & Htwice).
  split; [|exact Hstep].
  exact (proj1 (Htwice 0%nat eq_refl)).
Defined.

(** ** Preconditions of the passes *)

(** C5. When an input that a pass requires (the parsed tree, the
    transform or the net-name table) is absent from the context, its
    step returns normally with the stage marked finished and everything
    else as it was: the output store, the lookup tables of the context
    and the private fields of the stage are unchanged. *)
Theorem step_without_precondition (p : Pipeline.Pass)
    (s : Stage (Pipeline.fieldsOf p)) (i : Pipeline.Input) :
  i ∈ Pipeline.requires p ->
  Pipeline.present p i (ctx s) = false ->
  Pipeline.step p s = (mkStage (ctx s) true (fields s), false).
Proof.
  intros Hin Habs. destruct s as [c fin f].
  destruct p; simpl in *;
    repeat (apply elem_of_cons in Hin as [->|Hin]);
    try (now apply elem_of_nil in Hin);
    simpl in Habs;
    unfold CollectLibrarySymbolsStage.step, CollectSourceTracesStage.step,
      CollectNetsStage.step, CollectGraphicsStage.step, CollectViasStage.step,
      CollectZonesStage.step; simpl;
    destruct (kicadSch c), (kicadPcb c), (k2cMatSch c), (k2cMatPcb c),
      (netNumToName c); simpl in Habs; try discriminate; reflexivity.
Qed.

Lemma step_without_precondition_witness :
  Pipeline.step Pipeline.Vias (mkStage Examples.emptyContext false ())
  = (mkStage Examples.emptyContext true (), false).
Proof.
  apply (step_without_precondition Pipeline.Vias
           (mkStage Examples.emptyContext false ()) Pipeline.Transform).
  - cbn. apply list_elem_of_further, list_elem_of_here.
  - reflexivity.
Defined.

(** ** Net naming *)

Module NetFacts.
Import CollectNetsStage.

(** The table after the loop: the last entry of a number decides. *)
Lemma lookup_visit_other (nets : list Net) (m : gmap Z string) (n : Z) :
  n ∉ netNumOf <$> nets -> foldl visit m nets !! n = m !! n.
Proof.
  revert m. induction nets as [|net nets IH]; intros m Hn; [reflexivity|].
  rewrite fmap_cons in Hn. apply not_elem_of_cons in Hn as [Hne Hn].
  simpl. rewrite IH by exact Hn. unfold visit.
  now rewrite lookup_insert_ne.
Qed.

Lemma lookup_visit_last (pre post : list Net) (m : gmap Z string) (net : Net) :
  netNumOf net ∉ netNumOf <$> post ->
  foldl visit m (pre ++ net :: post) !! netNumOf net = Some (netNameOf net).
Proof.
  intros H. rewrite foldl_app. cbn [foldl].
  rewrite lookup_visit_other by exact H. unfold visit. apply lookup_insert_eq.
Qed.

Lemma lookup_reserveZero_ne (m : gmap Z string) (n : Z) :
  n <> 0%Z -> reserveZero m !! n = m !! n.
Proof.
  intros Hn. unfold reserveZero. destruct (m !! 0%Z); [reflexivity|].
  now rewrite lookup_insert_ne.
Qed.

Lemma lookup_reserveZero_some (m : gmap Z string) (n : Z) (s : string) :
  m !! n = Some s -> reserveZero m !! n = Some s.
Proof.
  intros H. unfold reserveZero. destruct (m !! 0%Z) eqn:E; [exact H|].
  destruct (decide (n = 0%Z)) as [->|Hn]; [congruence|].
  now rewrite lookup_insert_ne.
Qed.

Lemma lookup_reserveZero_zero (m : gmap Z string) :
  reserveZero m !! 0%Z = Some (default "" (m !! 0%Z)).
Proof.
  unfold reserveZero. destruct (m !! 0%Z) eqn:E; simpl.
  - exact E.
  - apply lookup_insert_eq.
Qed.

End NetFacts.




(** ** Rounding of doubles *)

Module RoundFacts.
Import Js RoundSpec.
#[local] Open Scope R_scope.

Lemma pow2_pos e : 0 < pow2 e.
Proof. apply powerRZ_lt. lra. Qed.

Lemma pow2_add a b : pow2 (a + b) = pow2 a * pow2 b.
Proof. apply powerRZ_add. lra. Qed.

Lemma pow2_nat (n : nat) : pow2 (Z.of_nat n) = 2 ^ n.
Proof. unfold pow2. now rewrite <- pow_powerRZ. Qed.

Lemma pow2_IZR k : (0 <= k)%Z -> pow2 k = IZR (2 ^ k).
Proof.
  intros Hk. rewrite <- (Z2Nat.id k Hk) at 1. rewrite pow2_nat.
  rewrite (pow_IZR 2). now rewrite Z2Nat.id.
Qed.

Lemma pow2_le a b : (a <= b)%Z -> pow2 a <= pow2 b.
Proof.
  intros H. replace b with (a + (b - a))%Z by lia. rewrite pow2_add.
  rewrite (pow2_IZR (b - a)) by lia.
  assert (1 <= IZR (2 ^ (b - a))).
  { apply IZR_le. assert (0 < 2 ^ (b - a))%Z by (apply Z.pow_pos_nonneg; lia). lia. }
  pose proof (pow2_pos a). nra.
Qed.

Lemma pow2_opp k : pow2 (- k) = / pow2 k.
Proof. apply powerRZ_neg'. Qed.

(** *** The nearest integer *)

Lemma nearestEven_le t (m : Z) : t <= IZR m -> (nearestEven t <= m)%Z.
Proof.
  intros H. unfold nearestEven. cbv zeta.
  destruct (base_Int_part t) as [H1 H2].
  assert (Hf : (Int_part t <= m)%Z) by (apply le_IZR; lra).
  assert (Hs : 1 / 2 <= t - IZR (Int_part t) -> (Int_part t + 1 <= m)%Z).
  { intros Hd. assert (IZR (Int_part t) < IZR m) by lra.
    apply lt_IZR in H0. lia. }
  destruct (decide (t - IZR (Int_part t) < 1 / 2)); [exact Hf|].
  assert (1 / 2 <= t - IZR (Int_part t)) by lra.
  destruct (decide (1 / 2 < t - IZR (Int_part t))); [now apply Hs|].
  destruct (Z.even (Int_part t)); [exact Hf|now apply Hs].
Qed.

Lemma nearestEven_ge t (m : Z) : IZR m <= t -> (m <= nearestEven t)%Z.
Proof.
  intros H. unfold nearestEven. cbv zeta.
  destruct (base_Int_part t) as [H1 H2].
  assert (Hf : (m <= Int_part t)%Z).
  { assert (IZR m < IZR (Int_part t + 1)) by (rewrite plus_IZR; lra).
    apply lt_IZR in H0. lia. }
  destruct (decide (t - IZR (Int_part t) < 1 / 2)); [exact Hf|].
  destruct (decide (1 / 2 < t - IZR (Int_part t))); [lia|].
  destruct (Z.even (Int_part t)); [exact Hf|lia].
Qed.

(** *** The last place *)

Lemma lastPlaceFrom_spec fuel e0 x :
  let e := lastPlaceFrom fuel e0 x in
  (e0 <= e <= e0 + Z.of_nat fuel)%Z
  /\ ((e < e0 + Z.of_nat fuel)%Z -> Rabs x < pow2 (e + 53))
  /\ ((e0 < e)%Z -> pow2 (e + 52) <= Rabs x).
Proof.
  cbv zeta. revert e0. induction fuel as [|fuel IH]; intros e0.
  - cbn [lastPlaceFrom]. split; [lia|]. split; intros; lia.
  - cbn [lastPlaceFrom].
    destruct (decide (Rabs x < pow2 (e0 + 53))) as [Hlt|Hge].
    + split; [lia|]. split; [intros _; exact Hlt|intros; lia].
    + destruct (IH (e0 + 1)%Z) as (H1 & H2 & H3).
      split; [lia|]. split; [intros H; apply H2; lia|].
      intros H. destruct (decide (lastPlaceFrom fuel (e0 + 1) x = e0 + 1)%Z)
        as [E|E].
      * rewrite E. replace (e0 + 1 + 52)%Z with (e0 + 53)%Z by lia. lra.
      * apply H3. lia.
Qed.

Lemma lastPlace_spec x :
  (-1074 <= lastPlace x <= 971)%Z
  /\ ((lastPlace x < 971)%Z -> Rabs x < pow2 (lastPlace x + 53))
  /\ ((-1074 < lastPlace x)%Z -> pow2 (lastPlace x + 52) <= Rabs x).
Proof.
  unfold lastPlace.
  destruct (lastPlaceFrom_spec 2045 (-1074) x) as (H1 & H2 & H3).
  split; [lia|]. split; [intros H; apply H2; lia|exact H3].
Qed.

Lemma normal_bounds m k :
  (2 ^ 52 <= m < 2 ^ 53)%Z ->
  pow2 (k + 52) <= IZR m * pow2 k < pow2 (k + 53).
Proof.
  intros [H1 H2]. rewrite !(Z.add_comm k), !pow2_add.
  rewrite (pow2_IZR 52), (pow2_IZR 53) by lia.
  apply IZR_le in H1. apply IZR_lt in H2. pose proof (pow2_pos k). nra.
Qed.

(** Rounding does not cross a double: it is monotone around it. *)
Lemma round64_ge d x : normal d -> d <= x -> d <= round64 x.
Proof.
  intros (m & k & -> & Hm & Hk) Hx.
  destruct (normal_bounds m k Hm) as [Hlo Hhi].
  destruct (lastPlace_spec x) as (He & Hlt & Hge).
  pose proof (pow2_pos (k + 52)) as Hp.
  assert (Habs : Rabs x = x) by (apply Rabs_right; lra).
  rewrite Habs in *. unfold round64.
  set (e := lastPlace x) in *. pose proof (pow2_pos e) as Hpe.
  assert (Hke : (k <= e)%Z).
  { destruct (Z_le_gt_dec k e) as [|Hgt]; [assumption|exfalso].
    assert (x < pow2 (e + 53)) by (apply Hlt; lia).
    assert (pow2 (e + 53) <= pow2 (k + 52)) by (apply pow2_le; lia). lra. }
  destruct (Z.eq_dec k e) as [->|Hne].
  - assert (Hn : (m <= nearestEven (x / pow2 e))%Z).
    { apply nearestEven_ge. apply Rmult_le_reg_r with (pow2 e); [exact Hpe|].
      unfold Rdiv. rewrite Rmult_assoc, Rinv_l by lra. lra. }
    apply IZR_le in Hn. nra.
  - assert (Hx2 : pow2 (e + 52) <= x) by (apply Hge; lia).
    assert (Hn : (2 ^ 52 <= nearestEven (x / pow2 e))%Z).
    { apply nearestEven_ge. apply Rmult_le_reg_r with (pow2 e); [exact Hpe|].
      unfold Rdiv. rewrite Rmult_assoc, Rinv_l by lra.
      rewrite <- (pow2_IZR 52) by lia. rewrite <- pow2_add.
      rewrite Z.add_comm. lra. }
    apply IZR_le in Hn. rewrite <- (pow2_IZR 52) in Hn by lia.
    assert (pow2 (k + 53) <= pow2 (e + 52)) by (apply pow2_le; lia).
    assert (pow2 (e + 52) = pow2 52 * pow2 e)
      by (rewrite <- pow2_add; f_equal; lia).
    nra.
Qed.

Lemma round64_nonpos x : x <= 0 -> round64 x <= 0.
Proof.
  intros Hx. unfold round64. pose proof (pow2_pos (lastPlace x)) as Hp.
  assert (Hn : (nearestEven (x / pow2 (lastPlace x)) <= 0)%Z).
  { apply nearestEven_le. unfold Rdiv.
    assert (0 < / pow2 (lastPlace x)) by now apply Rinv_0_lt_compat.
    nra. }
  apply IZR_le in Hn. nra.
Qed.

Lemma round64_nonneg x : 0 <= x -> 0 <= round64 x.
Proof.
  intros Hx. unfold round64. pose proof (pow2_pos (lastPlace x)) as Hp.
  assert (Hn : (0 <= nearestEven (x / pow2 (lastPlace x)))%Z).
  { apply nearestEven_ge. unfold Rdiv.
    assert (0 < / pow2 (lastPlace x)) by now apply Rinv_0_lt_compat.
    nra. }
  apply IZR_le in Hn. nra.
Qed.

Lemma round64_le d x : normal d -> x <= d -> round64 x <= d.
Proof.
  intros (m & k & -> & Hm & Hk) Hx.
  destruct (normal_bounds m k Hm) as [Hlo Hhi].
  pose proof (pow2_pos (k + 52)) as Hp.
  destruct (Rle_or_lt x 0) as [Hneg|Hpos].
  { pose proof (round64_nonpos x Hneg). lra. }
  destruct (lastPlace_spec x) as (He & Hlt & Hge).
  assert (Habs : Rabs x = x) by (apply Rabs_right; lra).
  rewrite Habs in *. unfold round64.
  set (e := lastPlace x) in *. pose proof (pow2_pos e) as Hpe.
  assert (Hek : (e <= k)%Z).
  { destruct (Z_le_gt_dec e k) as [|Hgt]; [assumption|exfalso].
    assert (pow2 (e + 52) <= x) by (apply Hge; lia).
    assert (pow2 (k + 53) <= pow2 (e + 52)) by (apply pow2_le; lia). lra. }
  assert (Hd : IZR m * pow2 k = IZR (m * 2 ^ (k - e)) * pow2 e).
  { rewrite mult_IZR, <- (pow2_IZR (k - e)) by lia.
    rewrite Rmult_assoc, <- pow2_add. do 2 f_equal. lia. }
  assert (Hn : (nearestEven (x / pow2 e) <= m * 2 ^ (k - e))%Z).
  { apply nearestEven_le. apply Rmult_le_reg_r with (pow2 e); [exact Hpe|].
    unfold Rdiv. rewrite Rmult_assoc, Rinv_l by lra. lra. }
  apply IZR_le in Hn. rewrite Hd. nra.
Qed.

(** A double is its own rounding. *)
Lemma round64_normal d : normal d -> round64 d = d.
Proof.
  intros H. apply Rle_antisym.
  - apply round64_le; [exact H|lra].
  - apply round64_ge; [exact H|lra].
Qed.

End RoundFacts.

Module RoundConst.
Import Js RoundSpec RoundFacts.
#[local] Open Scope R_scope.

Lemma pow2_Zneg (p : positive) : pow2 (Z.neg p) = / IZR (2 ^ Z.pos p).
Proof.
  change (Z.neg p) with (- Z.pos p)%Z. rewrite pow2_opp, pow2_IZR by lia.
  reflexivity.
Qed.

Lemma pow2_Zpos (p : positive) : pow2 (Z.pos p) = IZR (2 ^ Z.pos p).
Proof. apply pow2_IZR. lia. Qed.

(** Writes the powers of two of the goal as numerals. *)
Ltac pow2_numerals :=
  rewrite ?pow2_Zneg, ?pow2_Zpos;
  repeat match goal with
         | |- context [(2 ^ Z.pos ?p)%Z] =>
             let v := eval vm_compute in (2 ^ Z.pos p)%Z in
             change (2 ^ Z.pos p)%Z with v
         end.

Ltac pow2_numerals_in H :=
  rewrite ?pow2_Zneg, ?pow2_Zpos in H;
  repeat match type of H with
         | context [(2 ^ Z.pos ?p)%Z] =>
             let v := eval vm_compute in (2 ^ Z.pos p)%Z in
             change (2 ^ Z.pos p)%Z with v in H
         end.

(** [d] is the double [m * 2^k]. *)
Ltac normal_by m k :=
  let m' := eval vm_compute in m in
  exists m', k; split; [pow2_numerals; lra|split; [lia|lia]].

Lemma normal_45 : normal 45.
Proof. normal_by (45 * 2 ^ 47)%Z (-47)%Z. Qed.
Lemma normal_135 : normal 135.
Proof. normal_by (135 * 2 ^ 45)%Z (-45)%Z. Qed.
Lemma normal_225 : normal 225.
Proof. normal_by (225 * 2 ^ 45)%Z (-45)%Z. Qed.
Lemma normal_315 : normal 315.
Proof. normal_by (315 * 2 ^ 44)%Z (-44)%Z. Qed.
Lemma normal_360 : normal 360.
Proof. normal_by (360 * 2 ^ 44)%Z (-44)%Z. Qed.
Lemma normal_405 : normal 405.
Proof. normal_by (405 * 2 ^ 44)%Z (-44)%Z. Qed.
Lemma normal_495 : normal 495.
Proof. normal_by (495 * 2 ^ 44)%Z (-44)%Z. Qed.
Lemma normal_585 : normal 585.
Proof. normal_by (585 * 2 ^ 43)%Z (-43)%Z. Qed.
Lemma normal_675 : normal 675.
Proof. normal_by (675 * 2 ^ 43)%Z (-43)%Z. Qed.
Lemma normal_720 : normal 720.
Proof. normal_by (720 * 2 ^ 43)%Z (-43)%Z. Qed.

Lemma normal_45_below : normal (45 - pow2 (-43)).
Proof. normal_by (45 * 2 ^ 47 - 16)%Z (-47)%Z. Qed.
Lemma normal_135_below : normal (135 - pow2 (-43)).
Proof. normal_by (135 * 2 ^ 45 - 4)%Z (-45)%Z. Qed.
Lemma normal_225_below : normal (225 - pow2 (-43)).
Proof. normal_by (225 * 2 ^ 45 - 4)%Z (-45)%Z. Qed.
Lemma normal_315_below : normal (315 - pow2 (-43)).
Proof. normal_by (315 * 2 ^ 44 - 2)%Z (-44)%Z. Qed.
Lemma normal_405_below : normal (405 - pow2 (-43)).
Proof. normal_by (405 * 2 ^ 44 - 2)%Z (-44)%Z. Qed.
Lemma normal_495_below : normal (495 - pow2 (-43)).
Proof. normal_by (495 * 2 ^ 44 - 2)%Z (-44)%Z. Qed.
Lemma normal_585_below : normal (585 - pow2 (-43)).
Proof. normal_by (585 * 2 ^ 43 - 1)%Z (-43)%Z. Qed.
Lemma normal_675_below : normal (675 - pow2 (-43)).
Proof. normal_by (675 * 2 ^ 43 - 1)%Z (-43)%Z. Qed.

End RoundConst.

Module RoundTies.
Import Js RoundSpec RoundFacts RoundConst.
#[local] Open Scope R_scope.

Lemma lastPlace_unique x (e : Z) :
  (-1074 < e < 971)%Z -> pow2 (e + 52) <= Rabs x < pow2 (e + 53) ->
  lastPlace x = e.
Proof.
  intros He [Hlo Hhi].
  destruct (lastPlace_spec x) as (Hr & Hlt & Hge).
  destruct (Z.lt_trichotomy (lastPlace x) e) as [H|[H|H]]; [exfalso|exact H|exfalso].
  - assert (Rabs x < pow2 (lastPlace x + 53)) by (apply Hlt; lia).
    assert (pow2 (lastPlace x + 53) <= pow2 (e + 52)) by (apply pow2_le; lia).
    lra.
  - assert (pow2 (lastPlace x + 52) <= Rabs x) by (apply Hge; lia).
    assert (pow2 (e + 53) <= pow2 (lastPlace x + 52)) by (apply pow2_le; lia).
    lra.
Qed.

Lemma nearestEven_half (f : Z) :
  nearestEven (IZR f + 1 / 2) = if Z.even f then f else (f + 1)%Z.
Proof.
  unfold nearestEven. cbv zeta.
  assert (E : Int_part (IZR f + 1 / 2) = f).
  { symmetry. apply Int_part_spec. lra. }
  rewrite E.
  destruct (decide (IZR f + 1 / 2 - IZR f < 1 / 2)); [lra|].
  destruct (decide (1 / 2 < IZR f + 1 / 2 - IZR f)); [lra|reflexivity].
Qed.

Lemma nearestEven_upper (f : Z) t :
  IZR f + 1 / 2 < t < IZR f + 1 -> nearestEven t = (f + 1)%Z.
Proof.
  intros Ht. unfold nearestEven. cbv zeta.
  assert (E : Int_part t = f).
  { symmetry. apply Int_part_spec. lra. }
  rewrite E.
  destruct (decide (t - IZR f < 1 / 2)); [lra|].
  destruct (decide (1 / 2 < t - IZR f)); [reflexivity|lra].
Qed.

(** The sum [315 - 2^-44 + 360] is halfway between two doubles and is
    rounded to the even one, 675. *)
Lemma round64_tie_675 : round64 (675 - pow2 (-44)) = 675.
Proof.
  assert (Hx : 512 <= 675 - pow2 (-44) < 1024) by (pow2_numerals; lra).
  assert (E : lastPlace (675 - pow2 (-44)) = (-43)%Z).
  { apply lastPlace_unique; [lia|]. rewrite Rabs_right by lra.
    change (-43 + 52)%Z with 9%Z. change (-43 + 53)%Z with 10%Z.
    pow2_numerals. pow2_numerals_in Hx. lra. }
  unfold round64. rewrite E.
  replace ((675 - pow2 (-44)) / pow2 (-43))
    with (IZR (675 * 2 ^ 43 - 1) + 1 / 2).
  - rewrite nearestEven_half.
    replace (Z.even (675 * 2 ^ 43 - 1)) with false by (vm_compute; reflexivity).
    replace (675 * 2 ^ 43 - 1 + 1)%Z with (675 * 2 ^ 43)%Z by lia.
    let v := eval vm_compute in (675 * 2 ^ 43)%Z in
    change (675 * 2 ^ 43)%Z with v.
    pow2_numerals. lra.
  - let v := eval vm_compute in (675 * 2 ^ 43 - 1)%Z in
    change (675 * 2 ^ 43 - 1)%Z with v.
    pow2_numerals. lra.
Qed.

(** The sum [45 - 2^-47 + 360] is nearer to 405 than to the double
    below it. *)
Lemma round64_near_405 : round64 (405 - pow2 (-47)) = 405.
Proof.
  assert (Hx : 256 <= 405 - pow2 (-47) < 512) by (pow2_numerals; lra).
  assert (E : lastPlace (405 - pow2 (-47)) = (-44)%Z).
  { apply lastPlace_unique; [lia|]. rewrite Rabs_right by lra.
    change (-44 + 52)%Z with 8%Z. change (-44 + 53)%Z with 9%Z.
    pow2_numerals. pow2_numerals_in Hx. lra. }
  unfold round64. rewrite E.
  rewrite (nearestEven_upper (405 * 2 ^ 44 - 1)).
  - replace (405 * 2 ^ 44 - 1 + 1)%Z with (405 * 2 ^ 44)%Z by lia.
    let v := eval vm_compute in (405 * 2 ^ 44)%Z in
    change (405 * 2 ^ 44)%Z with v.
    pow2_numerals. lra.
  - let v := eval vm_compute in (405 * 2 ^ 44 - 1)%Z in
    change (405 * 2 ^ 44 - 1)%Z with v.
    pow2_numerals. split; lra.
Qed.

End RoundTies.

(** ** Rotation to direction *)

Module RotationFacts.
Import Js RoundSpec RoundFacts RoundConst RotationSpec.
#[local] Open Scope R_scope.

Lemma trunc_nonneg x : 0 <= x -> IZR (Js.trunc x) <= x < IZR (Js.trunc x) + 1.
Proof.
  intros Hx. unfold Js.trunc. destruct (decide (0 <= x)) as [_|]; [|lra].
  destruct (base_Int_part x). lra.
Qed.

Lemma trunc_neg x : x < 0 -> x <= IZR (Js.trunc x) < x + 1.
Proof.
  intros Hx. unfold Js.trunc. destruct (decide (0 <= x)) as [|_]; [lra|].
  rewrite opp_IZR. destruct (base_Int_part (- x)). lra.
Qed.

(** A remainder differs from its dividend by a multiple of the divisor. *)
Lemma rem_congr x m : exists k : Z, Js.rem x m = x + m * IZR k.
Proof.
  exists (- Js.trunc (x / m))%Z. unfold Js.rem. rewrite opp_IZR. lra.
Qed.

Lemma rem_bounds_nonneg x m : 0 < m -> 0 <= x -> 0 <= Js.rem x m < m.
Proof.
  intros Hm Hx. unfold Js.rem.
  assert (Hq : 0 <= x / m) by (apply Rle_mult_inv_pos; lra).
  destruct (trunc_nonneg _ Hq) as [H1 H2].
  assert (Hxm : x = x / m * m) by (field; lra).
  split; nra.
Qed.

Lemma rem_bounds_neg x m : 0 < m -> x < 0 -> - m < Js.rem x m <= 0.
Proof.
  intros Hm Hx. unfold Js.rem.
  assert (Hq : x / m < 0).
  { unfold Rdiv. assert (0 < / m) by (apply Rinv_0_lt_compat; lra). nra. }
  destruct (trunc_neg _ Hq) as [H1 H2].
  assert (Hxm : x = x / m * m) by (field; lra).
  split; nra.
Qed.

(** Two angles of [0, 360) that differ by whole turns are equal. *)
Lemma residue_unique a b (k : Z) :
  0 <= a < 360 -> 0 <= b < 360 -> a = b + 360 * IZR k -> a = b.
Proof.
  intros Ha Hb E.
  assert (H1 : IZR (-1) < IZR k) by lra.
  assert (H2 : IZR k < IZR 1) by lra.
  apply lt_IZR in H1, H2. assert (k = 0%Z) by lia. subst k. lra.
Qed.

(** *** The residue of a rotation *)

Lemma residue_range r : 0 <= residue r < 360.
Proof.
  unfold residue. destruct (base_Int_part (r / 360)) as [H1 H2].
  assert (Hr : r = r / 360 * 360) by (field; lra).
  split; lra.
Qed.

Lemma residue_congr r : exists k : Z, residue r = r + 360 * IZR k.
Proof.
  exists (- Int_part (r / 360))%Z. unfold residue. rewrite opp_IZR. lra.
Qed.

Lemma residue_id r : 0 <= r < 360 -> residue r = r.
Proof.
  intros Hr. destruct (residue_congr r) as [k E].
  apply (residue_unique _ _ k); [apply residue_range|exact Hr|exact E].
Qed.

Lemma residue_periodic r (k : Z) : residue (r + 360 * IZR k) = residue r.
Proof.
  destruct (residue_congr (r + 360 * IZR k)) as [k1 E1].
  destruct (residue_congr r) as [k2 E2].
  apply (residue_unique _ _ (k + k1 - k2)%Z); auto using residue_range.
  rewrite minus_IZR, plus_IZR. lra.
Qed.

(** Adding 90 degrees moves the residue by 90, around 360. *)
Lemma residue_quarter r :
  residue (r + 90)
  = if decide (residue r < 270) then residue r + 90 else residue r - 270.
Proof.
  pose proof (residue_range r) as Hn.
  destruct (residue_congr (r + 90)) as [k1 E1].
  destruct (residue_congr r) as [k2 E2].
  destruct (decide (residue r < 270)) as [H|H].
  - apply (residue_unique _ _ (k1 - k2)%Z); [apply residue_range|lra|].
    rewrite minus_IZR. lra.
  - apply (residue_unique _ _ (k1 - k2 + 1)%Z); [apply residue_range|lra|].
    rewrite plus_IZR, minus_IZR. lra.
Qed.

(** The remainder of a rotation is its residue, or its residue less a
    whole turn when the rotation is negative and no multiple of 360. *)
Lemma rem_residue_nonneg r : 0 <= r -> Js.rem r 360 = residue r.
Proof.
  intros Hr. destruct (rem_congr r 360) as [k1 E1].
  destruct (residue_congr r) as [k2 E2].
  apply (residue_unique _ _ (k1 - k2)%Z);
    [apply rem_bounds_nonneg; lra|apply residue_range|].
  rewrite minus_IZR. lra.
Qed.

Lemma rem_residue_neg r :
  r < 0 ->
  (Js.rem r 360 = 0 /\ residue r = 0)
  \/ (Js.rem r 360 = residue r - 360 /\ 0 < residue r).
Proof.
  intros Hr. destruct (rem_congr r 360) as [k1 E1].
  destruct (residue_congr r) as [k2 E2].
  pose proof (rem_bounds_neg r 360 ltac:(lra) Hr) as Hb.
  pose proof (residue_range r) as Hn.
  destruct (Req_dec (Js.rem r 360) 0) as [H0|H0].
  - left. split; [exact H0|].
    apply (residue_unique _ _ (k2 - k1)%Z); [exact Hn|lra|].
    rewrite minus_IZR. lra.
  - right.
    assert (E : Js.rem r 360 + 360 = residue r).
    { apply (residue_unique _ _ (k1 + 1 - k2)%Z); [lra|exact Hn|].
      rewrite minus_IZR, plus_IZR. lra. }
    split; lra.
Qed.

Lemma rem_id x : 0 <= x < 360 -> Js.rem x 360 = x.
Proof.
  intros Hx. destruct (rem_congr x 360) as [k E].
  apply (residue_unique _ _ k); [apply rem_bounds_nonneg; lra|exact Hx|exact E].
Qed.

Lemma rem_turn x : 360 <= x < 720 -> Js.rem x 360 = x - 360.
Proof.
  intros Hx. destruct (rem_congr x 360) as [k E].
  apply (residue_unique _ _ (k + 1)%Z); [apply rem_bounds_nonneg; lra|lra|].
  rewrite plus_IZR. lra.
Qed.

Lemma rem_neg_id x : -360 < x <= 0 -> Js.rem x 360 = x.
Proof.
  intros Hx. destruct (Req_dec x 0) as [->|Hn]; [apply rem_id; lra|].
  destruct (rem_congr x 360) as [k E].
  pose proof (rem_bounds_neg x 360 ltac:(lra) ltac:(lra)) as Hb.
  assert (H1 : IZR (-1) < IZR k) by lra.
  assert (H2 : IZR k < IZR 1) by lra.
  apply lt_IZR in H1, H2. assert (k = 0%Z) by lia. subst k. lra.
Qed.

Lemma rem_360 : Js.rem 360 360 = 0.
Proof.
  destruct (rem_congr 360 360) as [k E].
  apply (residue_unique _ _ (k + 1)%Z); [apply rem_bounds_nonneg; lra|lra|].
  rewrite plus_IZR. lra.
Qed.

Lemma rem_720 : Js.rem 720 360 = 0.
Proof.
  destruct (rem_congr 720 360) as [k E].
  apply (residue_unique _ _ (k + 2)%Z); [apply rem_bounds_nonneg; lra|lra|].
  rewrite plus_IZR. lra.
Qed.

Lemma margin_pos : 0 < margin.
Proof. apply pow2_pos. Qed.

Lemma margin_small : margin < 1.
Proof. unfold margin. pow2_numerals. lra. Qed.

(** *** The normalised angle *)

(** The sum of the normalisation, rounded, for a rotation that is not
    negative. *)
Lemma sum_nonneg n :
  0 <= n < 360 ->
  let s := Js.add n 360 in
  360 <= s <= 720
  /\ (forall b, normal (b + 360) -> b <= n -> b + 360 <= s)
  /\ (forall b, normal (b + 360 - margin) -> n <= b - margin ->
                s <= b + 360 - margin).
Proof.
  intros Hn s. unfold s, Js.add. split; [split|split].
  - apply round64_ge; [apply normal_360|lra].
  - apply round64_le; [apply normal_720|lra].
  - intros b Hb H. apply round64_ge; [exact Hb|lra].
  - intros b Hb H. apply round64_le; [exact Hb|lra].
Qed.

Lemma normalizeRotation_nonneg r :
  0 <= r -> follows (residue r) (normalizeRotation r).
Proof.
  intros Hr. unfold normalizeRotation. rewrite (rem_residue_nonneg r Hr).
  pose proof (residue_range r) as Hn. pose proof margin_pos as Hm.
  destruct (sum_nonneg (residue r) Hn) as ([Hlo Hhi] & Hge & Hle).
  cbv zeta in *. set (s := Js.add (residue r) 360) in *.
  assert (H315 : residue r <= 315 - margin -> s <= 675 - margin).
  { intros H. replace (675 - margin) with (315 + 360 - margin) by lra.
    apply Hle; [|exact H].
    replace (315 + 360 - margin) with (675 - pow2 (-43)) by (unfold margin; lra).
    apply normal_675_below. }
  destruct (Req_dec s 720) as [E|E].
  - left. rewrite E. split; [apply rem_720|].
    destruct (Rle_or_lt 315 (residue r)) as [H|H]; [exact H|exfalso].
    assert (s <= 675) by (apply round64_le; [apply normal_675|lra]). lra.
  - right. rewrite rem_turn by lra.
    assert (G : forall b, normal (b + 360) -> b <= residue r -> b <= s - 360).
    { intros b Hb H. specialize (Hge b Hb H). lra. }
    assert (L : forall b, normal (b + 360 - margin) ->
                          residue r <= b - margin -> s - 360 < b).
    { intros b Hb H. specialize (Hle b Hb H). lra. }
    repeat split.
    + apply G. replace (45 + 360) with 405 by lra. apply normal_405.
    + apply L. replace (45 + 360 - margin) with (405 - pow2 (-43))
        by (unfold margin; lra). apply normal_405_below.
    + apply G. replace (135 + 360) with 495 by lra. apply normal_495.
    + apply L. replace (135 + 360 - margin) with (495 - pow2 (-43))
        by (unfold margin; lra). apply normal_495_below.
    + apply G. replace (225 + 360) with 585 by lra. apply normal_585.
    + apply L. replace (225 + 360 - margin) with (585 - pow2 (-43))
        by (unfold margin; lra). apply normal_585_below.
    + apply G. replace (315 + 360) with 675 by lra. apply normal_675.
    + apply L. replace (315 + 360 - margin) with (675 - pow2 (-43))
        by (unfold margin; lra). apply normal_675_below.
Qed.

Lemma normalizeRotation_neg r :
  r < 0 -> follows (residue r) (normalizeRotation r).
Proof.
  intros Hr. unfold normalizeRotation. pose proof margin_pos as Hm.
  pose proof margin_small as Hm1.
  destruct (rem_residue_neg r Hr) as [[E0 En]|[E Hn]].
  - rewrite E0, En. right.
    replace (Js.add 0 360) with 360.
    + rewrite rem_360. repeat split; intros; lra.
    + unfold Js.add. replace (0 + 360) with 360 by lra.
      symmetry. apply round64_normal, normal_360.
  - rewrite E. pose proof (residue_range r) as Hrange.
    unfold Js.add.
    replace (residue r - 360 + 360) with (residue r) by lra.
    set (s := Js.round64 (residue r)).
    assert (Hs0 : 0 <= s) by (apply round64_nonneg; lra).
    assert (Hs360 : s <= 360) by (apply round64_le; [apply normal_360|lra]).
    destruct (Req_dec s 360) as [E360|E360].
    + left. rewrite E360. split; [apply rem_360|].
      destruct (Rle_or_lt 315 (residue r)) as [H|H]; [exact H|exfalso].
      assert (s <= 315) by (apply round64_le; [apply normal_315|lra]). lra.
    + right. rewrite rem_id by lra.
      assert (G : forall b, normal b -> b <= residue r -> b <= s).
      { intros b Hb H. apply round64_ge; assumption. }
      assert (L : forall b, normal (b - pow2 (-43)) ->
                            residue r <= b - margin -> s < b).
      { intros b Hb H.
        assert (s <= b - pow2 (-43)) by (apply round64_le; assumption).
        unfold margin in Hm. lra. }
      repeat split.
      * apply G, normal_45.
      * apply L, normal_45_below.
      * apply G, normal_135.
      * apply L, normal_135_below.
      * apply G, normal_225.
      * apply L, normal_225_below.
      * apply G, normal_315.
      * apply L, normal_315_below.
Qed.

Lemma normalizeRotation_follows r : follows (residue r) (normalizeRotation r).
Proof.
  destruct (Rle_or_lt 0 r);
    [now apply normalizeRotation_nonneg|now apply normalizeRotation_neg].
Qed.

Lemma normalizeRotation_range r : 0 <= normalizeRotation r < 360.
Proof.
  unfold normalizeRotation. apply rem_bounds_nonneg; [lra|].
  apply round64_nonneg.
  destruct (Rle_or_lt 0 r) as [H|H].
  - destruct (rem_bounds_nonneg r 360 ltac:(lra) H). lra.
  - destruct (rem_bounds_neg r 360 ltac:(lra) H). lra.
Qed.

(** The quadrant table, on the normalised angle. *)
Lemma rotationToDirection_table r :
  let n := normalizeRotation r in
  ((315 <= n \/ n < 45) -> rotationToDirection r = Up)
  /\ (45 <= n < 135 -> rotationToDirection r = Right)
  /\ (135 <= n < 225 -> rotationToDirection r = Down)
  /\ (225 <= n < 315 -> rotationToDirection r = Left).
Proof.
  unfold rotationToDirection. cbv zeta. unfold Js.geb, Js.ltb.
  repeat split; intros H; repeat case_bool_decide; simpl; try reflexivity; lra.
Qed.

(** The direction of a rotation clear of the strips is the quadrant of
    its residue. *)
Lemma rotationToDirection_quadrant r :
  clear r -> rotationToDirection r = quadrant (residue r).
Proof.
  intros (C45 & C135 & C225 & C315).
  pose proof (normalizeRotation_follows r) as F.
  pose proof (normalizeRotation_range r) as Hv.
  pose proof (residue_range r) as Hn. pose proof margin_pos as Hm.
  unfold rotationToDirection, quadrant, clearOf in *. cbv zeta.
  unfold Js.geb, Js.ltb.
  destruct F as [[E0 H]|F].
  - rewrite E0. rewrite decide_True by (now left).
    repeat case_bool_decide; cbn; try reflexivity; lra.
  - destruct F as (F1 & F2 & F3 & F4 & F5 & F6 & F7 & F8).
    destruct (decide (315 <= residue r \/ residue r < 45)) as [[Q|Q]|Q].
    + specialize (F7 Q). repeat case_bool_decide; cbn; try reflexivity; lra.
    + assert (Q' : residue r <= 45 - margin) by lra. specialize (F2 Q').
      repeat case_bool_decide; cbn; try reflexivity; lra.
    + apply Decidable.not_or in Q. destruct Q as [Q1 Q2].
      assert (Q3 : 45 <= residue r) by lra. specialize (F1 Q3).
      assert (Q4 : residue r <= 315 - margin) by lra. specialize (F8 Q4).
      repeat case_decide.
      * assert (Q5 : residue r <= 135 - margin) by lra. specialize (F4 Q5).
        repeat case_bool_decide; cbn; try reflexivity; lra.
      * assert (Q5 : 135 <= residue r) by lra. specialize (F3 Q5).
        assert (Q6 : residue r <= 225 - margin) by lra. specialize (F6 Q6).
        repeat case_bool_decide; cbn; try reflexivity; lra.
      * assert (Q5 : 225 <= residue r) by lra. specialize (F5 Q5).
        repeat case_bool_decide; cbn; try reflexivity; lra.
Qed.

Lemma clear_periodic r (k : Z) : clear r -> clear (r + 360 * IZR k).
Proof. unfold clear. now rewrite residue_periodic. Qed.

Lemma clear_quarter r : clear r -> clear (r + 90).
Proof.
  unfold clear, clearOf. rewrite residue_quarter.
  pose proof (residue_range r). pose proof margin_pos.
  pose proof margin_small.
  intros (C1 & C2 & C3 & C4). destruct (decide (residue r < 270)); lra.
Qed.

Lemma clear_id r :
  0 <= r < 360 ->
  (45 <= r \/ r <= 45 - margin) -> (135 <= r \/ r <= 135 - margin) ->
  (225 <= r \/ r <= 225 - margin) -> (315 <= r \/ r <= 315 - margin) ->
  clear r.
Proof. intros Hr. unfold clear, clearOf. now rewrite residue_id. Qed.

Lemma rotationToDirection_periodic r (k : Z) :
  clear r -> rotationToDirection (r + 360 * IZR k) = rotationToDirection r.
Proof.
  intros C. rewrite !rotationToDirection_quadrant;
    [now rewrite residue_periodic|exact C|now apply clear_periodic].
Qed.

Lemma quadrant_quarter n :
  0 <= n < 360 ->
  quadrant (if decide (n < 270) then n + 90 else n - 270)
  = match quadrant n with
    | Up => Right | Right => Down | Down => Left | Left => Up
    end.
Proof.
  intros Hn. unfold quadrant.
  destruct (decide (n < 270));
    repeat match goal with
           | |- context [decide ?P] => destruct (decide P)
           end;
    repeat match goal with
           | H : ~ (_ \/ _) |- _ =>
               apply Decidable.not_or in H; destruct H
           | H : _ \/ _ |- _ => destruct H
           end;
    try reflexivity; lra.
Qed.

Lemma clear_90 : clear 90.
Proof.
  pose proof margin_small. pose proof margin_pos.
  apply clear_id; lra.
Qed.

Lemma rotationToDirection_90 : rotationToDirection 90 = Right.
Proof.
  rewrite rotationToDirection_quadrant by apply clear_90.
  rewrite residue_id by lra. unfold quadrant.
  rewrite decide_False by (intros [?|?]; lra).
  rewrite decide_True by lra. reflexivity.
Qed.

End RotationFacts.

Module RotationExamples.
Import Js RoundSpec RoundFacts RoundConst RoundTies RotationSpec RotationFacts.
#[local] Open Scope R_scope.

Lemma left_of_minus_45 : rotationToDirection (- 45 - pow2 (-44)) = Left.
Proof.
  assert (Hr : -360 < - 45 - pow2 (-44) <= 0) by (pow2_numerals; lra).
  apply rotationToDirection_table. cbv zeta. unfold normalizeRotation.
  rewrite (rem_neg_id _ Hr). unfold Js.add.
  replace (- 45 - pow2 (-44) + 360) with (315 - pow2 (-44)) by lra.
  rewrite round64_normal.
  - rewrite rem_id; pow2_numerals; lra.
  - normal_by (315 * 2 ^ 44 - 1)%Z (-44)%Z.
Qed.

Lemma up_of_315_less : rotationToDirection (- 45 - pow2 (-44) + 360 * IZR 1) = Up.
Proof.
  replace (- 45 - pow2 (-44) + 360 * IZR 1) with (315 - pow2 (-44)) by lra.
  assert (Hr : 0 <= 315 - pow2 (-44) < 360) by (pow2_numerals; lra).
  apply rotationToDirection_table. cbv zeta. unfold normalizeRotation.
  rewrite (rem_id _ Hr). unfold Js.add.
  replace (315 - pow2 (-44) + 360) with (675 - pow2 (-44)) by lra.
  rewrite round64_tie_675, rem_turn by lra. lra.
Qed.

Lemma right_below_45 : rotationToDirection (45 - pow2 (-47)) = Right.
Proof.
  assert (Hr : 0 <= 45 - pow2 (-47) < 360) by (pow2_numerals; lra).
  apply rotationToDirection_table. cbv zeta. unfold normalizeRotation.
  rewrite (rem_id _ Hr). unfold Js.add.
  replace (45 - pow2 (-47) + 360) with (405 - pow2 (-47)) by lra.
  rewrite round64_near_405, rem_turn by lra. lra.
Qed.

End RotationExamples.

(** C8. For a rotation clear of the strips below the quadrant
    boundaries (a residue less than 2^-43 below 45, 135, 225 or 315 is
    in a strip), the direction does not change when whole turns (360
    degrees times any integer) are added to the rotation.  The residue
    of the rotation is the angle of [0, 360) that differs from it by
    whole turns, the rotation itself when it is in [0, 360); on the
    residue the quadrants [315, 45), [45, 135), [135, 225) and
    [225, 315) give up, right, down and left. *)
Theorem rotationToDirection_periodic_quadrants (r : R) (k : Z) :
  RotationSpec.clear r ->
  rotationToDirection (r + 360 * IZR k) = rotationToDirection r
  /\ (0 <= RotationSpec.residue r < 360)%R
  /\ (exists j : Z, RotationSpec.residue r = (r + 360 * IZR j)%R)
  /\ ((0 <= r < 360)%R -> RotationSpec.residue r = r)
  /\ ((315 <= RotationSpec.residue r \/ RotationSpec.residue r < 45)%R ->
      rotationToDirection r = Up)
  /\ ((45 <= RotationSpec.residue r < 135)%R -> rotationToDirection r = Right)
  /\ ((135 <= RotationSpec.residue r < 225)%R -> rotationToDirection r = Down)
  /\ ((225 <= RotationSpec.residue r < 315)%R -> rotationToDirection r = Left).
Proof.
  intros C.
  split; [now apply RotationFacts.rotationToDirection_periodic|].
  split; [apply RotationFacts.residue_range|].
  split; [apply RotationFacts.residue_congr|].
  split; [apply RotationFacts.residue_id|].
  rewrite (RotationFacts.rotationToDirection_quadrant r C).
  unfold RotationSpec.quadrant.
  repeat split; intros H.
  - now rewrite decide_True.
  - rewrite decide_False by (intros [?|?]; lra). now rewrite decide_True by lra.
  - rewrite decide_False by (intros [?|?]; lra).
    rewrite decide_False by lra. now rewrite decide_True by lra.
  - rewrite decide_False by (intros [?|?]; lra).
    rewrite decide_False by lra. now rewrite decide_False by lra.
Qed.

Lemma rotationToDirection_periodic_quadrants_witness :
  rotationToDirection (100 + 360 * IZR 2) = rotationToDirection 100
  /\ rotationToDirection 100 = Right.
Proof.
  assert (C : RotationSpec.clear 100).
  { pose proof RotationFacts.margin_pos. pose proof RotationFacts.margin_small.
    apply RotationFacts.clear_id; lra. }
  destruct (rotationToDirection_periodic_quadrants 100 2 C)
    as (Hper & _ & _ & Hid & _ & Hright & _).
  split; [exact Hper|].
  apply Hright. rewrite Hid; lra.
Defined.

(** C8 as stated fails in the strips: the rotation [-45 - 2^-44] faces
    left and a whole turn more faces up, since the sum
    [315 - 2^-44 + 360] of the normalisation is rounded to 675; and the
    angle [45 - 2^-47] of [0, 45) faces right, since its sum with 360 is
    rounded to 405. *)
Lemma rotationToDirection_strip_counterexample :
  rotationToDirection (- 45 - Js.pow2 (-44) + 360 * IZR 1)
  <> rotationToDirection (- 45 - Js.pow2 (-44))
  /\ rotationToDirection (- 45 - Js.pow2 (-44)) = Left
  /\ rotationToDirection (- 45 - Js.pow2 (-44) + 360 * IZR 1) = Up
  /\ (0 <= 45 - Js.pow2 (-47) < 45)%R
  /\ rotationToDirection (45 - Js.pow2 (-47)) = Right.
Proof.
  rewrite RotationExamples.left_of_minus_45, RotationExamples.up_of_315_less,
    RotationExamples.right_below_45.
  split; [discriminate|]. split; [reflexivity|]. split; [reflexivity|].
  split; [|reflexivity].
  RoundConst.pow2_numerals. lra.
Qed.

(** ** Schematic ports *)

Module PortFacts.
Import CollectLibrarySymbolsStage.
#[local] Open Scope R_scope.

Lemma scaleFactor_abs m : ma m <> 0 -> scaleFactor (Some m) = Rabs (ma m).
Proof.
  intros H. unfold scaleFactor, Js.or_num.
  destruct (decide (ma m = 0)); [contradiction|reflexivity].
Qed.

Lemma quarter_turn : 90 * PI / 180 = PI / 2.
Proof. field. Qed.

Lemma rotatedPinPos_90 angle :
  rotatedPinPos 90 (mkAt 1 0 angle) = {| px := 0; py := 1 |}.
Proof.
  unfold rotatedPinPos. simpl. rewrite quarter_turn, cos_PI2, sin_PI2.
  f_equal; ring.
Qed.

End PortFacts.

(** C7. A pin with local offset (x, y) on a component rotated by theta
    degrees yields one port whose centre is the offset rotated by the
    matrix of the angle theta * PI / 180, scaled by the magnitude of the
    scale coefficient of the transform, the rotated Y negated.  With
    rotation 90 and offset (1, 0) the rotated offset is (0, 1) and the
    centre is (0, -1) times that magnitude; a total rotation of 90 faces
    right. *)
Theorem createPort_center (c : ConverterContext) (m : Matrix) (theta : R)
    (componentId : string) (pin : Pin) (pinAt : At) :
  k2cMatSch c = Some m ->
  ma m <> 0%R ->
  pin_sxAt pin = Some pinAt ->
  let rad := (theta * PI / 180)%R in
  let rx := (at_x pinAt * cos rad - at_y pinAt * sin rad)%R in
  let ry := (at_x pinAt * sin rad + at_y pinAt * cos rad)%R in
  (exists port,
      Db.list_of Db.schematic_port
        (db (CollectLibrarySymbolsStage.createPort theta componentId c pin))
      = Db.list_of Db.schematic_port (db c) ++ [port]
      /\ schp_schematic_component_id port = componentId
      /\ schp_center port
         = {| px := (rx * Rabs (ma m))%R; py := (- ry * Rabs (ma m))%R |}
      /\ schp_facing_direction port
         = rotationToDirection
             (default 0%R (a ← pin_at pin; at_angle a) + theta))
  /\ CollectLibrarySymbolsStage.rotatedPinPos 90 (mkAt 1 0 (at_angle pinAt))
     = {| px := 0; py := 1 |}
  /\ (forall id,
        schp_center
          (CollectLibrarySymbolsStage.port_of_pin (Some m) 90 componentId pin
             (mkAt 1 0 (at_angle pinAt)) id)
        = {| px := (0 * Rabs (ma m))%R; py := (- 1 * Rabs (ma m))%R |})
  /\ rotationToDirection 90 = Right.
Proof.
  intros Hm Ha Hat rad rx ry. repeat split.
  - unfold CollectLibrarySymbolsStage.createPort. rewrite Hat.
    rewrite DbFacts.db_ctx_insert, DbFacts.list_of_app. simpl.
    eexists. split; [reflexivity|]. simpl. rewrite Hm.
    rewrite PortFacts.scaleFactor_abs by exact Ha.
    repeat split.
  - apply PortFacts.rotatedPinPos_90.
  - unfold CollectLibrarySymbolsStage.port_of_pin. cbn [schp_center].
    rewrite PortFacts.rotatedPinPos_90, PortFacts.scaleFactor_abs by exact Ha.
    reflexivity.
  - apply RotationFacts.rotationToDirection_90.
Qed.

Lemma createPort_center_witness :
  exists port,
    Db.list_of Db.schematic_port
      (db (CollectLibrarySymbolsStage.createPort 90 "schematic_component_0"
             Examples.schematicContext Examples.resistorPin))
    = Db.list_of Db.schematic_port (db Examples.schematicContext) ++ [port]
    /\ schp_center port
       = {| px := (0 * Rabs (1 / 15))%R; py := (- 1 * Rabs (1 / 15))%R |}
    /\ schp_facing_direction port = Right.
Proof.
  assert (Ha : ma Examples.schematicMatrix <> 0%R)
    by (cbn; lra).
  destruct (createPort_center Examples.schematicContext Examples.schematicMatrix
              90 "schematic_component_0" Examples.resistorPin (mkAt 1 0 None)
              eq_refl Ha eq_refl)
    as ((port & Hl & _ & Hc & Hd) & _ & _ & H90).
  exists port. split; [exact Hl|]. split.
  - rewrite Hc. cbn [at_x at_y Examples.schematicMatrix ma].
    rewrite PortFacts.quarter_turn, cos_PI2, sin_PI2. f_equal; ring.
  - rewrite Hd. cbn [Examples.resistorPin pin_at mbind option_bind default].
    rewrite Rplus_0_l. exact H90.
Defined.

(** ** Outline reconstruction *)

Module OutlineTransfer.
Import CollectGraphicsStage OutlineSpec.

Lemma findIndex_fmap {A B} (F : A -> B) (f : B -> bool) (l : list A) :
  findIndex f (F <$> l) = findIndex (fun x => f (F x)) l.
Proof.
  induction l as [|x l IH]; [reflexivity|].
  rewrite fmap_cons. cbn [findIndex]. now rewrite IH.
Qed.

Lemma findIndex_ext {A} (f f' : A -> bool) (l : list A) :
  (forall x, f x = f' x) -> findIndex f l = findIndex f' l.
Proof.
  intros H. induction l as [|x l IH]; [reflexivity|].
  cbn [findIndex]. now rewrite H, IH.
Qed.

Section Transfer.
Context {P Q I J : Type}.
Variable same : P -> P -> bool.
Variable toOutput : P -> Q.
Variable sameOut : Q -> Q -> bool.
Variable sameI : I -> I -> bool.
Variable toOutputI : I -> J.
Variable sameOutI : J -> J -> bool.
Variable g : I -> P.
Variable h : J -> Q.
Hypothesis same_g : forall i j, same (g i) (g j) = sameI i j.
Hypothesis toOutput_g : forall i, toOutput (g i) = h (toOutputI i).
Hypothesis sameOut_h : forall a b, sameOut (h a) (h b) = sameOutI a b.



Lemma chainStep_fmap (ordered remaining : list (I * I)) :
  chainStep same (mapSide g <$> ordered) (mapSide g <$> remaining)
  = mapChain g <$> chainStep sameI ordered remaining.
Proof.
  unfold chainStep. rewrite fmap_last.
  destruct (last ordered) as [[a b]|]; [|reflexivity]. cbn [fmap option_fmap option_map].
  destruct remaining as [|first rest]; [reflexivity|].
  rewrite fmap_cons. cbv beta iota. rewrite <- fmap_cons.
  set (rem := first :: rest).
  rewrite !findIndex_fmap.
  rewrite (findIndex_ext _ (fun seg => sameI (fst seg) b))
    by (intros [x y]; apply same_g).
  rewrite (findIndex_ext (fun x => same (snd (mapSide g x)) _)
             (fun seg => sameI (snd seg) b))
    by (intros [x y]; apply same_g).
  destruct (findIndex _ rem) as [k|].
  - rewrite list_lookup_fmap. destruct (rem !! k) as [seg|]; [|reflexivity].
    cbn [fmap option_fmap option_map]. unfold mapChain. cbn [fst snd].
    now rewrite fmap_app, list_fmap_delete.
  - destruct (findIndex _ rem) as [k|].
    + rewrite list_lookup_fmap. destruct (rem !! k) as [[x y]|]; [|reflexivity].
      cbn [fmap option_fmap option_map]. unfold mapChain. cbn [fst snd].
      now rewrite fmap_app, list_fmap_delete.
    + cbn [fmap option_fmap option_map]. unfold mapChain. cbn [fst snd].
      now rewrite fmap_app.
Qed.

Lemma chainLoop_fmap fuel (ordered remaining : list (I * I)) :
  chainLoop same fuel (mapSide g <$> ordered) (mapSide g <$> remaining)
  = mapChain g (chainLoop sameI fuel ordered remaining).
Proof.
  revert ordered remaining. induction fuel as [|fuel IH]; intros; [reflexivity|].
  cbn [chainLoop]. rewrite chainStep_fmap.
  destruct (chainStep sameI ordered remaining) as [[o r]|]; [|reflexivity].
  cbn [fmap option_fmap option_map mapChain fst snd]. apply IH.
Qed.

Lemma chainSegments_fmap (segments : list (I * I)) :
  chainSegments same (mapSide g <$> segments)
  = mapChain g (chainSegments sameI segments).
Proof.
  destruct segments as [|first rest]; [reflexivity|].
  rewrite fmap_cons. unfold chainSegments. rewrite length_fmap.
  apply (chainLoop_fmap _ [first]).
Qed.

Lemma pushStart_fmap (points : list J) segment :
  pushStart toOutput sameOut (h <$> points) (mapSide g segment)
  = h <$> pushStart toOutputI sameOutI points segment.
Proof.
  unfold pushStart. destruct segment as [x y]. cbn [mapSide fst].
  rewrite fmap_last, toOutput_g.
  destruct (last points) as [p|]; cbn.
  - rewrite sameOut_h. destruct (sameOutI p _); cbn; [reflexivity|].
    now rewrite fmap_app.
  - now rewrite fmap_app.
Qed.

Lemma foldl_pushStart_fmap (segments : list (I * I)) (points : list J) :
  foldl (pushStart toOutput sameOut) (h <$> points) (mapSide g <$> segments)
  = h <$> foldl (pushStart toOutputI sameOutI) points segments.
Proof.
  revert points. induction segments as [|s l IH]; intros; [reflexivity|].
  rewrite fmap_cons. cbn [foldl]. rewrite pushStart_fmap. apply IH.
Qed.

Lemma pushEnd_fmap (ordered : list (I * I)) (points : list J) :
  pushEnd toOutput sameOut (mapSide g <$> ordered) (h <$> points)
  = h <$> pushEnd toOutputI sameOutI ordered points.
Proof.
  unfold pushEnd. rewrite fmap_last.
  destruct (last ordered) as [[x y]|]; [|reflexivity]. cbn.
  rewrite toOutput_g. destruct points as [|p l]; [reflexivity|]. cbn.
  rewrite sameOut_h. destruct (sameOutI p _); cbn; [reflexivity|].
  now rewrite fmap_app.
Qed.

(** The reconstruction commutes with a naming of the points under
    which the matching tests agree. *)
Lemma outlineOf_fmap (segments : list (I * I)) :
  outlineOf same toOutput sameOut (mapSide g <$> segments)
  = h <$> outlineOf sameI toOutputI sameOutI segments.
Proof.
  unfold outlineOf. rewrite chainSegments_fmap.
  destruct (chainSegments sameI segments) as [o r]. cbn [fst mapChain].
  rewrite <- pushEnd_fmap. f_equal.
  apply (foldl_pushStart_fmap o []).
Qed.
End Transfer.

End OutlineTransfer.

Module OutlineFacts.
Import CollectGraphicsStage OutlineSpec.
#[local] Open Scope R_scope.

(** *** The reconstruction on corner names *)

Lemma arrangements_visit_all_corners :
  forallb (fun order =>
             forallb (fun flips => visitsAllCorners (zip_with orient flips order))
                     allFlips)
          (permutations sides) = true.
Proof. vm_compute. reflexivity. Qed.

Lemma flips_enumerated (flips : list bool) :
  length flips = 4%nat -> flips ∈ allFlips.
Proof.
  destruct flips as [|f1 [|f2 [|f3 [|f4 [|f5 l]]]]]; try discriminate.
  intros _. destruct f1, f2, f3, f4; unfold allFlips; cbn;
    repeat (first [apply list_elem_of_here | apply list_elem_of_further]).
Qed.

Lemma cornerOutline_arrangement order flips :
  order ≡ₚ sides -> length flips = 4%nat ->
  cornerOutline (zip_with orient flips order) ∈ permutations [C0; C1; C2; C3].
Proof.
  intros Hp Hf.
  symmetry in Hp. apply permutations_Permutation, list_elem_of_In in Hp.
  apply flips_enumerated, list_elem_of_In in Hf.
  pose proof arrangements_visit_all_corners as H.
  rewrite forallb_forall in H. specialize (H _ Hp).
  rewrite forallb_forall in H. specialize (H _ Hf).
  unfold visitsAllCorners in H. now apply bool_decide_eq_true in H.
Qed.

(** *** The matching tests on the corners of a rectangle *)

Ltac decide_abs :=
  unfold Js.ltb, epsilon in *; cbn [px py] in *;
  repeat case_bool_decide;
  repeat match goal with
         | H : context [Rabs ?x] |- _ =>
             unfold Rabs in H; destruct (Rcase_abs x)
         | |- context [Rabs ?x] => unfold Rabs; destruct (Rcase_abs x)
         end;
  try reflexivity; try discriminate; try lra.

Lemma pointsEqualKicad_corner x0 y0 x1 y1 i j :
  epsilon <= Rabs (x1 - x0) -> epsilon <= Rabs (y1 - y0) ->
  pointsEqualKicad (corner x0 y0 x1 y1 i) (corner x0 y0 x1 y1 j)
  = sameCorner i j.
Proof.
  intros Hx Hy. unfold pointsEqualKicad, sameCorner.
  destruct i, j; cbn [corner px py];
    (rewrite bool_decide_eq_true_2 by reflexivity)
    || (rewrite bool_decide_eq_false_2 by discriminate);
    decide_abs; cbn; decide_abs.
Qed.


Lemma toCircuitJson_axis m p :
  mb m = 0 -> mc m = 0 ->
  toCircuitJson m p = {| px := ma m * px p + me m; py := md m * py p + mf m |}.
Proof.
  intros Hb Hc. unfold toCircuitJson, applyToPoint. cbn [px py].
  rewrite Hb, Hc. f_equal; ring.
Qed.

Lemma pointsEqual_corner m x0 y0 x1 y1 i j :
  mb m = 0 -> mc m = 0 ->
  epsilon <= Rabs (ma m) * Rabs (x1 - x0) ->
  epsilon <= Rabs (md m) * Rabs (y1 - y0) ->
  pointsEqual (toCircuitJson m (corner x0 y0 x1 y1 i))
              (toCircuitJson m (corner x0 y0 x1 y1 j))
  = sameCorner i j.
Proof.
  intros Hb Hc Hx Hy. rewrite !toCircuitJson_axis by assumption.
  rewrite <- Rabs_mult in Hx, Hy.
  unfold pointsEqual, sameCorner.
  destruct i, j; cbn [corner px py];
    (rewrite bool_decide_eq_true_2 by reflexivity)
    || (rewrite bool_decide_eq_false_2 by discriminate);
    decide_abs; cbn; decide_abs.
Qed.

(** *** The bounding box of the four corners *)


Lemma calculateWidth_extent points : calculateWidth points = extent (px <$> points).
Proof. reflexivity. Qed.

Lemma calculateHeight_extent points : calculateHeight points = extent (py <$> points).
Proof. reflexivity. Qed.

Ltac no_extremum x :=
  lazymatch x with
  | context [Rmax _ _] => fail
  | context [Rmin _ _] => fail
  | _ => idtac
  end.

Ltac decide_extent :=
  unfold extent, maxOf, minOf; cbn [fold_left];
  repeat match goal with
         | |- context [Rmax ?a ?b] =>
             no_extremum a; no_extremum b;
             let H := fresh in
             destruct (Rle_dec a b) as [H|H];
             [rewrite (Rmax_right a b H)
             |rewrite (Rmax_left a b (Rlt_le _ _ (Rnot_le_lt _ _ H)))]
         | |- context [Rmin ?a ?b] =>
             no_extremum a; no_extremum b;
             let H := fresh in
             destruct (Rle_dec a b) as [H|H];
             [rewrite (Rmin_left a b H)
             |rewrite (Rmin_right a b (Rlt_le _ _ (Rnot_le_lt _ _ H)))]
         end;
  unfold Rabs;
  match goal with
  | |- context [Rcase_abs ?a] => destruct (Rcase_abs a)
  end; lra.

Lemma corners_enumerated (idxs : list Corner) :
  idxs ∈ permutations [C0; C1; C2; C3] ->
  length idxs = 4%nat /\ bool_decide (idxs ∈ permutations [C0; C1; C2; C3]) = true.
Proof.
  intros H. split; [|now apply bool_decide_eq_true_2].
  apply permutations_Permutation, Permutation_length in H. now rewrite <- H.
Qed.

(** A coordinate that takes one value on the corners [C0] and [C3] and
    another on [C1] and [C2] has their distance as its extent. *)
Lemma extent_across (f : Corner -> R) (idxs : list Corner) :
  f C3 = f C0 -> f C2 = f C1 ->
  idxs ∈ permutations [C0; C1; C2; C3] ->
  extent (f <$> idxs) = Rabs (f C1 - f C0).
Proof.
  intros E3 E2 H. apply corners_enumerated in H as [Hlen H].
  destruct idxs as [|i1 [|i2 [|i3 [|i4 [|i5 l]]]]]; try discriminate.
  destruct i1, i2, i3, i4; vm_compute in H; try discriminate; clear H Hlen;
    cbn [fmap list_fmap]; rewrite ?E3, ?E2;
    generalize (f C0) (f C1); intros X0 X1; decide_extent.
Qed.

(** The same for a coordinate that separates [C0], [C1] from [C2], [C3]. *)
Lemma extent_along (f : Corner -> R) (idxs : list Corner) :
  f C1 = f C0 -> f C3 = f C2 ->
  idxs ∈ permutations [C0; C1; C2; C3] ->
  extent (f <$> idxs) = Rabs (f C2 - f C0).
Proof.
  intros E1 E3 H. apply corners_enumerated in H as [Hlen H].
  destruct idxs as [|i1 [|i2 [|i3 [|i4 [|i5 l]]]]]; try discriminate.
  destruct i1, i2, i3, i4; vm_compute in H; try discriminate; clear H Hlen;
    cbn [fmap list_fmap]; rewrite ?E1, ?E3;
    generalize (f C0) (f C2); intros Y0 Y1; decide_extent.
Qed.

(** *** Segments of a rectangle *)

Lemma segments_of_arrangement x0 y0 x1 y1 (arr : list (Corner * Corner)) :
  segmentPair <$> (sideSegment x0 y0 x1 y1 <$> arr)
  = mapSide (corner x0 y0 x1 y1) <$> arr.
Proof.
  rewrite <- list_fmap_compose. apply list_fmap_ext. now intros _ [i j] _.
Qed.

(** The outline of a rectangle whose sides are as long as the tolerance,
    before and after the transform: its corners, mapped. *)
Lemma outlinePoints_rectangle m x0 y0 x1 y1 order flips :
  mb m = 0 -> mc m = 0 ->
  epsilon <= Rabs (x1 - x0) -> epsilon <= Rabs (y1 - y0) ->
  epsilon <= Rabs (ma m) * Rabs (x1 - x0) ->
  epsilon <= Rabs (md m) * Rabs (y1 - y0) ->
  outlinePoints m (sideSegment x0 y0 x1 y1 <$> zip_with orient flips order)
  = (fun k => toCircuitJson m (corner x0 y0 x1 y1 k))
      <$> cornerOutline (zip_with orient flips order).
Proof.
  intros Hb Hc Hx Hy Hax Hdy. unfold outlinePoints, cornerOutline.
  rewrite segments_of_arrangement.
  apply OutlineTransfer.outlineOf_fmap.
  - intros i j. now apply pointsEqualKicad_corner.
  - reflexivity.
  - intros i j. now apply pointsEqual_corner.
Qed.

End OutlineFacts.

Module BoardFacts.
Import CollectGraphicsStage.

Lemma head_updateFirstBoard f d :
  head (Db.list_of Db.pcb_board (updateFirstBoard f d))
  = f <$> head (Db.list_of Db.pcb_board d).
Proof.
  induction d as [|e d IH]; [reflexivity|].
  destruct e; cbn; try exact IH. reflexivity.
Qed.

(** After [createBoardOutline] the first board of the store carries the
    reconstructed outline and its bounding box. *)
Lemma createBoardOutline_board c m lines :
  k2cMatPcb c = Some m ->
  let points := outlinePoints m (List.map lineSegment lines) in
  exists board,
    head (Db.list_of Db.pcb_board (db (createBoardOutline lines c))) = Some board
    /\ pb_outline board = points
    /\ pb_width board = calculateWidth points
    /\ pb_height board = calculateHeight points.
Proof.
  intros Hm points. unfold createBoardOutline. rewrite Hm. fold points.
  destruct (head (Db.list_of Db.pcb_board (db c))) as [b|] eqn:E.
  - cbn [db set_db]. rewrite head_updateFirstBoard, E. cbn.
    eexists. split; [reflexivity|]. now repeat split.
  - rewrite DbFacts.db_ctx_insert, DbFacts.list_of_app.
    destruct (Db.list_of Db.pcb_board (db c)); [|discriminate]. cbn.
    eexists. split; [reflexivity|]. now repeat split.
Qed.

End BoardFacts.

(** C9, amended. Let the transform scale, flip and translate the axes
    without mixing them, and let the sides of a rectangle be at least the
    matching tolerance long, before and after the transform. From its
    four sides, in any order and each in either direction, the outline
    reconstructor emits a polyline of exactly 4 points, the mapped
    corners, whose bounding box (max x - min x, max y - min y) is the
    width and height of the rectangle in output units; the board written
    by the pass carries that polyline and bounding box. *)
Theorem rectangle_outline (m : Matrix) (x0 y0 x1 y1 : R)
    (segments : list CollectGraphicsStage.Segment) :
  mb m = 0%R -> mc m = 0%R ->
  (CollectGraphicsStage.epsilon <= Rabs (x1 - x0))%R ->
  (CollectGraphicsStage.epsilon <= Rabs (y1 - y0))%R ->
  (CollectGraphicsStage.epsilon <= Rabs (ma m) * Rabs (x1 - x0))%R ->
  (CollectGraphicsStage.epsilon <= Rabs (md m) * Rabs (y1 - y0))%R ->
  OutlineSpec.formsRectangle x0 y0 x1 y1 segments ->
  let points := CollectGraphicsStage.outlinePoints m segments in
  length points = 4%nat
  /\ points ≡ₚ (fun k => CollectGraphicsStage.toCircuitJson m
                           (OutlineSpec.corner x0 y0 x1 y1 k))
                 <$> [OutlineSpec.C0; OutlineSpec.C1; OutlineSpec.C2;
                      OutlineSpec.C3]
  /\ CollectGraphicsStage.calculateWidth points
     = (Rabs (ma m) * Rabs (x1 - x0))%R
  /\ CollectGraphicsStage.calculateHeight points
     = (Rabs (md m) * Rabs (y1 - y0))%R
  /\ (forall c lines,
        k2cMatPcb c = Some m ->
        List.map CollectGraphicsStage.lineSegment lines = segments ->
        exists board,
          head (Db.list_of Db.pcb_board
                  (db (CollectGraphicsStage.createBoardOutline lines c)))
          = Some board
          /\ pb_outline board = points
          /\ pb_width board = (Rabs (ma m) * Rabs (x1 - x0))%R
          /\ pb_height board = (Rabs (md m) * Rabs (y1 - y0))%R).
Proof.
  intros Hb Hc Hx Hy Hax Hdy (order & flips & Hp & Hf & ->) points.
  pose proof (OutlineFacts.cornerOutline_arrangement order flips Hp Hf) as Hperm.
  assert (E : points
              = (fun k => CollectGraphicsStage.toCircuitJson m
                            (OutlineSpec.corner x0 y0 x1 y1 k))
                  <$> OutlineSpec.cornerOutline
                        (zip_with OutlineSpec.orient flips order))
    by now apply OutlineFacts.outlinePoints_rectangle.
  assert (Hw : CollectGraphicsStage.calculateWidth points
               = (Rabs (ma m) * Rabs (x1 - x0))%R).
  { rewrite OutlineFacts.calculateWidth_extent, E, <- list_fmap_compose.
    rewrite OutlineFacts.extent_across; [| | |exact Hperm];
      unfold compose; rewrite !OutlineFacts.toCircuitJson_axis by assumption;
      cbn [px py OutlineSpec.corner]; [|reflexivity|reflexivity].
    rewrite <- Rabs_mult. f_equal. ring. }
  assert (Hh : CollectGraphicsStage.calculateHeight points
               = (Rabs (md m) * Rabs (y1 - y0))%R).
  { rewrite OutlineFacts.calculateHeight_extent, E, <- list_fmap_compose.
    rewrite OutlineFacts.extent_along; [| | |exact Hperm];
      unfold compose; rewrite !OutlineFacts.toCircuitJson_axis by assumption;
      cbn [px py OutlineSpec.corner]; [|reflexivity|reflexivity].
    rewrite <- Rabs_mult. f_equal. ring. }
  apply permutations_Permutation in Hperm.
  repeat split.
  - rewrite E, length_fmap. now rewrite <- Hperm.
  - rewrite E. now apply fmap_Permutation.
  - exact Hw.
  - exact Hh.
  - intros c lines Hm Hl.
    destruct (BoardFacts.createBoardOutline_board c m lines Hm)
      as (board & H1 & H2 & H3 & H4).
    rewrite Hl in H2, H3, H4. fold points in H2, H3, H4.
    exists board. repeat split; congruence.
Qed.

Lemma rectangle_outline_witness :
  length (CollectGraphicsStage.outlinePoints Examples.boardMatrix
            (OutlineSpec.sideSegment 0 0 10 5 <$> OutlineSpec.sides))
  = 4%nat.
Proof.
  assert (H10 : Rabs (10 - 0) = 10%R)
    by (replace (10 - 0)%R with 10%R by lra; apply Rabs_right; lra).
  assert (H5 : Rabs (5 - 0) = 5%R)
    by (replace (5 - 0)%R with 5%R by lra; apply Rabs_right; lra).
  assert (H1 : Rabs 1 = 1%R) by (apply Rabs_right; lra).
  assert (Hm1 : Rabs (-1) = 1%R) by (rewrite Rabs_left; lra).
  refine (proj1 (rectangle_outline Examples.boardMatrix 0 0 10 5
                   (OutlineSpec.sideSegment 0 0 10 5 <$> OutlineSpec.sides)
                   eq_refl eq_refl _ _ _ _ _));
    unfold CollectGraphicsStage.epsilon; cbn [ma md Examples.boardMatrix];
    rewrite ?H10, ?H5, ?H1, ?Hm1; try lra.
  exists OutlineSpec.sides, [false; false; false; false].
  split; [reflexivity|]. split; reflexivity.
Defined.

Module NarrowRectangle.
Import CollectGraphicsStage OutlineSpec.
#[local] Open Scope R_scope.

Lemma pointsEqualKicad_narrow i j :
  pointsEqualKicad (corner 0 0 (1 / 2000) 1 i) (corner 0 0 (1 / 2000) 1 j)
  = sameHeight i j.
Proof.
  unfold pointsEqualKicad.
  destruct i, j; cbn [corner px py sameHeight];
    OutlineFacts.decide_abs; cbn; OutlineFacts.decide_abs.
Qed.

Lemma pointsEqual_narrow i j :
  pointsEqual (toCircuitJson identityMatrix (corner 0 0 (1 / 2000) 1 i))
              (toCircuitJson identityMatrix (corner 0 0 (1 / 2000) 1 j))
  = sameHeight i j.
Proof.
  rewrite !OutlineFacts.toCircuitJson_axis by reflexivity.
  unfold pointsEqual.
  destruct i, j; cbn [corner px py sameHeight identityMatrix ma md me mf];
    OutlineFacts.decide_abs; cbn; OutlineFacts.decide_abs.
Qed.

Lemma outline_narrow :
  outlinePoints identityMatrix narrowRectangle
  = (fun k => toCircuitJson identityMatrix (corner 0 0 (1 / 2000) 1 k))
      <$> [C0; C2].
Proof.
  unfold outlinePoints, narrowRectangle.
  rewrite OutlineFacts.segments_of_arrangement.
  rewrite (OutlineTransfer.outlineOf_fmap pointsEqualKicad
             (toCircuitJson identityMatrix) pointsEqual
             sameHeight (fun k => k) sameHeight
             (corner 0 0 (1 / 2000) 1)
             (fun k => toCircuitJson identityMatrix (corner 0 0 (1 / 2000) 1 k))
             pointsEqualKicad_narrow (fun _ => eq_refl) pointsEqual_narrow).
  reflexivity.
Qed.

End NarrowRectangle.

(** C9 as stated fails: the four sides of a rectangle half a tolerance
    wide and one unit high match exactly and form a closed rectangle, yet
    the reconstructor emits a polyline of 2 points, because corners
    closer than the tolerance are taken for one point. *)
Lemma narrow_rectangle_counterexample :
  OutlineSpec.formsRectangle 0 0 (1 / 2000) 1 OutlineSpec.narrowRectangle
  /\ length (CollectGraphicsStage.outlinePoints OutlineSpec.identityMatrix
               OutlineSpec.narrowRectangle) = 2%nat
  /\ ~ (length (CollectGraphicsStage.outlinePoints OutlineSpec.identityMatrix
                  OutlineSpec.narrowRectangle) = 4%nat
        \/ length (CollectGraphicsStage.outlinePoints OutlineSpec.identityMatrix
                     OutlineSpec.narrowRectangle) = 5%nat).
Proof.
  rewrite NarrowRectangle.outline_narrow. cbn [fmap list_fmap length].
  split; [|split; [reflexivity|intros [H|H]; discriminate]].
  exists OutlineSpec.sides, [false; false; false; false].
  split; [reflexivity|]. split; reflexivity.
Qed.

(** ** Pads without a number *)

Module PadFacts.
Import ProcessPads.

Lemma db_set_stats c s : db (set_stats c s) = db c.
Proof. reflexivity. Qed.

Lemma db_bump_pads c : db (CollectGraphicsStage.bump_pads c) = db c.
Proof. unfold CollectGraphicsStage.bump_pads. now destruct (stats c). Qed.

Section WithLayerUtils.
Variable determineLayerFromLayers : list (option string) -> option string.

Lemma createSmdPad_db c pad componentId pos size shape :
  exists e,
    db (createSmdPad determineLayerFromLayers c pad componentId pos size shape)
    = db c ++ [EPcbSmtpad e].
Proof.
  unfold createSmdPad.
  destruct (if String.eqb shape "custom" then customPolygon pad else None);
    unfold bump_pads; rewrite db_bump_pads; eexists; reflexivity.
Qed.

Lemma createPlatedHole_db c pad componentId pos size drill shape rotation :
  exists e,
    db (createPlatedHole c pad componentId pos size drill shape rotation)
    = db c ++ [EPcbPlatedHole e].
Proof.
  unfold createPlatedHole, bump_pads. rewrite db_bump_pads.
  eexists; reflexivity.
Qed.

Lemma createNpthHole_db c pad componentId pos drill :
  exists e,
    db (createNpthHole c pad componentId pos drill) = db c ++ [EPcbHole e].
Proof. unfold createNpthHole. eexists; reflexivity. Qed.

Lemma matrix_bump_pads c : k2cMatPcb (CollectGraphicsStage.bump_pads c) = k2cMatPcb c.
Proof. unfold CollectGraphicsStage.bump_pads. now destruct (stats c). Qed.

End WithLayerUtils.
End PadFacts.



(** * Further properties of the passes *)

Module ChainFacts.
Import CollectGraphicsStage ChainSpec.

Lemma findIndex_Some {A} (f : A -> bool) (l : list A) k :
  findIndex f l = Some k -> exists x, l !! k = Some x /\ f x = true.
Proof.
  revert k. induction l as [|y l IH]; intros k; [discriminate|].
  cbn [findIndex]. destruct (f y) eqn:E.
  - intros [= <-]. now exists y.
  - destruct (findIndex f l) as [j|]; [|discriminate].
    intros [= <-]. destruct (IH j eq_refl) as (x & Hx & Hf). now exists x.
Qed.

Section Chain.
Context {P : Type}.
Variable same : P -> P -> bool.

Lemma chainStep_spec segments ordered remaining :
  ordered <> [] -> remaining <> [] ->
  chained segments ordered remaining ->
  exists ordered' remaining',
    chainStep same ordered remaining = Some (ordered', remaining')
    /\ ordered' <> []
    /\ S (length remaining') = length remaining
    /\ chained segments ordered' remaining'.
Proof.
  intros Ho Hr (u & Hu & Hp). unfold chainStep.
  destruct (last ordered) as [lastSegment|] eqn:El.
  2:{ apply last_None in El. contradiction. }
  destruct remaining as [|first rest]; [contradiction|].
  remember (first :: rest) as rem eqn:Erem.
  assert (Hmove : forall k seg o, rem !! k = Some seg -> asRecorded o seg ->
            (ordered ++ [o]) <> []
            /\ S (length (delete k rem)) = length rem
            /\ chained segments (ordered ++ [o]) (delete k rem)).
  { intros k seg o Hk Ho'. split; [now destruct ordered|]. split.
    - rewrite length_delete by eauto.
      apply lookup_lt_Some in Hk. lia.
    - exists (u ++ [seg]). split.
      + apply Forall2_app; [exact Hu|]. constructor; [exact Ho'|constructor].
      + rewrite <- Hp, <- app_assoc. apply Permutation_app_head.
        cbn [app]. symmetry. now apply delete_Permutation. }
  destruct (findIndex _ rem) as [k|] eqn:E1.
  - destruct (findIndex_Some _ _ _ E1) as (seg & Hk & _).
    exists (ordered ++ [seg]), (delete k rem).
    split; [now rewrite Hk|].
    apply (Hmove k seg seg Hk). now left.
  - clear E1. destruct (findIndex _ rem) as [k|] eqn:E2.
    + destruct (findIndex_Some _ _ _ E2) as (seg & Hk & _).
      exists (ordered ++ [(snd seg, fst seg)]), (delete k rem).
      split; [now rewrite Hk|].
      apply (Hmove k seg (snd seg, fst seg) Hk). now right.
    + exists (ordered ++ [first]), rest. split; [reflexivity|].
      assert (H0 : rem !! 0%nat = Some first) by now rewrite Erem.
      replace rest with (delete 0%nat rem) by now rewrite Erem.
      apply (Hmove 0%nat first first H0). now left.
Qed.

Lemma chainLoop_spec segments fuel ordered remaining :
  ordered <> [] -> fuel = length remaining ->
  chained segments ordered remaining ->
  exists ordered',
    chainLoop same fuel ordered remaining = (ordered', [])
    /\ chained segments ordered' [].
Proof.
  revert ordered remaining.
  induction fuel as [|fuel IH]; intros ordered remaining Ho Hf Hc.
  - destruct remaining; [|discriminate]. now exists ordered.
  - destruct remaining as [|first rest] eqn:Er; [discriminate|].
    rewrite <- Er in *.
    destruct (chainStep_spec segments ordered remaining Ho) as
      (o' & r' & E & Ho' & Hlen & Hc'); [now rewrite Er|exact Hc|].
    cbn [chainLoop]. rewrite E. apply IH; [exact Ho'| |exact Hc'].
    rewrite Er in Hlen. cbn in Hlen. rewrite Er in Hf. cbn in Hf. lia.
Qed.

(** The chaining loop always runs until no segment is left, and its
    chain is a rearrangement of the input segments, each as given or
    reversed. *)
Lemma chainSegments_spec segments :
  exists unflipped,
    snd (chainSegments same segments) = []
    /\ Forall2 asRecorded (fst (chainSegments same segments)) unflipped
    /\ unflipped ≡ₚ segments.
Proof.
  destruct segments as [|first rest].
  - exists []. split; [reflexivity|]. split; [constructor|reflexivity].
  - unfold chainSegments.
    destruct (chainLoop_spec (first :: rest) (length rest) [first] rest)
      as (o & E & u & Hu & Hp); [discriminate|reflexivity| |].
    + exists [first]. split; [|reflexivity]. constructor; [now left|constructor].
    + rewrite E. exists u. rewrite app_nil_r in Hp. now repeat split.
Qed.

End Chain.
End ChainFacts.

(** X1. The chaining loop of the outline reconstructor consumes every
    input segment: when it ends no segment is left over, and the ordered
    chain is a rearrangement of the input segments in which each segment
    appears as given or with start and end swapped, so the chain has as
    many segments as the input. *)
Theorem chain_keeps_every_segment {P : Type} (same : P -> P -> bool)
    (segments : list (P * P)) :
  snd (CollectGraphicsStage.chainSegments same segments) = []
  /\ length (fst (CollectGraphicsStage.chainSegments same segments))
     = length segments
  /\ exists unflipped,
       Forall2 ChainSpec.asRecorded
         (fst (CollectGraphicsStage.chainSegments same segments)) unflipped
       /\ unflipped ≡ₚ segments.
Proof.
  destruct (ChainFacts.chainSegments_spec same segments) as (u & E & Hu & Hp).
  split; [exact E|]. split; [|now exists u].
  rewrite (Forall2_length _ _ _ Hu). now apply Permutation_length.
Qed.

Module OutlineShape.
Import CollectGraphicsStage ChainSpec.

Section Shape.
Context {P Q : Type}.
Variable same : P -> P -> bool.
Variable toOutput : P -> Q.
Variable sameOut : Q -> Q -> bool.

Lemma noNeighboursMatch_snoc (points : list Q) lastPoint x :
  noNeighboursMatch sameOut points ->
  last points = Some lastPoint -> sameOut lastPoint x = false ->
  noNeighboursMatch sameOut (points ++ [x]).
Proof.
  intros Hn Hl Hx i p q Hp Hq.
  assert (Hi : (S i < length (points ++ [x]))%nat) by (eapply lookup_lt_Some; eauto).
  rewrite length_app in Hi. cbn in Hi.
  destruct (decide (S i = length points)) as [E|E].
  - rewrite lookup_app_l in Hp by lia.
    rewrite lookup_app_r, E, Nat.sub_diag in Hq by lia. injection Hq as <-.
    rewrite last_lookup in Hl. replace (pred (length points)) with i in Hl by lia.
    congruence.
  - rewrite lookup_app_l in Hp, Hq by lia. eauto.
Qed.

Lemma pushStart_noNeighbours (points : list Q) segment :
  noNeighboursMatch sameOut points ->
  noNeighboursMatch sameOut (pushStart toOutput sameOut points segment).
Proof.
  intros Hn. unfold pushStart. destruct (last points) as [lastPoint|] eqn:El.
  - destruct (sameOut lastPoint _) eqn:E; cbn [negb]; [exact Hn|].
    now apply (noNeighboursMatch_snoc points lastPoint).
  - apply last_None in El. subst points. intros [|i] p q Hp Hq; discriminate.
Qed.

Lemma pushStart_length (points : list Q) segment :
  (length (pushStart toOutput sameOut points segment) <= S (length points))%nat.
Proof.
  unfold pushStart. destruct (last points); [destruct (negb _)|];
    rewrite ?length_app; cbn; lia.
Qed.

Lemma pushStart_head (points : list Q) segment p :
  head points = Some p ->
  head (pushStart toOutput sameOut points segment) = Some p.
Proof.
  intros H. unfold pushStart. destruct points as [|x l]; [discriminate|].
  destruct (last (x :: l)); [destruct (negb _)|]; exact H.
Qed.

Lemma foldl_pushStart_spec (segments : list (P * P)) (points : list Q) :
  noNeighboursMatch sameOut points ->
  noNeighboursMatch sameOut (foldl (pushStart toOutput sameOut) points segments)
  /\ (length (foldl (pushStart toOutput sameOut) points segments)
      <= length points + length segments)%nat
  /\ (forall p, head points = Some p ->
        head (foldl (pushStart toOutput sameOut) points segments) = Some p).
Proof.
  revert points. induction segments as [|s l IH]; intros points Hn.
  - cbn. repeat split; [exact Hn|lia|auto].
  - cbn [foldl].
    destruct (IH _ (pushStart_noNeighbours points s Hn)) as (H1 & H2 & H3).
    repeat split; [exact H1| |].
    + pose proof (pushStart_length points s). cbn [length]. lia.
    + intros p Hp. apply H3. now apply pushStart_head.
Qed.

Lemma chainStep_head (ordered remaining ordered' remaining' : list (P * P)) x :
  head ordered = Some x ->
  chainStep same ordered remaining = Some (ordered', remaining') ->
  head ordered' = Some x.
Proof.
  intros Hh. unfold chainStep. destruct ordered as [|y l]; [discriminate|].
  destruct (last (y :: l)); [|discriminate].
  destruct remaining as [|first rest]; [discriminate|].
  repeat match goal with
         | |- context [match ?t with _ => _ end] =>
             lazymatch t with
             | context [match _ with _ => _ end] => fail
             | _ => destruct t
             end
         end; intros [= <- _] || discriminate; exact Hh.
Qed.

Lemma chainLoop_head fuel (ordered remaining : list (P * P)) x :
  head ordered = Some x ->
  head (fst (chainLoop same fuel ordered remaining)) = Some x.
Proof.
  revert ordered remaining. induction fuel as [|fuel IH]; intros o r Hh; [exact Hh|].
  cbn [chainLoop]. destruct (chainStep same o r) as [[o' r']|] eqn:E; [|exact Hh].
  apply IH. eapply chainStep_head; eassumption.
Qed.

Lemma chain_facts (segments : list (P * P)) :
  length (fst (chainSegments same segments)) = length segments
  /\ (forall first rest, segments = first :: rest ->
        head (fst (chainSegments same segments)) = Some first).
Proof.
  split.
  - destruct (ChainFacts.chainSegments_spec same segments) as (u & _ & Hu & Hp).
    rewrite (Forall2_length _ _ _ Hu). now apply Permutation_length.
  - intros first rest ->. unfold chainSegments. now apply chainLoop_head.
Qed.

Lemma starts_head (ordered : list (P * P)) first :
  head ordered = Some first ->
  head (foldl (pushStart toOutput sameOut) [] ordered)
  = Some (toOutput (fst first)).
Proof.
  destruct ordered as [|x l]; [discriminate|]. intros [= ->]. cbn [foldl].
  apply foldl_pushStart_spec; [|reflexivity].
  intros [|i] p q Hp Hq; discriminate.
Qed.

End Shape.
End OutlineShape.

(** X2. The outline computed from a list of segments starts at the
    (mapped) start point of the first input segment, has at most one point
    more than there are segments, and consists of start points among which
    no two neighbours match within the tolerance, followed by at most one
    closing end point, which is added only when it does not match the
    first point. *)
Theorem outline_shape {P Q : Type} (same : P -> P -> bool)
    (toOutput : P -> Q) (sameOut : Q -> Q -> bool) (segments : list (P * P)) :
  let outline := CollectGraphicsStage.outlineOf same toOutput sameOut segments in
  (length outline <= S (length segments))%nat
  /\ (forall first rest, segments = first :: rest ->
        head outline = Some (toOutput (fst first)))
  /\ exists starts closing,
       outline = starts ++ closing
       /\ ChainSpec.noNeighboursMatch sameOut starts
       /\ (closing = []
           \/ exists first e,
                closing = [e] /\ head starts = Some first
                /\ sameOut first e = false).
Proof.
  intros outline. subst outline. unfold CollectGraphicsStage.outlineOf.
  destruct (OutlineShape.chain_facts same segments) as [Hlen Hhead].
  set (ordered := fst (CollectGraphicsStage.chainSegments same segments)) in *.
  destruct (OutlineShape.foldl_pushStart_spec toOutput sameOut ordered [])
    as (H1 & H2 & H3); [intros [|i] p q Hp Hq; discriminate|].
  set (starts := foldl _ [] ordered) in *. cbn [length] in H2.
  assert (Hshape : exists closing,
            CollectGraphicsStage.pushEnd toOutput sameOut ordered starts
            = starts ++ closing
            /\ (closing = []
                \/ exists first e, closing = [e] /\ head starts = Some first
                                   /\ sameOut first e = false)).
  { unfold CollectGraphicsStage.pushEnd.
    destruct (last ordered) as [lastSegment|];
      [|exists []; now rewrite app_nil_r; split; [|left]].
    destruct (head starts) as [firstPoint|] eqn:Eh;
      [|exists []; now rewrite app_nil_r; split; [|left]].
    destruct (sameOut firstPoint _) eqn:E; cbn [negb];
      [exists []; now rewrite app_nil_r; split; [|left]|].
    eexists [_]. split; [reflexivity|]. right. eauto. }
  destruct Hshape as (closing & E & Hc). rewrite E. repeat split.
  - rewrite length_app.
    assert (length closing <= 1)%nat
      by (destruct Hc as [->|(f & e & -> & _)]; cbn; lia).
    lia.
  - intros first rest Hs.
    assert (Hs' : head starts = Some (toOutput (fst first)))
      by (apply OutlineShape.starts_head, (Hhead first rest Hs)).
    destruct starts; [discriminate|exact Hs'].
  - exists starts, closing. now repeat split.
Qed.

Module BoxFacts.
Import CollectGraphicsStage.
#[local] Open Scope R_scope.

Lemma maxOf_ge x xs : x <= maxOf x xs /\ forall y, y ∈ xs -> y <= maxOf x xs.
Proof.
  unfold maxOf. revert x. induction xs as [|z xs IH]; intros x; cbn [fold_left].
  - split; [lra|]. intros y Hy. now apply elem_of_nil in Hy.
  - destruct (IH (Rmax x z)) as [H1 H2].
    pose proof (Rmax_l x z). pose proof (Rmax_r x z).
    split; [lra|]. intros y Hy. apply elem_of_cons in Hy as [->|Hy]; [lra|auto].
Qed.

Lemma minOf_le x xs : minOf x xs <= x /\ forall y, y ∈ xs -> minOf x xs <= y.
Proof.
  unfold minOf. revert x. induction xs as [|z xs IH]; intros x; cbn [fold_left].
  - split; [lra|]. intros y Hy. now apply elem_of_nil in Hy.
  - destruct (IH (Rmin x z)) as [H1 H2].
    pose proof (Rmin_l x z). pose proof (Rmin_r x z).
    split; [lra|]. intros y Hy. apply elem_of_cons in Hy as [->|Hy]; [lra|auto].
Qed.

(** [max - min] of a list bounds the difference of any two members. *)
Lemma extent_bounds (xs : list R) a b :
  a ∈ xs -> b ∈ xs -> a - b <= OutlineSpec.extent xs.
Proof.
  destruct xs as [|x xs]; [intros H; now apply elem_of_nil in H|].
  intros Ha Hb. cbn [OutlineSpec.extent].
  destruct (maxOf_ge x xs) as [M1 M2]. destruct (minOf_le x xs) as [m1 m2].
  assert (a <= maxOf x xs)
    by (apply elem_of_cons in Ha as [->|Ha]; auto).
  assert (minOf x xs <= b)
    by (apply elem_of_cons in Hb as [->|Hb]; auto).
  lra.
Qed.

Lemma extent_nonneg (xs : list R) : 0 <= OutlineSpec.extent xs.
Proof.
  destruct xs as [|x xs]; [cbn; lra|].
  pose proof (extent_bounds (x :: xs) x x
                (list_elem_of_here _ _) (list_elem_of_here _ _)). lra.
Qed.

End BoxFacts.

(** X3. The width and height computed for a polyline are never negative
    and bound the polyline: any two of its points differ by at most the
    width in x and by at most the height in y; for an empty polyline both
    are 0. *)
Theorem bounding_box_bounds (points : list Point) :
  (0 <= CollectGraphicsStage.calculateWidth points)%R
  /\ (0 <= CollectGraphicsStage.calculateHeight points)%R
  /\ (forall p q, p ∈ points -> q ∈ points ->
        (Rabs (px p - px q) <= CollectGraphicsStage.calculateWidth points)%R
        /\ (Rabs (py p - py q) <= CollectGraphicsStage.calculateHeight points)%R)
  /\ CollectGraphicsStage.calculateWidth [] = 0%R
  /\ CollectGraphicsStage.calculateHeight [] = 0%R.
Proof.
  rewrite OutlineFacts.calculateWidth_extent, OutlineFacts.calculateHeight_extent.
  repeat split; try apply BoxFacts.extent_nonneg.
  - apply Rabs_le. split.
    + pose proof (BoxFacts.extent_bounds (px <$> points) (px q) (px p)
                    (list_elem_of_fmap_2 _ _ _ H0) (list_elem_of_fmap_2 _ _ _ H)).
      lra.
    + apply BoxFacts.extent_bounds; now apply list_elem_of_fmap_2.
  - apply Rabs_le. split.
    + pose proof (BoxFacts.extent_bounds (py <$> points) (py q) (py p)
                    (list_elem_of_fmap_2 _ _ _ H0) (list_elem_of_fmap_2 _ _ _ H)).
      lra.
    + apply BoxFacts.extent_bounds; now apply list_elem_of_fmap_2.
Qed.

Module BoardCount.
Import CollectGraphicsStage.

Lemma boards_updateFirstBoard f d :
  length (Db.list_of Db.pcb_board (updateFirstBoard f d))
  = length (Db.list_of Db.pcb_board d).
Proof.
  induction d as [|e d IH]; [reflexivity|].
  destruct e; cbn; try exact IH. reflexivity.
Qed.

End BoardCount.

(** X4. Creating the board outline never leaves more than one new board
    behind: a store without a board gets exactly one, and a store that
    already has boards keeps their number (the first one is updated in
    place); without the transform nothing changes. *)
Theorem board_outline_keeps_one_board (lines : list GrLine)
    (c : ConverterContext) :
  let c' := CollectGraphicsStage.createBoardOutline lines c in
  (k2cMatPcb c = None -> c' = c)
  /\ (is_Some (k2cMatPcb c) ->
      length (Db.list_of Db.pcb_board (db c'))
      = Nat.max 1 (length (Db.list_of Db.pcb_board (db c))))
  /\ (Db.list_of Db.pcb_board (db c) <> [] -> length (db c') = length (db c)).
Proof.
  intros c'. subst c'. unfold CollectGraphicsStage.createBoardOutline.
  split; [now intros ->|]. split.
  - intros [m ->].
    destruct (head (Db.list_of Db.pcb_board (db c))) eqn:E.
    + cbn [db set_db]. rewrite BoardCount.boards_updateFirstBoard.
      destruct (Db.list_of Db.pcb_board (db c)); [discriminate|]. cbn. lia.
    + rewrite DbFacts.db_ctx_insert, DbFacts.list_of_app.
      destruct (Db.list_of Db.pcb_board (db c)); [reflexivity|discriminate].
  - intros Hb. destruct (k2cMatPcb c); [|reflexivity].
    destruct (Db.list_of Db.pcb_board (db c)) eqn:E; [contradiction|].
    cbn [head hd_error db set_db]. clear.
    induction (db c) as [|e d IH]; [reflexivity|].
    destruct e; cbn; try (now rewrite IH). reflexivity.
Qed.

Module CircleFacts.
Import CollectGraphicsStage ArcSpec CircleSpec.
#[local] Open Scope R_scope.







End CircleFacts.



(** X6. Whatever the three points and the segment count, the
    tessellation of an arc is never empty and ends with the end point as
    it was given; it has 2 points in the chord case and otherwise as many
    points as segments (one point for a count of 0). *)
Theorem arc_always_ends_at_end (start mid end_ : Point) (numSegments : nat) :
  let points :=
    CollectGraphicsStage.convertArcToPoints start mid end_ numSegments in
  last points = Some end_
  /\ (points = [start; end_] \/ length points = Nat.max 1 numSegments).
Proof.
  intros points. subst points. unfold CollectGraphicsStage.convertArcToPoints.
  destruct (CollectGraphicsStage.calculateArcCenter start mid end_) as [[c|] r].
  - destruct (decide (r = 0%R)); [split; [reflexivity|now left]|].
    split; [apply last_snoc|]. right.
    rewrite length_app, length_map, length_seq. cbn. lia.
  - split; [reflexivity|now left].
Qed.

Module NetTableFacts.
Import CollectNetsStage NetTableSpec.

Lemma lookup_visit (m : gmap Z string) net n :
  visit m net !! n = overwrite n (m !! n) net.
Proof.
  unfold visit, overwrite. destruct (Z.eqb_spec (netNumOf net) n) as [->|Hne].
  - apply lookup_insert_eq.
  - now apply lookup_insert_ne.
Qed.

Lemma lookup_foldl_visit (nets : list Net) (m : gmap Z string) n :
  foldl visit m nets !! n = foldl (overwrite n) (m !! n) nets.
Proof.
  revert m. induction nets as [|net nets IH]; intros m; [reflexivity|].
  cbn [foldl]. now rewrite IH, lookup_visit.
Qed.

(** The entries either decide a number, whatever was known, or leave
    what was known. *)
Lemma foldl_overwrite (nets : list Net) n known :
  foldl (overwrite n) known nets
  = match foldl (overwrite n) None nets with
    | Some s => Some s
    | None => known
    end.
Proof.
  induction nets as [|net nets IH] using rev_ind; [reflexivity|].
  rewrite !foldl_app. cbn [foldl]. unfold overwrite at 1 3.
  destruct (netNumOf net =? n)%Z; [reflexivity|exact IH].
Qed.

Lemma foldl_overwrite_None (nets : list Net) n :
  n ∉ netNumOf <$> nets -> foldl (overwrite n) None nets = None.
Proof.
  induction nets as [|net nets IH] using rev_ind; [reflexivity|].
  rewrite fmap_app, not_elem_of_app. intros [H1 H2].
  rewrite foldl_app. cbn [foldl]. unfold overwrite at 1.
  destruct (Z.eqb_spec (netNumOf net) n) as [E|_]; [|now apply IH].
  exfalso. apply H2. cbn. rewrite E. apply list_elem_of_here.
Qed.

Lemma lookup_reserveZero (m : gmap Z string) n :
  reserveZero m !! n
  = if (n =? 0)%Z then Some (default "" (m !! 0%Z)) else m !! n.
Proof.
  destruct (Z.eqb_spec n 0) as [->|Hn].
  - apply NetFacts.lookup_reserveZero_zero.
  - now apply NetFacts.lookup_reserveZero_ne.
Qed.

(** Running the loop and the special case again on their own result
    changes nothing. *)
Lemma table_fixpoint (nets : list Net) (m : gmap Z string) :
  let m' := reserveZero (foldl visit m nets) in
  reserveZero (foldl visit m' nets) = m'.
Proof.
  intros m'. apply map_eq. intros n.
  rewrite lookup_reserveZero, !lookup_foldl_visit.
  rewrite (foldl_overwrite nets n (m' !! n)), (foldl_overwrite nets 0 (m' !! 0%Z)).
  unfold m'. rewrite !lookup_reserveZero, !lookup_foldl_visit. cbn [Z.eqb].
  rewrite (foldl_overwrite nets n (m !! n)), (foldl_overwrite nets 0 (m !! 0%Z)).
  destruct (Z.eqb_spec n 0) as [->|Hn].
  - destruct (foldl (overwrite 0) None nets); reflexivity.
  - destruct (foldl (overwrite n) None nets); reflexivity.
Qed.

End NetTableFacts.

(** X7. The net-naming pass is idempotent: a second step of the stage
    returns the same stage and result as the first, so running the pass
    again adds or changes no entry of the net table. *)
Theorem net_naming_step_idempotent (s : Stage unit) :
  CollectNetsStage.step (fst (CollectNetsStage.step s))
  = CollectNetsStage.step s.
Proof.
  destruct s as [c fin []]. unfold CollectNetsStage.step at 2 3. cbn [ctx fields].
  destruct (kicadPcb c) as [pcb|] eqn:Hp;
    [destruct (netNumToName c) as [m|] eqn:Hm|].
  - cbn [fst]. unfold CollectNetsStage.step.
    cbn [ctx fields set_netNumToName kicadPcb netNumToName]. rewrite Hp.
    rewrite NetTableFacts.table_fixpoint. reflexivity.
  - cbn [fst]. unfold CollectNetsStage.step. cbn [ctx fields].
    now rewrite Hp, Hm.
  - cbn [fst]. unfold CollectNetsStage.step. cbn [ctx fields].
    now rewrite Hp.
Qed.

(** X8. After the net-naming pass has run, net 0 always has an entry in
    the table, and a net number that no source entry uses keeps what the
    table held for it before (for number 0: the empty string if it held
    nothing). *)
Theorem net_table_keeps_other_entries (s : Stage unit) (pcb : KicadPcb)
    (m : gmap Z string) :
  kicadPcb (ctx s) = Some pcb ->
  netNumToName (ctx s) = Some m ->
  let m' := NetSpec.tableAfter s in
  is_Some (m' !! 0%Z)
  /\ (forall n, n ∉ CollectNetsStage.netNumOf <$> to_array (pcb_nets pcb) ->
        m' !! n = if (n =? 0)%Z then Some (default "" (m !! 0%Z)) else m !! n)
  /\ (forall n, is_Some (m !! n) -> is_Some (m' !! n)).
Proof.
  intros Hp Hm m'.
  assert (E : m' = CollectNetsStage.reserveZero
                     (foldl CollectNetsStage.visit m (to_array (pcb_nets pcb)))).
  { unfold m', NetSpec.tableAfter, CollectNetsStage.step. now rewrite Hp, Hm. }
  rewrite E. repeat split.
  - rewrite NetTableFacts.lookup_reserveZero. cbn. eauto.
  - intros n Hn.
    rewrite NetTableFacts.lookup_reserveZero, !NetTableFacts.lookup_foldl_visit.
    rewrite (NetTableFacts.foldl_overwrite _ n), (NetTableFacts.foldl_overwrite _ 0).
    rewrite (NetTableFacts.foldl_overwrite_None _ n Hn).
    destruct (Z.eqb_spec n 0) as [->|_]; [|reflexivity].
    now rewrite (NetTableFacts.foldl_overwrite_None _ 0 Hn).
  - intros n [x Hx].
    rewrite NetTableFacts.lookup_reserveZero, !NetTableFacts.lookup_foldl_visit.
    destruct (n =? 0)%Z; [eauto|].
    rewrite NetTableFacts.foldl_overwrite, Hx.
    destruct (foldl _ None _); eauto.
Qed.

Lemma net_table_keeps_other_entries_witness :
  is_Some (NetSpec.tableAfter Examples.groundStage !! 0%Z).
Proof.
  exact (proj1 (net_table_keeps_other_entries Examples.groundStage
                  (Examples.boardOf [] [Examples.groundNet]) ∅
                  eq_refl eq_refl)).
Defined.

Module SourcePortFacts.
Import CollectSourceTracesStage TraceSpec PortSpec.

Lemma find_port_known (ports : list SourcePort) id :
  id ∈ sp_source_port_id <$> ports ->
  is_Some (List.find (fun sp => String.eqb (sp_source_port_id sp) id) ports).
Proof.
  intros H. apply list_elem_of_fmap in H as (sp & -> & Hsp).
  destruct (List.find _ ports) eqn:E; [eauto|].
  apply list_elem_of_In in Hsp.
  pose proof (List.find_none _ _ E sp Hsp) as Hn. cbn in Hn.
  now rewrite String.eqb_refl in Hn.
Qed.

Lemma find_port_unknown (ports : list SourcePort) id :
  List.find (fun sp => String.eqb (sp_source_port_id sp) id) ports = None ->
  id ∉ sp_source_port_id <$> ports.
Proof.
  intros E H. apply list_elem_of_fmap in H as (sp & -> & Hsp).
  apply list_elem_of_In in Hsp.
  pose proof (List.find_none _ _ E sp Hsp) as Hn. cbn in Hn.
  now rewrite String.eqb_refl in Hn.
Qed.

Lemma extends_refl c : extends c c.
Proof. split; [reflexivity|]. split; [exists []; now rewrite app_nil_r|tauto]. Qed.

Lemma extends_trans c1 c2 c3 : extends c1 c2 -> extends c2 c3 -> extends c1 c3.
Proof.
  intros (K1 & [m1 E1] & N1) (K2 & [m2 E2] & N2).
  split; [congruence|]. split; [|tauto].
  exists (m1 ++ m2). now rewrite E2, E1, app_assoc.
Qed.

Lemma extends_elem c c' id : extends c c' -> id ∈ portIds c -> id ∈ portIds c'.
Proof. intros (_ & [m E] & _) H. rewrite E. apply elem_of_app. now left. Qed.

Lemma covered_extends c c' entries :
  extends c c' -> covered c entries -> covered c' entries.
Proof. intros X H e He. eapply extends_elem; eauto. Qed.

Lemma covered_app c l1 l2 : covered c l1 -> covered c l2 -> covered c (l1 ++ l2).
Proof. intros H1 H2 e He. apply elem_of_app in He as [?|?]; eauto. Qed.

(** A port that is in the store is found, and nothing is created. *)
Lemma getOrCreateSourcePort_known componentId padNumber footprint c :
  portId componentId padNumber ∈ portIds c ->
  getOrCreateSourcePort componentId padNumber footprint c
  = (c, portId componentId padNumber).
Proof.
  intros H. unfold getOrCreateSourcePort.
  destruct (find_port_known _ _ H) as [sp ->]. reflexivity.
Qed.

(** Afterwards the port is in the store, created at the end when its id
    was not there. *)
Lemma getOrCreateSourcePort_extends componentId padNumber footprint c :
  let c' := fst (getOrCreateSourcePort componentId padNumber footprint c) in
  extends c c' /\ portId componentId padNumber ∈ portIds c'.
Proof.
  cbv zeta. unfold getOrCreateSourcePort.
  destruct (List.find _ _) eqn:E; cbn [fst].
  - split; [apply extends_refl|].
    apply List.find_some in E as [Hin Heq]. apply String.eqb_eq in Heq.
    rewrite <- Heq. apply list_elem_of_fmap_2, list_elem_of_In, Hin.
  - apply find_port_unknown in E.
    assert (P : portIds (fst (ctx_insert "source_port" Db.source_port ESourcePort
                 (Some (portId componentId padNumber))
                 (fun id =>
                    {| sp_source_port_id := id;
                       sp_source_component_id :=
                         JsStr.or_str
                           (if JsStr.truthy_opt (footprintUuid footprint) then
                              m ← footprintUuidToSourceComponentId c;
                              u ← footprintUuid footprint;
                              m !! u
                            else None) componentId;
                       sp_name := JsStr.or_str (getFootprintReference footprint) "U"
                                  +:+ "." +:+ padNumber;
                       sp_pin_number :=
                         match JsStr.parseInt padNumber with
                         | Some n => if (n =? 0)%Z then None else Some n
                         | None => None
                         end |}) c))
                 = portIds c ++ [portId componentId padNumber]).
    { unfold portIds. rewrite DbFacts.db_ctx_insert, DbFacts.list_of_app, fmap_app.
      reflexivity. }
    split.
    + split; [reflexivity|]. split; [eexists; exact P|].
      intros Hnd. rewrite P. apply NoDup_app. split; [exact Hnd|].
      split; [|apply NoDup_singleton].
      intros x Hx Hx'. apply list_elem_of_singleton in Hx'. now subst x.
    + rewrite P. apply elem_of_app. right. apply list_elem_of_here.
Qed.

Lemma padEntry_port componentId pad e :
  padEntry componentId pad = Some e ->
  exists padNumber,
    kp_number pad = Some padNumber
    /\ sourcePortId (snd e) = portId componentId padNumber.
Proof.
  unfold padEntry. destruct (kp_number pad) as [pn|]; [|discriminate].
  destruct (getPadNet pad); [|discriminate].
  destruct (_ && _); [|discriminate]. intros [= <-]. now exists pn.
Qed.

Lemma visitPad_extends componentId footprint c g pad :
  let c' := fst (visitPad componentId footprint (c, g) pad) in
  extends c c'
  /\ forall e, padEntry componentId pad = Some e ->
       sourcePortId (snd e) ∈ portIds c'.
Proof.
  cbv zeta. unfold visitPad, padEntry.
  destruct (kp_number pad) as [pn|]; [|split; [apply extends_refl|discriminate]].
  destruct (JsStr.truthy pn); cbn [negb andb].
  2:{ split; [apply extends_refl|]. now destruct (getPadNet pad). }
  destruct (getPadNet pad) as [n|]; [|split; [apply extends_refl|discriminate]].
  destruct (n =? 0)%Z; cbn [negb]; [split; [apply extends_refl|discriminate]|].
  destruct (getOrCreateSourcePort_extends componentId pn footprint c) as [X K].
  destruct (getOrCreateSourcePort componentId pn footprint c) as [c' sp].
  cbn [fst] in *. split; [exact X|]. now intros e [= <-].
Qed.

Lemma visitPad_known componentId footprint c g pad :
  (forall e, padEntry componentId pad = Some e ->
     sourcePortId (snd e) ∈ portIds c) ->
  visitPad componentId footprint (c, g) pad
  = (c, match padEntry componentId pad with
        | Some e => pushEntry g e
        | None => g
        end).
Proof.
  unfold visitPad, padEntry.
  destruct (kp_number pad) as [pn|]; [|reflexivity].
  destruct (JsStr.truthy pn); cbn [negb andb].
  2:{ now destruct (getPadNet pad). }
  destruct (getPadNet pad) as [n|]; [|reflexivity].
  destruct (n =? 0)%Z; cbn [negb]; [reflexivity|].
  intros H. rewrite getOrCreateSourcePort_known; [reflexivity|].
  exact (H _ eq_refl).
Qed.

Lemma foldl_visitPad_extends componentId footprint pads c g :
  let c' := fst (foldl (visitPad componentId footprint) (c, g) pads) in
  extends c c' /\ covered c' (omap (padEntry componentId) pads).
Proof.
  cbv zeta. revert c g. induction pads as [|pad pads IH]; intros c g.
  - split; [apply extends_refl|]. intros e He. now apply elem_of_nil in He.
  - change (foldl (visitPad componentId footprint) (c, g) (pad :: pads))
      with (foldl (visitPad componentId footprint)
              (visitPad componentId footprint (c, g) pad) pads).
    destruct (visitPad_extends componentId footprint c g pad) as [X K].
    destruct (visitPad componentId footprint (c, g) pad) as [c1 g1].
    cbn [fst] in *. destruct (IH c1 g1) as [X' K'].
    split; [eapply extends_trans; eassumption|].
    intros e He. cbn [omap list_omap] in He.
    destruct (padEntry componentId pad) as [e0|] eqn:E0; [|now apply K'].
    apply elem_of_cons in He as [->|He]; [|now apply K'].
    eapply extends_elem; [exact X'|]. now apply K.
Qed.

Lemma foldl_visitPad_known componentId footprint pads c g :
  covered c (omap (padEntry componentId) pads) ->
  foldl (visitPad componentId footprint) (c, g) pads
  = (c, foldl pushEntry g (omap (padEntry componentId) pads)).
Proof.
  revert g. induction pads as [|pad pads IH]; intros g H; [reflexivity|].
  cbn [foldl]. rewrite visitPad_known.
  - cbn [omap list_omap] in *.
    destruct (padEntry componentId pad) as [e0|].
    + rewrite IH; [reflexivity|]. intros e He. apply H. now apply list_elem_of_further.
    + now rewrite IH.
  - intros e He. apply H. cbn [omap list_omap]. rewrite He.
    apply list_elem_of_here.
Qed.

Lemma footprintComponentId_same c c' footprint :
  footprintUuidToComponentId c' = footprintUuidToComponentId c ->
  footprintComponentId c' footprint = footprintComponentId c footprint.
Proof. intros E. unfold footprintComponentId. now rewrite E. Qed.

Lemma padEntries_same c c' pcb :
  footprintUuidToComponentId c' = footprintUuidToComponentId c ->
  padEntries c' pcb = padEntries c pcb.
Proof.
  intros E. unfold padEntries. f_equal. apply List.map_ext. intros fp.
  unfold footprintEntries. now rewrite (footprintComponentId_same _ _ _ E).
Qed.

Lemma foldl_processFootprintPads_extends c0 footprints c g :
  frame c0 c ->
  let c' := fst (foldl processFootprintPads (c, g) footprints) in
  extends c c'
  /\ covered c' (concat (List.map (footprintEntries c0) footprints)).
Proof.
  cbv zeta. revert c g. induction footprints as [|fp fps IH]; intros c g F.
  - split; [apply extends_refl|]. intros e He. now apply elem_of_nil in He.
  - change (foldl processFootprintPads (c, g) (fp :: fps))
      with (foldl processFootprintPads (processFootprintPads (c, g) fp) fps).
    destruct (TraceFacts.processFootprintPads_spec c0 c g fp F) as [_ F1].
    assert (X1 : extends c (fst (processFootprintPads (c, g) fp))
                 /\ covered (fst (processFootprintPads (c, g) fp))
                      (footprintEntries c0 fp)).
    { unfold processFootprintPads, footprintEntries. cbn [fst].
      rewrite (TraceFacts.footprintComponentId_frame _ _ _ F).
      destruct (footprintComponentId c0 fp) as [cid|].
      - apply foldl_visitPad_extends.
      - split; [apply extends_refl|]. intros e He. now apply elem_of_nil in He. }
    destruct X1 as [X1 K1].
    destruct (processFootprintPads (c, g) fp) as [c1 g1]. cbn [fst] in *.
    destruct (IH c1 g1 F1) as [X2 K2].
    split; [eapply extends_trans; eassumption|].
    cbn [List.map concat]. apply covered_app; [|exact K2].
    eapply covered_extends; eassumption.
Qed.

Lemma foldl_processFootprintPads_known footprints c g :
  covered c (concat (List.map (footprintEntries c) footprints)) ->
  foldl processFootprintPads (c, g) footprints
  = (c, foldl pushEntry g (concat (List.map (footprintEntries c) footprints))).
Proof.
  revert g. induction footprints as [|fp fps IH]; intros g H; [reflexivity|].
  cbn [foldl List.map concat] in *. rewrite foldl_app.
  assert (E : processFootprintPads (c, g) fp
              = (c, foldl pushEntry g (footprintEntries c fp))).
  { unfold processFootprintPads, footprintEntries in *. cbn [fst].
    destruct (footprintComponentId c fp) as [cid|]; [|reflexivity].
    apply foldl_visitPad_known. intros e He. apply H, elem_of_app. now left. }
  rewrite E. apply IH. intros e He. apply H, elem_of_app. now right.
Qed.

(** The collection phase only adds source ports, and afterwards the port
    of every membership is in the store. *)
Lemma collect_extends c pcb :
  extends c (fst (collect c pcb))
  /\ covered (fst (collect c pcb)) (padEntries c pcb).
Proof. apply foldl_processFootprintPads_extends, TraceFacts.frame_refl. Qed.

(** With every port in the store the collection phase changes nothing. *)
Lemma collect_known c pcb :
  covered c (padEntries c pcb) ->
  collect c pcb = (c, foldl pushEntry [] (padEntries c pcb)).
Proof. apply foldl_processFootprintPads_known. Qed.

(** *** The trace loop and the ports *)

Lemma sameBoard_refl c : sameBoard c c.
Proof. now repeat split. Qed.

Lemma sameBoard_trans c1 c2 c3 :
  sameBoard c1 c2 -> sameBoard c2 c3 -> sameBoard c1 c3.
Proof. intros (?&?&?&?) (?&?&?&?). repeat split; congruence. Qed.

Lemma createSourceTrace_sameBoard netNum pads c :
  sameBoard c (createSourceTrace netNum pads c).
Proof.
  unfold createSourceTrace, bump_traces, sameBoard, portIds.
  destruct (stats _); cbn [kicadPcb netNumToName footprintUuidToComponentId
                           db set_stats];
    rewrite DbFacts.db_ctx_insert, DbFacts.list_of_app;
    cbn; rewrite app_nil_r; now repeat split.
Qed.

Lemma foldl_visitNet_sameBoard g c P :
  sameBoard c (fst (foldl visitNet (c, P) g)).
Proof.
  revert c P. induction g as [|e g IH]; intros c P; [apply sameBoard_refl|].
  change (foldl visitNet (c, P) (e :: g))
    with (foldl visitNet (visitNet (c, P) e) g).
  rewrite TraceFacts.visitNet_traced. destruct (traced P e); [|apply IH].
  eapply sameBoard_trans; [apply createSourceTrace_sameBoard|apply IH].
Qed.

Lemma traced_mono P P' e : P ⊆ P' -> traced P e = false -> traced P' e = false.
Proof.
  unfold traced. intros HP. rewrite !negb_false_iff, !orb_true_iff.
  intros [H|H]; [now left|right].
  apply bool_decide_eq_true in H. apply bool_decide_eq_true. now apply HP.
Qed.

(** After the trace loop no entry of the list is left to trace. *)
Lemma foldl_visitNet_done g c P :
  let P' := snd (foldl visitNet (c, P) g) in
  P ⊆ P' /\ forall e, e ∈ g -> traced P' e = false.
Proof.
  cbv zeta. revert c P. induction g as [|e g IH]; intros c P.
  - split; [reflexivity|]. intros e He. now apply elem_of_nil in He.
  - change (foldl visitNet (c, P) (e :: g))
      with (foldl visitNet (visitNet (c, P) e) g).
    rewrite TraceFacts.visitNet_traced. destruct (traced P e) eqn:E.
    + destruct (IH (createSourceTrace (fst e) (snd e) c) ({[fst e]} ∪ P))
        as [HP Hg].
      split; [intros x Hx; apply HP, elem_of_union; now right|].
      intros e' He'. apply elem_of_cons in He' as [->|He']; [|now apply Hg].
      unfold traced. apply negb_false_iff, orb_true_iff. right.
      apply bool_decide_eq_true, HP, elem_of_union. left.
      now apply elem_of_singleton.
    + destruct (IH c P) as [HP Hg]. split; [exact HP|].
      intros e' He'. apply elem_of_cons in He' as [->|He']; [|now apply Hg].
      eapply traced_mono; eassumption.
Qed.

Lemma foldl_visitNet_skip g c P :
  (forall e, e ∈ g -> traced P e = false) -> foldl visitNet (c, P) g = (c, P).
Proof.
  induction g as [|e g IH]; intros H; [reflexivity|].
  cbn [foldl]. rewrite TraceFacts.visitNet_traced.
  rewrite (H e) by apply list_elem_of_here.
  apply IH. intros e' He'. apply H. now apply list_elem_of_further.
Qed.

End SourcePortFacts.

(** X9. The connectivity pass is idempotent: a second step of the stage
    returns the same stage and result as the first.  The source ports of
    the first step are found by their ids and not created again, and the
    nets that got a trace are in [processedNets], so no trace is emitted
    twice. *)
Theorem trace_step_idempotent (s : Stage CollectSourceTracesStage.Fields) :
  CollectSourceTracesStage.step (fst (CollectSourceTracesStage.step s))
  = CollectSourceTracesStage.step s.
Proof.
  destruct s as [c fin f]. unfold CollectSourceTracesStage.step at 2 3.
  cbn [ctx fields].
  destruct (kicadPcb c) as [pcb|] eqn:Hp;
    [destruct (netNumToName c) as [names|] eqn:Hn|].
  2,3: cbn [fst]; unfold CollectSourceTracesStage.step; cbn [ctx fields];
       rewrite Hp, ?Hn; reflexivity.
  destruct (TraceFacts.collect_spec c pcb) as [Eg (Fc & Fn & _)].
  destruct (SourcePortFacts.collect_extends c pcb) as [(Kp & _ & _) Hcov].
  destruct (CollectSourceTracesStage.collect c pcb) as [c1 g] eqn:Ec.
  cbn [fst snd] in *.
  pose proof (SourcePortFacts.foldl_visitNet_sameBoard g c1 f)
    as (Kp2 & Kn2 & Kc2 & Kids).
  destruct (SourcePortFacts.foldl_visitNet_done g c1 f) as [_ Hdone].
  destruct (foldl CollectSourceTracesStage.visitNet (c1, f) g) as [c2 f2] eqn:Ev.
  cbn [fst snd] in *.
  unfold CollectSourceTracesStage.step. cbn [ctx fields].
  rewrite Kp2, Kp, Hp, Kn2, Fn, Hn.
  assert (Ee : TraceSpec.padEntries c2 pcb = TraceSpec.padEntries c pcb).
  { apply SourcePortFacts.padEntries_same. congruence. }
  rewrite SourcePortFacts.collect_known.
  - rewrite Ee, <- Eg. now rewrite SourcePortFacts.foldl_visitNet_skip.
  - rewrite Ee. intros e He. unfold PortSpec.covered in Hcov.
    rewrite Kids. now apply Hcov.
Qed.

(** X10. The connectivity pass keeps the store referentially closed: when
    every endpoint of every trace was the id of a source port of the
    store before the step, it is so after the step, for the traces the
    step emitted as well; on an empty store this says that every endpoint
    of every emitted trace names a source port the pass created. *)
Theorem trace_endpoints_resolve (s : Stage CollectSourceTracesStage.Fields) :
  PortSpec.endpointsResolved (ctx s) ->
  PortSpec.endpointsResolved (ctx (fst (CollectSourceTracesStage.step s))).
Proof.
  intros H. destruct s as [c fin f]. unfold CollectSourceTracesStage.step.
  cbn [ctx fields] in *.
  destruct (kicadPcb c) as [pcb|] eqn:Hp;
    [destruct (netNumToName c) as [names|] eqn:Hn|]; [|exact H..].
  destruct (TraceFacts.collect_spec c pcb) as [_ (_ & _ & Ft)].
  destruct (TraceTheory.collect_members c pcb) as (Hnd & _ & Hmem).
  destruct (SourcePortFacts.collect_extends c pcb) as [X Hcov].
  destruct (CollectSourceTracesStage.collect c pcb) as [c1 g].
  cbn [fst snd] in *.
  pose proof (SourcePortFacts.foldl_visitNet_sameBoard g c1 f)
    as (_ & _ & _ & Kids).
  destruct (TraceFacts.foldl_visitNet_spec g c1 f Hnd) as (_ & ts & Ets & Evs).
  destruct (foldl CollectSourceTracesStage.visitNet (c1, f) g) as [c2 f2].
  cbn [fst snd ctx] in *.
  intros t Ht id Hid. unfold PortSpec.portIds in Kids |- *.
  fold (PortSpec.portIds c2). fold (PortSpec.portIds c2) (PortSpec.portIds c1) in Kids.
  rewrite Kids. rewrite Ets, Ft in Ht. apply elem_of_app in Ht as [Ht|Ht].
  - eapply SourcePortFacts.extends_elem; [exact X|]. eapply H; eassumption.
  - assert (Hv : TraceSpec.traceView t ∈ TraceSpec.traceView <$> ts)
      by now apply list_elem_of_fmap_2.
    rewrite Evs in Hv. apply list_elem_of_fmap in Hv as ([n pads] & Ev & He).
    apply list_elem_of_In, List.filter_In in He as [He _].
    apply list_elem_of_In in He. cbn [fst snd] in Ev.
    injection Ev as Eids _. rewrite Eids in Hid.
    apply list_elem_of_fmap in Hid as (r & -> & Hr).
    rewrite (Hmem _ _ He) in Hr. unfold TraceSpec.memberPads in Hr.
    apply list_elem_of_fmap in Hr as (e & -> & Hin).
    apply list_elem_of_In, List.filter_In in Hin as [Hin _].
    apply Hcov, list_elem_of_In, Hin.
Qed.

Lemma trace_endpoints_resolve_witness :
  PortSpec.endpointsResolved
    (ctx (fst (CollectSourceTracesStage.step Examples.twinPadStage))).
Proof.
  apply (trace_endpoints_resolve Examples.twinPadStage).
  intros t Ht. vm_compute in Ht. now apply elem_of_nil in Ht.
Defined.

(** X11. The connectivity pass never gives two source ports the same id:
    when the ids of the source ports of the store are pairwise distinct
    before the step, they are so after it, and the ports that were there
    stay, in their order, at the front. *)
Theorem source_port_ids_stay_unique
    (s : Stage CollectSourceTracesStage.Fields) :
  NoDup (PortSpec.portIds (ctx s)) ->
  NoDup (PortSpec.portIds (ctx (fst (CollectSourceTracesStage.step s))))
  /\ exists more,
       PortSpec.portIds (ctx (fst (CollectSourceTracesStage.step s)))
       = PortSpec.portIds (ctx s) ++ more.
Proof.
  intros H. destruct s as [c fin f]. unfold CollectSourceTracesStage.step.
  cbn [ctx fields] in *.
  assert (T : NoDup (PortSpec.portIds c)
              /\ exists more, PortSpec.portIds c = PortSpec.portIds c ++ more).
  { split; [exact H|]. exists []. now rewrite app_nil_r. }
  destruct (kicadPcb c) as [pcb|] eqn:Hp;
    [destruct (netNumToName c) as [names|] eqn:Hn|]; [|exact T..].
  destruct (SourcePortFacts.collect_extends c pcb) as [(_ & Hm & Hnd) _].
  destruct (CollectSourceTracesStage.collect c pcb) as [c1 g].
  cbn [fst snd] in *.
  pose proof (SourcePortFacts.foldl_visitNet_sameBoard g c1 f)
    as (_ & _ & _ & Kids).
  destruct (foldl CollectSourceTracesStage.visitNet (c1, f) g) as [c2 f2].
  cbn [fst snd ctx] in *. rewrite Kids. split; [now apply Hnd|exact Hm].
Qed.

Lemma source_port_ids_stay_unique_witness :
  NoDup (PortSpec.portIds
           (ctx (fst (CollectSourceTracesStage.step Examples.twinPadStage)))).
Proof.
  apply (source_port_ids_stay_unique Examples.twinPadStage).
  vm_compute. constructor.
Defined.

Module TurnFacts.
Import RotationSpec.
#[local] Open Scope R_scope.

Lemma rotationToDirection_quarter r :
  clear r ->
  rotationToDirection (r + 90) = DirectionSpec.quarterTurn (rotationToDirection r).
Proof.
  intros C.
  rewrite (RotationFacts.rotationToDirection_quadrant r C).
  rewrite (RotationFacts.rotationToDirection_quadrant (r + 90))
    by now apply RotationFacts.clear_quarter.
  rewrite RotationFacts.residue_quarter.
  apply RotationFacts.quadrant_quarter, RotationFacts.residue_range.
Qed.

Lemma clear_back r : clear r -> clear (r - 90).
Proof.
  intros C.
  replace (r - 90) with (r + 90 + 90 + 90 + 360 * IZR (-1)) by lra.
  now apply RotationFacts.clear_periodic; do 3 apply RotationFacts.clear_quarter.
Qed.

Lemma clear_0 : clear 0.
Proof.
  pose proof RotationFacts.margin_pos. pose proof RotationFacts.margin_small.
  apply RotationFacts.clear_id; lra.
Qed.

Lemma normal_90 : RoundSpec.normal 90.
Proof. RoundConst.normal_by (90 * 2 ^ 46)%Z (-46)%Z. Qed.

Lemma round64_0 : Js.round64 0 = 0.
Proof.
  apply Rle_antisym;
    [apply RoundFacts.round64_nonpos|apply RoundFacts.round64_nonneg]; lra.
Qed.

End TurnFacts.

(** X12. Turning a rotation by 90 degrees turns its direction by a
    quarter: up becomes right, right becomes down, down becomes left and
    left becomes up, for every rotation clear of the strips below the
    quadrant boundaries (a residue less than 2^-43 below 45, 135, 225 or
    315 is in a strip, and there the rounded sum of the normalisation
    can give the next quadrant), negative rotations and ones beyond a
    whole turn included; so 180 degrees give the opposite direction, and
    the direction of a rotation is a quarter after the direction of the
    rotation 90 degrees before it. *)
Theorem rotationToDirection_quarter_turn (r : R) :
  RotationSpec.clear r ->
  rotationToDirection (r + 90)
  = DirectionSpec.quarterTurn (rotationToDirection r)
  /\ rotationToDirection (r + 180)
     = DirectionSpec.quarterTurn
         (DirectionSpec.quarterTurn (rotationToDirection r))
  /\ DirectionSpec.quarterTurn (rotationToDirection (r - 90))
     = rotationToDirection r.
Proof.
  intros C.
  split; [now apply TurnFacts.rotationToDirection_quarter|]. split.
  - replace (r + 180)%R with (r + 90 + 90)%R by lra.
    rewrite TurnFacts.rotationToDirection_quarter
      by now apply RotationFacts.clear_quarter.
    now rewrite TurnFacts.rotationToDirection_quarter.
  - rewrite <- TurnFacts.rotationToDirection_quarter
      by now apply TurnFacts.clear_back.
    f_equal. lra.
Qed.

Lemma rotationToDirection_quarter_turn_witness :
  rotationToDirection (0 + 90)
  = DirectionSpec.quarterTurn (rotationToDirection 0).
Proof.
  exact (proj1 (rotationToDirection_quarter_turn 0 TurnFacts.clear_0)).
Defined.

(** X13. The symbol name inferred for a library id and a reference is
    either absent for every rotation, or one of eleven families followed
    by the direction of the rotation: the rotation decides the suffix
    and nothing else, so rotations of the same direction, such as
    rotations a whole number of turns apart, give the same name. *)
Theorem inferSymbolName_family (libId reference : string) :
  (forall rotation, inferSymbolName libId reference rotation = None)
  \/ exists family,
       family ∈ SymbolNameSpec.families
       /\ forall rotation,
            inferSymbolName libId reference rotation
            = Some (family
                    +:+ direction_suffix (rotationToDirection rotation)).
Proof.
  unfold inferSymbolName. cbv zeta.
  repeat match goal with
         | |- context [if ?b then _ else _] => destruct b
         end;
    first
      [ left; intros; reflexivity
      | right; eexists; split; [|intros; reflexivity];
        unfold SymbolNameSpec.families;
        repeat first [apply list_elem_of_here | apply list_elem_of_further] ].
Qed.

Module StatsFacts.
Import StatsSpec.

Lemma counted_refl f c : counted f 0 c c.
Proof.
  split; [intros H; exact H|]. intros H. split; [exact H|].
  now rewrite Nat.add_0_r.
Qed.

Lemma counted_trans f n1 n2 c1 c2 c3 :
  counted f n1 c1 c2 -> counted f n2 c2 c3 -> counted f (n1 + n2) c1 c3.
Proof.
  intros [N1 S1] [N2 S2]. split; [auto|].
  intros H. destruct (S1 H) as [H2 E2]. destruct (S2 H2) as [H3 E3].
  split; [exact H3|]. rewrite E3, E2. now rewrite Nat.add_assoc.
Qed.

Lemma or_num_nonzero x d : d <> 0%R -> Js.or_num x d <> 0%R.
Proof. intros Hd. unfold Js.or_num. now destruct (decide (x = 0%R)). Qed.

End StatsFacts.

Module ViaFacts.
Import CollectViasStage StatsSpec ViaSpec.
#[local] Open Scope R_scope.

Lemma bump_vias_counted c : counted stats_vias 1 c (bump_vias c).
Proof.
  unfold counted, counter, bump_vias. destruct (stats c) as [st|] eqn:E; cbn.
  - split; [discriminate|]. intros _. split; [eauto|]. unfold bump. cbn. lia.
  - split; [intros _; exact E|]. intros [? [=]].
Qed.

Lemma processVia_spec c via m names :
  k2cMatPcb c = Some m ->
  netNumToName c = Some names ->
  let c' := processVia c via in
  k2cMatPcb c' = Some m
  /\ netNumToName c' = Some names
  /\ counted stats_vias 1 c c'
  /\ exists v, db c' = db c ++ [EPcbVia v] /\ recordOf m via v.
Proof.
  intros Hm Hn. cbv zeta. unfold processVia. rewrite Hm, Hn.
  destruct (viaLayers via) as [fromLayer toLayer].
  match goal with
  | |- context [bump_vias ?x] => set (c1 := x)
  end.
  assert (Hs : stats c1 = stats c) by reflexivity.
  assert (Hc : counted stats_vias 1 c (bump_vias c1)).
  { pose proof (bump_vias_counted c1) as [N S]. unfold counted, counter in *.
    rewrite Hs in *. now split. }
  assert (Hd : db (bump_vias c1) = db c1).
  { unfold bump_vias. now destruct (stats c1). }
  assert (Hk : k2cMatPcb (bump_vias c1) = k2cMatPcb c1
               /\ netNumToName (bump_vias c1) = netNumToName c1).
  { unfold bump_vias. now destruct (stats c1). }
  destruct Hk as [Hk1 Hk2].
  split; [rewrite Hk1; exact Hm|]. split; [rewrite Hk2; exact Hn|].
  split; [exact Hc|].
  eexists. split; [rewrite Hd; subst c1; apply DbFacts.db_ctx_insert|].
  cbn [snd ctx_insert Db.insert]. unfold recordOf.
  cbn [pv_x pv_y pv_outer_diameter pv_hole_diameter pv_layers length].
  split; [|split; [|split; [|split; [|split]]]].
  - destruct (default CollectGraphicsStage.origin (via_at via)) as [x y].
    cbn [px py]. now destruct (applyToPoint m _).
  - destruct (via_size via); [apply StatsFacts.or_num_nonzero|]; lra.
  - destruct (via_drill via); [apply StatsFacts.or_num_nonzero|]; lra.
  - now intros ->.
  - now intros ->.
  - reflexivity.
Qed.

Lemma foldl_processVia_spec vias c m names :
  k2cMatPcb c = Some m ->
  netNumToName c = Some names ->
  let c' := foldl processVia c vias in
  counted stats_vias (length vias) c c'
  /\ exists records,
       db c' = db c ++ (EPcbVia <$> records)
       /\ Forall2 (recordOf m) vias records.
Proof.
  revert c. induction vias as [|via vias IH]; intros c Hm Hn; cbv zeta.
  - split; [apply StatsFacts.counted_refl|].
    exists []. split; [now rewrite app_nil_r|constructor].
  - cbn [foldl length].
    destruct (processVia_spec c via m names Hm Hn) as (Hm1 & Hn1 & C1 & v & E1 & R1).
    destruct (IH (processVia c via) Hm1 Hn1) as (C2 & records & E2 & R2).
    split; [exact (StatsFacts.counted_trans _ 1 _ _ _ _ C1 C2)|].
    exists (v :: records). split; [|now constructor].
    rewrite E2, E1, <- app_assoc. reflexivity.
Qed.

End ViaFacts.

(** X14. With its inputs present, the via pass appends one via record
    per via of the board, in the order of the board and to the end of
    the store, and changes no other record: each record has the mapped
    position of its via, an outer and a hole diameter that are never
    zero (0.8 and 0.4 when the via gives none) and two layers; the via
    counter of the statistics, when there are statistics, rises by the
    number of vias. *)
Theorem vias_step_records (s : Stage unit) (pcb : KicadPcb) (m : Matrix)
    (names : gmap Z string) :
  kicadPcb (ctx s) = Some pcb ->
  k2cMatPcb (ctx s) = Some m ->
  netNumToName (ctx s) = Some names ->
  let c' := ctx (fst (CollectViasStage.step s)) in
  let vias := to_array (pcb_vias pcb) in
  StatsSpec.counted stats_vias (length vias) (ctx s) c'
  /\ exists records,
       db c' = db (ctx s) ++ (EPcbVia <$> records)
       /\ Forall2 (ViaSpec.recordOf m) vias records.
Proof.
  intros Hp Hm Hn. cbv zeta. unfold CollectViasStage.step.
  rewrite Hp, Hm, Hn. cbn [fst ctx].
  exact (ViaFacts.foldl_processVia_spec _ _ m names Hm Hn).
Qed.

Lemma vias_step_records_witness :
  StatsSpec.counted stats_vias 1 (BoardExamples.contextOf BoardExamples.viaBoard)
    (ctx (fst (CollectViasStage.step BoardExamples.viaStage))).
Proof.
  exact (proj1 (vias_step_records BoardExamples.viaStage BoardExamples.viaBoard
                  Examples.boardMatrix ∅ eq_refl eq_refl eq_refl)).
Defined.

Module ZoneFacts.
Import CollectZonesStage StatsSpec ZoneSpec.

Lemma warned_refl c : warned 0 c c.
Proof.
  unfold warned. destruct (warnings c) as [w|]; [|reflexivity].
  exists []. now rewrite app_nil_r.
Qed.

Lemma warned_trans n1 n2 c1 c2 c3 :
  warned n1 c1 c2 -> warned n2 c2 c3 -> warned (n1 + n2) c1 c3.
Proof.
  unfold warned. destruct (warnings c1) as [w|].
  - intros (m1 & -> & <-) (m2 & -> & <-). exists (m1 ++ m2).
    now rewrite app_assoc, length_app.
  - now intros ->.
Qed.

Lemma bump_copper_pours_counted c :
  counted stats_copper_pours 1 c (bump_copper_pours c).
Proof.
  unfold counted, counter, bump_copper_pours.
  destruct (stats c) as [st|] eqn:E; cbn.
  - split; [discriminate|]. intros _. split; [eauto|]. unfold bump. cbn. lia.
  - split; [intros _; exact E|]. intros [? [=]].
Qed.

(** What the zone pass keeps of the context. *)
Definition kept (m : Matrix) (names : gmap Z string) (c : ConverterContext)
  : Prop :=
  k2cMatPcb c = Some m /\ netNumToName c = Some names.

Lemma extractFilledPolygons_nonempty children :
  Forall (fun points => points <> []) (extractFilledPolygons children).
Proof.
  unfold extractFilledPolygons. apply Forall_forall. intros points H.
  apply list_elem_of_In, List.filter_In in H as [_ H].
  apply Nat.ltb_lt in H. intros ->. cbn in H. lia.
Qed.

Lemma polygonsOf_nonempty zone :
  Forall (fun points => points <> []) (polygonsOf zone).
Proof.
  unfold polygonsOf. destruct (zone_rawChildren zone) as [children|];
    [|constructor].
  pose proof (extractFilledPolygons_nonempty children) as H.
  cbv zeta. destruct (extractFilledPolygons children) as [|p l]; [|exact H].
  destruct (0 <? length (extractMainPolygon children))%nat eqn:E;
    [|constructor].
  constructor; [|constructor]. apply Nat.ltb_lt in E. intros E'.
  rewrite E' in E. cbn in E. lia.
Qed.

(** The loop over the polygons of one zone. *)
Lemma foldl_pour_spec m names layer netName polygons c :
  kept m names c ->
  let c' :=
    foldl (fun c polygonPoints =>
             let transformedPoints :=
               List.map (fun point =>
                           applyToPoint m {| px := px point; py := py point |})
                        polygonPoints in
             bump_copper_pours
               (fst (ctx_insert "pcb_copper_pour" Db.pcb_copper_pour
                       EPcbCopperPour None
                       (fun id =>
                          {| pcp_pcb_copper_pour_id := id;
                             pcp_layer := layer;
                             pcp_net_name := netName;
                             pcp_points := transformedPoints;
                             pcp_shape := "polygon" |})
                       c)))
          c polygons in
  kept m names c'
  /\ warnings c' = warnings c
  /\ counted stats_copper_pours (length polygons) c c'
  /\ exists pours,
       db c' = db c ++ (EPcbCopperPour <$> pours)
       /\ pcp_points <$> pours
          = List.map (CollectGraphicsStage.toCircuitJson m) <$> polygons
       /\ Forall (fun p => pcp_shape p = "polygon" /\ pcp_layer p = layer
                           /\ pcp_net_name p = netName) pours.
Proof.
  revert c. induction polygons as [|points polygons IH]; intros c K; cbv zeta.
  - split; [exact K|]. split; [reflexivity|].
    split; [apply StatsFacts.counted_refl|].
    exists []. split; [now rewrite app_nil_r|]. split; [reflexivity|constructor].
  - cbn [foldl length].
    match goal with
    | |- context [foldl ?f (bump_copper_pours ?x) polygons] =>
        set (c1 := x)
    end.
    assert (K1 : kept m names (bump_copper_pours c1)).
    { unfold kept, bump_copper_pours. destruct (stats c1); exact K. }
    assert (W1 : warnings (bump_copper_pours c1) = warnings c).
    { unfold bump_copper_pours. now destruct (stats c1). }
    assert (D1 : db (bump_copper_pours c1) = db c1).
    { unfold bump_copper_pours. now destruct (stats c1). }
    assert (C1 : counted stats_copper_pours 1 c (bump_copper_pours c1)).
    { pose proof (bump_copper_pours_counted c1) as H.
      unfold counted, counter in *.
      replace (stats c1) with (stats c) in H by reflexivity. exact H. }
    destruct (IH (bump_copper_pours c1) K1) as (K2 & W2 & C2 & pours & E2 & P2 & F2).
    split; [exact K2|]. split; [exact (eq_trans W2 W1)|].
    split; [exact (StatsFacts.counted_trans _ 1 _ _ _ _ C1 C2)|].
    eexists (_ :: pours). split; [|split].
    + etransitivity; [exact E2|]. rewrite D1. subst c1.
      rewrite DbFacts.db_ctx_insert, <- app_assoc. reflexivity.
    + cbn [fmap list_fmap snd ctx_insert Db.insert pcp_points]. f_equal. exact P2.
    + constructor; [now repeat split|exact F2].
Qed.

Lemma createCopperPourFromZone_spec m names c zone :
  kept m names c ->
  is_Some (zone_rawChildren zone) ->
  let c' := createCopperPourFromZone c zone in
  kept m names c'
  /\ warned (if bool_decide (polygonsOf zone = []) then 1 else 0) c c'
  /\ counted stats_copper_pours (length (polygonsOf zone)) c c'
  /\ exists pours,
       db c' = db c ++ (EPcbCopperPour <$> pours)
       /\ pcp_points <$> pours
          = List.map (CollectGraphicsStage.toCircuitJson m) <$> polygonsOf zone
       /\ Forall (fun p => pcp_shape p = "polygon") pours
       /\ (forall p q, p ∈ pours -> q ∈ pours ->
             pcp_layer p = pcp_layer q /\ pcp_net_name p = pcp_net_name q).
Proof.
  intros K [children Hc]. cbv zeta. pose proof K as [Hm Hn].
  unfold createCopperPourFromZone, polygonsOf. rewrite Hm, Hn, Hc. cbv zeta.
  set (polys := match extractFilledPolygons children with
                | [] => if (0 <? length (extractMainPolygon children))%nat
                        then [extractMainPolygon children] else []
                | _ :: _ => extractFilledPolygons children
                end).
  destruct polys as [|p l] eqn:Ep.
  - rewrite bool_decide_eq_true_2 by reflexivity.
    assert (Last : forall c' : ConverterContext,
              db c' = db c ->
              exists pours : list PcbCopperPour,
                db c' = db c ++ (EPcbCopperPour <$> pours)
                /\ pcp_points <$> pours
                   = List.map (CollectGraphicsStage.toCircuitJson m) <$> []
                /\ Forall (fun p => pcp_shape p = "polygon") pours
                /\ (forall p q, p ∈ pours -> q ∈ pours ->
                      pcp_layer p = pcp_layer q
                      /\ pcp_net_name p = pcp_net_name q)).
    { intros c' E. exists []. split; [rewrite E; now rewrite app_nil_r|].
      split; [reflexivity|]. split; [constructor|].
      intros p q Hp. now apply elem_of_nil in Hp. }
    destruct (warnings c) as [w|] eqn:Ew.
    + split; [exact K|]. split; [|split].
      * unfold warned. rewrite Ew. cbn [warnings set_warnings].
        eexists. split; reflexivity.
      * apply (StatsFacts.counted_refl stats_copper_pours c).
      * now apply Last.
    + split; [exact K|]. split; [|split].
      * unfold warned. now rewrite Ew.
      * apply StatsFacts.counted_refl.
      * now apply Last.
  - rewrite bool_decide_eq_false_2 by discriminate.
    destruct (foldl_pour_spec m names
                (mapLayer (zd_layer (parseZoneData children)))
                (match lookupNet names (zd_net (parseZoneData children)) with
                 | Some s =>
                     if JsStr.truthy s then SxStr s
                     else default (SxStr "")
                            (truthy_sx (zd_netName (parseZoneData children)))
                 | None =>
                     default (SxStr "")
                       (truthy_sx (zd_netName (parseZoneData children)))
                 end)
                (p :: l) c K)
      as (K' & W' & C' & pours & E' & P' & F').
    cbv zeta in K', W', C', E'.
    split; [exact K'|]. split; [|split; [exact C'|]].
    + unfold warned. rewrite W'. destruct (warnings c) as [w|]; [|reflexivity].
      exists []. now rewrite app_nil_r.
    + exists pours. split; [exact E'|]. split; [exact P'|]. split.
      * eapply Forall_impl; [exact F'|]. now intros x (? & _).
      * intros x y Hx Hy.
        rewrite Forall_forall in F'.
        destruct (F' x Hx) as (_ & -> & ->).
        destruct (F' y Hy) as (_ & -> & ->). now split.
Qed.

Lemma isZoneFilled_children zone :
  isZoneFilled zone = true -> is_Some (zone_rawChildren zone).
Proof. unfold isZoneFilled. destruct (zone_rawChildren zone); [eauto|discriminate]. Qed.

(** The loop over the zones of the board. *)
Lemma foldl_zone_spec m names zones c :
  kept m names c ->
  let c' := foldl (fun c zone => if isZoneFilled zone
                                 then createCopperPourFromZone c zone else c)
                  c zones in
  let poured := List.filter isZoneFilled zones in
  kept m names c'
  /\ warned (length (List.filter unpourable zones)) c c'
  /\ counted stats_copper_pours (length (concat (polygonsOf <$> poured))) c c'
  /\ exists pours,
       db c' = db c ++ (EPcbCopperPour <$> pours)
       /\ pcp_points <$> pours
          = List.map (CollectGraphicsStage.toCircuitJson m)
              <$> concat (polygonsOf <$> poured)
       /\ Forall (fun p => pcp_shape p = "polygon") pours.
Proof.
  revert c. induction zones as [|zone zones IH]; intros c K; cbv zeta.
  - split; [exact K|]. split; [apply warned_refl|].
    split; [apply StatsFacts.counted_refl|].
    exists []. split; [now rewrite app_nil_r|]. split; [reflexivity|constructor].
  - cbn [foldl List.filter]. unfold unpourable at 1.
    destruct (isZoneFilled zone) eqn:Ef; cbn [andb].
    + destruct (createCopperPourFromZone_spec m names c zone K
                  (isZoneFilled_children _ Ef))
        as (K1 & W1 & C1 & pours1 & E1 & P1 & F1 & _).
      destruct (IH (createCopperPourFromZone c zone) K1)
        as (K2 & W2 & C2 & pours2 & E2 & P2 & F2).
      split; [exact K2|]. split; [|split].
      * destruct (bool_decide (polygonsOf zone = [])); cbn [length];
          exact (warned_trans _ _ _ _ _ W1 W2).
      * cbn [fmap list_fmap concat]. rewrite length_app.
        exact (StatsFacts.counted_trans _ _ _ _ _ _ C1 C2).
      * exists (pours1 ++ pours2). split; [|split].
        -- rewrite E2, E1, fmap_app, app_assoc. reflexivity.
        -- cbn [fmap list_fmap concat]. rewrite !fmap_app. now rewrite P1, P2.
        -- apply Forall_app. now split.
    + apply IH, K.
Qed.

End ZoneFacts.

(** X15. With its inputs present, the zone pass appends one copper pour
    per polygon of each filled zone, in order and to the end of the
    store, and changes no other record: the pour carries the polygon
    with every point mapped by the transform and the shape polygon, and
    no pour has an empty polygon; a zone that is not filled gives
    nothing; every filled zone without a polygon adds one warning, when
    there is a warnings list; the pour counter of the statistics, when
    there are statistics, rises by the number of pours. *)
Theorem zones_step_records (s : Stage unit) (pcb : KicadPcb) (m : Matrix)
    (names : gmap Z string) :
  kicadPcb (ctx s) = Some pcb ->
  k2cMatPcb (ctx s) = Some m ->
  netNumToName (ctx s) = Some names ->
  let c' := ctx (fst (CollectZonesStage.step s)) in
  let zones := to_array (pcb_zones pcb) in
  let polygons :=
    concat (ZoneSpec.polygonsOf <$> List.filter CollectZonesStage.isZoneFilled zones) in
  Forall (fun points => points <> []) polygons
  /\ ZoneSpec.warned (length (List.filter ZoneSpec.unpourable zones)) (ctx s) c'
  /\ StatsSpec.counted stats_copper_pours (length polygons) (ctx s) c'
  /\ exists pours,
       db c' = db (ctx s) ++ (EPcbCopperPour <$> pours)
       /\ pcp_points <$> pours
          = List.map (CollectGraphicsStage.toCircuitJson m) <$> polygons
       /\ Forall (fun p => pcp_shape p = "polygon" /\ pcp_points p <> []) pours.
Proof.
  intros Hp Hm Hn. cbv zeta. unfold CollectZonesStage.step.
  rewrite Hp, Hm, Hn. cbn [fst ctx].
  destruct (ZoneFacts.foldl_zone_spec m names (to_array (pcb_zones pcb)) (ctx s)
              (conj Hm Hn)) as (_ & W & C & pours & E & P & F).
  assert (N : Forall (fun points : list Point => points <> [])
                (concat (ZoneSpec.polygonsOf
                           <$> List.filter CollectZonesStage.isZoneFilled
                                 (to_array (pcb_zones pcb))))).
  { apply Forall_concat, Forall_fmap, Forall_forall. intros z _.
    apply ZoneFacts.polygonsOf_nonempty. }
  split; [exact N|]. split; [exact W|]. split; [exact C|].
  exists pours. split; [exact E|]. split; [exact P|].
  apply Forall_forall. intros p Hin. split.
  - rewrite Forall_forall in F. now apply F.
  - assert (Hpp : pcp_points p ∈ pcp_points <$> pours)
      by now apply list_elem_of_fmap_2.
    rewrite P in Hpp. apply list_elem_of_fmap in Hpp as (points & -> & Hpts).
    rewrite Forall_forall in N. specialize (N _ Hpts).
    destruct points; [contradiction|discriminate].
Qed.

Lemma zones_step_records_witness :
  exists pours,
    db (ctx (fst (CollectZonesStage.step BoardExamples.zoneStage)))
    = db (BoardExamples.contextOf BoardExamples.zoneBoard)
      ++ (EPcbCopperPour <$> pours).
Proof.
  destruct (zones_step_records BoardExamples.zoneStage BoardExamples.zoneBoard
              Examples.boardMatrix ∅ eq_refl eq_refl eq_refl)
    as (_ & _ & _ & pours & E & _).
  now exists pours.
Defined.

Module PadLoopFacts.
Import ProcessPads StatsSpec PadSpec.

Lemma bump_pads_counted c c1 :
  stats c1 = stats c ->
  counted stats_pads 1 c (CollectGraphicsStage.bump_pads c1).
Proof.
  intros Hs. unfold counted, counter, CollectGraphicsStage.bump_pads.
  rewrite Hs. destruct (stats c) as [st|] eqn:E; cbn.
  - split; [discriminate|]. intros _. split; [eauto|]. unfold bump. cbn. lia.
  - split; [intros _; congruence|]. intros [? [=]].
Qed.

Lemma counted_same f c c' : stats c' = stats c -> counted f 0 c c'.
Proof.
  intros E. unfold counted, counter. rewrite E.
  split; [tauto|]. intros H. split; [exact H|lia].
Qed.

Lemma truthy_ne s : JsStr.truthy s = true -> s <> "".
Proof.
  unfold JsStr.truthy. intros H ->. now rewrite String.eqb_refl in H.
Qed.

Section WithLayerUtils.
Variable determineLayerFromLayers : list (option string) -> option string.

Lemma createPcbPort_spec c componentId padInfo :
  let r := createPcbPort determineLayerFromLayers c componentId padInfo in
  k2cMatPcb (fst r) = k2cMatPcb c
  /\ stats (fst r) = stats c
  /\ (if snd r
      then exists p,
             db (fst r) = db c ++ [EPcbPort p]
             /\ pp_pcb_component_id p = componentId
             /\ {| px := pp_x p; py := pp_y p |} = ppi_position padInfo
             /\ pp_source_port_id p
                = CollectSourceTracesStage.portId componentId
                    (ppi_padNumber padInfo)
      else fst r = c).
Proof.
  cbv zeta. unfold createPcbPort.
  destruct (determineLayerFromLayers (ppi_layers padInfo)) as [layer|];
    [|now repeat split].
  destruct (JsStr.truthy layer); cbn [negb fst snd]; [|now repeat split].
  split; [reflexivity|]. split; [reflexivity|].
  eexists. split; [apply DbFacts.db_ctx_insert|].
  cbn [snd ctx_insert Db.insert pp_pcb_component_id pp_x pp_y pp_source_port_id].
  split; [reflexivity|]. split; [now destruct (ppi_position padInfo)|reflexivity].
Qed.

Lemma processPadPort_spec c pad componentId padType globalPos :
  let c' := processPadPort determineLayerFromLayers c pad componentId padType
              globalPos in
  k2cMatPcb c' = k2cMatPcb c
  /\ stats c' = stats c
  /\ (c' = c
      \/ exists p, numbered pad = true
                   /\ portOf componentId globalPos pad p
                   /\ db c' = db c ++ [EPcbPort p]).
Proof.
  cbv zeta. unfold processPadPort, numbered.
  destruct (kp_number pad) as [pn|] eqn:En; [|now repeat split; left].
  destruct (JsStr.truthy pn) eqn:Et; [|now repeat split; left].
  match goal with
  | |- context [createPcbPort _ c componentId ?i] =>
      destruct (createPcbPort_spec c componentId i) as (Hm & Hs & Hr);
      destruct (createPcbPort determineLayerFromLayers c componentId i)
        as [c1 [|]]
  end; cbn [fst snd] in *.
  - split; [exact Hm|]. split; [exact Hs|]. right.
    destruct Hr as (p & Hd & Hc & Hxy & Hid). exists p.
    split; [reflexivity|]. split; [|exact Hd].
    split; [exact Hc|]. split; [exact Hxy|].
    exists pn. split; [exact En|]. split; [now apply truthy_ne|exact Hid].
  - subst c1. split; [reflexivity|]. split; [reflexivity|]. now left.
Qed.

Lemma createSmdPad_spec c pad componentId pos size shape :
  let c' := createSmdPad determineLayerFromLayers c pad componentId pos size
              shape in
  k2cMatPcb c' = k2cMatPcb c
  /\ counted stats_pads 1 c c'
  /\ exists e, db c' = db c ++ [EPcbSmtpad e].
Proof.
  cbv zeta. split; [|split].
  - unfold createSmdPad.
    destruct (if String.eqb shape "custom" then customPolygon pad else None);
      unfold bump_pads; now rewrite PadFacts.matrix_bump_pads.
  - unfold createSmdPad.
    destruct (if String.eqb shape "custom" then customPolygon pad else None);
      unfold bump_pads; now apply bump_pads_counted.
  - apply PadFacts.createSmdPad_db.
Qed.

Lemma createPlatedHole_spec c pad componentId pos size drill shape rotation :
  let c' := createPlatedHole c pad componentId pos size drill shape rotation in
  k2cMatPcb c' = k2cMatPcb c
  /\ counted stats_pads 1 c c'
  /\ exists e, db c' = db c ++ [EPcbPlatedHole e].
Proof.
  cbv zeta. split; [|split].
  - unfold createPlatedHole, bump_pads. now rewrite PadFacts.matrix_bump_pads.
  - unfold createPlatedHole, bump_pads. now apply bump_pads_counted.
  - apply PadFacts.createPlatedHole_db.
Qed.

Lemma createNpthHole_spec c pad componentId pos drill :
  let c' := createNpthHole c pad componentId pos drill in
  k2cMatPcb c' = k2cMatPcb c
  /\ counted stats_pads 0 c c'
  /\ exists e, db c' = db c ++ [EPcbHole e].
Proof.
  cbv zeta. split; [reflexivity|]. split; [now apply counted_same|].
  apply PadFacts.createNpthHole_db.
Qed.

Lemma counted_from f n c c1 c' :
  k2cMatPcb c1 = k2cMatPcb c -> stats c1 = stats c ->
  counted f n c1 c' -> counted f n c c'.
Proof. intros _ Hs. unfold counted, counter. now rewrite Hs. Qed.

(** One pad: its port, if any, and then its geometry are appended. *)
Lemma processPad_spec c m pad componentId kicadComponentPos componentRotation :
  k2cMatPcb c = Some m ->
  let c' := processPad determineLayerFromLayers c pad componentId
              kicadComponentPos componentRotation in
  k2cMatPcb c' = Some m
  /\ counted stats_pads (if isNpth pad then 0 else 1) c c'
  /\ exists records,
       db c' = db c ++ records
       /\ recordsOf componentId
            (padGlobalPos m pad kicadComponentPos componentRotation)
            pad records.
Proof.
  intros Hm. cbv zeta. unfold processPad. rewrite Hm.
  set (pos := padGlobalPos m pad kicadComponentPos componentRotation).
  destruct (processPadPort_spec c pad componentId (padTypeOf pad) pos)
    as (Hm1 & Hs1 & Hp).
  set (c1 := processPadPort determineLayerFromLayers c pad componentId
               (padTypeOf pad) pos) in *.
  assert (G : forall c' geometry n,
            k2cMatPcb c' = k2cMatPcb c1 ->
            counted stats_pads n c1 c' ->
            db c' = db c1 ++ [geometry] ->
            geometryOf pad geometry ->
            k2cMatPcb c' = Some m
            /\ counted stats_pads n c c'
            /\ exists records,
                 db c' = db c ++ records
                 /\ recordsOf componentId pos pad records).
  { intros c' geometry n Km Kc Kd Kg.
    split; [congruence|]. split; [now apply (counted_from _ _ c c1)|].
    destruct Hp as [E|(p & Hn & Hport & Hd)].
    - exists [geometry]. split; [now rewrite Kd, E|].
      exists geometry. split; [exact Kg|now left].
    - exists [EPcbPort p; geometry]. split.
      + rewrite Kd, Hd, <- app_assoc. reflexivity.
      + exists geometry. split; [exact Kg|]. right. now exists p. }
  unfold isNpth, isSmd.
  destruct (String.eqb (padTypeOf pad) "smd") eqn:E1; cbn [negb andb].
  - destruct (createSmdPad_spec c1 pad componentId pos (padSize pad)
                (JsStr.or_str (kp_shape pad) "circle")) as (Km & Kc & e & Kd).
    apply (G _ (EPcbSmtpad e) 1%nat Km Kc Kd). exact E1.
  - destruct (String.eqb (padTypeOf pad) "np_thru_hole") eqn:E2.
    + destruct (createNpthHole_spec c1 pad componentId pos (kp_drill pad))
        as (Km & Kc & e & Kd).
      apply (G _ (EPcbHole e) 0%nat Km Kc Kd).
      unfold geometryOf, isNpth, isSmd. now rewrite E1, E2.
    + match goal with
      | |- context [createPlatedHole ?a ?b ?c0 ?d ?e ?f ?g ?h] =>
          destruct (createPlatedHole_spec a b c0 d e f g h)
            as (Km & Kc & e' & Kd)
      end.
      apply (G _ (EPcbPlatedHole e') 1%nat Km Kc Kd).
      unfold geometryOf, isPlated, isSmd. now rewrite E1, E2.
Qed.

(** The loop over the pads of a footprint. *)
Lemma foldl_processPad_spec pads c m componentId kicadComponentPos
    componentRotation :
  k2cMatPcb c = Some m ->
  let c' := foldl (fun c pad => processPad determineLayerFromLayers c pad
                                  componentId kicadComponentPos
                                  componentRotation) c pads in
  counted stats_pads (length (List.filter (fun p => negb (isNpth p)) pads)) c c'
  /\ exists records,
       db c' = db c ++ concat records
       /\ Forall2 (fun pad =>
                     recordsOf componentId
                       (padGlobalPos m pad kicadComponentPos componentRotation)
                       pad)
                  pads records.
Proof.
  revert c. induction pads as [|pad pads IH]; intros c Hm; cbv zeta.
  - split; [apply StatsFacts.counted_refl|].
    exists []. split; [now rewrite app_nil_r|constructor].
  - cbn [foldl List.filter].
    destruct (processPad_spec c m pad componentId kicadComponentPos
                componentRotation Hm) as (Hm1 & C1 & r & E1 & R1).
    destruct (IH _ Hm1) as (C2 & rs & E2 & R2).
    split.
    + destruct (isNpth pad); cbn [negb length];
        exact (StatsFacts.counted_trans _ _ _ _ _ _ C1 C2).
    + exists (r :: rs). split; [|now constructor].
      cbn [concat]. rewrite E2, E1, <- app_assoc. reflexivity.
Qed.

End WithLayerUtils.

(** The records of a kind among the records of the pads. *)
Lemma recordsOf_kinds componentId position pad records :
  recordsOf componentId position pad records ->
  length (Db.list_of Db.pcb_smtpad records) = (if isSmd pad then 1 else 0)%nat
  /\ length (Db.list_of Db.pcb_hole records) = (if isNpth pad then 1 else 0)%nat
  /\ length (Db.list_of Db.pcb_plated_hole records)
     = (if isPlated pad then 1 else 0)%nat
  /\ (length (Db.list_of Db.pcb_port records)
      <= if numbered pad then 1 else 0)%nat
  /\ Forall (portOf componentId position pad)
            (Db.list_of Db.pcb_port records).
Proof.
  intros (g & Hg & Hr).
  assert (K : length (Db.list_of Db.pcb_smtpad [g])
              = (if isSmd pad then 1 else 0)%nat
              /\ length (Db.list_of Db.pcb_hole [g])
                 = (if isNpth pad then 1 else 0)%nat
              /\ length (Db.list_of Db.pcb_plated_hole [g])
                 = (if isPlated pad then 1 else 0)%nat
              /\ Db.list_of Db.pcb_port [g] = []).
  { unfold geometryOf in Hg. revert Hg. unfold isNpth, isPlated.
    destruct g; try contradiction; cbn;
      destruct (isSmd pad); cbn; try discriminate;
      destruct (String.eqb (padTypeOf pad) "np_thru_hole"); cbn;
      try discriminate; now repeat split. }
  destruct K as (K1 & K2 & K3 & K4).
  destruct Hr as [->|(p & Hn & Hp & ->)].
  - rewrite K1, K2, K3, K4. repeat split; cbn; [lia|constructor].
  - change [EPcbPort p; g] with ([EPcbPort p] ++ [g]).
    rewrite !DbFacts.list_of_app, !length_app, K1, K2, K3, K4, Hn.
    cbn. repeat split; [lia|]. constructor; [exact Hp|constructor].
Qed.

(** The records of the pads of a footprint, kind by kind. *)
Lemma concat_kinds componentId (position : Pad -> Point) pads records :
  Forall2 (fun pad => recordsOf componentId (position pad) pad) pads records ->
  length (Db.list_of Db.pcb_smtpad (concat records))
  = length (List.filter isSmd pads)
  /\ length (Db.list_of Db.pcb_hole (concat records))
     = length (List.filter isNpth pads)
  /\ length (Db.list_of Db.pcb_plated_hole (concat records))
     = length (List.filter isPlated pads)
  /\ (length (Db.list_of Db.pcb_port (concat records))
      <= length (List.filter numbered pads))%nat
  /\ Forall (fun p => exists pad,
                pad ∈ pads /\ portOf componentId (position pad) pad p)
            (Db.list_of Db.pcb_port (concat records)).
Proof.
  induction 1 as [|pad r pads rs Hr _ IH].
  - cbn. repeat split; [lia|constructor].
  - destruct (recordsOf_kinds _ _ _ _ Hr) as (K1 & K2 & K3 & K4 & K5).
    destruct IH as (I1 & I2 & I3 & I4 & I5).
    cbn [concat List.filter].
    rewrite !DbFacts.list_of_app, !length_app, K1, K2, K3, I1, I2, I3.
    split; [now destruct (isSmd pad)|]. split; [now destruct (isNpth pad)|].
    split; [now destruct (isPlated pad)|]. split.
    + destruct (numbered pad); cbn [length]; lia.
    + apply Forall_app. split.
      * eapply Forall_impl; [exact K5|]. intros p Hp. exists pad.
        split; [apply list_elem_of_here|exact Hp].
      * eapply Forall_impl; [exact I5|]. intros p (pad' & Hin & Hp).
        exists pad'. split; [now apply list_elem_of_further|exact Hp].
Qed.

End PadLoopFacts.

(** X16. With the transform present, the pad loop of a footprint only
    appends to the store, and gives every pad exactly one geometry
    record of its kind: an SMT pad for each pad of type smd, a hole for
    each pad of type np_thru_hole, and a plated hole for each other pad.
    The pad counter of the statistics, when there are statistics, rises
    by the number of SMT pads and plated holes: holes that are not
    plated are not counted. *)
Theorem processPads_geometry
    (determineLayerFromLayers : list (option string) -> option string)
    (c : ConverterContext) (m : Matrix) (footprint : Footprint)
    (componentId : string) (kicadComponentPos : Point)
    (componentRotation : R) :
  k2cMatPcb c = Some m ->
  let c' := ProcessPads.processPads determineLayerFromLayers c footprint
              componentId kicadComponentPos componentRotation in
  let pads := to_array (fp_fpPads footprint) in
  (exists added, db c' = db c ++ added)
  /\ length (Db.list_of Db.pcb_smtpad (db c'))
     = (length (Db.list_of Db.pcb_smtpad (db c))
        + length (List.filter PadSpec.isSmd pads))%nat
  /\ length (Db.list_of Db.pcb_hole (db c'))
     = (length (Db.list_of Db.pcb_hole (db c))
        + length (List.filter PadSpec.isNpth pads))%nat
  /\ length (Db.list_of Db.pcb_plated_hole (db c'))
     = (length (Db.list_of Db.pcb_plated_hole (db c))
        + length (List.filter PadSpec.isPlated pads))%nat
  /\ StatsSpec.counted stats_pads
       (length (List.filter (fun p => negb (PadSpec.isNpth p)) pads)) c c'.
Proof.
  intros Hm. cbv zeta. unfold ProcessPads.processPads. rewrite Hm.
  destruct (PadLoopFacts.foldl_processPad_spec determineLayerFromLayers
              (to_array (fp_fpPads footprint)) c m componentId
              kicadComponentPos componentRotation Hm)
    as (C & records & E & R).
  cbv zeta in C, E.
  destruct (PadLoopFacts.concat_kinds componentId
              (fun pad => ProcessPads.padGlobalPos m pad kicadComponentPos
                            componentRotation) _ _ R)
    as (K1 & K2 & K3 & _).
  split; [now exists (concat records)|].
  rewrite E, !DbFacts.list_of_app, !length_app, K1, K2, K3.
  split; [reflexivity|]. split; [reflexivity|]. split; [reflexivity|].
  exact C.
Qed.

Lemma processPads_geometry_witness :
  length (Db.list_of Db.pcb_plated_hole
            (db (ProcessPads.processPads Examples.layerOfNames
                   Examples.boardContext Examples.twinPadFootprint
                   "pcb_component_0" {| px := 0; py := 0 |} 0)))
  = 2%nat.
Proof.
  destruct (processPads_geometry Examples.layerOfNames Examples.boardContext
              Examples.boardMatrix Examples.twinPadFootprint "pcb_component_0"
              {| px := 0; py := 0 |} 0 eq_refl)
    as (_ & _ & _ & H & _).
  exact H.
Defined.

(** X17. With the transform present, every port record that the pad
    loop of a footprint adds belongs to a numbered pad of the footprint:
    it names the component, lies at the position of the pad, and its
    source port id is the id under which the connectivity pass creates
    or finds the source port of that pad; no pad gets two ports, and a
    pad without a number gets none. *)
Theorem pad_ports_name_source_ports
    (determineLayerFromLayers : list (option string) -> option string)
    (c : ConverterContext) (m : Matrix) (footprint : Footprint)
    (componentId : string) (kicadComponentPos : Point)
    (componentRotation : R) :
  k2cMatPcb c = Some m ->
  let c' := ProcessPads.processPads determineLayerFromLayers c footprint
              componentId kicadComponentPos componentRotation in
  let pads := to_array (fp_fpPads footprint) in
  exists ports,
    Db.list_of Db.pcb_port (db c') = Db.list_of Db.pcb_port (db c) ++ ports
    /\ (length ports <= length (List.filter PadSpec.numbered pads))%nat
    /\ Forall
         (fun p =>
            exists pad padNumber,
              pad ∈ pads
              /\ kp_number pad = Some padNumber
              /\ pp_pcb_component_id p = componentId
              /\ {| px := pp_x p; py := pp_y p |}
                 = ProcessPads.padGlobalPos m pad kicadComponentPos
                     componentRotation
              /\ forall footprint' c0,
                   pp_source_port_id p
                   = snd (CollectSourceTracesStage.getOrCreateSourcePort
                            componentId padNumber footprint' c0))
         ports.
Proof.
  intros Hm. cbv zeta. unfold ProcessPads.processPads. rewrite Hm.
  destruct (PadLoopFacts.foldl_processPad_spec determineLayerFromLayers
              (to_array (fp_fpPads footprint)) c m componentId
              kicadComponentPos componentRotation Hm)
    as (_ & records & E & R).
  cbv zeta in E.
  destruct (PadLoopFacts.concat_kinds componentId
              (fun pad => ProcessPads.padGlobalPos m pad kicadComponentPos
                            componentRotation) _ _ R)
    as (_ & _ & _ & K4 & K5).
  exists (Db.list_of Db.pcb_port (concat records)).
  split; [now rewrite E, DbFacts.list_of_app|]. split; [exact K4|].
  eapply Forall_impl; [exact K5|].
  intros p (pad & Hin & Hc & Hxy & pn & Hn & _ & Hid).
  exists pad, pn. repeat split; try assumption.
  intros footprint' c0. rewrite Hid. symmetry.
  apply TraceFacts.getOrCreateSourcePort_spec.
Qed.

Lemma pad_ports_name_source_ports_witness :
  exists ports,
    Db.list_of Db.pcb_port
      (db (ProcessPads.processPads Examples.layerOfNames
             Examples.boardContext Examples.twinPadFootprint
             "pcb_component_0" {| px := 0; py := 0 |} 0))
    = Db.list_of Db.pcb_port (db Examples.boardContext) ++ ports.
Proof.
  destruct (pad_ports_name_source_ports Examples.layerOfNames
              Examples.boardContext Examples.boardMatrix
              Examples.twinPadFootprint "pcb_component_0"
              {| px := 0; py := 0 |} 0 eq_refl)
    as (ports & H & _).
  now exists ports.
Defined.

Module GraphicsFacts.
Import CollectGraphicsStage StatsSpec GraphicsSpec.
#[local] Open Scope R_scope.

(** What a call of the graphics pass does to the context: the transform
    stays, records are appended, and the pad counter counts the SMT pads
    among them. *)
Definition appends (m : Matrix) (R : list Element -> Prop)
    (c c' : ConverterContext) : Prop :=
  k2cMatPcb c' = Some m
  /\ exists records,
       db c' = db c ++ records
       /\ R records
       /\ counted stats_pads (padCount records) c c'.

(** A loop of calls that append. *)
Lemma foldl_appends {A} (m : Matrix) (f : ConverterContext -> A -> ConverterContext)
    (R : A -> list Element -> Prop) (l : list A) :
  (forall c a, k2cMatPcb c = Some m -> appends m (R a) c (f c a)) ->
  forall c, k2cMatPcb c = Some m ->
  appends m (fun records =>
               exists each, records = concat each /\ Forall2 R l each)
          c (foldl f c l).
Proof.
  intros Hf. induction l as [|a l IH]; intros c Hm.
  - split; [exact Hm|]. exists []. split; [now rewrite app_nil_r|].
    split; [exists []; split; [reflexivity|constructor]|].
    apply StatsFacts.counted_refl.
  - cbn [foldl]. destruct (Hf c a Hm) as (Hm1 & r & E1 & R1 & C1).
    destruct (IH _ Hm1) as (Hm2 & rs & E2 & (each & -> & R2) & C2).
    split; [exact Hm2|]. exists (r ++ concat each).
    split; [now rewrite E2, E1, <- app_assoc|].
    split; [exists (r :: each); split; [reflexivity|now constructor]|].
    unfold padCount in *. rewrite DbFacts.list_of_app, length_app.
    exact (StatsFacts.counted_trans _ _ _ _ _ _ C1 C2).
Qed.

Lemma appends_nothing m (R : list Element -> Prop) c :
  k2cMatPcb c = Some m -> R [] -> appends m R c c.
Proof.
  intros Hm HR. split; [exact Hm|]. exists [].
  split; [now rewrite app_nil_r|]. split; [exact HR|].
  apply StatsFacts.counted_refl.
Qed.

Lemma createSilkscreenPath_appends m c line :
  k2cMatPcb c = Some m ->
  appends m (pathOf m line) c (createSilkscreenPath c line).
Proof.
  intros Hm. unfold createSilkscreenPath. rewrite Hm.
  split; [exact Hm|]. eexists. split; [apply DbFacts.db_ctx_insert|].
  split.
  - eexists. split; [reflexivity|].
    cbn [snd ctx_insert Db.insert psp_route psp_layer psp_stroke_width].
    split; [reflexivity|]. split; [reflexivity|].
    destruct (gl_width line); [apply StatsFacts.or_num_nonzero|]; lra.
  - apply PadLoopFacts.counted_same. reflexivity.
Qed.

Lemma processRectangle_appends m c rect :
  k2cMatPcb c = Some m ->
  appends m (rectangleOf rect) c (processRectangle c rect).
Proof.
  intros Hm. unfold processRectangle. rewrite Hm. cbv zeta.
  destruct (negb _ || negb _); [apply appends_nothing; [exact Hm|now left]|].
  split; [now rewrite PadFacts.matrix_bump_pads|].
  eexists. split; [rewrite PadFacts.db_bump_pads; apply DbFacts.db_ctx_insert|].
  split.
  - right. eexists. eexists. eexists. split; [reflexivity|].
    cbn [snd ctx_insert Db.insert smt_shape smt_pcb_component_id smt_width
         smt_height].
    repeat split; apply Rabs_pos.
  - now apply PadLoopFacts.bump_pads_counted.
Qed.

Lemma processPolygon_appends m c poly :
  k2cMatPcb c = Some m ->
  appends m (polygonOf poly) c (processPolygon c poly).
Proof.
  intros Hm. unfold processPolygon. rewrite Hm. cbv zeta.
  destruct (negb _ || negb _); [apply appends_nothing; [exact Hm|now left]|].
  destruct (length _ <? 3)%nat eqn:E;
    [apply appends_nothing; [exact Hm|now left]|].
  apply Nat.ltb_ge in E.
  split; [now rewrite PadFacts.matrix_bump_pads|].
  eexists. split; [rewrite PadFacts.db_bump_pads; apply DbFacts.db_ctx_insert|].
  split.
  - right. eexists. eexists. split; [reflexivity|].
    cbn [snd ctx_insert Db.insert smt_shape smt_pcb_component_id smt_points].
    repeat split. now rewrite length_map.
  - now apply PadLoopFacts.bump_pads_counted.
Qed.

Lemma createSilkscreenText_appends m c text :
  k2cMatPcb c = Some m ->
  appends m (fun records =>
               exists t, records = [EPcbSilkscreenText t]
                         /\ pst_font_size t <> 0
                         /\ pst_layer t = mapLayer (gt_layer text))
          c (createSilkscreenText c text).
Proof.
  intros Hm. unfold createSilkscreenText. rewrite Hm. cbv zeta.
  split; [exact Hm|]. eexists. split; [apply DbFacts.db_ctx_insert|].
  split.
  - eexists. split; [reflexivity|].
    cbn [snd ctx_insert Db.insert pst_font_size pst_layer].
    split; [|reflexivity].
    assert (T : forall o : option R,
              match match o with
                    | Some r => if decide (r = 0) then None else Some r
                    | None => None
                    end with
              | Some h => h <> 0
              | None => True
              end).
    { intros [r|]; [|exact I]. now destruct (decide (r = 0)). }
    pose proof (T (gt_sxHeight text)) as T1.
    pose proof (T (gt_effects_y text)) as T2.
    destruct (match gt_sxHeight text with
              | Some r => if decide (r = 0) then None else Some r
              | None => None
              end) as [h|].
    + intros Hz. apply T1. lra.
    + destruct (match gt_effects_y text with
                | Some r => if decide (r = 0) then None else Some r
                | None => None
                end) as [y|]; cbn; intros Hz; [apply T2|]; lra.
  - apply PadLoopFacts.counted_same. reflexivity.
Qed.

Lemma visitText_appends m c text :
  k2cMatPcb c = Some m ->
  appends m (textOf m text) c
          (if isTextLayer text then createSilkscreenText c text else c).
Proof.
  intros Hm. unfold textOf. destruct (isTextLayer text).
  - now apply createSilkscreenText_appends.
  - now apply appends_nothing.
Qed.

Lemma createBoardOutline_keeps m lines c :
  k2cMatPcb c = Some m ->
  k2cMatPcb (createBoardOutline lines c) = Some m
  /\ stats (createBoardOutline lines c) = stats c.
Proof.
  intros Hm. unfold createBoardOutline. rewrite Hm.
  now destruct (head (Db.list_of Db.pcb_board (db c))).
Qed.

Lemma padCount_none {A} (R : A -> list Element -> Prop) l each :
  (forall a r, R a r -> padCount r = 0%nat) ->
  Forall2 R l each -> padCount (concat each) = 0%nat.
Proof.
  intros HR. induction 1 as [|a r l each Hr _ IH]; [reflexivity|].
  cbn [concat]. unfold padCount in *.
  rewrite DbFacts.list_of_app, length_app, IH. now rewrite (HR _ _ Hr).
Qed.

Lemma padCount_all {A} (R : A -> list Element -> Prop) l each :
  (forall a r, R a r -> padCount r = length r) ->
  Forall2 R l each -> padCount (concat each) = length (concat each).
Proof.
  intros HR. induction 1 as [|a r l each Hr _ IH]; [reflexivity|].
  cbn [concat]. unfold padCount in *.
  rewrite DbFacts.list_of_app, !length_app, IH. now rewrite (HR _ _ Hr).
Qed.

Lemma pathOf_padCount m line r : pathOf m line r -> padCount r = 0%nat.
Proof. now intros (p & -> & _). Qed.

Lemma textOf_padCount m text r : textOf m text r -> padCount r = 0%nat.
Proof.
  unfold textOf. destruct (isTextLayer text); [|now intros ->].
  now intros (t & -> & _).
Qed.

Lemma rectangleOf_padCount rect r : rectangleOf rect r -> padCount r = length r.
Proof. now intros [->|(p & w & h & -> & _)]. Qed.

Lemma polygonOf_padCount poly r : polygonOf poly r -> padCount r = length r.
Proof. now intros [->|(p & pts & -> & _)]. Qed.

End GraphicsFacts.

(** X18. With its inputs present, one step of the graphics pass first
    writes the board outline from the edge-cut lines, if there are any,
    and then only appends to the store, in this order: one silkscreen
    path per silkscreen line that is not an edge cut, of two mapped
    points and a stroke width that is never zero; at most one
    rectangular pad per rectangle, with a width and a height that are
    not negative; at most one polygonal pad per polygon, with at least
    three points; and one text per text on a silkscreen, copper or
    fabrication layer, with a font size that is never zero.  The pad
    counter of the statistics, when there are statistics, rises by the
    number of pads added. *)
Theorem graphics_step_records (s : Stage unit) (pcb : KicadPcb) (m : Matrix) :
  kicadPcb (ctx s) = Some pcb ->
  k2cMatPcb (ctx s) = Some m ->
  let c' := ctx (fst (CollectGraphicsStage.step s)) in
  let lines := to_array (pcb_graphicLines pcb) in
  let edgeCuts := List.filter CollectGraphicsStage.isEdgeCut lines in
  let outlined :=
    if (0 <? length edgeCuts)%nat
    then CollectGraphicsStage.createBoardOutline edgeCuts (ctx s)
    else ctx s in
  exists paths rectangles polygons texts,
    db c' = db outlined ++ concat paths ++ concat rectangles
            ++ concat polygons ++ concat texts
    /\ Forall2 (GraphicsSpec.pathOf m)
               (List.filter CollectGraphicsStage.isSilk lines) paths
    /\ Forall2 GraphicsSpec.rectangleOf
               (default [] (pcb_graphicRects pcb)) rectangles
    /\ Forall2 GraphicsSpec.polygonOf
               (to_array (pcb_graphicPolys pcb)) polygons
    /\ Forall2 (GraphicsSpec.textOf m)
               (to_array (pcb_graphicTexts pcb)) texts
    /\ StatsSpec.counted stats_pads
         (length (concat rectangles) + length (concat polygons)) (ctx s) c'.
Proof.
  intros Hp Hm. cbv zeta. unfold CollectGraphicsStage.step. rewrite Hp, Hm.
  cbv zeta. cbn [fst ctx].
  set (lines := to_array (pcb_graphicLines pcb)).
  set (c1 := if (0 <? length (List.filter CollectGraphicsStage.isEdgeCut lines))%nat
             then CollectGraphicsStage.createBoardOutline
                    (List.filter CollectGraphicsStage.isEdgeCut lines) (ctx s)
             else ctx s).
  assert (K1 : k2cMatPcb c1 = Some m /\ stats c1 = stats (ctx s)).
  { subst c1. destruct (0 <? _)%nat; [|now split].
    now apply GraphicsFacts.createBoardOutline_keeps. }
  destruct K1 as [Hm1 Hs1].
  destruct (GraphicsFacts.foldl_appends m CollectGraphicsStage.createSilkscreenPath
              (GraphicsSpec.pathOf m)
              (List.filter CollectGraphicsStage.isSilk lines)
              (GraphicsFacts.createSilkscreenPath_appends m) c1 Hm1)
    as (Hm2 & r2 & E2 & (paths & -> & R2) & C2).
  set (c2 := foldl CollectGraphicsStage.createSilkscreenPath c1 _) in *.
  destruct (GraphicsFacts.foldl_appends m CollectGraphicsStage.processRectangle
              GraphicsSpec.rectangleOf (default [] (pcb_graphicRects pcb))
              (GraphicsFacts.processRectangle_appends m) c2 Hm2)
    as (Hm3 & r3 & E3 & (rects & -> & R3) & C3).
  set (c3 := foldl CollectGraphicsStage.processRectangle c2 _) in *.
  destruct (GraphicsFacts.foldl_appends m CollectGraphicsStage.processPolygon
              GraphicsSpec.polygonOf (to_array (pcb_graphicPolys pcb))
              (GraphicsFacts.processPolygon_appends m) c3 Hm3)
    as (Hm4 & r4 & E4 & (polys & -> & R4) & C4).
  set (c4 := foldl CollectGraphicsStage.processPolygon c3 _) in *.
  destruct (GraphicsFacts.foldl_appends m
              (fun c text => if CollectGraphicsStage.isTextLayer text
                             then CollectGraphicsStage.createSilkscreenText c text
                             else c)
              (GraphicsSpec.textOf m) (to_array (pcb_graphicTexts pcb))
              (GraphicsFacts.visitText_appends m) c4 Hm4)
    as (Hm5 & r5 & E5 & (texts & -> & R5) & C5).
  exists paths, rects, polys, texts.
  split; [|split; [exact R2|split; [exact R3|split; [exact R4|split; [exact R5|]]]]].
  - rewrite E5, E4, E3, E2, <- !app_assoc. reflexivity.
  - rewrite (GraphicsFacts.padCount_none _ _ _ (GraphicsFacts.pathOf_padCount m) R2)
      in C2.
    rewrite (GraphicsFacts.padCount_all _ _ _ GraphicsFacts.rectangleOf_padCount R3)
      in C3.
    rewrite (GraphicsFacts.padCount_all _ _ _ GraphicsFacts.polygonOf_padCount R4)
      in C4.
    rewrite (GraphicsFacts.padCount_none _ _ _ (GraphicsFacts.textOf_padCount m) R5)
      in C5.
    apply (PadLoopFacts.counted_from _ _ _ c1); [congruence|exact Hs1|].
    pose proof (StatsFacts.counted_trans _ _ _ _ _ _ C2
                  (StatsFacts.counted_trans _ _ _ _ _ _ C3
                     (StatsFacts.counted_trans _ _ _ _ _ _ C4 C5))) as C.
    rewrite Nat.add_0_l, Nat.add_0_r in C. exact C.
Qed.

Lemma graphics_step_records_witness :
  exists records,
    db (ctx (fst (CollectGraphicsStage.step BoardExamples.silkStage)))
    = db (BoardExamples.contextOf BoardExamples.silkBoard) ++ records.
Proof.
  destruct (graphics_step_records BoardExamples.silkStage
              BoardExamples.silkBoard Examples.boardMatrix eq_refl eq_refl)
    as (paths & rectangles & polygons & texts & E & _).
  eexists. exact E.
Defined.

Module FtypeFacts.

(** A reference that starts with LED starts with L. *)
Lemma startsWith_LED reference :
  JsStr.startsWith reference "LED" = true ->
  JsStr.startsWith reference "L" = true.
Proof.
  unfold JsStr.startsWith. destruct reference as [|a rest]; [discriminate|].
  change (String.prefix "LED" (String a rest))
    with (if Ascii.ascii_dec "L" a then String.prefix "ED" rest else false).
  change (String.prefix "L" (String a rest))
    with (if Ascii.ascii_dec "L" a then String.prefix "" rest else false).
  destruct (Ascii.ascii_dec "L" a); [|discriminate].
  intros _. now destruct rest.
Qed.

End FtypeFacts.

(** X19. The type simple_led is only ever inferred from the library id:
    a reference that starts with LED also starts with L, which an
    earlier rule reads as an inductor, so such a symbol is typed as a
    resistor, a capacitor or an inductor and never as an LED; and when
    the type is simple_led, the library id contains [:led] and the
    reference starts with none of R, C, L and D. *)
Theorem inferFtype_led_by_library_only (libId reference : string) :
  (JsStr.startsWith reference "LED" = true ->
   CollectLibrarySymbolsStage.inferFtype libId reference
   ∈ ["simple_resistor"; "simple_capacitor"; "simple_inductor"])
  /\ (CollectLibrarySymbolsStage.inferFtype libId reference = "simple_led" ->
      JsStr.includes (JsStr.toLowerCase libId) ":led" = true
      /\ JsStr.startsWith reference "R" = false
      /\ JsStr.startsWith reference "C" = false
      /\ JsStr.startsWith reference "L" = false
      /\ JsStr.startsWith reference "D" = false
      /\ JsStr.startsWith reference "LED" = false).
Proof.
  split.
  - intros H. apply FtypeFacts.startsWith_LED in H.
    unfold CollectLibrarySymbolsStage.inferFtype. cbv zeta. rewrite H.
    destruct (_ || _); [apply list_elem_of_here|].
    destruct (_ || _); [apply list_elem_of_further, list_elem_of_here|].
    rewrite orb_true_r.
    apply list_elem_of_further, list_elem_of_further, list_elem_of_here.
  - unfold CollectLibrarySymbolsStage.inferFtype. cbv zeta.
    destruct (JsStr.startsWith reference "R"); [rewrite orb_true_r; discriminate|].
    destruct (JsStr.startsWith reference "C");
      [rewrite orb_true_r; destruct (_ || _); discriminate|].
    destruct (JsStr.startsWith reference "L") eqn:EL;
      [rewrite !orb_true_r; repeat destruct (_ || _); discriminate|].
    destruct (JsStr.startsWith reference "D");
      [rewrite !orb_true_r; repeat destruct (_ || _); discriminate|].
    destruct (JsStr.startsWith reference "LED") eqn:ELED;
      [apply FtypeFacts.startsWith_LED in ELED; congruence|].
    rewrite !orb_false_r.
    destruct (JsStr.includes _ ":r_"); [discriminate|].
    destruct (JsStr.includes _ ":c_"); [discriminate|].
    destruct (JsStr.includes _ ":l_"); [discriminate|].
    destruct (JsStr.includes _ ":d_"); [discriminate|].
    destruct (JsStr.includes _ ":led"); [now repeat split|].
    destruct (JsStr.includes _ ":q_" || JsStr.startsWith reference "Q");
      discriminate.
Qed.

Module SymbolPortFacts.
Import CollectLibrarySymbolsStage StatsSpec SymbolPortSpec.

(** What the port loop keeps of the context. *)
Definition keeps (c c' : ConverterContext) : Prop :=
  kicadSch c' = kicadSch c
  /\ k2cMatSch c' = k2cMatSch c
  /\ symbolUuidToComponentId c' = symbolUuidToComponentId c
  /\ stats c' = stats c.

Lemma keeps_refl c : keeps c c.
Proof. now repeat split. Qed.

Lemma keeps_trans c1 c2 c3 : keeps c1 c2 -> keeps c2 c3 -> keeps c1 c3.
Proof. intros (?&?&?&?) (?&?&?&?). repeat split; congruence. Qed.

Lemma foldl_createPort_spec rot cid pins c :
  let c' := foldl (createPort rot cid) c pins in
  keeps c c'
  /\ exists ports,
       db c' = db c ++ (ESchematicPort <$> ports)
       /\ Forall2 (portOfPin rot cid) (List.filter positioned pins) ports.
Proof.
  cbv zeta. revert c. induction pins as [|pin pins IH]; intros c.
  - split; [apply keeps_refl|]. exists []. split; [now rewrite app_nil_r|constructor].
  - cbn [foldl List.filter]. unfold positioned at 1, createPort at 2 4.
    destruct (pin_sxAt pin) as [pinAt|]; [|apply IH].
    match goal with
    | |- context [foldl _ (fst ?ins) pins] => destruct (IH (fst ins)) as (K & ports & E & F)
    end.
    split; [eapply keeps_trans; [|exact K]; now repeat split|].
    eexists (_ :: ports). split.
    + rewrite E, DbFacts.db_ctx_insert, <- app_assoc. reflexivity.
    + constructor; [now repeat split|exact F].
Qed.

Lemma createPorts_spec symbol cid c :
  let c' := createPorts symbol cid c in
  keeps c c'
  /\ exists ports,
       db c' = db c ++ (ESchematicPort <$> ports)
       /\ Forall2 (portOfPin (rotationOf symbol) cid)
                  (positionedPins c symbol) ports.
Proof.
  cbv zeta. unfold createPorts, positionedPins, librarySymbolOf. cbv zeta.
  destruct (_ ≫= _) as [ls|].
  - apply foldl_createPort_spec.
  - split; [apply keeps_refl|]. exists [].
    split; [now rewrite app_nil_r|constructor].
Qed.

Lemma positionedPins_same c c' symbol :
  kicadSch c' = kicadSch c ->
  positionedPins c' symbol = positionedPins c symbol.
Proof. intros E. unfold positionedPins, librarySymbolOf. now rewrite E. Qed.

Lemma bump_components_counted c c1 :
  stats c1 = stats c -> counted stats_components 1 c (bump_components c1).
Proof.
  intros Hs. unfold counted, counter, bump_components.
  rewrite Hs. destruct (stats c) as [st|] eqn:E; cbn.
  - split; [discriminate|]. intros _. split; [eauto|]. unfold bump. cbn. lia.
  - split; [intros _; congruence|]. intros [? [=]].
Qed.

End SymbolPortFacts.

(** X20. Processing a symbol that has a uuid adds one schematic
    component, at the mapped position of the symbol, and one schematic
    port per pin of its library symbol that has a position, in pin
    order: every port names that component, faces the direction of the
    pin angle plus the symbol rotation and carries the number of its
    pin.  The uuid table, when there is one, maps the uuid of the symbol
    to the id of the component, and the component counter of the
    statistics, when there are statistics, rises by one. *)
Theorem symbol_ports_belong_to_component (symbol : SchematicSymbol)
    (u : string) (m : Matrix) (c : ConverterContext) :
  k2cMatSch c = Some m ->
  sym_uuid symbol = Some u ->
  JsStr.truthy u = true ->
  let c' := CollectLibrarySymbolsStage.processSymbol symbol c in
  exists comp ports,
    Db.list_of Db.schematic_component (db c')
    = Db.list_of Db.schematic_component (db c) ++ [comp]
    /\ Db.list_of Db.schematic_port (db c')
       = Db.list_of Db.schematic_port (db c) ++ ports
    /\ Forall2 (SymbolPortSpec.portOfPin (SymbolPortSpec.rotationOf symbol)
                  (schc_schematic_component_id comp))
               (SymbolPortSpec.positionedPins c symbol) ports
    /\ schc_center comp
       = applyToPoint m {| px := default 0%R (at_x <$> sym_at symbol);
                           py := default 0%R (at_y <$> sym_at symbol) |}
    /\ symbolUuidToComponentId c'
       = (<[u := schc_schematic_component_id comp]>
            <$> symbolUuidToComponentId c)
    /\ StatsSpec.counted stats_components 1 c c'.
Proof.
  intros Hm Hu Ht. cbv zeta.
  unfold CollectLibrarySymbolsStage.processSymbol. rewrite Hm, Hu, Ht.
  cbn [negb]. cbv zeta.
  set (c1 := match List.find _ _ with Some _ => c | None => _ end).
  assert (H1 : SymbolPortFacts.keeps c c1
               /\ Db.list_of Db.schematic_component (db c1)
                  = Db.list_of Db.schematic_component (db c)
               /\ Db.list_of Db.schematic_port (db c1)
                  = Db.list_of Db.schematic_port (db c)).
  { unfold c1. destruct (List.find _ _).
    - split; [apply SymbolPortFacts.keeps_refl|now split].
    - split; [now repeat split|].
      rewrite DbFacts.db_ctx_insert, !DbFacts.list_of_app. cbn.
      now rewrite !app_nil_r. }
  destruct H1 as ((Ksch & Kmat & Ktab & Kst) & H1c & H1p).
  destruct (ctx_insert _ _ _ _ _ c1) as [c2 comp] eqn:E2.
  assert (H2 : db c2 = db c1 ++ [ESchematicComponent comp]
               /\ SymbolPortFacts.keeps c1 c2
               /\ schc_center comp
                  = applyToPoint m
                      {| px := default 0%R (at_x <$> sym_at symbol);
                         py := default 0%R (at_y <$> sym_at symbol) |}).
  { match type of E2 with
    | ctx_insert ?n ?k ?i ?g ?mk ?c0 = _ =>
        pose proof (DbFacts.db_ctx_insert n k i g mk c0) as H2;
        assert (H3 : SymbolPortFacts.keeps c0 (fst (ctx_insert n k i g mk c0)))
          by (now repeat split);
        assert (H4 : schc_center (snd (ctx_insert n k i g mk c0))
                     = applyToPoint m
                         {| px := default 0%R (at_x <$> sym_at symbol);
                            py := default 0%R (at_y <$> sym_at symbol) |})
          by (cbn; first [reflexivity | now destruct (applyToPoint m _)])
    end.
    rewrite E2 in H2, H3, H4. cbn [fst snd] in H2, H3, H4.
    split; [exact H2|]. split; [exact H3|exact H4]. }
  destruct H2 as (H2 & (K2sch & K2mat & K2tab & K2st) & Hcenter).
  set (cid := schc_schematic_component_id comp).
  set (c3 := set_symbolUuidToComponentId c2 _).
  destruct (SymbolPortFacts.createPorts_spec symbol cid c3)
    as ((K4sch & K4mat & K4tab & K4st) & ports & E4 & F4).
  set (c4 := CollectLibrarySymbolsStage.createPorts symbol cid c3) in *.
  assert (D5 : db (CollectLibrarySymbolsStage.bump_components c4) = db c4
               /\ symbolUuidToComponentId
                    (CollectLibrarySymbolsStage.bump_components c4)
                  = symbolUuidToComponentId c4).
  { unfold CollectLibrarySymbolsStage.bump_components. now destruct (stats c4). }
  destruct D5 as [D5 T5].
  exists comp, ports. rewrite D5, T5, E4.
  change (db c3) with (db c2). rewrite H2, !DbFacts.list_of_app. cbn.
  rewrite !app_nil_r, H1c, H1p.
  assert (Lp : Db.list_of Db.schematic_port (ESchematicPort <$> ports) = ports).
  { clear. induction ports as [|p ports IH]; [reflexivity|]. cbn. now f_equal. }
  assert (Lc : Db.list_of Db.schematic_component (ESchematicPort <$> ports) = []).
  { clear. induction ports as [|p ports IH]; [reflexivity|]. exact IH. }
  rewrite Lp, Lc, app_nil_r.
  split; [reflexivity|]. split; [reflexivity|]. split.
  - rewrite <- (SymbolPortFacts.positionedPins_same c c3); [exact F4|].
    change (kicadSch c3) with (kicadSch c2). congruence.
  - split; [exact Hcenter|]. split.
    + rewrite K4tab. change (symbolUuidToComponentId c3)
        with (<[u := cid]> <$> symbolUuidToComponentId c2).
      now rewrite K2tab, Ktab.
    + apply SymbolPortFacts.bump_components_counted.
      rewrite K4st. change (stats c3) with (stats c2). congruence.
Qed.

Lemma symbol_ports_belong_to_component_witness :
  exists comp ports,
    Db.list_of Db.schematic_component
      (db (CollectLibrarySymbolsStage.processSymbol Examples.resistorSymbol
             Examples.schematicContext))
    = Db.list_of Db.schematic_component (db Examples.schematicContext) ++ [comp]
    /\ Db.list_of Db.schematic_port
         (db (CollectLibrarySymbolsStage.processSymbol Examples.resistorSymbol
                Examples.schematicContext))
       = Db.list_of Db.schematic_port (db Examples.schematicContext) ++ ports.
Proof.
  destruct (symbol_ports_belong_to_component Examples.resistorSymbol "sym-1"
              Examples.schematicMatrix Examples.schematicContext
              eq_refl eq_refl eq_refl)
    as (comp & ports & H1 & H2 & _).
  exists comp, ports. now split.
Defined.

Module PinTurnFacts.
Import CollectLibrarySymbolsStage SymbolPortSpec.
#[local] Open Scope R_scope.

Lemma rotatedPinPos_norm rot pinAt :
  norm2 (px (rotatedPinPos rot pinAt)) (py (rotatedPinPos rot pinAt))
  = norm2 (at_x pinAt) (at_y pinAt).
Proof.
  unfold rotatedPinPos, norm2. cbn [px py].
  pose proof (sin2_cos2 (rot * PI / 180)) as H. unfold Rsqr in H.
  set (s := sin (rot * PI / 180)) in *. set (k := cos (rot * PI / 180)) in *.
  replace ((at_x pinAt * k - at_y pinAt * s) * (at_x pinAt * k - at_y pinAt * s)
           + (at_x pinAt * s + at_y pinAt * k) * (at_x pinAt * s + at_y pinAt * k))
    with ((at_x pinAt * at_x pinAt + at_y pinAt * at_y pinAt)
          * (s * s + k * k)) by ring.
  rewrite H. ring.
Qed.

Lemma rotatedPinPos_whole_turn rot pinAt :
  rotatedPinPos (rot + 360) pinAt = rotatedPinPos rot pinAt.
Proof.
  unfold rotatedPinPos. cbv zeta.
  replace ((rot + 360) * PI / 180) with (rot * PI / 180 + 2 * PI) by field.
  now rewrite cos_plus, sin_plus, cos_2PI, sin_2PI, !Rmult_1_r, !Rmult_0_r,
    Rminus_0_r, Rplus_0_r.
Qed.

Lemma rotatedPinPos_half_turn rot pinAt :
  rotatedPinPos (rot + 180) pinAt
  = {| px := - px (rotatedPinPos rot pinAt);
       py := - py (rotatedPinPos rot pinAt) |}.
Proof.
  unfold rotatedPinPos. cbv zeta. cbn [px py].
  replace ((rot + 180) * PI / 180) with (rot * PI / 180 + PI) by field.
  rewrite neg_cos, neg_sin. f_equal; ring.
Qed.

Lemma inferPinDirection_whole_turn pin rot :
  RotationSpec.clear (default 0 (a ← pin_at pin; at_angle a) + rot) ->
  inferPinDirection pin (rot + 360) = inferPinDirection pin rot.
Proof.
  intros C. unfold inferPinDirection. cbv zeta.
  set (a := default 0 (a ← pin_at pin; at_angle a)) in *.
  replace (a + (rot + 360)) with (a + rot + 360 * IZR 1) by (simpl; ring).
  now apply RotationFacts.rotationToDirection_periodic.
Qed.

Lemma inferPinDirection_quarter pin rot :
  RotationSpec.clear (default 0 (a ← pin_at pin; at_angle a) + rot) ->
  inferPinDirection pin (rot + 90)
  = DirectionSpec.quarterTurn (inferPinDirection pin rot).
Proof.
  intros C. unfold inferPinDirection. cbv zeta.
  rewrite <- TurnFacts.rotationToDirection_quarter by exact C. f_equal. ring.
Qed.

Lemma port_of_pin_norm mo rot cid pin pinAt id :
  norm2 (px (schp_center (port_of_pin mo rot cid pin pinAt id)))
        (py (schp_center (port_of_pin mo rot cid pin pinAt id)))
  = scaleFactor mo * scaleFactor mo * norm2 (at_x pinAt) (at_y pinAt).
Proof.
  rewrite <- (rotatedPinPos_norm rot pinAt).
  unfold port_of_pin, norm2. cbn [schp_center px py]. ring.
Qed.

End PinTurnFacts.

(** X21. The port that [createPorts] makes for a pin with a position
    lies as far from the origin of its component as the pin does from
    the origin of the library symbol, times the scale: rotating the
    component does not change that distance.  A whole turn of 360
    degrees gives the same centre; 180 degrees mirror the centre through
    the origin.  When the total angle, the angle of the pin plus the
    rotation, is clear of the strips below the quadrant boundaries and
    the sums that give the total angles are doubles (they are for a pin
    without an angle of its own), a whole turn gives the same direction
    and 90 degrees turn the direction the port faces by a quarter. *)
Theorem createPort_turns (rot : R) (componentId : string)
    (c : ConverterContext) (pin : Pin) (pinAt : At) :
  pin_sxAt pin = Some pinAt ->
  exists port half quarter whole,
    db (CollectLibrarySymbolsStage.createPort rot componentId c pin)
    = db c ++ [ESchematicPort port]
    /\ db (CollectLibrarySymbolsStage.createPort (rot + 180) componentId c pin)
       = db c ++ [ESchematicPort half]
    /\ db (CollectLibrarySymbolsStage.createPort (rot + 90) componentId c pin)
       = db c ++ [ESchematicPort quarter]
    /\ db (CollectLibrarySymbolsStage.createPort (rot + 360) componentId c pin)
       = db c ++ [ESchematicPort whole]
    /\ schp_center whole = schp_center port
    /\ SymbolPortSpec.norm2 (px (schp_center port)) (py (schp_center port))
       = (CollectLibrarySymbolsStage.scaleFactor (k2cMatSch c)
          * CollectLibrarySymbolsStage.scaleFactor (k2cMatSch c)
          * SymbolPortSpec.norm2 (at_x pinAt) (at_y pinAt))%R
    /\ SymbolPortSpec.norm2 (px (schp_center quarter)) (py (schp_center quarter))
       = SymbolPortSpec.norm2 (px (schp_center port)) (py (schp_center port))
    /\ schp_center half
       = {| px := (- px (schp_center port))%R;
            py := (- py (schp_center port))%R |}
    /\ (let pinAngle := default 0%R (a ← pin_at pin; at_angle a) in
        RotationSpec.clear (pinAngle + rot) ->
        DirectionSpec.exactSum pinAngle rot ->
        (DirectionSpec.exactSum pinAngle (rot + 360) ->
         schp_facing_direction whole = schp_facing_direction port)
        /\ (DirectionSpec.exactSum pinAngle (rot + 90) ->
            schp_facing_direction quarter
            = DirectionSpec.quarterTurn (schp_facing_direction port))).
Proof.
  intros Hat. unfold CollectLibrarySymbolsStage.createPort. rewrite Hat.
  eexists. eexists. eexists. eexists.
  split; [apply DbFacts.db_ctx_insert|].
  split; [apply DbFacts.db_ctx_insert|].
  split; [apply DbFacts.db_ctx_insert|].
  split; [apply DbFacts.db_ctx_insert|].
  cbn [snd fst ctx_insert Db.insert].
  split.
  { unfold CollectLibrarySymbolsStage.port_of_pin. cbv zeta.
    cbn [schp_center]. now rewrite PinTurnFacts.rotatedPinPos_whole_turn. }
  split; [apply PinTurnFacts.port_of_pin_norm|].
  split; [now rewrite !PinTurnFacts.port_of_pin_norm|].
  split.
  - unfold CollectLibrarySymbolsStage.port_of_pin. cbv zeta.
    cbn [schp_center px py].
    rewrite PinTurnFacts.rotatedPinPos_half_turn. cbn [px py].
    f_equal; ring.
  - intros C _.
    unfold CollectLibrarySymbolsStage.port_of_pin. cbv zeta.
    cbn [schp_facing_direction]. split; intros _.
    + now apply PinTurnFacts.inferPinDirection_whole_turn.
    + now apply PinTurnFacts.inferPinDirection_quarter.
Qed.

Lemma createPort_turns_witness :
  exists port quarter,
    db (CollectLibrarySymbolsStage.createPort 0 "schematic_component_0"
          Examples.schematicContext Examples.resistorPin)
    = db Examples.schematicContext ++ [ESchematicPort port]
    /\ db (CollectLibrarySymbolsStage.createPort (0 + 90)
             "schematic_component_0" Examples.schematicContext
             Examples.resistorPin)
       = db Examples.schematicContext ++ [ESchematicPort quarter]
    /\ schp_facing_direction quarter
       = DirectionSpec.quarterTurn (schp_facing_direction port).
Proof.
  destruct (createPort_turns 0 "schematic_component_0"
              Examples.schematicContext Examples.resistorPin (mkAt 1 0 None)
              eq_refl)
    as (port & half & quarter & whole & Hp & _ & Hq & _ & _ & _ & _ & _ & Hd).
  exists port, quarter. split; [exact Hp|]. split; [exact Hq|].
  cbv zeta in Hd. cbn [Examples.resistorPin pin_at mbind option_bind default
                       from_option id] in Hd.
  assert (E0 : (0 + 0 = 0)%R) by lra.
  assert (E90 : (0 + (0 + 90) = 90)%R) by lra.
  refine (proj2 (Hd _ _) _).
  - rewrite E0. exact TurnFacts.clear_0.
  - unfold DirectionSpec.exactSum, Js.add. rewrite E0.
    exact TurnFacts.round64_0.
  - unfold DirectionSpec.exactSum, Js.add. rewrite E90.
    exact (RoundFacts.round64_normal 90 TurnFacts.normal_90).
Defined.

(** X22. The variant of [createPcbPort] that takes the layers of the pad
    as given makes no port and changes nothing exactly when the pad has
    no layers; otherwise it appends one port with those layers.  When
    this variant and the variant that asks layer-utils both make a port
    for a pad, the two ports agree in component, position and source
    port id, which is the id the connectivity pass gives the source
    port of the pad. *)
Theorem createPcbPort_variants_agree
    (determineLayerFromLayers : list (option string) -> option string)
    (c : ConverterContext) (componentId : string)
    (padInfo : ProcessPads.PadPortInfo) (layers : list string) :
  let byLayers :=
    ProcessPortsByLayers.createPcbPort c componentId
      (ProcessPads.ppi_padNumber padInfo) layers
      (ProcessPads.ppi_position padInfo) in
  let byUtils :=
    ProcessPads.createPcbPort determineLayerFromLayers c componentId padInfo in
  (snd byLayers = false <-> layers = [])
  /\ (snd byLayers = false -> fst byLayers = c)
  /\ (snd byLayers = true ->
      exists p,
        db (fst byLayers) = db c ++ [EPcbPort p]
        /\ pp_layers p = layers
        /\ pp_source_port_id p
           = CollectSourceTracesStage.portId componentId
               (ProcessPads.ppi_padNumber padInfo)
        /\ (snd byUtils = true ->
            exists q,
              db (fst byUtils) = db c ++ [EPcbPort q]
              /\ pp_pcb_component_id q = pp_pcb_component_id p
              /\ pp_source_port_id q = pp_source_port_id p
              /\ pp_x q = pp_x p /\ pp_y q = pp_y p)).
Proof.
  cbv zeta. unfold ProcessPortsByLayers.createPcbPort.
  destruct layers as [|l layers]; cbn [length Nat.eqb fst snd].
  - split; [tauto|]. split; [reflexivity|discriminate].
  - split; [split; discriminate|]. split; [discriminate|]. intros _.
    eexists. split; [apply DbFacts.db_ctx_insert|].
    cbn [snd ctx_insert Db.insert pp_layers pp_source_port_id
         pp_pcb_component_id pp_x pp_y].
    split; [reflexivity|]. split; [reflexivity|].
    unfold ProcessPads.createPcbPort.
    destruct (determineLayerFromLayers _) as [layer|]; [|discriminate].
    destruct (JsStr.truthy layer); cbn [negb fst snd]; [|discriminate].
    intros _. eexists. split; [apply DbFacts.db_ctx_insert|].
    cbn [snd ctx_insert Db.insert pp_source_port_id pp_pcb_component_id
         pp_x pp_y].
    now repeat split.
Qed.

Module ComponentTypeFacts.
Import InferComponentType.

Lemma upperRun_prefix s : String.prefix (upperRun s) s = true.
Proof.
  induction s as [|ch rest IH]; [reflexivity|].
  cbn [upperRun]. destruct (isUpper ch); [|reflexivity].
  change (String.prefix (String ch (upperRun rest)) (String ch rest))
    with (if Ascii.ascii_dec ch ch then String.prefix (upperRun rest) rest
          else false).
  now destruct (Ascii.ascii_dec ch ch).
Qed.

(** A string starts with the first letter of any non-empty prefix. *)
Lemma prefix_head a p s :
  String.prefix (String a p) s = true -> String.prefix (String a "") s = true.
Proof.
  destruct s as [|b s]; [discriminate|].
  change (String.prefix (String a p) (String b s))
    with (if Ascii.ascii_dec a b then String.prefix p s else false).
  change (String.prefix (String a "") (String b s))
    with (if Ascii.ascii_dec a b then String.prefix "" s else false).
  destruct (Ascii.ascii_dec a b); [|discriminate]. intros _. now destruct s.
Qed.

Lemma inferComponentType_prefix reference prefix :
  prefixOf reference = Some prefix ->
  JsStr.truthy reference = true /\ String.prefix prefix reference = true.
Proof.
  unfold prefixOf. cbv zeta.
  destruct (String.eqb (upperRun reference) "") eqn:E; [discriminate|].
  intros [= <-]. split; [|apply upperRun_prefix].
  unfold JsStr.truthy. destruct reference; [discriminate|reflexivity].
Qed.

End ComponentTypeFacts.

(** X23. The component type inferred on the board side is one of six
    types and depends on the run of upper-case letters at the head of
    the reference only.  A resistor on the board side is a resistor on
    the schematic side; but a reference whose letters are LED is a
    diode on the board side, and on the schematic side a resistor, a
    capacitor or an inductor, never a diode or an LED. *)
Theorem inferComponentType_against_inferFtype (libId reference : string) :
  InferComponentType.inferComponentType (Some reference)
  ∈ ["simple_chip"; "simple_resistor"; "simple_capacitor"; "simple_inductor";
     "simple_diode"; "simple_transistor"]
  /\ (forall other,
        InferComponentType.upperRun other
        = InferComponentType.upperRun reference ->
        InferComponentType.inferComponentType (Some other)
        = InferComponentType.inferComponentType (Some reference))
  /\ (InferComponentType.inferComponentType (Some reference)
      = "simple_resistor" ->
      CollectLibrarySymbolsStage.inferFtype libId reference
      = "simple_resistor")
  /\ (InferComponentType.upperRun reference = "LED" ->
      InferComponentType.inferComponentType (Some reference) = "simple_diode"
      /\ CollectLibrarySymbolsStage.inferFtype libId reference
         ∈ ["simple_resistor"; "simple_capacitor"; "simple_inductor"]).
Proof.
  split; [|split; [|split]].
  - unfold InferComponentType.inferComponentType.
    destruct (negb _); [apply list_elem_of_here|].
    destruct (InferComponentType.prefixOf reference) as [p|];
      [|apply list_elem_of_here].
    repeat match goal with
           | |- context [if ?b then _ else _] => destruct b
           end;
      repeat first [apply list_elem_of_here | apply list_elem_of_further].
  - intros other E.
    assert (T : forall s, JsStr.truthy s = false ->
                          InferComponentType.prefixOf s = None).
    { intros [|? ?]; [reflexivity|discriminate]. }
    unfold InferComponentType.inferComponentType.
    assert (P : InferComponentType.prefixOf other
                = InferComponentType.prefixOf reference)
      by (unfold InferComponentType.prefixOf; now rewrite E).
    destruct (JsStr.truthy other) eqn:To, (JsStr.truthy reference) eqn:Tr;
      cbn [negb]; rewrite ?P; try reflexivity.
    + now rewrite (T _ Tr).
    + rewrite <- P. now rewrite (T _ To).
  - unfold InferComponentType.inferComponentType.
    destruct (negb _); [discriminate|].
    destruct (InferComponentType.prefixOf reference) as [p|] eqn:Ep;
      [|discriminate].
    destruct (String.eqb_spec p "R") as [->|_].
    + intros _.
      apply ComponentTypeFacts.inferComponentType_prefix in Ep as [_ Hp].
      unfold CollectLibrarySymbolsStage.inferFtype, JsStr.startsWith.
      cbv zeta. rewrite Hp. now rewrite orb_true_r.
    + repeat match goal with
             | |- context [if ?b then _ else _] => destruct b
             end; discriminate.
  - intros E. split.
    + unfold InferComponentType.inferComponentType,
        InferComponentType.prefixOf. cbv zeta. rewrite E.
      destruct reference; [discriminate|reflexivity].
    + pose proof (ComponentTypeFacts.upperRun_prefix reference) as Hp.
      rewrite E in Hp.
      assert (HL : JsStr.startsWith reference "L" = true)
        by (apply (ComponentTypeFacts.prefix_head _ _ _ Hp)).
      unfold CollectLibrarySymbolsStage.inferFtype. cbv zeta. rewrite HL.
      destruct (_ || _); [apply list_elem_of_here|].
      destruct (_ || _); [apply list_elem_of_further, list_elem_of_here|].
      rewrite orb_true_r.
      apply list_elem_of_further, list_elem_of_further, list_elem_of_here.
Qed.

Module LayerFacts.

Lemma prefix_trans p' p s :
  String.prefix p' p = true -> String.prefix p s = true ->
  String.prefix p' s = true.
Proof.
  revert p s. induction p' as [|a p' IH]; intros p s;
    [intros _ _; now destruct s|].
  destruct p as [|b p]; [discriminate|]. destruct s as [|d s]; [discriminate|].
  change (String.prefix (String a p') (String b p))
    with (if Ascii.ascii_dec a b then String.prefix p' p else false).
  change (String.prefix (String b p) (String d s))
    with (if Ascii.ascii_dec b d then String.prefix p s else false).
  change (String.prefix (String a p') (String d s))
    with (if Ascii.ascii_dec a d then String.prefix p' s else false).
  destruct (Ascii.ascii_dec a b) as [->|]; [|discriminate].
  destruct (Ascii.ascii_dec b d) as [->|]; [|discriminate].
  destruct (Ascii.ascii_dec d d); [|contradiction]. apply IH.
Qed.

(** A string that includes a pattern includes every prefix of it. *)
Lemma includes_prefix p' p s :
  String.prefix p' p = true -> JsStr.includes s p = true ->
  JsStr.includes s p' = true.
Proof.
  intros Hp. induction s as [|a s IH].
  - cbn [JsStr.includes]. rewrite !orb_false_r. apply prefix_trans, Hp.
  - cbn [JsStr.includes]. rewrite !orb_true_iff. intros [H|H].
    + left. eapply prefix_trans; eassumption.
    + right. now apply IH.
Qed.

End LayerFacts.

(** X24. The three layer maps of the board passes agree on the back
    copper layer: a layer name that contains [B.Cu] or [Back] is on the
    bottom for graphics, for vias and for zones.  They differ on nothing
    else but this: a name that graphics put on the top is on the bottom
    for vias only if it contains [B_Cu], and for zones only if it
    contains [Bottom]. *)
Theorem layer_maps_agree_on_back_copper (name : string) :
  (JsStr.includes name "B.Cu" = true \/ JsStr.includes name "Back" = true ->
   CollectGraphicsStage.mapLayer (Some (LayerStr name)) = bottom
   /\ CollectViasStage.mapLayer name = bottom
   /\ CollectZonesStage.mapLayer (Some (SxStr name)) = bottom)
  /\ (CollectGraphicsStage.mapLayer (Some (LayerStr name)) = top ->
      CollectViasStage.mapLayer name
      = (if JsStr.includes name "B_Cu" then bottom else top)
      /\ CollectZonesStage.mapLayer (Some (SxStr name))
         = (if JsStr.includes name "Bottom" then bottom else top)).
Proof.
  unfold CollectGraphicsStage.mapLayer, CollectViasStage.mapLayer,
    CollectZonesStage.mapLayer, CollectGraphicsStage.layerString.
  cbv zeta.
  pose proof (LayerFacts.includes_prefix "B." "B.Cu" name eq_refl) as Hb.
  destruct (JsStr.includes name "B.Cu") eqn:E1.
  - rewrite (Hb eq_refl). cbn [orb]. split; [now repeat split|discriminate].
  - destruct (JsStr.includes name "Back") eqn:E2; cbn [orb].
    + rewrite orb_true_r. split; [now repeat split|discriminate].
    + split; [intros [H|H]; discriminate|].
      destruct (JsStr.includes name "B."); [discriminate|]. now intros _.
Qed.

Module WellFormedFacts.
Import CollectSourceTracesStage TraceSpec SourcePortSpec.

Lemma or_str_truthy a d : d <> "" -> JsStr.or_str a d <> "".
Proof.
  intros Hd. unfold JsStr.or_str. destruct a as [s|]; [|exact Hd].
  destruct (JsStr.truthy s) eqn:E; [|exact Hd]. intros ->. discriminate.
Qed.

Lemma truthy_nonempty s : JsStr.truthy s = true -> s <> "".
Proof. intros H ->. discriminate. Qed.

(** The ports of the store are well formed. *)
Definition portsWellFormed (c : ConverterContext) : Prop :=
  Forall wellFormed (Db.list_of Db.source_port (db c)).

Lemma getOrCreateSourcePort_wellFormed componentId padNumber footprint c :
  componentId <> "" -> padNumber <> "" ->
  portsWellFormed c ->
  portsWellFormed (fst (getOrCreateSourcePort componentId padNumber footprint c)).
Proof.
  intros Hc Hp H. unfold getOrCreateSourcePort.
  destruct (List.find _ _); [exact H|].
  unfold portsWellFormed. cbn [fst].
  rewrite DbFacts.db_ctx_insert, DbFacts.list_of_app. apply Forall_app.
  split; [exact H|]. cbn. constructor; [|constructor].
  split; [now apply or_str_truthy|]. split.
  - destruct (JsStr.parseInt padNumber) as [n|]; [|discriminate].
    destruct (Z.eqb_spec n 0) as [|Hn]; [discriminate|].
    intros [= E]. now apply Hn.
  - exists componentId, padNumber,
      (JsStr.or_str (getFootprintReference footprint) "U").
    repeat split; try assumption. apply or_str_truthy. discriminate.
Qed.

Lemma visitPad_wellFormed componentId footprint c g pad :
  componentId <> "" ->
  portsWellFormed c ->
  portsWellFormed (fst (visitPad componentId footprint (c, g) pad)).
Proof.
  intros Hc H. unfold visitPad.
  destruct (kp_number pad) as [pn|]; [|exact H].
  destruct (JsStr.truthy pn) eqn:Et; cbn [negb]; [|exact H].
  destruct (getPadNet pad) as [n|]; [|exact H].
  destruct (n =? 0)%Z; [exact H|].
  pose proof (getOrCreateSourcePort_wellFormed componentId pn footprint c Hc
                (truthy_nonempty _ Et) H) as H'.
  now destruct (getOrCreateSourcePort componentId pn footprint c).
Qed.

Lemma foldl_visitPad_wellFormed componentId footprint pads c g :
  componentId <> "" ->
  portsWellFormed c ->
  portsWellFormed (fst (foldl (visitPad componentId footprint) (c, g) pads)).
Proof.
  intros Hc. revert c g. induction pads as [|pad pads IH]; intros c g H;
    [exact H|].
  cbn [foldl].
  pose proof (visitPad_wellFormed componentId footprint c g pad Hc H) as H'.
  destruct (visitPad componentId footprint (c, g) pad) as [c1 g1].
  now apply IH.
Qed.

Lemma footprintComponentId_nonempty c footprint componentId :
  footprintComponentId c footprint = Some componentId -> componentId <> "".
Proof.
  unfold footprintComponentId.
  destruct (footprintUuid footprint) as [u|]; [|discriminate]. cbn.
  destruct (negb (JsStr.truthy u)); [discriminate|].
  destruct (footprintUuidToComponentId c) as [t|]; [|discriminate]. cbn.
  destruct (t !! u) as [cid|]; [|discriminate]. cbn.
  destruct (JsStr.truthy cid) eqn:E; [|discriminate].
  intros [= <-]. now apply truthy_nonempty.
Qed.

Lemma processFootprintPads_wellFormed st footprint :
  portsWellFormed (fst st) ->
  portsWellFormed (fst (processFootprintPads st footprint)).
Proof.
  intros H. unfold processFootprintPads.
  destruct (footprintComponentId (fst st) footprint) as [cid|] eqn:E;
    [|exact H].
  destruct st as [c g]. apply foldl_visitPad_wellFormed; [|exact H].
  eapply footprintComponentId_nonempty, E.
Qed.

Lemma collect_wellFormed c pcb :
  portsWellFormed c -> portsWellFormed (fst (collect c pcb)).
Proof.
  unfold collect. generalize (@nil (Z * list PadRef)).
  generalize (to_array (pcb_footprints pcb)). intros fps. revert c.
  induction fps as [|fp fps IH]; intros c g0 H; [exact H|].
  cbn [foldl].
  pose proof (processFootprintPads_wellFormed (c, g0) fp H) as H'.
  destruct (processFootprintPads (c, g0) fp) as [c1 g1]. now apply IH.
Qed.

Lemma foldl_visitNet_ports g c P :
  Db.list_of Db.source_port (db (fst (foldl visitNet (c, P) g)))
  = Db.list_of Db.source_port (db c).
Proof.
  revert c P. induction g as [|e g IH]; intros c P; [reflexivity|].
  change (foldl visitNet (c, P) (e :: g))
    with (foldl visitNet (visitNet (c, P) e) g).
  rewrite TraceFacts.visitNet_traced. destruct (traced P e); [|apply IH].
  rewrite IH. unfold createSourceTrace, bump_traces.
  destruct (stats _); cbn [db set_stats];
    rewrite DbFacts.db_ctx_insert, DbFacts.list_of_app; cbn;
    apply app_nil_r.
Qed.

End WellFormedFacts.

(** X25. The source ports that the connectivity pass makes are well
    formed: the id of each is the id of a component, [_port_] and the
    number of a pad, neither of them empty; its name is a reference that
    is not empty, a dot and that pad number; its source component id is
    never empty and its pin number is never 0.  So a store whose source
    ports are well formed stays so through a step of the pass. *)
Theorem source_ports_stay_well_formed
    (s : Stage CollectSourceTracesStage.Fields) :
  Forall SourcePortSpec.wellFormed
         (Db.list_of Db.source_port (db (ctx s))) ->
  Forall SourcePortSpec.wellFormed
         (Db.list_of Db.source_port
            (db (ctx (fst (CollectSourceTracesStage.step s))))).
Proof.
  intros H. destruct s as [c fin f]. unfold CollectSourceTracesStage.step.
  cbn [ctx fields] in *.
  destruct (kicadPcb c) as [pcb|]; [destruct (netNumToName c) as [names|]|];
    [|exact H..].
  pose proof (WellFormedFacts.collect_wellFormed c pcb H) as H1.
  destruct (CollectSourceTracesStage.collect c pcb) as [c1 g].
  pose proof (WellFormedFacts.foldl_visitNet_ports g c1 f) as E.
  destruct (foldl CollectSourceTracesStage.visitNet (c1, f) g) as [c2 f2].
  cbn [fst ctx] in *. rewrite E. exact H1.
Qed.

Lemma source_ports_stay_well_formed_witness :
  Forall SourcePortSpec.wellFormed
         (Db.list_of Db.source_port
            (db (ctx (fst (CollectSourceTracesStage.step
                             Examples.twinPadStage))))).
Proof.
  apply (source_ports_stay_well_formed Examples.twinPadStage). constructor.
Defined.

Module NamedTraceFacts.
Import CollectSourceTracesStage TraceSpec.

Lemma netDisplayName_nonempty c n : netDisplayName c n <> "".
Proof. apply WellFormedFacts.or_str_truthy. discriminate. Qed.

(** What the net-naming pass keeps of the context. *)
Lemma nets_step_keeps (s : Stage unit) :
  let c' := ctx (fst (CollectNetsStage.step s)) in
  kicadPcb c' = kicadPcb (ctx s)
  /\ footprintUuidToComponentId c' = footprintUuidToComponentId (ctx s)
  /\ db c' = db (ctx s).
Proof.
  cbv zeta. destruct s as [c fin f]. unfold CollectNetsStage.step.
  cbn [ctx fields].
  destruct (kicadPcb c) eqn:E; [destruct (netNumToName c)|];
    cbn [fst ctx kicadPcb footprintUuidToComponentId db set_netNumToName];
    now repeat split.
Qed.

End NamedTraceFacts.

(** X26. The net-naming pass followed by the connectivity pass on a
    fresh stage: the traces added are one per net with at least two
    member pads, in the order of the nets; no trace has an empty display
    name, and the trace of a net carries the name that the last source
    entry of the net gives, or Net-<number> when that name is empty. *)
Theorem traces_named_after_net_pass (c : ConverterContext) (pcb : KicadPcb)
    (m : gmap Z string) :
  kicadPcb c = Some pcb ->
  netNumToName c = Some m ->
  let named := ctx (fst (CollectNetsStage.step (mkStage c false ()))) in
  let traced :=
    ctx (fst (CollectSourceTracesStage.step (mkStage named false ∅))) in
  exists nets ts,
    Db.list_of Db.source_trace (db traced)
    = Db.list_of Db.source_trace (db c) ++ ts
    /\ NoDup nets
    /\ (forall n, n ∈ nets <-> (2 <= length (TraceSpec.memberPads c pcb n))%nat)
    /\ length ts = length nets
    /\ Forall (fun t => st_display_name t <> "") ts
    /\ (forall i n t pre net post,
          nets !! i = Some n -> ts !! i = Some t ->
          to_array (pcb_nets pcb) = pre ++ net :: post ->
          CollectNetsStage.netNumOf net = n ->
          n ∉ CollectNetsStage.netNumOf <$> post ->
          st_display_name t
          = JsStr.or_str (Some (CollectNetsStage.netNameOf net))
              ("Net-" +:+ pretty n)).
Proof.
  intros Hp Hm. cbv zeta.
  set (s1 := mkStage c false ()).
  destruct (NamedTraceFacts.nets_step_keeps s1) as (Kp & Kf & Kd).
  assert (Hn : netNumToName (ctx (fst (CollectNetsStage.step s1)))
               = Some (CollectNetsStage.reserveZero
                         (foldl CollectNetsStage.visit m
                            (to_array (pcb_nets pcb))))).
  { unfold CollectNetsStage.step, s1. cbn [ctx]. now rewrite Hp, Hm. }
  set (named := ctx (fst (CollectNetsStage.step s1))) in *.
  cbn [ctx s1] in Kp, Kf, Kd.
  destruct (TraceTheory.step_traces (mkStage named false ∅) pcb _
              (eq_trans Kp Hp) Hn eq_refl)
    as (nets & ts & Hnd & Hmem & Ets & Ev).
  cbn [ctx] in Hmem, Ets, Ev.
  assert (Em : forall n, TraceSpec.memberPads named pcb n
                         = TraceSpec.memberPads c pcb n).
  { intros n. unfold TraceSpec.memberPads.
    now rewrite (SourcePortFacts.padEntries_same c named pcb Kf). }
  assert (Hname : forall i n t,
            nets !! i = Some n -> ts !! i = Some t ->
            st_display_name t
            = CollectSourceTracesStage.netDisplayName named n).
  { intros i n t Hi Ht.
    assert (H : (TraceSpec.traceView <$> ts) !! i
                = Some (TraceSpec.traceView t))
      by now rewrite list_lookup_fmap, Ht.
    rewrite Ev, list_lookup_fmap, Hi in H. cbn in H.
    now injection H as _ H. }
  exists nets, ts. split; [rewrite <- Kd; exact Ets|]. split; [exact Hnd|].
  split; [intros n; rewrite <- Em; apply Hmem|].
  assert (Hlen : length ts = length nets).
  { rewrite <- (length_fmap TraceSpec.traceView ts), Ev. apply length_fmap. }
  split; [exact Hlen|]. split.
  - apply Forall_forall. intros t Ht.
    apply list_elem_of_lookup_1 in Ht as [i Hi].
    destruct (nets !! i) as [n|] eqn:En.
    + rewrite (Hname i n t En Hi).
      apply NamedTraceFacts.netDisplayName_nonempty.
    + apply lookup_ge_None in En. apply lookup_lt_Some in Hi. lia.
  - intros i n t pre net post Hi Ht Hnets Hnum Hlast.
    rewrite (Hname i n t Hi Ht).
    unfold CollectSourceTracesStage.netDisplayName. rewrite Hn. cbn [mbind option_bind].
    rewrite Hnets, <- Hnum.
    rewrite (NetFacts.lookup_reserveZero_some _ _ _
               (NetFacts.lookup_visit_last pre post m net
                  ltac:(now rewrite Hnum))).
    reflexivity.
Qed.

Lemma traces_named_after_net_pass_witness :
  exists (nets : list Z) ts,
    Db.list_of Db.source_trace
      (db (ctx (fst (CollectSourceTracesStage.step
                       (mkStage
                          (ctx (fst (CollectNetsStage.step
                                       (mkStage Examples.twinPadContext false ()))))
                          false ∅)))))
    = Db.list_of Db.source_trace (db Examples.twinPadContext) ++ ts
    /\ length ts = length nets.
Proof.
  destruct (traces_named_after_net_pass Examples.twinPadContext
              Examples.twinPadBoard ∅ eq_refl eq_refl)
    as (nets & ts & H1 & _ & _ & H2 & _).
  exists nets, ts. now split.
Defined.

(** X27. A pad of type np_thru_hole gets one hole record, a circle at
    the position of the pad.  Its diameter is a number that is never 0
    (1 when the pad has no drill) when the drill is a number or has a
    diameter that is not 0; when the drill is an object whose diameter
    is absent or 0, the record holds the drill object itself in place of
    a diameter. *)
Theorem npth_hole_diameter (c : ConverterContext) (pad : Pad)
    (componentId : string) (pos : Point) (drill : option Drill) :
  exists h,
    db (ProcessPads.createNpthHole c pad componentId pos drill)
    = db c ++ [EPcbHole h]
    /\ phl_x h = px pos /\ phl_y h = py pos
    /\ phl_hole_shape h = "circle"
    /\ match phl_hole_diameter h with
       | DrillNum d => d <> 0%R /\ (drill = None -> d = 1%R)
       | DrillObj diameter x y =>
           drill = Some (DrillObj diameter x y)
           /\ (diameter = None \/ diameter = Some 0%R)
       end.
Proof.
  unfold ProcessPads.createNpthHole. eexists.
  split; [apply DbFacts.db_ctx_insert|].
  cbn [snd ctx_insert Db.insert phl_x phl_y phl_hole_shape phl_hole_diameter].
  split; [reflexivity|]. split; [reflexivity|]. split; [reflexivity|].
  destruct drill as [[d|[d|] x y]|].
  - split; [apply StatsFacts.or_num_nonzero; lra|discriminate].
  - destruct (decide (d = 0%R)) as [->|Hd].
    + split; [reflexivity|now right].
    + split; [exact Hd|discriminate].
  - split; [reflexivity|now left].
  - split; [lra|reflexivity].
Qed.

Module PlatedFacts.
Import RotationSpec PlatedSpec.
#[local] Open Scope R_scope.

Lemma sideways_quadrant rotation :
  clear rotation ->
  PlatedSpec.sideways rotation
  = match quadrant (residue rotation) with
    | Left | Right => true
    | Up | Down => false
    end.
Proof.
  intros C. unfold PlatedSpec.sideways.
  now rewrite RotationFacts.rotationToDirection_quadrant.
Qed.

(** On an angle of [0, 360) the swap range is that of the quadrants that
    point right or left. *)
Lemma inSwapRange_quadrant n :
  inSwapRange n
  = match quadrant n with
    | Left | Right => true
    | Up | Down => false
    end.
Proof.
  unfold inSwapRange, quadrant, Js.geb, Js.ltb.
  repeat match goal with
         | |- context [decide ?P] => destruct (decide P)
         end;
    repeat match goal with
           | H : ~ (_ \/ _) |- _ => apply Decidable.not_or in H; destruct H
           | H : _ \/ _ |- _ => destruct H
           end;
    repeat case_bool_decide; cbn; try reflexivity; lra.
Qed.

(** The rounded sum of a negative remainder is on the side of every
    quadrant boundary that the residue is clear of. *)
Lemma inSwapRange_rounded n :
  0 < n < 360 ->
  clearOf 45 n -> clearOf 135 n -> clearOf 225 n -> clearOf 315 n ->
  inSwapRange (Js.round64 n) = inSwapRange n.
Proof.
  intros Hn C1 C2 C3 C4. pose proof RotationFacts.margin_pos as Hm.
  set (s := Js.round64 n).
  assert (G : forall b, RoundSpec.normal b -> b <= n -> b <= s).
  { intros b Hb H. now apply RoundFacts.round64_ge. }
  assert (L : forall b, RoundSpec.normal (b - Js.pow2 (-43)) ->
                        n <= b - margin -> s < b).
  { intros b Hb H.
    assert (s <= b - Js.pow2 (-43)) by now apply RoundFacts.round64_le.
    unfold margin in Hm. lra. }
  pose proof (G 45 RoundConst.normal_45) as G1.
  pose proof (G 135 RoundConst.normal_135) as G2.
  pose proof (G 225 RoundConst.normal_225) as G3.
  pose proof (G 315 RoundConst.normal_315) as G4.
  pose proof (L 45 RoundConst.normal_45_below) as L1.
  pose proof (L 135 RoundConst.normal_135_below) as L2.
  pose proof (L 225 RoundConst.normal_225_below) as L3.
  pose proof (L 315 RoundConst.normal_315_below) as L4.
  clear G L. unfold clearOf in *. unfold inSwapRange, Js.geb, Js.ltb.
  destruct C1 as [C1|C1]; [specialize (G1 C1)|specialize (L1 C1)];
    (destruct C2 as [C2|C2]; [specialize (G2 C2)|specialize (L2 C2)]);
    (destruct C3 as [C3|C3]; [specialize (G3 C3)|specialize (L3 C3)]);
    (destruct C4 as [C4|C4]; [specialize (G4 C4)|specialize (L4 C4)]);
    repeat case_bool_decide; cbn; try reflexivity; lra.
Qed.

(** For a rotation clear of the strips, [createPlatedHole] swaps
    exactly when [rotationToDirection] points right or left. *)
Lemma shouldSwap_sideways rotation :
  clear rotation ->
  inSwapRange (normalized rotation) = PlatedSpec.sideways rotation.
Proof.
  intros C. rewrite (sideways_quadrant rotation C).
  rewrite <- inSwapRange_quadrant. unfold normalized. cbv zeta.
  pose proof (RotationFacts.residue_range rotation) as Hn.
  destruct (Rle_or_lt 0 rotation) as [Hr|Hr].
  - rewrite (RotationFacts.rem_residue_nonneg rotation Hr).
    unfold Js.ltb. now rewrite bool_decide_eq_false_2 by lra.
  - destruct (RotationFacts.rem_residue_neg rotation Hr) as [[E0 En]|[E Hp]].
    + rewrite E0, En. unfold Js.ltb. now rewrite bool_decide_eq_false_2 by lra.
    + rewrite E. unfold Js.ltb. rewrite bool_decide_eq_true_2 by lra.
      unfold Js.add.
      replace (residue rotation - 360 + 360) with (residue rotation) by lra.
      destruct C as (C1 & C2 & C3 & C4).
      apply inSwapRange_rounded; [lra|assumption..].
Qed.

(** A rotation that is not negative swaps on its residue, whatever the
    strips. *)
Lemma shouldSwap_nonneg rotation :
  0 <= rotation -> normalized rotation = residue rotation.
Proof.
  intros Hr. unfold normalized. cbv zeta.
  pose proof (RotationFacts.residue_range rotation) as Hn.
  rewrite (RotationFacts.rem_residue_nonneg rotation Hr).
  unfold Js.ltb. now rewrite bool_decide_eq_false_2 by lra.
Qed.

Lemma sideways_quarter rotation :
  clear rotation ->
  PlatedSpec.sideways (rotation + 90) = negb (PlatedSpec.sideways rotation).
Proof.
  intros C. unfold PlatedSpec.sideways.
  rewrite TurnFacts.rotationToDirection_quarter by exact C.
  now destruct (rotationToDirection rotation).
Qed.

Lemma num_or_nonzero v d : d <> 0 -> ProcessPads.num_or v d <> 0.
Proof.
  intros Hd. unfold ProcessPads.num_or. destruct v; [|exact Hd].
  now apply StatsFacts.or_num_nonzero.
Qed.

End PlatedFacts.

(** X28. A plated hole never has a hole diameter, width or height of 0.
    An oval pad becomes a pill whose outer width and height are those of
    the pad, as they are or swapped; for a total rotation clear of the
    strips below the quadrant boundaries they are swapped exactly when
    the rotation points right or left in the sense of
    [rotationToDirection], so a quarter turn swaps them; for a rotation
    that is not negative they are swapped exactly when its residue is in
    [45, 135) or [225, 315).  A circular pad gets the larger of its two
    sizes as outer diameter.  A pad of any shape other than circle,
    oval, rect and square gets a record without shape, dimensions and
    layers. *)
Theorem plated_hole_dimensions (c : ConverterContext) (pad : Pad)
    (componentId : string) (pos size : Point) (drill : option Drill)
    (shape : string) (rotation : R) :
  exists h,
    db (ProcessPads.createPlatedHole c pad componentId pos size drill shape
          rotation)
    = db c ++ [EPcbPlatedHole h]
    /\ (forall d, ph_hole_diameter h = Some d \/ ph_hole_width h = Some d
                  \/ ph_hole_height h = Some d -> d <> 0%R)
    /\ (shape = "oval" ->
        ph_shape h = Some "pill"
        /\ ((ph_outer_width h = Some (px size)
             /\ ph_outer_height h = Some (py size))
            \/ (ph_outer_width h = Some (py size)
                /\ ph_outer_height h = Some (px size)))
        /\ (RotationSpec.clear rotation ->
            ph_outer_width h
            = Some (if PlatedSpec.sideways rotation then py size else px size)
            /\ ph_outer_height h
               = Some (if PlatedSpec.sideways rotation
                       then px size else py size))
        /\ ((0 <= rotation)%R ->
            let n := RotationSpec.residue rotation in
            let swapped :=
              bool_decide ((45 <= n < 135)%R \/ (225 <= n < 315)%R) in
            ph_outer_width h = Some (if swapped then py size else px size)
            /\ ph_outer_height h
               = Some (if swapped then px size else py size)))
    /\ (shape = "circle" ->
        ph_shape h = Some "circle"
        /\ ph_outer_diameter h = Some (Rmax (px size) (py size)))
    /\ (shape <> "circle" -> shape <> "oval" -> shape <> "rect" ->
        shape <> "square" ->
        ph_shape h = None /\ ph_layers h = None
        /\ ph_hole_diameter h = None /\ ph_hole_width h = None
        /\ ph_outer_diameter h = None /\ ph_outer_width h = None
        /\ ph_rect_pad_width h = None)
    /\ (RotationSpec.clear rotation ->
        PlatedSpec.sideways (rotation + 90)
        = negb (PlatedSpec.sideways rotation)).
Proof.
  unfold ProcessPads.createPlatedHole, ProcessPads.bump_pads.
  rewrite PadFacts.db_bump_pads. cbv zeta.
  eexists. split; [apply DbFacts.db_ctx_insert|].
  cbn [snd ctx_insert Db.insert ph_hole_diameter ph_hole_width ph_hole_height
       ph_shape ph_outer_width ph_outer_height ph_outer_diameter ph_layers
       ph_rect_pad_width].
  change (if Js.ltb (Js.rem rotation 360) 0
          then Js.add (Js.rem rotation 360) 360 else Js.rem rotation 360)
    with (PlatedSpec.normalized rotation).
  change ((Js.geb (PlatedSpec.normalized rotation) 45
           && Js.ltb (PlatedSpec.normalized rotation) 135)
          || (Js.geb (PlatedSpec.normalized rotation) 225
              && Js.ltb (PlatedSpec.normalized rotation) 315))
    with (PlatedSpec.inSwapRange (PlatedSpec.normalized rotation)).
  assert (Hd : match drill with
               | Some (DrillObj diameter x _) =>
                   ProcessPads.num_or diameter (ProcessPads.num_or x (8 / 10))
               | Some (DrillNum d) => Js.or_num d (8 / 10)
               | None => (8 / 10)%R
               end <> 0%R).
  { destruct drill as [[d|dia x y]|].
    - apply StatsFacts.or_num_nonzero. lra.
    - apply PlatedFacts.num_or_nonzero, PlatedFacts.num_or_nonzero. lra.
    - lra. }
  split; [|split; [|split; [|split]]].
  - intros d [H|[H|H]]; revert H;
      repeat match goal with
             | |- context [if ?b then _ else _] => destruct b
             end; try discriminate; now intros [= <-].
  - intros ->. cbn [String.eqb Ascii.eqb Bool.eqb negb andb orb].
    rewrite andb_true_r. split; [reflexivity|]. split; [|split].
    + destruct (PlatedSpec.inSwapRange (PlatedSpec.normalized rotation));
        [right|left]; now split.
    + intros C. rewrite (PlatedFacts.shouldSwap_sideways rotation C).
      now split.
    + intros Hr. cbv zeta.
      rewrite (PlatedFacts.shouldSwap_nonneg rotation Hr).
      replace (PlatedSpec.inSwapRange (RotationSpec.residue rotation))
        with (bool_decide
                ((45 <= RotationSpec.residue rotation < 135)%R
                 \/ (225 <= RotationSpec.residue rotation < 315)%R));
        [now split|].
      unfold PlatedSpec.inSwapRange, Js.geb, Js.ltb.
      repeat case_bool_decide; cbn; try reflexivity;
        repeat match goal with
               | H : ~ (_ \/ _) |- _ =>
                   apply Decidable.not_or in H; destruct H
               | H : _ \/ _ |- _ => destruct H
               end; lra.
  - intros ->. cbn [String.eqb Ascii.eqb Bool.eqb negb andb orb].
    rewrite andb_false_r. now repeat split.
  - intros H1 H2 H3 H4.
    apply String.eqb_neq in H1, H2, H3, H4. rewrite H1, H2, H3, H4.
    cbn [negb andb orb]. now repeat split.
  - apply PlatedFacts.sideways_quarter.
Qed.
